(** * yoke-cli: the DAG scheduling and execution engine

    A shallow embedding of the workflow runtime of yoke-cli (TypeScript):
    the node executors ([runExec], [runTask], [runMap], [runReduce]), the
    cache store and run store, the LangGraph router of
    [buildGraphFromWorkflow], the orchestrator [WorkflowRuntime.run] with
    its resume branch, and the earlier hand-written scheduler loop.

    Conventions of the embedding.
    - A JS object used as a dictionary ([Record<string, T>]) is a
      [gmap string T]; an optional field is an [option].
    - [unknown] values are [JSON] values.
    - Asynchronous, effectful code is written in the monad [M]: explicit
      passing of a [World] (cache directory, run store, checkpoints, clock,
      effect trace) with three outcomes: a value, a thrown error, or a
      promise that never settles.
    - What the operating system, the file system and the agents do is not
      part of the repository; SHA-256 ([hashInputs]) and Handlebars (the
      template engine, whose rendering may throw) are libraries.  They are
      the fields of an [Env] record over which every definition is
      parameterised.
    - LangGraph is a library too.  Its loop of supersteps, its recursion
      limit and its checkpointer are written out in [graph_loop] and
      [graph_invoke]; the names its [addNode] refuses and the messages of
      its errors are fields of [Env].
    - The items of a fan-out run interleaved.  An [Async] is an async
      function suspended at an [await]; which of the suspended items is
      resumed next is the choice of the environment ([pick]).
    - A string is the UTF-8 encoding of the JavaScript string.
    - [ctx.log] writes to the console only; logging is left out. *)

From stdpp Require Import gmap strings list fin_maps pretty.
From Stdlib Require Import ZArith Ascii.

Open Scope string_scope.
Open Scope Z_scope.

#[local] Set Warnings "-clear-no-such-hyp".

(** ** Data model (src/runtime/graph/state.ts, src/schema/types.ts) *)

(** The values of [unknown] type: what [JSON.parse] can give and what is
    serialized into [run.json] and the cache.  A number is an integer
    ([JNum], as an exit code is) or, when it is not one, the decimal
    [m * 10 ^ e] ([JFrac]). *)
Unset Elimination Schemes.
Inductive JSON : Type :=
| JNull
| JBool (b : bool)
| JNum (n : Z)
| JFrac (m e : Z)
| JStr (s : string)
| JArr (xs : list JSON)
| JObj (fields : list (string * JSON)).
Set Elimination Schemes.

Inductive NodeStatus : Type :=
| PENDING | RUNNING | CACHED | SUCCESS | FAILED | SKIPPED.

#[global] Instance NodeStatus_eq_dec : EqDecision NodeStatus.
Proof. solve_decision. Defined.

Record NodeOutput : Type := mkNodeOutput {
  result : JSON;
  artifacts : list string;
  logs : option (list string);
  hash : option string;
  cached : option bool;
}.

(** [{ ...hit, hash: key, cached: true }] *)
Definition with_cache_metadata (hit : NodeOutput) (key : string) : NodeOutput :=
  {| result := result hit; artifacts := artifacts hit; logs := logs hit;
     hash := Some key; cached := Some true |}.

Record FailedRecord : Type := mkFailed {
  failed_nodeId : string;
  failed_error : string;
}.

Record RunState : Type := mkRunState {
  vars : gmap string JSON;
  outputs : gmap string NodeOutput;
  statuses : gmap string NodeStatus;
  next : list string;
  failed : option FailedRecord;
}.

(** [Partial<RunState>]: the update a graph node returns. *)
Record PartialRunState : Type := mkPartial {
  p_outputs : option (gmap string NodeOutput);
  p_statuses : option (gmap string NodeStatus);
  p_next : option (list string);
  p_failed : option (option FailedRecord);
}.

Definition createInitialState (vs : gmap string JSON) : RunState :=
  {| vars := vs; outputs := ∅; statuses := ∅; next := []; failed := None |}.

(** The reducers of [RunStateAnnotation]: [outputs] and [statuses] merge
    with the right operand winning ([{ ...left, ...right }]); [next] and
    [failed] are replaced. *)
Definition merge_right {V} (left right : gmap string V) : gmap string V :=
  right ∪ left.

Definition apply_update (st : RunState) (u : PartialRunState) : RunState :=
  {| vars := vars st;
     outputs := from_option (merge_right (outputs st)) (outputs st) (p_outputs u);
     statuses := from_option (merge_right (statuses st)) (statuses st) (p_statuses u);
     next := from_option id (next st) (p_next u);
     failed := from_option id (failed st) (p_failed u) |}.

Record BaseNode : Type := mkBase {
  id : string;
  name : option string;
  deps : option (list string);
  deterministic : option bool;
  timeout : option Z;
  retries : option Z;
}.

Record Produces : Type := mkProduces {
  files : option (list string);
  resultFromFile : option string;
}.

Record ExecNode : Type := mkExec {
  exec_base : BaseNode;
  command : string;
  args : option (list string);
  exec_cwd : option string;
  exec_env : option (list (string * string));
  produces : option Produces;
}.

Record TaskNode : Type := mkTask {
  task_base : BaseNode;
  agent : string;
  prompt : string;
  inputs : option (list (string * JSON));
  task_env : option (list (string * string));
  task_cwd : option string;
}.

(** The body of a map or reduce node is typed [TaskNode | ExecNode], but
    the validator accepts any object there, so the executors keep a branch
    for any other [kind]. *)
Inductive BodyNode : Type :=
| BExec (e : ExecNode)
| BTask (t : TaskNode)
| BOther (kind : string).

Record MapNode : Type := mkMap {
  map_base : BaseNode;
  over : JSON;
  map_body : BodyNode;
}.

Record ReduceNode : Type := mkReduce {
  reduce_base : BaseNode;
  reduce_body : BodyNode;
}.

Inductive NodeDefinition : Type :=
| NExec (e : ExecNode)
| NTask (t : TaskNode)
| NMap (m : MapNode)
| NReduce (r : ReduceNode).

Definition node_base (n : NodeDefinition) : BaseNode :=
  match n with
  | NExec e => exec_base e
  | NTask t => task_base t
  | NMap m => map_base m
  | NReduce r => reduce_base r
  end.

Definition node_id (n : NodeDefinition) : string := id (node_base n).

(** [node.deps || []] *)
Definition node_deps (n : NodeDefinition) : list string :=
  default [] (deps (node_base n)).

Record WorkflowDefinition : Type := mkWorkflow {
  wf_name : string;
  wf_vars : option (gmap string JSON);
  nodes : list NodeDefinition;
}.

(** ** Run metadata (src/runtime/store/run-store.ts) *)

Inductive RunStatus : Type := Run_running | Run_success | Run_failed.

Record NodeMeta : Type := mkNodeMeta {
  nm_status : NodeStatus;
  nm_startTime : option N;
  nm_endTime : option N;
  nm_duration : option Z;
  nm_output : option NodeOutput;
  nm_error : option string;
}.

Record RunMetadata : Type := mkRunMetadata {
  workflowName : string;
  threadId : string;
  checkpointDbPath : string;
  startTime : N;
  endTime : option N;
  run_status : RunStatus;
  meta_nodes : gmap string NodeMeta;
}.

Record RunStore : Type := mkRunStore {
  runDir : string;
  metadata : RunMetadata;
}.

(** ** Effects *)

Inductive Event : Type :=
| EvCacheGet (key : string)
| EvCachePut (key : string) (val : NodeOutput)
| EvSpawn (cmd : string) (argv : list string) (cwd : string)
| EvKill (signal : string)
| EvAgentRun (agentName : string) (prompt : string)
| EvSetNodeStatus (nodeId : string) (status : NodeStatus)
| EvGenerateThreadId (tid : string).

Record World : Type := mkWorld {
  w_cache : gmap string NodeOutput;      (* ./cache/<key>.json *)
  w_files : gmap string RunMetadata;     (* <runDir>/run.json *)
  w_store : RunStore;                    (* ctx.runStore *)
  w_checkpoints : gmap string RunState;  (* thread id -> last snapshot *)
  w_clock : N;                           (* Date.now(), in ms *)
  w_rng : nat;                           (* calls to Math.random() so far *)
  w_trace : list Event;
}.

Inductive Res (A : Type) : Type :=
| Ok (a : A)
| Throw (msg : string)
| Hang.
Arguments Ok {A} a.
Arguments Throw {A} msg.
Arguments Hang {A}.

Definition M (A : Type) : Type := World → Res A * World.

Definition ret {A} (a : A) : M A := fun w => (Ok a, w).
Definition throw {A} (msg : string) : M A := fun w => (Throw msg, w).
Definition hang {A} : M A := fun w => (Hang, w).

Definition bind {A B} (m : M A) (k : A → M B) : M B := fun w =>
  match m w with
  | (Ok a, w') => k a w'
  | (Throw e, w') => (Throw e, w')
  | (Hang, w') => (Hang, w')
  end.

(** [try { m } catch (error) { h error.message }] *)
Definition try_catch {A} (m : M A) (h : string → M A) : M A := fun w =>
  match m w with
  | (Throw e, w') => h e w'
  | r => r
  end.

Notation "'let*' x ':=' m 'in' k" := (bind m (fun x => k))
  (at level 10, x pattern, m at level 100, k at level 200).
Notation "m ';;' k" := (bind m (fun _ => k))
  (at level 100, k at level 200, right associativity).

Definition get_world : M World := fun w => (Ok w, w).
Definition modify (f : World → World) : M unit := fun w => (Ok tt, f w).

(** An [async] function whose promise others are waiting for beside it runs
    without interruption from one [await] to the next.  [Async A] is such a
    function suspended at an [await]: resuming it lets the awaited operation
    complete and the function run on, until it returns ([inl]), throws, is
    suspended at its next [await] ([inr]), or awaits something that never
    completes.  A call of an async function is an [M (A + Async A)] too: the
    function runs up to its first [await]. *)
Unset Elimination Schemes.
Inductive Async (A : Type) : Type :=
| Resume (run : M (A + Async A)).
Set Elimination Schemes.
Arguments Resume {A} run.

Definition resume {A} (p : Async A) : M (A + Async A) :=
  match p with Resume run => run end.

(** [return a] *)
Definition resolve {A} (a : A) : M (A + Async A) := ret (inl a).

(** [const x = await op; k x] *)
Definition await {X A} (op : M X) (k : X → M (A + Async A)) : M (A + Async A) :=
  ret (inr (Resume (let* x := op in k x))).

(** [const a = await p; k a] for the promise [p] of an async function. *)
Fixpoint after {A B} (p : Async A) (k : A → M (B + Async B)) : Async B :=
  match p with
  | Resume run =>
      Resume (fun w =>
        match run w with
        | (Ok (inl a), w') => k a w'
        | (Ok (inr p'), w') => (Ok (inr (after p' k)), w')
        | (Throw e, w') => (Throw e, w')
        | (Hang, w') => (Hang, w')
        end)
  end.

Definition await_call {A B} (call : M (A + Async A)) (k : A → M (B + Async B))
  : M (B + Async B) :=
  let* r := call in
  match r with
  | inl a => k a
  | inr p => ret (inr (after p k))
  end.

(** An async function awaited with nothing else under way. *)
Fixpoint run_alone {A} (p : Async A) : M A :=
  match p with
  | Resume run => fun w =>
      match run w with
      | (Ok (inl a), w') => (Ok a, w')
      | (Ok (inr p'), w') => run_alone p' w'
      | (Throw e, w') => (Throw e, w')
      | (Hang, w') => (Hang, w')
      end
  end.

Definition call_alone {A} (call : M (A + Async A)) : M A :=
  let* r := call in
  match r with
  | inl a => ret a
  | inr p => run_alone p
  end.

Definition set_cache (c : gmap string NodeOutput) (w : World) : World :=
  mkWorld c (w_files w) (w_store w) (w_checkpoints w) (w_clock w) (w_rng w) (w_trace w).
Definition set_files (f : gmap string RunMetadata) (w : World) : World :=
  mkWorld (w_cache w) f (w_store w) (w_checkpoints w) (w_clock w) (w_rng w) (w_trace w).
Definition set_store (s : RunStore) (w : World) : World :=
  mkWorld (w_cache w) (w_files w) s (w_checkpoints w) (w_clock w) (w_rng w) (w_trace w).
Definition set_checkpoints (c : gmap string RunState) (w : World) : World :=
  mkWorld (w_cache w) (w_files w) (w_store w) c (w_clock w) (w_rng w) (w_trace w).
Definition set_clock (t : N) (w : World) : World :=
  mkWorld (w_cache w) (w_files w) (w_store w) (w_checkpoints w) t (w_rng w) (w_trace w).
Definition set_rng (n : nat) (w : World) : World :=
  mkWorld (w_cache w) (w_files w) (w_store w) (w_checkpoints w) (w_clock w) n (w_trace w).
Definition emit (e : Event) (w : World) : World :=
  mkWorld (w_cache w) (w_files w) (w_store w) (w_checkpoints w) (w_clock w) (w_rng w)
          (w_trace w ++ [e]).

(** ** The environment of the engine

    What the engine calls and the embedding leaves abstract.  The oracles
    for processes, files and agents see the effect trace so far, so the same
    command may behave differently on a later call.

    [renderObject] of templating/engine.ts compiles every string of an
    object with Handlebars and runs it against the context; a malformed
    template or a helper makes it throw.  [renderNode] and [renderBody] stand
    for it on a node and on the body of a map or reduce node: any node, or an
    error. *)

Inductive ProcBehaviour : Type :=
| ProcError (msg : string)
    (* the child emits 'error' (the spawn failed) *)
| ProcClose (after : N) (code : option Z) (out err : string)
    (* the child emits 'close' [after] ms after the spawn; [code] is null
       when a signal ended it *)
| ProcNever.
    (* left alone, the child never closes *)

Record AgentContext : Type := mkAgentContext {
  ac_prompt : string;
  ac_inputs : list (string * JSON);
  ac_env : list (string * string);
  ac_cwd : string;
  ac_timeoutMs : Z;
}.

Record AgentResult : Type := mkAgentResult {
  ar_result : JSON;
  ar_logs : option (list string);
  ar_createdArtifacts : option (list string);
}.

Record Agent : Type := mkAgent {
  agent_name : string;
  agent_run : list Event → AgentContext → Res AgentResult;
}.

Record TemplateContext : Type := mkTemplateContext {
  tc_vars : gmap string JSON;
  tc_outputs : gmap string NodeOutput;
  tc_item : option JSON;
}.

Record Env : Type := mkEnv {
  hashInputs : JSON → string;                    (* util/hash.ts, sha256 *)
  process_cwd : string;
  process_env : list (string * string);
  spawn : list Event → string → list string → string →
          list (string * string) → ProcBehaviour; (* child_process *)
  path_resolve : string → string;
  fs_access : list Event → string → bool;
  fs_readFile : list Event → string → Res string;
  JSON_parse : string → Res JSON;                 (* Throw: the SyntaxError's message *)
  agentRegistry : string → option Agent;         (* AgentRegistry.get *)
  addNode_reserved : string → option string;
    (* LangGraph's [addNode] on a name it refuses whatever the graph holds
       (a channel of the state, [__start__], [__end__], a name with a
       reserved character): the message of the error *)
  addNode_present : string → string;
    (* the message of [addNode]'s error for a name the graph already has *)
  recursion_error : string;
    (* the message of LangGraph's GraphRecursionError *)
  renderNode : TemplateContext → NodeDefinition → Res NodeDefinition;
  renderBody : TemplateContext → BodyNode → Res BodyNode;
  render : TemplateContext → string → Res string;
  renderValue : TemplateContext → JSON → Res JSON;
  random_base36 : nat → string;                  (* Math.random().toString(36).substr(2, 9) *)
  pick : list Event → list nat → nat;
    (* among the running items of a fan-out, the position of the one that
       is resumed next *)
}.

(** ** Small pieces of JavaScript *)

(** [s || d] on an optional string: undefined and the empty string are falsy. *)
Definition str_or (o : option string) (d : string) : string :=
  match o with
  | Some s => if decide (s = "") then d else s
  | None => d
  end.

(** [s.trim()].  A string of the embedding is the UTF-8 encoding of the
    JavaScript string.  [trim] removes, at both ends, the code points of
    WhiteSpace and LineTerminator: U+0009 to U+000D and U+0020 (one byte),
    U+00A0 (two bytes), and U+1680, U+2000 to U+200A, U+2028, U+2029,
    U+202F, U+205F, U+3000 and U+FEFF (three bytes). *)
Definition is_space2 (a b : ascii) : bool :=
  (N_of_ascii a =? 194)%N && (N_of_ascii b =? 160)%N.

Definition is_space3 (a b c : ascii) : bool :=
  let x := N_of_ascii a in
  let y := N_of_ascii b in
  let z := N_of_ascii c in
  ((x =? 225) && (y =? 154) && (z =? 128)
   || (x =? 226) && (y =? 128)
      && ((128 <=? z) && (z <=? 138) || (z =? 168) || (z =? 169) || (z =? 175))
   || (x =? 226) && (y =? 129) && (z =? 159)
   || (x =? 227) && (y =? 128) && (z =? 128)
   || (x =? 239) && (y =? 187) && (z =? 191))%N.

(** The white space at the start of [s] removed.  With [backwards], [s] is
    read from its end, so the bytes of a code point come last byte first. *)
Fixpoint strip_space (backwards : bool) (s : string) : string :=
  match s with
  | String a s1 =>
      if Ascii.is_space a then strip_space backwards s1
      else
        match s1 with
        | String b s2 =>
            if (if backwards then is_space2 b a else is_space2 a b)
            then strip_space backwards s2
            else
              match s2 with
              | String c s3 =>
                  if (if backwards then is_space3 c b a else is_space3 a b c)
                  then strip_space backwards s3
                  else s
              | EmptyString => s
              end
        | EmptyString => s
        end
  | EmptyString => EmptyString
  end.

Definition trimStart (s : string) : string := strip_space false s.

Definition trimEnd (s : string) : string :=
  String.rev (strip_space true (String.rev s)).

Definition trim (s : string) : string := trimEnd (trimStart s).

(** [xs.join(sep)] *)
Definition join (sep : string) (xs : list string) : string :=
  String.concat sep xs.

(** Node's [setTimeout]: a delay above 2^31 - 1 ms is replaced by 1 ms. *)
Definition setTimeout_delay (t : Z) : N :=
  if 2147483647 <? t then 1%N else Z.to_N t.

Definition JStrs (xs : list string) : JSON := JArr (JStr <$> xs).
Definition JEnv (e : list (string * string)) : JSON :=
  JObj ((fun kv => (kv.1, JStr kv.2)) <$> e).

(** [JSON.stringify] drops the fields that are undefined. *)
Definition field {A} (k : string) (f : A → JSON) (o : option A)
  : list (string * JSON) :=
  match o with Some a => [(k, f a)] | None => [] end.

Definition Produces_json (p : Produces) : JSON :=
  JObj (field "files" JStrs (files p)
        ++ field "json" (fun f => JObj [("resultFromFile", JStr f)]) (resultFromFile p)).

(** ** Cache store (src/runtime/store/cache-store.ts)

    The files of the cache directory are the outputs that [put] wrote there;
    [get] gives null for a key without a file. *)

Definition CacheStore_get (key : string) : M (option NodeOutput) := fun w =>
  (Ok (w_cache w !! key), emit (EvCacheGet key) w).

Definition CacheStore_put (key : string) (value : NodeOutput) : M unit := fun w =>
  (Ok tt, emit (EvCachePut key value) (set_cache (<[key := value]> (w_cache w)) w)).

(** ** Run store (the RunStore class of run-store.ts with thread ids) *)

Definition set_metadata (md : RunMetadata) (w : World) : World :=
  set_store (mkRunStore (runDir (w_store w)) md) w.

Definition with_nodes (md : RunMetadata) (ns : gmap string NodeMeta) : RunMetadata :=
  mkRunMetadata (workflowName md) (threadId md) (checkpointDbPath md)
                (startTime md) (endTime md) (run_status md) ns.

(** [save()]: write the metadata to [<runDir>/run.json]. *)
Definition save : M unit := fun w =>
  (Ok tt, set_files (<[runDir (w_store w) := metadata (w_store w)]> (w_files w)) w).

Definition is_finished (s : NodeStatus) : bool :=
  match s with SUCCESS | FAILED | CACHED => true | _ => false end.

Definition setNodeStatus (nodeId : string) (status : NodeStatus) : M unit :=
  modify (fun w =>
    let md := metadata (w_store w) in
    let now := w_clock w in
    let entry :=
      match meta_nodes md !! nodeId with
      | None => mkNodeMeta status (Some now) None None None None
      | Some e =>
          if is_finished status then
            mkNodeMeta status (nm_startTime e) (Some now)
              (match nm_startTime e with
               | Some start => Some (Z.of_N now - Z.of_N start)
               | None => nm_duration e
               end)
              (nm_output e) (nm_error e)
          else
            mkNodeMeta status (nm_startTime e) (nm_endTime e) (nm_duration e)
              (nm_output e) (nm_error e)
      end in
    emit (EvSetNodeStatus nodeId status)
         (set_metadata (with_nodes md (<[nodeId := entry]> (meta_nodes md))) w));;
  save.

Definition setNodeOutput (nodeId : string) (output : NodeOutput) : M unit :=
  modify (fun w =>
    let md := metadata (w_store w) in
    let e := default (mkNodeMeta SUCCESS None None None None None)
                     (meta_nodes md !! nodeId) in
    let e' := mkNodeMeta (nm_status e) (nm_startTime e) (nm_endTime e)
                (nm_duration e) (Some output) (nm_error e) in
    set_metadata (with_nodes md (<[nodeId := e']> (meta_nodes md))) w);;
  save.

Definition setNodeError (nodeId : string) (error : string) : M unit :=
  modify (fun w =>
    let md := metadata (w_store w) in
    let e := default (mkNodeMeta FAILED None None None None None)
                     (meta_nodes md !! nodeId) in
    let e' := mkNodeMeta FAILED (nm_startTime e) (nm_endTime e)
                (nm_duration e) (nm_output e) (Some error) in
    set_metadata (with_nodes md (<[nodeId := e']> (meta_nodes md))) w);;
  save.

Definition complete (status : RunStatus) : M unit :=
  modify (fun w =>
    let md := metadata (w_store w) in
    set_metadata (mkRunMetadata (workflowName md) (threadId md)
                    (checkpointDbPath md) (startTime md) (Some (w_clock w))
                    status (meta_nodes md)) w);;
  save.

Definition getThreadId (s : RunStore) : string := threadId (metadata s).

(** Lifting an oracle's answer, reading the clock, letting time pass. *)
Definition lift {A} (r : Res A) : M A := fun w => (r, w).
Definition sleep (d : N) : M unit := modify (fun w => set_clock (w_clock w + d)%N w).

(** ** Node executors *)

Section Executors.
Context (env : Env).

(** *** Command node (src/runtime/steps/exec.ts) *)

Definition exec_key (spec : ExecNode) : string :=
  hashInputs env
    (JObj ([("kind", JStr "exec");
            ("command", JStr (command spec));
            ("args", JStrs (default [] (args spec)));
            ("cwd", JStr (str_or (exec_cwd spec) (process_cwd env)));
            ("env", JEnv (default [] (exec_env spec)))]
           ++ field "produces" Produces_json (produces spec))).

(** [spec.deterministic !== false] *)
Definition exec_caches (spec : ExecNode) : bool :=
  bool_decide (deterministic (exec_base spec) ≠ Some false).

(** [spec.timeout && spec.timeout > 0]: the delay of the timer, if one is set. *)
Definition exec_timer (spec : ExecNode) : option N :=
  match timeout (exec_base spec) with
  | Some t => if 0 <? t then Some (setTimeout_delay t) else None
  | None => None
  end.

Definition timeout_error (spec : ExecNode) : string :=
  "exec timeout after " +:+ pretty (default 0 (timeout (exec_base spec))) +:+ "ms".

Definition do_spawn (cmd : string) (argv : list string) (cwd : string)
    (envv : list (string * string)) : M ProcBehaviour := fun w =>
  (Ok (spawn env (w_trace w) cmd argv cwd envv), emit (EvSpawn cmd argv cwd) w).

Definition kill_child : M unit := modify (emit (EvKill "SIGKILL")).

(** The promise around the child: the timer rejects it after killing the
    child, 'error' rejects it, 'close' clears the timer and resolves it with
    [code ?? -1].  When the timer and the close fall on the same
    millisecond the close is taken to come first. *)
Definition await_exit (spec : ExecNode) (child : ProcBehaviour) : M Z :=
  match child with
  | ProcError msg => throw msg
  | ProcClose after code _ _ =>
      match exec_timer spec with
      | Some d =>
          if (d <? after)%N
          then (sleep d;; kill_child;; throw (timeout_error spec))
          else (sleep after;; ret (default (-1) code))
      | None => sleep after;; ret (default (-1) code)
      end
  | ProcNever =>
      match exec_timer spec with
      | Some d => sleep d;; kill_child;; throw (timeout_error spec)
      | None => hang
      end
  end.

Definition child_stdout (child : ProcBehaviour) : string :=
  match child with ProcClose _ _ out _ => out | _ => "" end.
Definition child_stderr (child : ProcBehaviour) : string :=
  match child with ProcClose _ _ _ err => err | _ => "" end.

Definition exec_failed_error (exitCode : Z) (cmd : string) (argv : list string)
    (stderrStr : string) : string :=
  "exec failed (" +:+ pretty exitCode +:+ "): " +:+ cmd +:+ " " +:+ join " " argv
  +:+ String "010"%char stderrStr.

(** The loop over [spec.produces.files]. *)
Fixpoint collect_artifacts (fs : list string) (acc : list string) : M (list string) :=
  match fs with
  | [] => ret acc
  | f :: rest =>
      let p := path_resolve env f in
      let* w := get_world in
      if fs_access env (w_trace w) p
      then collect_artifacts rest (acc ++ [p])
      else throw ("Expected file " +:+ f +:+ " was not produced")
  end.

Definition produced_files (spec : ExecNode) : list string :=
  match produces spec with
  | Some p => default [] (files p)
  | None => []
  end.

(** [spec.produces?.json?.resultFromFile], when truthy. *)
Definition result_file (spec : ExecNode) : option string :=
  match produces spec with
  | Some p =>
      match resultFromFile p with
      | Some f => if decide (f = "") then None else Some f
      | None => None
      end
  | None => None
  end.

Definition read_result (spec : ExecNode) (dflt : JSON) : M JSON :=
  match result_file spec with
  | Some f =>
      let p := path_resolve env f in
      let* w := get_world in
      let* text := lift (fs_readFile env (w_trace w) p) in
      lift (JSON_parse env text)
  | None => ret dflt
  end.

(** [runExec] from the spawn on (the cache missed or was not consulted). *)
Definition runExec_spawn (spec : ExecNode) (key : string) : M NodeOutput :=
  let cmd := command spec in
  let argv := default [] (args spec) in
  let cwd := default (process_cwd env) (exec_cwd spec) in
  let envv := default [] (exec_env spec) in
  let* child := do_spawn cmd argv cwd (process_env env ++ envv) in
  let* exitCode := await_exit spec child in
  let stdoutStr := trim (child_stdout child) in
  let stderrStr := trim (child_stderr child) in
  if decide (exitCode ≠ 0)
  then throw (exec_failed_error exitCode cmd argv stderrStr)
  else
    let* arts := collect_artifacts (produced_files spec) [] in
    let* res := read_result spec
                  (JObj [("stdout", JStr stdoutStr); ("stderr", JStr stderrStr);
                         ("exitCode", JNum exitCode)]) in
    let output := {| result := res; artifacts := arts; logs := None;
                     hash := Some key; cached := Some false |} in
    (if exec_caches spec then CacheStore_put key output else ret tt);;
    ret output.

Definition runExec (spec : ExecNode) : M NodeOutput :=
  let key := exec_key spec in
  let* hit := (if exec_caches spec then CacheStore_get key else ret None) in
  match hit with
  | Some h => ret (with_cache_metadata h key)
  | None => runExec_spawn spec key
  end.

(** [runExec] cut at its awaits, for the items of a fan-out: the read of
    the cache, the exit of the child (the spawn comes before the function is
    suspended), every [fs.access], [fs.readFile], the write of the cache. *)
Fixpoint collect_artifacts_async {A} (fs : list string) (acc : list string)
    (k : list string → M (A + Async A)) : M (A + Async A) :=
  match fs with
  | [] => k acc
  | f :: rest =>
      let p := path_resolve env f in
      await (let* w := get_world in ret (fs_access env (w_trace w) p))
            (fun accessible =>
               if accessible : bool
               then collect_artifacts_async rest (acc ++ [p]) k
               else throw ("Expected file " +:+ f +:+ " was not produced"))
  end.

Definition read_result_async {A} (spec : ExecNode) (dflt : JSON)
    (k : JSON → M (A + Async A)) : M (A + Async A) :=
  match result_file spec with
  | Some f =>
      let p := path_resolve env f in
      await (let* w := get_world in lift (fs_readFile env (w_trace w) p))
            (fun text => let* res := lift (JSON_parse env text) in k res)
  | None => k dflt
  end.

Definition runExec_spawn_async (spec : ExecNode) (key : string)
  : M (NodeOutput + Async NodeOutput) :=
  let cmd := command spec in
  let argv := default [] (args spec) in
  let cwd := default (process_cwd env) (exec_cwd spec) in
  let envv := default [] (exec_env spec) in
  let* child := do_spawn cmd argv cwd (process_env env ++ envv) in
  await (await_exit spec child) (fun exitCode =>
    let stdoutStr := trim (child_stdout child) in
    let stderrStr := trim (child_stderr child) in
    if decide (exitCode ≠ 0)
    then throw (exec_failed_error exitCode cmd argv stderrStr)
    else
      collect_artifacts_async (produced_files spec) [] (fun arts =>
      read_result_async spec
        (JObj [("stdout", JStr stdoutStr); ("stderr", JStr stderrStr);
               ("exitCode", JNum exitCode)]) (fun res =>
      let output := {| result := res; artifacts := arts; logs := None;
                       hash := Some key; cached := Some false |} in
      if exec_caches spec
      then await (CacheStore_put key output) (fun _ => resolve output)
      else resolve output))).

Definition runExec_async (spec : ExecNode) : M (NodeOutput + Async NodeOutput) :=
  let key := exec_key spec in
  if exec_caches spec then
    await (CacheStore_get key) (fun hit =>
      match hit with
      | Some h => resolve (with_cache_metadata h key)
      | None => runExec_spawn_async spec key
      end)
  else runExec_spawn_async spec key.

(** *** Delegated-task node (src/runtime/steps/task.ts) *)

Definition task_key (ag : Agent) (spec : TaskNode) : string :=
  hashInputs env
    (JObj [("kind", JStr "task");
           ("agent", JStr (agent_name ag));
           ("prompt", JStr (prompt spec));
           ("inputs", JObj (default [] (inputs spec)));
           ("env", JEnv (default [] (task_env spec)))]).

(** [if (spec.deterministic)]: only an explicit [true] is truthy. *)
Definition task_caches (spec : TaskNode) : bool :=
  bool_decide (deterministic (task_base spec) = Some true).

(** [spec.timeout || 300000] *)
Definition task_timeoutMs (spec : TaskNode) : Z :=
  match timeout (task_base spec) with
  | Some t => if decide (t = 0) then 300000 else t
  | None => 300000
  end.

Definition call_agent (ag : Agent) (c : AgentContext) : M AgentResult := fun w =>
  (agent_run ag (w_trace w) c, emit (EvAgentRun (agent_name ag) (ac_prompt c)) w).

Definition runTask_agent (ag : Agent) (spec : TaskNode) (cacheKey : string)
  : M NodeOutput :=
  let* res := call_agent ag
      {| ac_prompt := prompt spec;
         ac_inputs := default [] (inputs spec);
         ac_env := default [] (task_env spec);
         ac_cwd := str_or (task_cwd spec) (process_cwd env);
         ac_timeoutMs := task_timeoutMs spec |} in
  let output := {| result := ar_result res;
                   artifacts := default [] (ar_createdArtifacts res);
                   logs := ar_logs res;
                   hash := Some cacheKey; cached := Some false |} in
  (if task_caches spec then CacheStore_put cacheKey output else ret tt);;
  ret output.

Definition runTask (ag : Agent) (spec : TaskNode) : M NodeOutput :=
  let cacheKey := task_key ag spec in
  let* hit := (if task_caches spec then CacheStore_get cacheKey else ret None) in
  match hit with
  | Some h => ret (with_cache_metadata h cacheKey)
  | None => runTask_agent ag spec cacheKey
  end.

(** [runTask] cut at its awaits: the read of the cache, the promise of the
    agent (the agent is called before the function is suspended), the write
    of the cache. *)
Definition agent_start (ag : Agent) (c : AgentContext) : M (Res AgentResult) := fun w =>
  (Ok (agent_run ag (w_trace w) c), emit (EvAgentRun (agent_name ag) (ac_prompt c)) w).

Definition runTask_agent_async (ag : Agent) (spec : TaskNode) (cacheKey : string)
  : M (NodeOutput + Async NodeOutput) :=
  let* promise := agent_start ag
      {| ac_prompt := prompt spec;
         ac_inputs := default [] (inputs spec);
         ac_env := default [] (task_env spec);
         ac_cwd := str_or (task_cwd spec) (process_cwd env);
         ac_timeoutMs := task_timeoutMs spec |} in
  await (lift promise) (fun res =>
    let output := {| result := ar_result res;
                     artifacts := default [] (ar_createdArtifacts res);
                     logs := ar_logs res;
                     hash := Some cacheKey; cached := Some false |} in
    if task_caches spec
    then await (CacheStore_put cacheKey output) (fun _ => resolve output)
    else resolve output).

Definition runTask_async (ag : Agent) (spec : TaskNode)
  : M (NodeOutput + Async NodeOutput) :=
  let cacheKey := task_key ag spec in
  if task_caches spec then
    await (CacheStore_get cacheKey) (fun hit =>
      match hit with
      | Some h => resolve (with_cache_metadata h cacheKey)
      | None => runTask_agent_async ag spec cacheKey
      end)
  else runTask_agent_async ag spec cacheKey.

(** *** Fan-out node (src/runtime/steps/map.ts) *)

Definition typeof (v : JSON) : string :=
  match v with
  | JNull | JArr _ | JObj _ => "object"
  | JBool _ => "boolean"
  | JNum _ | JFrac _ _ => "number"
  | JStr _ => "string"
  end.

(** [Array.isArray(r) ? r : [r]] *)
Definition as_array (v : JSON) : list JSON :=
  match v with JArr xs => xs | _ => [v] end.

(** Resolving [spec.over] to the items. *)
Definition resolve_items (tc : TemplateContext) (ov : JSON) : M (list JSON) :=
  match ov with
  | JStr s =>
      let* resolved := lift (render env tc s) in
      match JSON_parse env resolved with
      | Ok (JArr xs) => ret xs
      | Ok v =>
          throw ("Map 'over' expression did not resolve to an array: " +:+ typeof v)
      | Throw _ =>
          let* r := lift (renderValue env tc ov) in
          ret (as_array r)
      | Hang => hang
      end
  | _ =>
      let* r := lift (renderValue env tc ov) in
      ret (as_array r)
  end.

Definition run_body (unsupported : string) (body : BodyNode) : M NodeOutput :=
  match body with
  | BExec execBody => runExec execBody
  | BTask taskBody =>
      match agentRegistry env (agent taskBody) with
      | None => throw ("Agent " +:+ agent taskBody +:+ " not found")
      | Some ag => runTask ag taskBody
      end
  | BOther kind => throw (unsupported +:+ kind)
  end.

(** The body of an item of a fan-out. *)
Definition run_body_async (unsupported : string) (body : BodyNode)
  : M (NodeOutput + Async NodeOutput) :=
  match body with
  | BExec execBody => runExec_async execBody
  | BTask taskBody =>
      match agentRegistry env (agent taskBody) with
      | None => throw ("Agent " +:+ agent taskBody +:+ " not found")
      | Some ag => runTask_async ag taskBody
      end
  | BOther kind => throw (unsupported +:+ kind)
  end.

(** The async function given to [limit] for one item. *)
Definition map_item (spec : MapNode) (vs : gmap string JSON) (outs : gmap string NodeOutput)
    (item : JSON) : M (JSON + Async JSON) :=
  let* resolvedBody :=
    lift (renderBody env {| tc_vars := vs; tc_outputs := outs; tc_item := Some item |}
                     (map_body spec)) in
  await_call (run_body_async "Unsupported map body kind: " resolvedBody)
             (fun itemOutput => resolve (result itemOutput)).

(** [Promise.all(items.map((item, index) => limit(...)))] with
    [limit = pLimit(5)].

    p-limit keeps a queue of the calls not yet started and calls the next
    one whenever a slot is free: at the start, and when a running call
    settles.  A call runs the item's function up to its first [await]; from
    then on the functions that are under way take turns, each running from
    one [await] to its next, and which of them is resumed next is the
    environment's choice ([pick]).  [Promise.all] stores each value at the
    position of its promise and rejects with the first rejection.  An item
    whose function awaits something that never completes keeps its slot for
    ever.

    [Promise.all] rejects as soon as one item does, while the other items
    run on beside whatever the program does next.  Here the fan-out is run
    until no item is left to resume before its outcome is given. *)
Definition concurrency : nat := 5.

Record FanOut : Type := mkFanOut {
  fo_queue : list nat;                     (* not started *)
  fo_running : list (nat * Async JSON);    (* under way, each at an await *)
  fo_stuck : list nat;                     (* under way, never to be resumed *)
  fo_values : list (option JSON);          (* by position *)
  fo_rejected : option string;             (* the first rejection *)
}.

Definition activeCount (s : FanOut) : nat :=
  (length (fo_running s) + length (fo_stuck s))%nat.

Definition running_items (s : FanOut) : list nat := fst <$> fo_running s.

(** What a call or a resumption of item [i] makes of the fan-out; the item
    is not among the running ones of [s]. *)
Definition settle (i : nat) (r : Res (JSON + Async JSON)) (s : FanOut) : FanOut :=
  match r with
  | Ok (inl v) =>
      {| fo_queue := fo_queue s; fo_running := fo_running s; fo_stuck := fo_stuck s;
         fo_values := <[i := Some v]> (fo_values s);
         fo_rejected := fo_rejected s |}
  | Ok (inr p) =>
      {| fo_queue := fo_queue s; fo_running := (fo_running s ++ [(i, p)])%list;
         fo_stuck := fo_stuck s; fo_values := fo_values s;
         fo_rejected := fo_rejected s |}
  | Throw e =>
      {| fo_queue := fo_queue s; fo_running := fo_running s; fo_stuck := fo_stuck s;
         fo_values := fo_values s;
         fo_rejected := Some (default e (fo_rejected s)) |}
  | Hang =>
      {| fo_queue := fo_queue s; fo_running := fo_running s;
         fo_stuck := (fo_stuck s ++ [i])%list;
         fo_values := fo_values s;
         fo_rejected := fo_rejected s |}
  end.

Definition with_queue (queue : list nat) (s : FanOut) : FanOut :=
  {| fo_queue := queue; fo_running := fo_running s; fo_stuck := fo_stuck s;
     fo_values := fo_values s; fo_rejected := fo_rejected s |}.

(** The fan-out without the running item at position [k]. *)
Definition without_item (k : nat) (s : FanOut) : FanOut :=
  {| fo_queue := fo_queue s;
     fo_running := delete k (fo_running s);
     fo_stuck := fo_stuck s; fo_values := fo_values s;
     fo_rejected := fo_rejected s |}.

(** p-limit's [next()]: while a slot is free, the head of the queue is
    called. *)
Fixpoint start_next (body : nat → M (JSON + Async JSON)) (queue : list nat)
    (s : FanOut) (w : World) : FanOut * World :=
  match queue with
  | [] => (with_queue [] s, w)
  | i :: queue' =>
      if decide (activeCount s < concurrency)%nat then
        let '(r, w') := body i w in
        start_next body queue' (settle i r s) w'
      else (with_queue queue s, w)
  end.

Definition fan_init (body : nat → M (JSON + Async JSON)) (n : nat) (w : World)
  : FanOut * World :=
  start_next body (seq 0 n)
    {| fo_queue := seq 0 n; fo_running := []; fo_stuck := [];
       fo_values := replicate n None; fo_rejected := None |} w.

(** The running item that is resumed next: its position among the running
    ones, and the item. *)
Definition turn (w : World) (s : FanOut) : nat :=
  (pick env (w_trace w) (running_items s) mod length (fo_running s))%nat.

Definition chosen (w : World) (s : FanOut) : option (nat * Async JSON) :=
  fo_running s !! turn w s.

(** One turn: the chosen item runs from its await to its next one, or to
    its end, and then the slot goes to the head of the queue. *)
Definition fan_step (body : nat → M (JSON + Async JSON)) (s : FanOut) (w : World)
  : FanOut * World :=
  match chosen w s with
  | None => (s, w)
  | Some (i, p) =>
      let '(r, w') := resume p w in
      let s' := settle i r (without_item (turn w s) s) in
      start_next body (fo_queue s') s' w'
  end.

Fixpoint fan_run (fuel : nat) (body : nat → M (JSON + Async JSON)) (s : FanOut)
    (w : World) : FanOut * World :=
  match fuel with
  | O => (s, w)
  | S fuel' =>
      let '(s', w') := fan_step body s w in
      fan_run fuel' body s' w'
  end.

(** What [await Promise.all(...)] gives once nothing is left to resume. *)
Definition fan_outcome (s : FanOut) : Res (list JSON) :=
  match fo_rejected s with
  | Some e => Throw e
  | None =>
      match fo_stuck s, mapM (fun v => v) (fo_values s) with
      | [], Some vs => Ok vs
      | _, _ => Hang
      end
  end.

Definition item_body (spec : MapNode) (vs : gmap string JSON) (outs : gmap string NodeOutput)
    (items : list JSON) (index : nat) : M (JSON + Async JSON) :=
  match items !! index with
  | Some item => map_item spec vs outs item
  | None => throw "no such item"
  end.

(** The awaits an item's function can go through: for a command the read
    of the cache, the exit of the child, one [fs.access] per produced file,
    [fs.readFile] and the write of the cache; for a delegated task the read
    of the cache, the promise of the agent and the write of the cache.  The
    loop of [fan_run] turns once per resumption, so the sum over the items
    bounds its turns. *)
Definition item_awaits (spec : MapNode) (vs : gmap string JSON)
    (outs : gmap string NodeOutput) (item : JSON) : nat :=
  match renderBody env {| tc_vars := vs; tc_outputs := outs; tc_item := Some item |}
                   (map_body spec) with
  | Ok (BExec execBody) => (4 + length (produced_files execBody))%nat
  | Ok (BTask _) => 3%nat
  | _ => 0%nat
  end.

Definition fan_turns (spec : MapNode) (vs : gmap string JSON)
    (outs : gmap string NodeOutput) (items : list JSON) : nat :=
  sum_list (item_awaits spec vs outs <$> items).

Definition promise_all_limited (spec : MapNode) (vs : gmap string JSON)
    (outs : gmap string NodeOutput) (items : list JSON) : M (list JSON) := fun w =>
  let body := item_body spec vs outs items in
  let '(s0, w0) := fan_init body (length items) w in
  let '(s, w') := fan_run (fan_turns spec vs outs items) body s0 w0 in
  (fan_outcome s, w').

Definition runMap (spec : MapNode) (vs : gmap string JSON) (outs : gmap string NodeOutput)
  : M NodeOutput :=
  let* items := resolve_items {| tc_vars := vs; tc_outputs := outs; tc_item := None |}
                              (over spec) in
  let* results := promise_all_limited spec vs outs items in
  ret {| result := JArr results;
         artifacts := [];
         logs := Some ["Processed " +:+ pretty (length items) +:+ " items"];
         hash := None;
         cached := Some false |}.

(** *** Fan-in node (src/runtime/steps/reduce.ts) *)

Definition runReduce (spec : ReduceNode) (vs : gmap string JSON) (outs : gmap string NodeOutput)
  : M NodeOutput :=
  let* resolvedBody :=
    lift (renderBody env {| tc_vars := vs; tc_outputs := outs; tc_item := None |}
                     (reduce_body spec)) in
  run_body "Unsupported reduce body kind: " resolvedBody.

(** ** Node handler (createNodeHandler of src/runtime/graph/nodes.ts) *)

Definition kind_name (n : NodeDefinition) : string :=
  match n with
  | NExec _ => "exec" | NTask _ => "task" | NMap _ => "map" | NReduce _ => "reduce"
  end.

(** The body of the handler's [try]: from the node to its output. *)
Definition run_node (node : NodeDefinition) (state : RunState) : M NodeOutput :=
  match node with
  | NMap mapNode => runMap mapNode (vars state) (outputs state)
  | NReduce reduceNode => runReduce reduceNode (vars state) (outputs state)
  | _ =>
      let* resolvedNode :=
        lift (renderNode env {| tc_vars := vars state; tc_outputs := outputs state;
                                tc_item := None |} node) in
      match resolvedNode with
      | NExec e => runExec e
      | NTask taskNode =>
          match agentRegistry env (agent taskNode) with
          | None => throw ("Agent " +:+ agent taskNode +:+ " not found")
          | Some ag => runTask ag taskNode
          end
      | other => throw ("Unsupported node kind: " +:+ kind_name other)
      end
  end.

(** [output.cached ? 'CACHED' : 'SUCCESS'] *)
Definition final_status (output : NodeOutput) : NodeStatus :=
  match cached output with Some true => CACHED | _ => SUCCESS end.

Definition createNodeHandler (node : NodeDefinition) (state : RunState)
  : M PartialRunState :=
  let nodeId := node_id node in
  try_catch
    (setNodeStatus nodeId RUNNING;;
     let* output := run_node node state in
     let status := final_status output in
     setNodeOutput nodeId output;;
     setNodeStatus nodeId status;;
     ret {| p_outputs := Some {[nodeId := output]};
            p_statuses := Some {[nodeId := status]};
            p_next := None; p_failed := None |})
    (fun errorMsg =>
     setNodeError nodeId errorMsg;;
     setNodeStatus nodeId FAILED;;
     ret {| p_outputs := None;
            p_statuses := Some {[nodeId := FAILED]};
            p_next := None;
            p_failed := Some (Some (mkFailed nodeId errorMsg)) |}).

End Executors.

(** [for (const x of xs) { ... }] threading the loop's variables. *)
Fixpoint for_each {A S} (xs : list A) (f : S → A → M S) (s : S) : M S :=
  match xs with
  | [] => ret s
  | x :: xs' => let* s' := f s x in for_each xs' f s'
  end.

(** ** The graph (src/runtime/graph/buildGraph.ts) *)

(** The three sets the router fills from [Object.entries(state.statuses)]. *)
Record Categories : Type := mkCategories {
  completed : gset string;
  failedSet : gset string;
  skipped : gset string;
}.

Definition categorize_entry (c : Categories) (entry : string * NodeStatus) : Categories :=
  let '(nodeId, status) := entry in
  match status with
  | SUCCESS | CACHED => mkCategories ({[nodeId]} ∪ completed c) (failedSet c) (skipped c)
  | FAILED => mkCategories (completed c) ({[nodeId]} ∪ failedSet c) (skipped c)
  | SKIPPED => mkCategories (completed c) (failedSet c) ({[nodeId]} ∪ skipped c)
  | _ => c
  end.

Definition categorize (sts : gmap string NodeStatus) : Categories :=
  foldl categorize_entry (mkCategories ∅ ∅ ∅) (map_to_list sts).

Inductive Verdict : Type := Leave | MarkSkipped | PushReady.

#[global] Instance Verdict_eq_dec : EqDecision Verdict.
Proof. solve_decision. Defined.

(** What the body of the router's loop does with one node. *)
Definition decide_node (sts : gmap string NodeStatus) (c : Categories)
    (node : NodeDefinition) : Verdict :=
  let nodeId := node_id node in
  if decide (nodeId ∈ completed c ∨ nodeId ∈ failedSet c ∨ nodeId ∈ skipped c)
  then Leave
  else if decide (sts !! nodeId = Some RUNNING) then Leave
  else
    let deps := node_deps node in
    let allDepsComplete := forallb (fun dep => bool_decide (dep ∈ completed c)) deps in
    let anyDepFailed :=
      existsb (fun dep => bool_decide (dep ∈ failedSet c ∨ dep ∈ skipped c)) deps in
    if anyDepFailed then MarkSkipped
    else if allDepsComplete then PushReady
    else Leave.

Inductive Route : Type :=
| RouteEnd
| RouteNode (nodeId : string)
| RouteThrow (msg : string).

Definition deadlock_error (pendingNodes : list string) : string :=
  "Workflow deadlock detected. Nodes still pending but none are ready: "
  +:+ join ", " pendingNodes.

Definition is_processed (entry : string * NodeStatus) : bool :=
  bool_decide (entry.2 ≠ PENDING ∧ entry.2 ≠ RUNNING).

(** [!state.statuses[id] || state.statuses[id] === 'PENDING'] *)
Definition is_pending (sts : gmap string NodeStatus) (nodeId : string) : bool :=
  bool_decide (sts !! nodeId = None ∨ sts !! nodeId = Some PENDING).

Section Graph.
Context (env : Env) (workflow : WorkflowDefinition).

(** The router node. *)
Definition router_visit (state : RunState) (c : Categories)
    (acc : list string * gmap string NodeStatus) (node : NodeDefinition)
  : M (list string * gmap string NodeStatus) :=
  let '(ready, statusUpdates) := acc in
  let nodeId := node_id node in
  match decide_node (statuses state) c node with
  | Leave => ret acc
  | MarkSkipped =>
      setNodeStatus nodeId SKIPPED;;
      ret (ready, <[nodeId := SKIPPED]> statusUpdates)
  | PushReady => ret ((ready ++ [nodeId])%list, statusUpdates)
  end.

Definition router (state : RunState) : M PartialRunState :=
  let c := categorize (statuses state) in
  let* acc := for_each (nodes workflow) (router_visit state c) ([], ∅) in
  let '(ready, statusUpdates) := acc in
  ret {| p_outputs := None; p_statuses := Some statusUpdates;
         p_next := Some ready; p_failed := None |}.

(** The conditional edge leaving the router.  It reads the state with the
    router's update already applied. *)
Definition route (state : RunState) : Route :=
  let allNodes := node_id <$> nodes workflow in
  let processedNodes := filter (fun e => is_processed e) (map_to_list (statuses state)) in
  if decide (length processedNodes = length allNodes) then RouteEnd
  else
    match next state with
    | [] =>
        let pendingNodes := filter (fun i => is_pending (statuses state) i) allNodes in
        match pendingNodes with
        | [] => RouteEnd
        | _ => RouteThrow (deadlock_error pendingNodes)
        end
    | first :: _ => RouteNode first
    end.

(** The handler registered under a node id by [graph.addNode(node.id, handler)]. *)
Definition handler_of (nodeId : string) : option NodeDefinition :=
  List.find (fun n => bool_decide (node_id n = nodeId)) (nodes workflow).

(** The checkpointer saves the state of the thread after every step. *)
Definition checkpoint (thread : option string) (state : RunState) : M unit :=
  match thread with
  | Some t => modify (fun w => set_checkpoints (<[t := state]> (w_checkpoints w)) w)
  | None => ret tt
  end.

(** [buildGraphFromWorkflow]: the nodes of the workflow are added to the
    graph in order, then the router.  LangGraph's [addNode] throws for a
    name the graph already has, so the construction throws for a workflow
    with two nodes of one id and for one with a node called [router].  The
    edges that follow are between nodes the graph has, and [compile] accepts
    the graph.  The result is the list of the names of the graph's nodes. *)
Definition addNode (names : list string) (key : string) : Res (list string) :=
  match addNode_reserved env key with
  | Some error => Throw error
  | None =>
      if decide (key ∈ names) then Throw (addNode_present env key)
      else Ok (names ++ [key])%list
  end.

Fixpoint addNodes (names : list string) (keys : list string) : Res (list string) :=
  match keys with
  | [] => Ok names
  | key :: keys' =>
      match addNode names key with
      | Ok names' => addNodes names' keys'
      | r => r
      end
  end.

Definition buildGraphFromWorkflow : Res (list string) :=
  addNodes [] ((node_id <$> nodes workflow) ++ ["router"]).

(** Running the compiled graph: START -> router -> node -> router -> ...

    LangGraph runs the graph in supersteps: [__start__], which writes the
    input into the channels, every run of the router (with its conditional
    edge) and every run of a node are one superstep each, and the
    checkpointer saves the state of the thread after every superstep.  With
    recursion limit [n], at most [n + 1] supersteps run, and unless the graph
    has come to its end within [n] of them the run throws a
    GraphRecursionError.  [run()] passes no limit, so the limit is
    LangGraph's default, [recursionLimit].

    In [graph_loop], [fuel] is the number of supersteps that may still run;
    [graph_invoke] enters it after [__start__].  A superstep whose
    conditional edge throws is not committed. *)
Definition recursionLimit : nat := 25.

Definition GraphRecursionError : string := recursion_error env.

Fixpoint graph_loop (fuel : nat) (thread : option string) (state : RunState)
  : M RunState :=
  match fuel with
  | O => throw GraphRecursionError
  | S fuel1 =>
      let* update := router state in
      let state1 := apply_update state update in
      match route state1 with
      | RouteThrow msg => throw msg
      | RouteEnd =>
          checkpoint thread state1;;
          match fuel1 with
          | O => throw GraphRecursionError
          | S _ => ret state1
          end
      | RouteNode nodeId =>
          match handler_of nodeId with
          | None => throw ("Branch condition returned unknown or null destination")
          | Some node =>
              checkpoint thread state1;;
              match fuel1 with
              | O => throw GraphRecursionError
              | S fuel2 =>
                  let* update' := createNodeHandler env node state1 in
                  let state2 := apply_update state1 update' in
                  checkpoint thread state2;;
                  graph_loop fuel2 thread state2
              end
          end
      end
  end.

(** [graph.getState(config)]: the last snapshot of the thread, if any. *)
Definition graph_getState (thread : string) : M (option RunState) := fun w =>
  (Ok (w_checkpoints w !! thread), w).

(** [graph.invoke(input, config)]: the input is written into the channels
    of the thread through the reducers, then the graph runs. *)
Definition apply_input (base input : RunState) : RunState :=
  {| vars := merge_right (vars base) (vars input);
     outputs := merge_right (outputs base) (outputs input);
     statuses := merge_right (statuses base) (statuses input);
     next := next input;
     failed := failed input |}.

Definition graph_invoke (fuel : nat) (input : option RunState)
    (thread : option string) : M RunState :=
  let* w := get_world in
  let base := default (createInitialState ∅)
                      (t ← thread; w_checkpoints w !! t) in
  let state0 := from_option (apply_input base) base input in
  checkpoint thread state0;;
  graph_loop fuel thread state0.

End Graph.

(** ** Creating and reloading the run store *)

Section Stores.
Context (env : Env).

(** [run-${Date.now()}-${Math.random().toString(36).substr(2, 9)}] *)
Definition generateThreadId : M string := fun w =>
  let tid := "run-" +:+ pretty (w_clock w) +:+ "-" +:+ random_base36 env (w_rng w) in
  (Ok tid, emit (EvGenerateThreadId tid) (set_rng (S (w_rng w)) w)).

(** [new RunStore(runDir, workflowName, threadId?)]; the thread id is
    [threadId || this.generateThreadId()]. *)
Definition RunStore_new (dir workflow_name : string) (tid : option string)
  : M RunStore :=
  let* tid' := (if decide (str_or tid "" = "") then generateThreadId
                else ret (str_or tid "")) in
  let* w := get_world in
  ret {| runDir := dir;
         metadata := {| workflowName := workflow_name;
                        threadId := tid';
                        checkpointDbPath := dir +:+ "/checkpoints.db";
                        startTime := w_clock w;
                        endTime := None;
                        run_status := Run_running;
                        meta_nodes := ∅ |} |}.

(** [store.init()] and, for the store of the context, every later [save()]
    write [run.json]. *)
Definition RunStore_init (s : RunStore) : M unit :=
  modify (fun w => set_files (<[runDir s := metadata s]> (w_files w)) w).

(** [RunStore.load(runDir)] *)
Definition RunStore_load (dir : string) : M RunMetadata := fun w =>
  match w_files w !! dir with
  | Some md => (Ok md, w)
  | None => (Throw ("ENOENT: no such file or directory, open '" +:+ dir
                    +:+ "/run.json'"), w)
  end.

(** [RunStore.loadForResume(runDir)] *)
Definition RunStore_loadForResume (dir : string) : M RunStore :=
  let* md := RunStore_load dir in
  let* store := RunStore_new dir (workflowName md) (Some (threadId md)) in
  ret {| runDir := runDir store; metadata := md |}.

End Stores.

(** ** The orchestrator (WorkflowRuntime.run over the graph) *)

Definition with_statuses (st : RunState) (sts : gmap string NodeStatus) : RunState :=
  {| vars := vars st; outputs := outputs st; statuses := sts;
     next := next st; failed := failed st |}.

Section Runtime.
Context (env : Env) (workflow : WorkflowDefinition).

Definition init_pending (acc : gmap string NodeStatus) (node : NodeDefinition)
  : M (gmap string NodeStatus) :=
  setNodeStatus (node_id node) PENDING;;
  ret (<[node_id node := PENDING]> acc).

(** NEW RUN: every node PENDING. *)
Definition fresh_state : M RunState :=
  let* initialStatuses := for_each (nodes workflow) init_pending ∅ in
  ret (with_statuses (createInitialState (default ∅ (wf_vars workflow)))
                     initialStatuses).

Definition reset_entry (acc : gmap string NodeStatus) (entry : string * NodeStatus)
  : M (gmap string NodeStatus) :=
  let '(nodeId, status) := entry in
  if decide (status = FAILED ∨ status = SKIPPED)
  then (setNodeStatus nodeId PENDING;; ret (<[nodeId := PENDING]> acc))
  else ret acc.

(** RESUME: the snapshot with its FAILED and SKIPPED nodes back to PENDING
    and [failed: undefined]. *)
Definition resume_state (values : RunState) : M RunState :=
  let* statusUpdates := for_each (map_to_list (statuses values)) reset_entry ∅ in
  ret {| vars := vars values;
         outputs := outputs values;
         statuses := merge_right (statuses values) statusUpdates;
         next := next values;
         failed := None |}.

Definition count_skipped (sts : gmap string NodeStatus) : nat :=
  length (filter (fun e => bool_decide (e.2 = SKIPPED)) (map_to_list sts)).

Definition skippedMsg (sts : gmap string NodeStatus) : string :=
  if decide (0 < count_skipped sts)%nat
  then " (" +:+ pretty (count_skipped sts) +:+ " skipped)" else "".

Definition report (finalState : RunState) : M unit :=
  match failed finalState with
  | Some f =>
      complete Run_failed;;
      throw ("Workflow failed: " +:+ failed_nodeId f +:+ " failed: "
             +:+ failed_error f +:+ skippedMsg (statuses finalState))
  | None =>
      let failedNodes :=
        fst <$> filter (fun e => bool_decide (e.2 = FAILED))
                       (map_to_list (statuses finalState)) in
      match failedNodes with
      | [] => complete Run_success
      | _ =>
          complete Run_failed;;
          throw ("Workflow failed: " +:+ join ", " failedNodes +:+ " failed"
                 +:+ skippedMsg (statuses finalState))
      end
  end.

(** [run()].  [checkpointer] tells whether the context has one;
    [ctx_threadId] is [ctx.threadId]; [fuel] is the recursion limit of the
    graph, [recursionLimit] in the program.  The graph is built first,
    before anything is written. *)
Definition WorkflowRuntime_run (fuel : nat) (checkpointer : bool)
    (ctx_threadId : option string) : M unit :=
  let* w := get_world in
  let thread := str_or ctx_threadId (getThreadId (w_store w)) in
  let isResume := bool_decide (str_or ctx_threadId "" ≠ "") in
  lift (buildGraphFromWorkflow env workflow);;
  let* initialState :=
    (if negb isResume then
       let* st := fresh_state in ret (Some st)
     else if negb checkpointer then
       throw "Cannot resume without a checkpointer"
     else
       let* checkpointState := graph_getState thread in
       match checkpointState with
       | Some values => let* st := resume_state values in ret (Some st)
       | None => ret None
       end) in
  try_catch
    (let* finalState :=
       graph_invoke env workflow fuel initialState
                    (if checkpointer then Some thread else None) in
     report finalState)
    (fun error => complete Run_failed;; throw error).

End Runtime.

(** ** The run command (src/cli/commands/run.ts)

    Reading and validating the YAML file is left out: the command starts
    from the validated workflow. *)

Record RunOptions : Type := mkRunOptions {
  opt_out : option string;
  opt_resume : bool;
}.

Definition process_exit {A} : M A := throw "process.exit(1)".

Section Command.
Context (env : Env) (workflow : WorkflowDefinition).

(** RESUME MODE: the run directory, and the thread id read from its metadata. *)
Definition resume_setup (options : RunOptions) : M (string * string) :=
  if decide (str_or (opt_out options) "" = "") then process_exit
  else
    let dir := str_or (opt_out options) "" in
    let* w := get_world in
    if negb (fs_access env (w_trace w) dir) then process_exit
    else
      let* md := try_catch (RunStore_load dir) (fun _ => process_exit) in
      let* w := get_world in
      if fs_access env (w_trace w) (dir +:+ "/checkpoints.db")
      then ret (dir, threadId md)
      else process_exit.

Definition runCommand (fuel : nat) (options : RunOptions) : M unit :=
  let* setup :=
    (if opt_resume options then
       let* r := resume_setup options in ret (r.1, Some r.2, true)
     else
       let* w := get_world in
       ret (str_or (opt_out options) (".runs/" +:+ pretty (w_clock w)), None, false)) in
  let '(dir, thread, isResume) := setup in
  let* runStore :=
    (if isResume : bool then RunStore_loadForResume env dir
     else
       let* s := RunStore_new env dir (wf_name workflow) None in
       RunStore_init s;; ret s) in
  modify (set_store runStore);;
  try_catch
    (WorkflowRuntime_run env workflow fuel true (if isResume then thread else None))
    (fun _ => process_exit).

End Command.

(** ** The earlier scheduler (the WorkflowRuntime.run that does not use
    LangGraph)

    It keeps the three sets across ticks, adds to [skipped] while it scans
    the nodes, and runs every ready node of a tick, one after the other. *)

Module Legacy.

(** The three sets of the loop.  [failed] is also listed in the order in
    which its ids were added, which is the order [Array.from(failed)] gives. *)
Record LoopState : Type := mkLoop {
  l_outputs : gmap string NodeOutput;
  l_statuses : gmap string NodeStatus;
  l_completed : gset string;
  l_failed : gset string;
  l_skipped : gset string;
  l_failed_order : list string;
}.

(** [failed.add(nodeId)] *)
Definition add_failed (nodeId : string) (s : LoopState) : LoopState :=
  mkLoop (l_outputs s) (l_statuses s) (l_completed s) ({[nodeId]} ∪ l_failed s)
         (l_skipped s)
         (if decide (nodeId ∈ l_failed s) then l_failed_order s
          else (l_failed_order s ++ [nodeId])%list).

Definition is_done (s : LoopState) (nodeId : string) : bool :=
  bool_decide (nodeId ∈ l_completed s ∨ nodeId ∈ l_failed s ∨ nodeId ∈ l_skipped s).

Section Legacy.
Context (env : Env) (workflow : WorkflowDefinition).

(** [nodeDeps]: a Map from node id to [node.deps || []]. *)
Definition nodeDeps : gmap string (list string) :=
  foldl (fun m node => <[node_id node := node_deps node]> m) ∅ (nodes workflow).

Definition scan_decision (s : LoopState) (node : NodeDefinition) : Verdict :=
  if is_done s (node_id node) then Leave
  else if decide (l_statuses s !! node_id node = Some RUNNING) then Leave
  else
    let deps := default [] (nodeDeps !! node_id node) in
    let allDepsComplete := forallb (fun dep => bool_decide (dep ∈ l_completed s)) deps in
    let anyDepFailed :=
      existsb (fun dep => bool_decide (dep ∈ l_failed s ∨ dep ∈ l_skipped s)) deps in
    if anyDepFailed then MarkSkipped
    else if allDepsComplete then PushReady
    else Leave.

(** The body of the scan over [this.workflow.nodes]. *)
Definition scan_node (acc : list string * LoopState) (node : NodeDefinition)
  : M (list string * LoopState) :=
  let '(ready, s) := acc in
  match scan_decision s node with
  | Leave => ret acc
  | MarkSkipped =>
      setNodeStatus (node_id node) SKIPPED;;
      ret (ready,
           mkLoop (l_outputs s) (<[node_id node := SKIPPED]> (l_statuses s))
                  (l_completed s) (l_failed s) ({[node_id node]} ∪ l_skipped s)
                  (l_failed_order s))
  | PushReady => ret ((ready ++ [node_id node])%list, s)
  end.

Definition scan (s : LoopState) : M (list string * LoopState) :=
  for_each (nodes workflow) scan_node ([], s).

(** [executeNode]: the state it leaves and the error it throws, if any. *)
Definition executeNode (nodeId : string) (s : LoopState)
  : M (LoopState * option string) :=
  match List.find (fun n => bool_decide (node_id n = nodeId)) (nodes workflow) with
  | None => ret (s, Some ("Node " +:+ nodeId +:+ " not found"))
  | Some node =>
      setNodeStatus nodeId RUNNING;;
      let running := <[nodeId := RUNNING]> (l_statuses s) in
      try_catch
        (let* resolvedNode :=
           lift (renderNode env {| tc_vars := default ∅ (wf_vars workflow);
                                   tc_outputs := l_outputs s; tc_item := None |} node) in
         let* output :=
           match resolvedNode with
           | NExec e => runExec env e
           | NTask taskNode =>
               match agentRegistry env (agent taskNode) with
               | None => throw ("Agent " +:+ agent taskNode +:+ " not found")
               | Some ag => runTask env ag taskNode
               end
           | other => throw ("Unsupported node kind: " +:+ kind_name other)
           end in
         setNodeOutput nodeId output;;
         setNodeStatus nodeId (final_status output);;
         ret (mkLoop (<[nodeId := output]> (l_outputs s))
                     (<[nodeId := final_status output]> running)
                     (l_completed s) (l_failed s) (l_skipped s) (l_failed_order s), None))
        (fun errorMsg =>
         setNodeError nodeId errorMsg;;
         setNodeStatus nodeId FAILED;;
         ret (mkLoop (l_outputs s) (<[nodeId := FAILED]> running)
                     (l_completed s) (l_failed s) (l_skipped s) (l_failed_order s),
              Some errorMsg))
  end.

(** [for (const nodeId of ready) { try { ... completed.add } catch { failed.add } }] *)
Definition execute_ready (s : LoopState) (nodeId : string) : M LoopState :=
  let* r := executeNode nodeId s in
  let '(s', err) := r in
  match err with
  | None => ret (mkLoop (l_outputs s') (l_statuses s')
                        ({[nodeId]} ∪ l_completed s') (l_failed s') (l_skipped s')
                        (l_failed_order s'))
  | Some _ => ret (add_failed nodeId s')
  end.

Definition still_open (s : LoopState) : list NodeDefinition :=
  filter (fun node => negb (is_done s (node_id node))) (nodes workflow).

(** The [while] loop; [fuel] bounds its iterations. *)
Fixpoint run_loop (fuel : nat) (s : LoopState) : M LoopState :=
  match fuel with
  | O => hang
  | S fuel' =>
      if decide (size (l_completed s) + size (l_failed s) + size (l_skipped s)
                 < length (nodes workflow))%nat
      then
        let* r := scan s in
        let '(ready, s1) := r in
        match ready with
        | [] =>
            match still_open s1 with
            | [] => ret s1
            | pending =>
                complete Run_failed;;
                throw (deadlock_error (node_id <$> pending))
            end
        | _ =>
            let* s2 := for_each ready execute_ready s1 in
            run_loop fuel' s2
        end
      else ret s
  end.

(** [run()] *)
Definition run (fuel : nat) : M unit :=
  let init := mkLoop ∅ (foldl (fun m node => <[node_id node := PENDING]> m) ∅
                              (nodes workflow)) ∅ ∅ ∅ [] in
  let* s := run_loop fuel init in
  if decide (0 < size (l_failed s))%nat then
    complete Run_failed;;
    throw ("Workflow failed: " +:+ join ", " (l_failed_order s) +:+ " failed"
           +:+ (if decide (0 < size (l_skipped s))%nat
                then " (" +:+ pretty (size (l_skipped s)) +:+ " skipped)" else ""))
  else complete Run_success.

End Legacy.
End Legacy.

(** * More of the engine

    ** The execution plan (src/cli/commands/plan.ts)

    [planCommand] prints the levels of the plan; [generateAsciiDiagram] of
    src/cli/commands/visualize.ts computes the same levels with the same
    loop before it draws them. *)

Module Plan.
Section Plan.
Context (workflow : WorkflowDefinition).

(** [nodeDeps]: a Map from node id to [node.deps || []]. *)
Definition nodeDeps : gmap string (list string) :=
  foldl (fun m node => <[node_id node := node_deps node]> m) ∅ (nodes workflow).

(** The body of the [for] loop: is the node pushed to [currentLevel]? *)
Definition in_level (processed : gset string) (node : NodeDefinition) : bool :=
  if decide (node_id node ∈ processed) then false
  else
    let deps := default [] (nodeDeps !! node_id node) in
    forallb (fun dep => bool_decide (dep ∈ processed)) deps.

Definition current_level (processed : gset string) : list string :=
  node_id <$> filter (fun node => in_level processed node) (nodes workflow).

(** The [while] loop; [fuel] bounds its iterations, [None] is a loop that
    has not ended yet. *)
Fixpoint levels_loop (fuel : nat) (levels : list (list string))
    (processed : gset string) : option (list (list string)) :=
  match fuel with
  | O => None
  | S fuel' =>
      if decide (size processed < length (nodes workflow))%nat then
        let currentLevel := current_level processed in
        if decide (length currentLevel = 0%nat) then Some levels
        else levels_loop fuel' (levels ++ [currentLevel])
                         (processed ∪ list_to_set currentLevel)
      else Some levels
  end.

Definition plan_levels (fuel : nat) : option (list (list string)) :=
  levels_loop fuel [] ∅.

End Plan.
End Plan.

(** ** The first graph builder (src/runtime/graph/builder.ts)

    [buildGraphFromYaml] gives every node a handler and draws the
    dependencies as edges of the graph.  Its channels have no reducer: what
    a handler returns for a channel replaces the channel. *)

Module Builder.
Section Builder.
Context (env : Env) (workflow : WorkflowDefinition).

(** The handler given to [graph.addNode(node.id, nodeHandler)]. *)
Definition nodeHandler (node : NodeDefinition) (state : RunState)
  : M PartialRunState :=
  let nodeId := node_id node in
  try_catch
    (setNodeStatus nodeId RUNNING;;
     let* resolvedNode :=
       lift (renderNode env {| tc_vars := vars state; tc_outputs := outputs state;
                               tc_item := None |} node) in
     let* output :=
       match resolvedNode with
       | NExec e => runExec env e
       | NTask taskNode =>
           match agentRegistry env (agent taskNode) with
           | None => throw ("Agent " +:+ agent taskNode +:+ " not found")
           | Some ag => runTask env ag taskNode
           end
       | other => throw ("Unsupported node kind: " +:+ kind_name other)
       end in
     setNodeOutput nodeId output;;
     setNodeStatus nodeId (final_status output);;
     ret {| p_outputs := Some (<[nodeId := output]> (outputs state));
            p_statuses := Some (<[nodeId := final_status output]> (statuses state));
            p_next := None; p_failed := None |})
    (fun errorMsg =>
     setNodeError nodeId errorMsg;;
     setNodeStatus nodeId FAILED;;
     ret {| p_outputs := None;
            p_statuses := Some (<[nodeId := FAILED]> (statuses state));
            p_next := None;
            p_failed := Some (Some (mkFailed nodeId errorMsg)) |}).

(** A channel without a reducer keeps the last value written to it. *)
Definition apply_last (st : RunState) (u : PartialRunState) : RunState :=
  {| vars := vars st;
     outputs := default (outputs st) (p_outputs u);
     statuses := default (statuses st) (p_statuses u);
     next := default (next st) (p_next u);
     failed := default (failed st) (p_failed u) |}.

(** The calls of [graph.addEdge], in their order: from the start to the
    nodes without dependencies, from every dependency to its dependent, from
    the nodes nothing depends on to the end. *)
Definition start_edges : list (string * string) :=
  (fun n => ("__start__", node_id n))
    <$> filter (fun n => node_deps n = []) (nodes workflow).

Definition dep_edges : list (string * string) :=
  n ← nodes workflow; (fun depId => (depId, node_id n)) <$> node_deps n.

Definition nodesDependedOn : gset string :=
  list_to_set (n ← nodes workflow; node_deps n).

Definition end_edges : list (string * string) :=
  (fun n => (node_id n, "__end__"))
    <$> filter (fun n => node_id n ∉ nodesDependedOn) (nodes workflow).

Definition edges : list (string * string) :=
  (start_edges ++ dep_edges ++ end_edges)%list.

End Builder.
End Builder.

(** ** The Mermaid diagram (generateMermaidDiagram of
    src/cli/commands/visualize.ts) *)

Module Mermaid.

Definition getNodeShape (kind : string) : string * string :=
  if decide (kind = "exec") then ("[", "]")
  else if decide (kind = "task") then ("[[", "]]")
  else if decide (kind = "map") then ("{{", "}}")
  else if decide (kind = "reduce") then ("([", "])")
  else ("[", "]").

Section Mermaid.
Context (workflow : WorkflowDefinition).

Definition node_line (node : NodeDefinition) : string :=
  let label := str_or (name (node_base node)) (node_id node) in
  let shape := getNodeShape (kind_name node) in
  "  " +:+ node_id node +:+ shape.1 +:+ label +:+ "<br/><i>" +:+ kind_name node
  +:+ "</i>" +:+ shape.2.

(** The edges a node adds: from START if it has no dependencies, else from
    each of them. *)
Definition edge_lines_of (node : NodeDefinition) : list string :=
  let deps := node_deps node in
  if decide (length deps = 0%nat) then ["  START --> " +:+ node_id node]
  else (fun depId => "  " +:+ depId +:+ " --> " +:+ node_id node) <$> deps.

Definition nodesWithDependents : gset string :=
  list_to_set (n ← nodes workflow;
               if decide (length (node_deps n) = 0%nat) then [] else node_deps n).

Definition edge_lines : list string :=
  ((n ← nodes workflow; edge_lines_of n) ++
   ((fun n => "  " +:+ node_id n +:+ " --> END")
      <$> filter (fun n => node_id n ∉ nodesWithDependents) (nodes workflow)))%list.

Definition ids_of_kind (kind : string) : list string :=
  node_id <$> filter (fun n => kind_name n = kind) (nodes workflow).

Definition class_line (kind cls : string) : list string :=
  if decide (0 < length (ids_of_kind kind))%nat
  then ["  class " +:+ join "," (ids_of_kind kind) +:+ " " +:+ cls]
  else [].

Definition generateMermaidDiagram : string :=
  join (String "010"%char "")
    (["graph TD"; "  START([START])"]
     ++ (node_line <$> nodes workflow)
     ++ ["  END([END])"]
     ++ edge_lines
     ++ [""; "  classDef execNode fill:#e1f5ff,stroke:#01579b,stroke-width:2px";
         "  classDef taskNode fill:#f3e5f5,stroke:#4a148c,stroke-width:2px";
         "  classDef mapNode fill:#fff3e0,stroke:#e65100,stroke-width:2px";
         "  classDef reduceNode fill:#e8f5e9,stroke:#1b5e20,stroke-width:2px"]
     ++ class_line "exec" "execNode" ++ class_line "task" "taskNode"
     ++ class_line "map" "mapNode" ++ class_line "reduce" "reduceNode")%list.

End Mermaid.
End Mermaid.

(** ** The agents (src/runtime/agents)

    The three agents are stubs: they echo the prompt and the inputs with a
    fixed response.  Their two calls of [log] go to the console and are left
    out, as all logging is. *)

Definition stub_agent (agentName label response : string) : Agent :=
  {| agent_name := agentName;
     agent_run := fun _ ctx =>
       Ok {| ar_result := JObj [("agent", JStr agentName);
                                ("prompt", JStr (ac_prompt ctx));
                                ("inputs", JObj (ac_inputs ctx));
                                ("response", JStr response)];
             ar_logs := Some [label +:+ " agent executed (stub)"];
             ar_createdArtifacts := Some [] |} |}.

Definition CursorAgent : Agent :=
  stub_agent "cursor" "Cursor"
    "This is a stub implementation of the Cursor agent. Integrate with actual Cursor CLI or API.".

Definition AugieAgent : Agent :=
  stub_agent "augie" "Augie"
    "This is a stub implementation of the Augie agent. Integrate with actual Augie API.".

Definition CloudCodeAgent : Agent :=
  stub_agent "cloud_code" "CloudCode"
    "This is a stub implementation of the CloudCode agent. Integrate with actual CloudCode API.".

(** The registry is a Map from names to agents: it keeps the order in which
    the names were first set. *)
Module AgentRegistry.

Definition t : Type := list (string * Agent).

(** [this.agents.set(agent.name, agent)] *)
Fixpoint map_set (key : string) (a : Agent) (m : t) : t :=
  match m with
  | [] => [(key, a)]
  | (k, b) :: rest => if decide (k = key) then (k, a) :: rest
                      else (k, b) :: map_set key a rest
  end.

Definition register (a : Agent) (m : t) : t := map_set (agent_name a) a m.

Definition get (nm : string) (m : t) : option Agent :=
  snd <$> List.find (fun e => bool_decide (e.1 = nm)) m.

Definition has (nm : string) (m : t) : bool :=
  bool_decide (nm ∈ m.*1).

Definition list (m : t) : list string := m.*1.

(** The constructor. *)
Definition new : t :=
  register CloudCodeAgent (register AugieAgent (register CursorAgent [])).

End AgentRegistry.

(** * The vocabulary of the statements

    Predicates and pure readings of the code in which the properties below
    are stated. *)

(** ** Statuses, the router, the scan *)

Definition dep_complete (sts : gmap string NodeStatus) (dep : string) : Prop :=
  sts !! dep = Some SUCCESS ∨ sts !! dep = Some CACHED.

Definition dep_blocked (sts : gmap string NodeStatus) (dep : string) : Prop :=
  sts !! dep = Some FAILED ∨ sts !! dep = Some SKIPPED.

Definition open_status (sts : gmap string NodeStatus) (nodeId : string) : Prop :=
  sts !! nodeId = None ∨ sts !! nodeId = Some PENDING.

(** The router's loop as a fold without effects. *)
Definition router_step (sts : gmap string NodeStatus) (c : Categories)
    (acc : list string * gmap string NodeStatus) (node : NodeDefinition)
  : list string * gmap string NodeStatus :=
  match decide_node sts c node with
  | Leave => acc
  | MarkSkipped => (acc.1, <[node_id node := SKIPPED]> acc.2)
  | PushReady => ((acc.1 ++ [node_id node])%list, acc.2)
  end.

Definition pushes (sts : gmap string NodeStatus) (node : NodeDefinition) : Prop :=
  decide_node sts (categorize sts) node = PushReady.

Definition skips (sts : gmap string NodeStatus) (node : NodeDefinition) : Prop :=
  decide_node sts (categorize sts) node = MarkSkipped.

#[global] Instance pushes_dec sts node : Decision (pushes sts node).
Proof. unfold pushes. apply _. Defined.

#[global] Instance skips_dec sts node : Decision (skips sts node).
Proof. unfold skips. apply _. Defined.

(** The frontier and the status updates the router returns. *)
Definition router_ready (wf : WorkflowDefinition) (sts : gmap string NodeStatus)
  : list string :=
  node_id <$> filter (pushes sts) (nodes wf).

Definition router_skipped (wf : WorkflowDefinition) (sts : gmap string NodeStatus)
  : list string :=
  node_id <$> filter (skips sts) (nodes wf).

Definition router_updates (wf : WorkflowDefinition) (sts : gmap string NodeStatus)
  : gmap string NodeStatus :=
  (foldl (router_step sts (categorize sts)) ([], ∅) (nodes wf)).2.

Definition router_result (wf : WorkflowDefinition) (sts : gmap string NodeStatus)
  : PartialRunState :=
  {| p_outputs := None; p_statuses := Some (router_updates wf sts);
     p_next := Some (router_ready wf sts); p_failed := None |}.

Definition node_ids (wf : WorkflowDefinition) : list string := node_id <$> nodes wf.

(** Every key of the status map is the id of a node of the workflow. *)
Definition statuses_of (wf : WorkflowDefinition) (sts : gmap string NodeStatus) : Prop :=
  ∀ k, is_Some (sts !! k) → k ∈ node_ids wf.

(** The state the conditional edge reads after the router ran on [state]. *)
Definition after_router (wf : WorkflowDefinition) (state : RunState) : RunState :=
  apply_update state (router_result wf (statuses state)).

Definition scan_step (wf : WorkflowDefinition) (acc : list string * Legacy.LoopState)
    (node : NodeDefinition) : list string * Legacy.LoopState :=
  match Legacy.scan_decision wf acc.2 node with
  | Leave => acc
  | MarkSkipped =>
      (acc.1,
       Legacy.mkLoop (Legacy.l_outputs acc.2)
         (<[node_id node := SKIPPED]> (Legacy.l_statuses acc.2))
         (Legacy.l_completed acc.2) (Legacy.l_failed acc.2)
         ({[node_id node]} ∪ Legacy.l_skipped acc.2) (Legacy.l_failed_order acc.2))
  | PushReady => ((acc.1 ++ [node_id node])%list, acc.2)
  end.

(** The three sets say what the statuses say. *)
Definition coherent (s : Legacy.LoopState) : Prop :=
  ∀ k, (k ∈ Legacy.l_completed s ↔ dep_complete (Legacy.l_statuses s) k) ∧
       (k ∈ Legacy.l_failed s ↔ Legacy.l_statuses s !! k = Some FAILED) ∧
       (k ∈ Legacy.l_skipped s ↔ Legacy.l_statuses s !! k = Some SKIPPED).

Definition frontier (r : Res PartialRunState * World) : list string :=
  match r.1 with Ok u => default [] (p_next u) | _ => [] end.

Definition status_updates (r : Res PartialRunState * World) : gmap string NodeStatus :=
  match r.1 with Ok u => default ∅ (p_statuses u) | _ => ∅ end.

Definition legacy_frontier (r : Res (list string * Legacy.LoopState) * World)
  : list string :=
  match r.1 with Ok x => x.1 | _ => [] end.

Definition legacy_statuses (r : Res (list string * Legacy.LoopState) * World)
  : gmap string NodeStatus :=
  match r.1 with Ok x => Legacy.l_statuses x.2 | _ => ∅ end.

(** ** Traces, and what a computation may change *)

Definition trace_ext (P : Event → Prop) (w w' : World) : Prop :=
  ∃ evs, w_trace w' = (w_trace w ++ evs)%list ∧ Forall P evs.

(** [steps R m]: whatever [m] does and however it ends, the world it
    leaves is related by [R] to the world it started in. *)
Definition steps {A} (R : relation World) (m : M A) : Prop :=
  ∀ w, R w (m w).2.

(** [emits P m]: [m] only adds events that satisfy [P] to the trace. *)
Definition emits {A} (P : Event → Prop) (m : M A) : Prop :=
  steps (trace_ext P) m.

(** The events of the executors: cache reads and writes, spawns, kills and
    agent calls. *)
Definition executor_event (e : Event) : Prop :=
  match e with
  | EvCacheGet _ | EvCachePut _ _ | EvSpawn _ _ _ | EvKill _ | EvAgentRun _ _ => True
  | EvSetNodeStatus _ _ | EvGenerateThreadId _ => False
  end.

(** The events of a process or an agent. *)
Definition process_event (e : Event) : Prop :=
  match e with
  | EvSpawn _ _ _ | EvKill _ | EvAgentRun _ _ => True
  | _ => False
  end.

(** Relations between worlds that hold across what a process or an agent
    does, and across everything an executor does. *)
Class ProcessStable (R : relation World) : Prop := {
  ps_preorder :: PreOrder R;
  ps_emit : ∀ w e, process_event e → R w (emit e w);
  ps_clock : ∀ w t, R w (set_clock t w);
}.

Class ExecutorStable (R : relation World) : Prop := {
  es_process :: ProcessStable R;
  es_get : ∀ w key, R w (emit (EvCacheGet key) w);
  es_put : ∀ w key value,
    R w (emit (EvCachePut key value) (set_cache (<[key := value]> (w_cache w)) w));
}.

(** [quiet w w']: from [w] to [w'] the cache was neither read nor written. *)
Definition quiet (w w' : World) : Prop :=
  w_cache w' = w_cache w ∧ trace_ext process_event w w'.

(** A handler writes the status of its own node and nothing else of the
    run store's statuses. *)
Definition handler_event (nodeId : string) (e : Event) : Prop :=
  executor_event e ∨ ∃ st, e = EvSetNodeStatus nodeId st.

(** An event of the run either belongs to an executor or writes the status
    of a node. *)
Definition run_event (P : string → Prop) (e : Event) : Prop :=
  executor_event e ∨ ∃ k st, e = EvSetNodeStatus k st ∧ P k.

(** The statuses a resume starts from. *)
Definition reset_status (s : NodeStatus) : NodeStatus :=
  match s with FAILED | SKIPPED => PENDING | _ => s end.

Definition reset_step (acc : gmap string NodeStatus) (entry : string * NodeStatus)
  : gmap string NodeStatus :=
  if decide (entry.2 = FAILED ∨ entry.2 = SKIPPED) then <[entry.1 := PENDING]> acc
  else acc.

Definition resets (sts : gmap string NodeStatus) (e : Event) : Prop :=
  ∃ k, e = EvSetNodeStatus k PENDING ∧ dep_blocked sts k.

Definition resumed (values : RunState) : RunState :=
  {| vars := vars values;
     outputs := outputs values;
     statuses := merge_right (statuses values)
                   (foldl reset_step ∅ (map_to_list (statuses values)));
     next := next values;
     failed := None |}.

Definition writes_status (k : string) (e : Event) : Prop :=
  ∃ st, e = EvSetNodeStatus k st.

(** No event writes the status of a node that the snapshot has as SUCCESS
    or CACHED. *)
Definition spares_completed (sts : gmap string NodeStatus) (e : Event) : Prop :=
  ∀ k, dep_complete sts k → ¬ writes_status k e.

(** ** Cache keys, and the child of a command node *)

(** [post Q m]: when [m] returns a value, [Q] holds of it. *)
Definition post {A} (Q : A → Prop) (m : M A) : Prop :=
  ∀ w a w', m w = (Ok a, w') → Q a.

Section CacheKeys.
Context (env : Env).

(** The cache key of a sub-spec that opts into caching, and of a node: a
    command or delegated-task node is resolved by the handler; a fan-in node
    runs its resolved sub-spec; a fan-out node has no key of its own, and
    neither has a node whose templates do not render. *)
Definition body_cache_key (body : BodyNode) : option string :=
  match body with
  | BExec spec => if exec_caches spec then Some (exec_key env spec) else None
  | BTask spec =>
      match agentRegistry env (agent spec) with
      | Some ag => if task_caches spec then Some (task_key env ag spec) else None
      | None => None
      end
  | BOther _ => None
  end.

Definition resolved (state : RunState) (node : NodeDefinition) : Res NodeDefinition :=
  renderNode env {| tc_vars := vars state; tc_outputs := outputs state;
                    tc_item := None |} node.

Definition node_cache_key (state : RunState) (node : NodeDefinition) : option string :=
  match node with
  | NMap _ => None
  | NReduce r =>
      match renderBody env {| tc_vars := vars state; tc_outputs := outputs state;
                              tc_item := None |} (reduce_body r) with
      | Ok body => body_cache_key body
      | _ => None
      end
  | _ =>
      match resolved state node with
      | Ok (NExec spec) => body_cache_key (BExec spec)
      | Ok (NTask spec) => body_cache_key (BTask spec)
      | _ => None
      end
  end.

End CacheKeys.

(** What a cached output keeps of the cache entry. *)
Definition payload (o : NodeOutput) : JSON * list string * option (list string) :=
  (result o, artifacts o, logs o).

Section Child.
Context (env : Env).

(** The cache is not consulted or has no entry for the node. *)
Definition cache_misses (spec : ExecNode) (w : World) : Prop :=
  exec_caches spec = false ∨ w_cache w !! exec_key env spec = None.

(** The world in which the child is spawned, and the child. *)
Definition before_spawn (spec : ExecNode) (w : World) : World :=
  if exec_caches spec then emit (EvCacheGet (exec_key env spec)) w else w.

Definition child_of (spec : ExecNode) (w : World) : ProcBehaviour :=
  spawn env (w_trace (before_spawn spec w)) (command spec) (default [] (args spec))
        (default (process_cwd env) (exec_cwd spec))
        (process_env env ++ default [] (exec_env spec)).

Definition spawned (spec : ExecNode) (w : World) : World :=
  emit (EvSpawn (command spec) (default [] (args spec))
                (default (process_cwd env) (exec_cwd spec)))
       (before_spawn spec w).

End Child.

(** ** Asynchronous functions *)

(** Whatever else is under way and whenever [p] is resumed: every turn of
    [p] is an [R]-step of the world; [p] ends with a result that satisfies
    [P]; [p] is suspended at most [n] more times. *)
Fixpoint each_turn {A} (R : relation World) (p : Async A) : Prop :=
  match p with
  | Resume run =>
      ∀ w, R w (run w).2 ∧
           match run w with
           | (Ok (inr p'), _) => each_turn R p'
           | _ => True
           end
  end.

Fixpoint yields {A} (P : Res A → Prop) (p : Async A) : Prop :=
  match p with
  | Resume run =>
      ∀ w, match run w with
           | (Ok (inl a), _) => P (Ok a)
           | (Ok (inr p'), _) => yields P p'
           | (Throw e, _) => P (Throw e)
           | (Hang, _) => P Hang
           end
  end.

Fixpoint awaits_le {A} (n : nat) (p : Async A) : Prop :=
  ∀ w, match resume p w with
       | (Ok (inr p'), _) =>
           match n with
           | O => False
           | S n' => awaits_le n' p'
           end
       | _ => True
       end.

(** There are worlds in which [p] ends with [r]. *)
Fixpoint can_yield {A} (r : Res A) (p : Async A) : Prop :=
  match p with
  | Resume run =>
      ∃ w, match run w with
           | (Ok (inl a), _) => r = Ok a
           | (Ok (inr p'), _) => can_yield r p'
           | (Throw e, _) => r = Throw e
           | (Hang, _) => r = Hang
           end
  end.

(** ** The state of a fan-out *)

(** The states a fan-out goes through, turn by turn. *)
Fixpoint fan_history (env : Env) (fuel : nat) (body : nat → M (JSON + Async JSON))
    (s : FanOut) (w : World) : list FanOut :=
  s :: match fuel with
       | O => []
       | S fuel' =>
           let '(s', w') := fan_step env body s w in
           fan_history env fuel' body s' w'
       end.

(** The fan-out of [runMap] over [items]: the fan-out and the world once
    the first calls are made, the states the fan-out then goes through, one
    per turn, and the last of them ([map_end]), whose outcome [Promise.all]
    gives. *)
Definition map_start (env : Env) (spec : MapNode) (vs : gmap string JSON)
    (outs : gmap string NodeOutput) (items : list JSON) (w : World) : FanOut * World :=
  fan_init (item_body env spec vs outs items) (length items) w.

Definition map_history (env : Env) (spec : MapNode) (vs : gmap string JSON)
    (outs : gmap string NodeOutput) (items : list JSON) (w : World) : list FanOut :=
  let start := map_start env spec vs outs items w in
  fan_history env (fan_turns env spec vs outs items) (item_body env spec vs outs items)
              start.1 start.2.

(** The fan-out and the world when nothing is left to resume. *)
Definition map_end (env : Env) (spec : MapNode) (vs : gmap string JSON)
    (outs : gmap string NodeOutput) (items : list JSON) (w : World) : FanOut * World :=
  let start := map_start env spec vs outs items w in
  fan_run env (fan_turns env spec vs outs items) (item_body env spec vs outs items)
          start.1 start.2.

(** The output [runMap] builds from the outcome of the fan-out. *)
Definition map_output (n : nat) (outcome : Res (list JSON)) : Res NodeOutput :=
  match outcome with
  | Ok results =>
      Ok {| result := JArr results; artifacts := [];
            logs := Some ["Processed " +:+ pretty n +:+ " items"];
            hash := None; cached := Some false |}
  | Throw e => Throw e
  | Hang => Hang
  end.

(** An invariant of the fan-out is kept by every call of a queued item
    that finds a free slot and by every turn of a running item. *)
Definition kept_by_calls (body : nat → M (JSON + Async JSON)) (I : FanOut → Prop) : Prop :=
  ∀ i queue s w, I (with_queue (i :: queue) s) → (activeCount s < concurrency)%nat →
    I (with_queue queue (settle i (body i w).1 s)).

Definition kept_by_turns (I : FanOut → Prop) : Prop :=
  ∀ k i p s w, fo_running s !! k = Some (i, p) → I s →
    I (settle i (resume p w).1 (without_item k s)).

(** The queue is empty or every slot is taken. *)
Definition slots_used (s : FanOut) : Prop :=
  fo_queue s = [] ∨ (concurrency ≤ activeCount s)%nat.

(** The fan-out of [n] items in which the function of item [i] gives
    [g i]: nothing is rejected or stuck, and every item is in the queue,
    under way or has its value at its position. *)
Definition all_ok (g : nat → JSON) (n : nat) (s : FanOut) : Prop :=
  fo_rejected s = None ∧ fo_stuck s = [] ∧ length (fo_values s) = n ∧
  Forall (fun ip : nat * Async JSON =>
            (ip.1 < n)%nat ∧ yields (fun r => r = Ok (g ip.1)) ip.2) (fo_running s) ∧
  Forall (fun i => (i < n)%nat) (fo_queue s) ∧
  ∀ i, (i < n)%nat →
       i ∈ fo_queue s ∨ i ∈ running_items s ∨ fo_values s !! i = Some (Some (g i)).

(** The fan-out of [n] items in which no function hangs and the function
    of item [i0] throws: a rejection is an error that an item can throw,
    and until there is one, item [i0] is in the queue or under way. *)
Definition one_fails (body : nat → M (JSON + Async JSON)) (i0 n : nat) (s : FanOut) : Prop :=
  fo_stuck s = [] ∧
  Forall (fun ip : nat * Async JSON =>
            (ip.1 < n)%nat ∧ yields (fun r => r ≠ Hang) ip.2 ∧
            (ip.1 = i0 → yields (fun r => ∃ e, r = Throw e) ip.2) ∧
            ∀ r, can_yield r ip.2 → can_yield r (Resume (body ip.1))) (fo_running s) ∧
  Forall (fun i => (i < n)%nat) (fo_queue s) ∧
  match fo_rejected s with
  | Some e => ∃ i, (i < n)%nat ∧ can_yield (Throw e) (Resume (body i))
  | None => i0 ∈ fo_queue s ∨ i0 ∈ running_items s
  end.

(** What is left to do in a fan-out: one turn for every running item and
    one for each of the awaits it may still go through, and the awaits of
    the items in the queue. *)
Definition turns_left (bound : nat → nat) (s : FanOut) (turns : nat) : Prop :=
  ∃ ns, Forall2 (fun (ip : nat * Async JSON) n => awaits_le n ip.2) (fo_running s) ns ∧
        (length (fo_running s) + sum_list ns + sum_list (bound <$> fo_queue s) ≤ turns)%nat.

(** ** Thread ids *)

(** Relations between worlds that hold across everything a run does. *)
Class RunStable (R : relation World) : Prop := {
  rs_executor :: ExecutorStable R;
  rs_setNodeStatus : ∀ nodeId status, steps R (setNodeStatus nodeId status);
  rs_setNodeOutput : ∀ nodeId output, steps R (setNodeOutput nodeId output);
  rs_setNodeError : ∀ nodeId error, steps R (setNodeError nodeId error);
  rs_complete : ∀ status, steps R (complete status);
  rs_checkpoints : ∀ w c, R w (set_checkpoints c w);
}.

(** The thread ids generated so far. *)
Definition generated (tr : list Event) : list string :=
  omap (fun e => match e with EvGenerateThreadId t => Some t | _ => None end) tr.

(** The run store of the context works on [dir] with thread id [tid], and
    so does [run.json] in [dir] if it exists. *)
Definition thread_inv (dir tid : string) (w : World) : Prop :=
  runDir (w_store w) = dir ∧ threadId (metadata (w_store w)) = tid ∧
  ∀ md, w_files w !! dir = Some md → threadId md = tid.

Definition thread_rel (dir tid : string) (w w' : World) : Prop :=
  (thread_inv dir tid w → thread_inv dir tid w') ∧
  (thread_inv dir tid w → is_Some (w_files w !! dir) → is_Some (w_files w' !! dir)) ∧
  generated (w_trace w') = generated (w_trace w).

(** [run.json] in [dir] exists and records the thread id [tid]. *)
Definition dir_thread (dir tid : string) (w : World) : Prop :=
  ∃ md, w_files w !! dir = Some md ∧ threadId md = tid.

Section FreshRun.
Context (env : Env) (wf : WorkflowDefinition).

Definition fresh_tid (w : World) : string :=
  "run-" +:+ pretty (w_clock w) +:+ "-" +:+ random_base36 env (w_rng w).

Definition fresh_store (dir : string) (w : World) : RunStore :=
  {| runDir := dir;
     metadata := {| workflowName := wf_name wf; threadId := fresh_tid w;
                    checkpointDbPath := dir +:+ "/checkpoints.db";
                    startTime := w_clock w; endTime := None;
                    run_status := Run_running; meta_nodes := ∅ |} |}.

(** The world in which a new run starts: the id is generated, the store is
    created, [run.json] is written. *)
Definition fresh_world (dir : string) (w : World) : World :=
  mkWorld (w_cache w) (<[dir := metadata (fresh_store dir w)]> (w_files w))
          (fresh_store dir w) (w_checkpoints w) (w_clock w) (S (w_rng w))
          (w_trace w ++ [EvGenerateThreadId (fresh_tid w)]).

End FreshRun.

(** ** The statuses a new run starts with *)

Definition all_pending (ns : list NodeDefinition) (acc : gmap string NodeStatus)
  : gmap string NodeStatus :=
  foldl (fun m node => <[node_id node := PENDING]> m) acc ns.

(** ** The invariant of the earlier scheduler *)

Definition legacy_inv (wf : WorkflowDefinition) (s : Legacy.LoopState) : Prop :=
  coherent s ∧ ∀ k, Legacy.is_done s k = true → k ∈ node_ids wf.

(** The state [run] starts the loop in. *)
Definition legacy_init (wf : WorkflowDefinition) : Legacy.LoopState :=
  Legacy.mkLoop ∅ (all_pending (nodes wf) ∅) ∅ ∅ ∅ [].

(** What [executeNode] leaves of the state it was given. *)
Definition executed (s : Legacy.LoopState) (nodeId : string)
    (r : Legacy.LoopState * option string) : Prop :=
  Legacy.l_completed r.1 = Legacy.l_completed s ∧
  Legacy.l_failed r.1 = Legacy.l_failed s ∧
  Legacy.l_skipped r.1 = Legacy.l_skipped s ∧
  (∀ k, k ≠ nodeId → Legacy.l_statuses r.1 !! k = Legacy.l_statuses s !! k) ∧
  match r.2 with
  | None => dep_complete (Legacy.l_statuses r.1) nodeId
  | Some _ => Legacy.l_statuses r.1 !! nodeId = Some FAILED
  end.

(** * Worked examples: an environment, workflows, worlds

    A small environment: [echo] prints its arguments, [false] exits with 1,
    [sleep] closes after five seconds, [yes] never closes; the hash is a
    readable stand-in for sha256; templates substitute the fan-out item. *)

Definition demo_hash (payload : JSON) : string :=
  match payload with
  | JObj (_ :: (_, JStr c) :: (_, JArr xs) :: _) =>
      "exec:" +:+ c +:+ ":" +:+
      join "," ((fun x => match x with JStr s => s | _ => "" end) <$> xs)
  | JObj (_ :: (_, JStr a) :: (_, JStr p) :: _) => "task:" +:+ a +:+ ":" +:+ p
  | _ => "?"
  end.

Definition demo_spawn (tr : list Event) (cmd : string) (argv : list string)
    (cwd : string) (e : list (string * string)) : ProcBehaviour :=
  if decide (cmd = "echo") then ProcClose 1 (Some 0) (join " " argv +:+ " ") ""
  else if decide (cmd = "false") then ProcClose 1 (Some 1) "" " boom "
  else if decide (cmd = "sleep") then ProcClose 5000 (Some 0) "" ""
  else if decide (cmd = "yes") then ProcNever
  else ProcError ("spawn " +:+ cmd +:+ " ENOENT").

Definition demo_agent : Agent :=
  {| agent_name := "augie";
     agent_run := fun _ c =>
       Ok {| ar_result := JStr (ac_prompt c); ar_logs := None;
             ar_createdArtifacts := None |} |}.

Definition with_item (item : option JSON) (body : BodyNode) : BodyNode :=
  match item, body with
  | Some (JStr x), BExec e =>
      if decide (x = "bad")
      then BExec (mkExec (exec_base e) "false" (args e) (exec_cwd e) (exec_env e)
                         (produces e))
      else BExec (mkExec (exec_base e) (command e) (Some [x]) (exec_cwd e)
                         (exec_env e) (produces e))
  | _, _ => body
  end.

Definition demo_env_with (choose : list Event → list nat → nat) : Env :=
  {| hashInputs := demo_hash;
     process_cwd := "/work";
     process_env := [];
     spawn := demo_spawn;
     path_resolve := fun p => "/work/" +:+ p;
     fs_access := fun _ _ => true;
     fs_readFile := fun _ _ => Ok "{}";
     JSON_parse := fun text =>
       if decide (text = "{}") then Ok (JObj []) else Throw "Unexpected end of JSON input";
     agentRegistry := fun n => if decide (n = "augie") then Some demo_agent else None;
     addNode_reserved := fun key =>
       if decide (key ∈ ["__start__"; "__end__"])
       then Some ("Node `" +:+ key +:+ "` is reserved.")
       else if decide (key ∈ ["vars"; "outputs"; "statuses"; "next"; "failed"])
       then Some (key +:+ " is already being used as a state attribute (a.k.a. a channel), cannot also be used as a node name.")
       else None;
     addNode_present := fun key => "Node `" +:+ key +:+ "` already present.";
     recursion_error := "Recursion limit of 25 reached without hitting a stop condition.";
     renderNode := fun _ n => Ok n;
     renderBody := fun tc b => Ok (with_item (tc_item tc) b);
     render := fun _ s => Ok s;
     renderValue := fun _ v => Ok v;
     random_base36 := fun n => "r" +:+ pretty n;
     pick := choose |}.

(** The running item started first settles first ... *)
Definition demo_env : Env := demo_env_with (fun _ _ => 0%nat).

(** ... or the one started last. *)
Definition demo_env_lifo : Env :=
  demo_env_with (fun _ running => (length running - 1)%nat).

Definition base (i : string) (ds : list string) (det : option bool)
    (tmo : option Z) : BaseNode :=
  {| id := i; name := None; deps := Some ds; deterministic := det;
     timeout := tmo; retries := None |}.

Definition exec_spec (i : string) (ds : list string) (det : option bool)
    (tmo : option Z) (cmd : string) (argv : list string) : ExecNode :=
  {| exec_base := base i ds det tmo; command := cmd; args := Some argv;
     exec_cwd := None; exec_env := None; produces := None |}.

Definition exec_node (i : string) (ds : list string) (cmd : string)
    (argv : list string) : NodeDefinition :=
  NExec (exec_spec i ds None None cmd argv).

Definition demo_store : RunStore :=
  {| runDir := ".runs/demo";
     metadata := {| workflowName := "demo"; threadId := "run-0-r0";
                    checkpointDbPath := ".runs/demo/checkpoints.db";
                    startTime := 0; endTime := None; run_status := Run_running;
                    meta_nodes := ∅ |} |}.

Definition demo_world : World :=
  {| w_cache := ∅; w_files := ∅; w_store := demo_store; w_checkpoints := ∅;
     w_clock := 0; w_rng := 0; w_trace := [] |}.

(** A -> B -> C, where A's command fails. *)
Definition chain : WorkflowDefinition :=
  {| wf_name := "chain"; wf_vars := None;
     nodes := [exec_node "A" [] "false" [];
               exec_node "B" ["A"] "echo" ["b"];
               exec_node "C" ["B"] "echo" ["c"]] |}.

(** The same workflow with C listed before B. *)
Definition chain_reordered : WorkflowDefinition :=
  {| wf_name := "chain"; wf_vars := None;
     nodes := [exec_node "A" [] "false" [];
               exec_node "C" ["B"] "echo" ["c"];
               exec_node "B" ["A"] "echo" ["b"]] |}.

(** The status of a node in the metadata of the run store. *)
Definition recorded_status (r : Res unit * World) (nodeId : string) : option NodeStatus :=
  nm_status <$> meta_nodes (metadata (w_store r.2)) !! nodeId.

(** A command node that opts out of caching. *)
Definition uncached_echo : ExecNode :=
  exec_spec "say" [] (Some false) None "echo" ["hi"].

(** The chain after A succeeded (with another command than [false]). *)
Definition statuses_A_done : gmap string NodeStatus :=
  {["A" := SUCCESS; "B" := PENDING; "C" := PENDING]}.

Definition tick_state : RunState :=
  with_statuses (createInitialState ∅) statuses_A_done.

Definition tick_loop : Legacy.LoopState :=
  Legacy.mkLoop ∅ statuses_A_done {["A"]} ∅ ∅ [].

(** A cache entry, and a snapshot of the chain after B failed. *)
Definition cached_out : NodeOutput :=
  {| result := JStr "old"; artifacts := []; logs := None;
     hash := Some "exec:echo:hi"; cached := Some false |}.

Definition snapshot : RunState :=
  {| vars := ∅;
     outputs := {["A" := cached_out]};
     statuses := {["A" := SUCCESS; "B" := FAILED; "C" := SKIPPED]};
     next := [];
     failed := Some {| failed_nodeId := "B"; failed_error := "boom" |} |}.

Definition resume_world : World :=
  set_checkpoints {["run-0-r0" := snapshot]} demo_world.

(** C waits for a node that does not exist. *)
Definition stuck : WorkflowDefinition :=
  {| wf_name := "stuck"; wf_vars := None;
     nodes := [exec_node "A" [] "echo" ["a"]; exec_node "C" ["ghost"] "echo" ["c"]] |}.

(** The workflow [stuck] as it was before an edit: with a node OLD that
    is gone since, and with C depending on nothing and failing. *)
Definition before_edit : WorkflowDefinition :=
  {| wf_name := "stuck"; wf_vars := None;
     nodes := [exec_node "A" [] "echo" ["a"]; exec_node "OLD" [] "echo" ["old"];
               exec_node "C" [] "false" []] |}.

Definition stuck_statuses : gmap string NodeStatus :=
  {["A" := SUCCESS; "C" := PENDING]}.

Definition stuck_state : RunState :=
  with_statuses (createInitialState ∅) stuck_statuses.

Definition stuck_loop : Legacy.LoopState :=
  Legacy.mkLoop ∅ stuck_statuses {["A"]} ∅ ∅ [].

(** A world whose cache holds the entry of [echo hi]. *)
Definition warm_world : World :=
  set_cache {["exec:echo:hi" := cached_out]} demo_world.

(** A fan-out of [echo] over seven items, more than the ceiling. *)
Definition greet : MapNode :=
  {| map_base := base "greet" [] None None;
     over := JArr (JStr <$> ["a"; "b"; "c"; "d"; "e"; "f"; "g"]);
     map_body := BExec (exec_spec "greet" [] (Some false) None "echo" []) |}.

Definition greeting (x : JSON) : JSON :=
  JObj [("stdout", x); ("stderr", JStr ""); ("exitCode", JNum 0)].

Definition letters : list JSON := JStr <$> ["a"; "b"; "c"; "d"; "e"; "f"; "g"].

(** The same fan-out with one item whose command fails. *)
Definition greet_bad : MapNode :=
  {| map_base := base "greet" [] None None;
     over := JArr (JStr <$> ["a"; "bad"; "c"]);
     map_body := BExec (exec_spec "greet" [] (Some false) None "echo" []) |}.

(** A fan-out over two equal items, whose command uses the cache. *)
Definition twice : MapNode :=
  {| map_base := base "twice" [] None None;
     over := JArr [JStr "a"; JStr "a"];
     map_body := BExec (exec_spec "say" [] None None "echo" []) |}.

(** What [echo a] gives. *)
Definition said_a : NodeOutput :=
  {| result := JObj [("stdout", JStr "a"); ("stderr", JStr ""); ("exitCode", JNum 0)];
     artifacts := []; logs := None;
     hash := Some "exec:echo:a"; cached := Some false |}.

(** What [echo hi] gives. *)
Definition said : NodeOutput :=
  {| result := JObj [("stdout", JStr "hi"); ("stderr", JStr ""); ("exitCode", JNum 0)];
     artifacts := []; logs := None;
     hash := Some "exec:echo:hi"; cached := Some false |}.

(** A command that fails, one that outlives its timeout, and a command and
    a task that leave the determinism flag unset. *)
Definition failing : ExecNode := exec_spec "f" [] None None "false" ["x"].

Definition slow : ExecNode := exec_spec "s" [] None (Some 100) "sleep" ["5"].

Definition unset_echo : ExecNode := exec_spec "say" [] None None "echo" ["hi"].

Definition unset_task : TaskNode :=
  {| task_base := base "ask" [] None None; agent := "augie"; prompt := "hello";
     inputs := None; task_env := None; task_cwd := None |}.

(** * Further vocabulary *)

(** ** Calls on the run store

    A client of the run store calls its methods in some order while time
    passes. *)

Inductive StoreCall : Type :=
| CallSetNodeStatus (nodeId : string) (status : NodeStatus)
| CallSetNodeOutput (nodeId : string) (output : NodeOutput)
| CallSetNodeError (nodeId : string) (error : string)
| CallComplete (status : RunStatus)
| CallWait (d : N).

Definition store_call (c : StoreCall) : M unit :=
  match c with
  | CallSetNodeStatus nodeId status => setNodeStatus nodeId status
  | CallSetNodeOutput nodeId output => setNodeOutput nodeId output
  | CallSetNodeError nodeId error => setNodeError nodeId error
  | CallComplete status => complete status
  | CallWait d => sleep d
  end.

Definition store_calls (cs : list StoreCall) : M unit :=
  for_each cs (fun _ c => store_call c) tt.

(** The entry of a node in the metadata of the store. *)
Definition node_entry (w : World) (nodeId : string) : option NodeMeta :=
  meta_nodes (metadata (w_store w)) !! nodeId.

(** [run.json] of the store's directory holds the store's metadata. *)
Definition saved (w : World) : Prop :=
  w_files w !! runDir (w_store w) = Some (metadata (w_store w)).

(** The times of an entry are consistent: nothing lies in the future, and a
    duration is the distance from the start to the end. *)
Definition timed (now : N) (e : NodeMeta) : Prop :=
  (∀ s, nm_startTime e = Some s → (s ≤ now)%N) ∧
  (∀ t, nm_endTime e = Some t → (t ≤ now)%N) ∧
  (∀ d, nm_duration e = Some d →
        ∃ s t, nm_startTime e = Some s ∧ nm_endTime e = Some t ∧
               (s ≤ t)%N ∧ d = Z.of_N t - Z.of_N s).

Definition all_timed (w : World) : Prop :=
  ∀ nodeId e, node_entry w nodeId = Some e → timed (w_clock w) e.

(** [run.json] records that the run ended with [status]: the status, an end
    time, and the file on disk equal to the metadata in memory. *)
Definition ended (status : RunStatus) (w : World) : Prop :=
  run_status (metadata (w_store w)) = status ∧
  (∃ t, endTime (metadata (w_store w)) = Some t) ∧ saved w.

(** ** The run of the graph *)

Definition settled_status (s : NodeStatus) : Prop :=
  s = SUCCESS ∨ s = CACHED ∨ s = FAILED ∨ s = SKIPPED.

(** The nodes of the workflow that the conditional edge counts as pending. *)
Definition open_nodes (wf : WorkflowDefinition) (sts : gmap string NodeStatus)
  : list string :=
  filter (fun k => is_pending sts k) (node_ids wf).

Definition no_running (sts : gmap string NodeStatus) : Prop :=
  ∀ k, sts !! k ≠ Some RUNNING.

(** The status [run.json] records for a node. *)
Definition entry_status (w : World) (nodeId : string) : option NodeStatus :=
  nm_status <$> node_entry w nodeId.

(** [run.json] and the state of the graph give every node of the workflow
    the same status. *)
Definition mirrors (wf : WorkflowDefinition) (state : RunState) (w : World) : Prop :=
  ∀ k, k ∈ node_ids wf → entry_status w k = statuses state !! k.

(** The run store and the files of the run directories are the same. *)
Definition same_store (w w' : World) : Prop :=
  w_store w' = w_store w ∧ w_files w' = w_files w.

(** A node is only skipped behind a failure. *)
Definition blamed (sts : gmap string NodeStatus) : Prop :=
  (∃ k, sts !! k = Some SKIPPED) → ∃ k, sts !! k = Some FAILED.

(** [run.json] has an output for every node of the workflow that it shows
    as SUCCESS or CACHED. *)
Definition outputs_recorded (wf : WorkflowDefinition) (w : World) : Prop :=
  ∀ k e, k ∈ node_ids wf → node_entry w k = Some e →
         nm_status e = SUCCESS ∨ nm_status e = CACHED → is_Some (nm_output e).

(** What holds of the state of the graph and of [run.json] along a run. *)
Definition run_inv (wf : WorkflowDefinition) (state : RunState) (w : World) : Prop :=
  statuses_of wf (statuses state) ∧ no_running (statuses state) ∧
  blamed (statuses state) ∧ mirrors wf state w ∧ outputs_recorded wf w.

(** The entry of [nodeId] in the run store is the same. *)
Definition keeps_entry (nodeId : string) (w w' : World) : Prop :=
  node_entry w' nodeId = node_entry w nodeId.

(** ** Executors *)

(** The declared files that are not there, in the order of the declaration. *)
Definition missing_files (env : Env) (tr : list Event) (fs : list string)
  : list string :=
  filter (fun f => fs_access env tr (path_resolve env f) = false) fs.

(** ** Further worked examples *)

(** A -> B, both commands succeed. *)
Definition pipeline : WorkflowDefinition :=
  {| wf_name := "pipeline"; wf_vars := None;
     nodes := [exec_node "A" [] "echo" ["a"]; exec_node "B" ["A"] "echo" ["b"]] |}.

(** The calls of a handler that runs a node to its end, three seconds long. *)
Definition handler_calls : list StoreCall :=
  [CallSetNodeStatus "A" PENDING; CallWait 5; CallSetNodeStatus "A" RUNNING;
   CallWait 3000; CallSetNodeOutput "A" said; CallSetNodeStatus "A" SUCCESS].

(** The entry they leave in [run.json]. *)
Definition handled_entry : NodeMeta :=
  mkNodeMeta SUCCESS (Some 0%N) (Some 3005%N) (Some 3005) (Some said) None.

(** The state a new run of [pipeline] starts from. *)
Definition pipeline_start : RunState :=
  with_statuses (createInitialState ∅) {["A" := PENDING; "B" := PENDING]}.

(** ** The execution plan *)

(** The levels the loop adds from [processed] on: each is the level of the
    nodes processed so far, and none is empty. *)
Inductive plan_chain (wf : WorkflowDefinition) : gset string → list (list string) → Prop :=
| plan_chain_nil processed : plan_chain wf processed []
| plan_chain_cons processed level rest :
    level = Plan.current_level wf processed → level ≠ [] →
    plan_chain wf (processed ∪ list_to_set level) rest →
    plan_chain wf processed (level :: rest).

(** The ids of the levels before level [i]. *)
Definition planned_before (levels : list (list string)) (i : nat) (k : string) : Prop :=
  ∃ j level, (j < i)%nat ∧ levels !! j = Some level ∧ k ∈ level.

Definition planned (levels : list (list string)) (k : string) : Prop :=
  ∃ j level, levels !! j = Some level ∧ k ∈ level.

(** Every node the state shows as SUCCESS or CACHED has an output in the
    state. *)
Definition outputs_ready (state : RunState) : Prop :=
  ∀ k, dep_complete (statuses state) k → is_Some (outputs state !! k).

(** Start times are kept, and a duration is the distance from the start to
    the end. *)
Definition durations_ok (w : World) : Prop :=
  ∀ k e d, node_entry w k = Some e → nm_duration e = Some d →
    ∃ s t, nm_startTime e = Some s ∧ nm_endTime e = Some t ∧
           d = Z.of_N t - Z.of_N s.

Definition keeps_times (w w' : World) : Prop :=
  (∀ k e, node_entry w k = Some e →
          ∃ e', node_entry w' k = Some e' ∧ nm_startTime e' = nm_startTime e) ∧
  (durations_ok w → durations_ok w').

(** ** The built-in agents *)

(** An environment whose registry is the one [new AgentRegistry()] builds. *)
Definition builtin_env : Env :=
  {| hashInputs := hashInputs demo_env;
     process_cwd := process_cwd demo_env;
     process_env := process_env demo_env;
     spawn := spawn demo_env;
     path_resolve := path_resolve demo_env;
     fs_access := fs_access demo_env;
     fs_readFile := fs_readFile demo_env;
     JSON_parse := JSON_parse demo_env;
     agentRegistry := fun nm => AgentRegistry.get nm AgentRegistry.new;
     addNode_reserved := addNode_reserved demo_env;
     addNode_present := addNode_present demo_env;
     recursion_error := recursion_error demo_env;
     renderNode := renderNode demo_env;
     renderBody := renderBody demo_env;
     render := render demo_env;
     renderValue := renderValue demo_env;
     random_base36 := random_base36 demo_env;
     pick := pick demo_env |}.

(** A task for an agent nobody registered. *)
Definition stray_task : TaskNode :=
  {| task_base := base "ask" [] None None; agent := "nobody"; prompt := "hello";
     inputs := None; task_env := None; task_cwd := None |}.

(** The state of a run of [pipeline] once A has succeeded. *)
Definition pipeline_midway : RunState :=
  {| vars := ∅; outputs := {["A" := said]};
     statuses := {["A" := SUCCESS; "B" := PENDING]}; next := []; failed := None |}.

(** ** The earlier scheduler's loop *)

(** [completed.size + failed.size + skipped.size] *)
Definition legacy_total (s : Legacy.LoopState) : nat :=
  (size (Legacy.l_completed s) + size (Legacy.l_failed s) + size (Legacy.l_skipped s))%nat.

(** What a tick leaves of the three sets: they only grow. *)
Definition legacy_grows (s s' : Legacy.LoopState) : Prop :=
  Legacy.l_completed s ⊆ Legacy.l_completed s' ∧
  Legacy.l_failed s ⊆ Legacy.l_failed s' ∧
  Legacy.l_skipped s ⊆ Legacy.l_skipped s'.

(** White space beyond ASCII, in UTF-8: U+00A0 (no-break space), U+2028
    (line separator), U+FEFF (byte order mark). *)
Definition utf8 (bytes : list N) : string :=
  foldr (fun b s => String (ascii_of_N b) s) "" bytes.

Definition nbsp : string := utf8 [194; 160]%N.
Definition line_separator : string := utf8 [226; 128; 168]%N.
Definition byte_order_mark : string := utf8 [239; 187; 191]%N.

(** U+00E9 (e with an acute accent) and U+200B (zero width space), which
    are no white space. *)
Definition e_acute : string := utf8 [195; 169]%N.
Definition zero_width_space : string := utf8 [226; 128; 139]%N.

(** Two commands that fail, the one called [b] listed first. *)
Definition two_failures : WorkflowDefinition :=
  {| wf_name := "two"; wf_vars := None;
     nodes := [exec_node "b" [] "false" []; exec_node "a" [] "false" []] |}.

(** ** Supersteps *)

(** The nodes of the workflow whose handler has run to its end: a handler
    leaves SUCCESS, CACHED or FAILED, the router only SKIPPED. *)
Definition handled (sts : gmap string NodeStatus) (k : string) : bool :=
  bool_decide (sts !! k = Some SUCCESS ∨ sts !! k = Some CACHED ∨ sts !! k = Some FAILED).

Definition handled_nodes (wf : WorkflowDefinition) (sts : gmap string NodeStatus)
  : list string :=
  filter (fun k => handled sts k) (node_ids wf).

(** Twelve commands that depend on nothing, and the first eleven of them. *)
Definition twelve : WorkflowDefinition :=
  {| wf_name := "twelve"; wf_vars := None;
     nodes := (fun i => exec_node i [] "echo" [i])
              <$> ["n1"; "n2"; "n3"; "n4"; "n5"; "n6"; "n7"; "n8"; "n9"; "n10"; "n11";
                   "n12"] |}.

Definition eleven : WorkflowDefinition :=
  {| wf_name := "eleven"; wf_vars := None; nodes := take 11 (nodes twelve) |}.

(** The list of the failed ids lists the set [failed], each id once. *)
Definition failed_listed (s : Legacy.LoopState) : Prop :=
  NoDup (Legacy.l_failed_order s) ∧
  ∀ k, k ∈ Legacy.l_failed_order s ↔ k ∈ Legacy.l_failed s.

(** ** What the cache keys are made of *)

(** Two command nodes that run the same command: they may differ in id,
    name, dependencies, timeout and retries. *)
Definition same_command (env : Env) (a b : ExecNode) : Prop :=
  command a = command b ∧
  default [] (args a) = default [] (args b) ∧
  str_or (exec_cwd a) (process_cwd env) = str_or (exec_cwd b) (process_cwd env) ∧
  default [] (exec_env a) = default [] (exec_env b) ∧
  produces a = produces b.

(** Two delegated tasks that ask the same of an agent: they may also differ
    in the working directory. *)
Definition same_request (a b : TaskNode) : Prop :=
  prompt a = prompt b ∧
  default [] (inputs a) = default [] (inputs b) ∧
  default [] (task_env a) = default [] (task_env b).

(** [unset_echo] again, as another node with a timeout. *)
Definition echo_again : ExecNode := exec_spec "again" ["say"] None (Some 100) "echo" ["hi"].

(** ** The run command *)

(** A run store as [new RunStore] and [init] leave it: [run.json] says
    [running], with no end time and no node entry. *)
Definition just_created (w : World) : Prop :=
  run_status (metadata (w_store w)) = Run_running ∧
  endTime (metadata (w_store w)) = None ∧
  meta_nodes (metadata (w_store w)) = ∅ ∧
  saved w.

(** * Properties *)

(** ** The monad *)

Lemma bind_ok {A B} (m : M A) (k : A → M B) w a w' :
  m w = (Ok a, w') → bind m k w = k a w'.
Proof. unfold bind. by intros ->. Qed.

Lemma bind_throw {A B} (m : M A) (k : A → M B) w e w' :
  m w = (Throw e, w') → bind m k w = (Throw e, w').
Proof. unfold bind. by intros ->. Qed.

Lemma bind_hang {A B} (m : M A) (k : A → M B) w w' :
  m w = (Hang, w') → bind m k w = (Hang, w').
Proof. unfold bind. by intros ->. Qed.

(** The run-store writes always succeed. *)
Lemma setNodeStatus_ok nodeId status w :
  ∃ w', setNodeStatus nodeId status w = (Ok tt, w').
Proof. unfold setNodeStatus, bind, modify, save. eauto. Qed.

Lemma setNodeOutput_ok nodeId output w :
  ∃ w', setNodeOutput nodeId output w = (Ok tt, w').
Proof. unfold setNodeOutput, bind, modify, save. eauto. Qed.

Lemma setNodeError_ok nodeId error w :
  ∃ w', setNodeError nodeId error w = (Ok tt, w').
Proof. unfold setNodeError, bind, modify, save. eauto. Qed.

(** ** The router's three sets *)

Lemma categorize_fold l c k :
  (k ∈ completed (foldl categorize_entry c l) ↔
     k ∈ completed c ∨ (k, SUCCESS) ∈ l ∨ (k, CACHED) ∈ l) ∧
  (k ∈ failedSet (foldl categorize_entry c l) ↔ k ∈ failedSet c ∨ (k, FAILED) ∈ l) ∧
  (k ∈ skipped (foldl categorize_entry c l) ↔ k ∈ skipped c ∨ (k, SKIPPED) ∈ l).
Proof.
  revert c. induction l as [|[k' s'] l IH]; intros c; simpl.
  - set_solver.
  - specialize (IH (categorize_entry c (k', s'))).
    destruct s'; simpl in *; set_solver.
Qed.

Lemma completed_spec sts k :
  k ∈ completed (categorize sts) ↔ sts !! k = Some SUCCESS ∨ sts !! k = Some CACHED.
Proof.
  unfold categorize. rewrite (proj1 (categorize_fold _ _ _)). simpl.
  rewrite !elem_of_map_to_list. set_solver.
Qed.

Lemma failedSet_spec sts k :
  k ∈ failedSet (categorize sts) ↔ sts !! k = Some FAILED.
Proof.
  unfold categorize. rewrite (proj1 (proj2 (categorize_fold _ _ _))). simpl.
  rewrite elem_of_map_to_list. set_solver.
Qed.

Lemma skipped_spec sts k :
  k ∈ skipped (categorize sts) ↔ sts !! k = Some SKIPPED.
Proof.
  unfold categorize. rewrite (proj2 (proj2 (categorize_fold _ _ _))). simpl.
  rewrite elem_of_map_to_list. set_solver.
Qed.

Lemma forallb_complete sts deps :
  forallb (fun dep => bool_decide (dep ∈ completed (categorize sts))) deps = true ↔
  ∀ dep, dep ∈ deps → dep_complete sts dep.
Proof.
  rewrite forallb_forall. unfold dep_complete. split.
  - intros H dep Hin. apply completed_spec.
    eapply bool_decide_eq_true_1, H. by apply list_elem_of_In.
  - intros H dep Hin. apply bool_decide_eq_true_2, completed_spec, H.
    by apply list_elem_of_In.
Qed.

Lemma existsb_blocked sts deps :
  existsb (fun dep => bool_decide (dep ∈ failedSet (categorize sts)
                                   ∨ dep ∈ skipped (categorize sts))) deps = true ↔
  ∃ dep, dep ∈ deps ∧ dep_blocked sts dep.
Proof.
  rewrite existsb_exists. unfold dep_blocked. split.
  - intros (dep & Hin & Hb). apply bool_decide_eq_true_1 in Hb.
    rewrite failedSet_spec, skipped_spec in Hb.
    exists dep. split; [by apply list_elem_of_In | done].
  - intros (dep & Hin & Hb). exists dep. split; [by apply list_elem_of_In|].
    apply bool_decide_eq_true_2. by rewrite failedSet_spec, skipped_spec.
Qed.

Lemma open_status_iff sts nodeId :
  open_status sts nodeId ↔
  ¬ (nodeId ∈ completed (categorize sts) ∨ nodeId ∈ failedSet (categorize sts)
     ∨ nodeId ∈ skipped (categorize sts)) ∧ sts !! nodeId ≠ Some RUNNING.
Proof.
  rewrite completed_spec, failedSet_spec, skipped_spec. unfold open_status.
  destruct (sts !! nodeId) as [[]|]; naive_solver.
Qed.

(** The decision of the router on one node, read off the statuses. *)
Lemma decide_node_cases sts node :
  match decide_node sts (categorize sts) node with
  | PushReady =>
      open_status sts (node_id node) ∧
      (∀ dep, dep ∈ node_deps node → dep_complete sts dep) ∧
      ¬ ∃ dep, dep ∈ node_deps node ∧ dep_blocked sts dep
  | MarkSkipped =>
      open_status sts (node_id node) ∧
      ∃ dep, dep ∈ node_deps node ∧ dep_blocked sts dep
  | Leave =>
      ¬ open_status sts (node_id node) ∨
      ((¬ ∀ dep, dep ∈ node_deps node → dep_complete sts dep) ∧
       ¬ ∃ dep, dep ∈ node_deps node ∧ dep_blocked sts dep)
  end.
Proof.
  unfold decide_node.
  destruct (decide _) as [Hdone | Hopen].
  { left. rewrite open_status_iff. tauto. }
  destruct (decide _) as [Hrun | Hnrun].
  { left. rewrite open_status_iff. tauto. }
  assert (open_status sts (node_id node)) as Ho by (by apply open_status_iff).
  destruct (existsb _ _) eqn:Hany.
  { pose proof (proj1 (existsb_blocked _ _) Hany). done. }
  assert (¬ ∃ dep, dep ∈ node_deps node ∧ dep_blocked sts dep) as Hno.
  { rewrite <- existsb_blocked. congruence. }
  destruct (forallb _ _) eqn:Hall.
  - pose proof (proj1 (forallb_complete _ _) Hall). done.
  - right. split; [|done]. rewrite <- forallb_complete. congruence.
Qed.

Lemma for_each_router_visit state c ns acc w :
  ∃ w', for_each ns (router_visit state c) acc w
        = (Ok (foldl (router_step (statuses state) c) acc ns), w').
Proof.
  revert acc w. induction ns as [|n ns IH]; intros [ready su] w; simpl.
  - by eexists.
  - unfold router_visit at 1, router_step at 2.
    destruct (decide_node _ _ _); simpl.
    + unfold bind, ret. apply IH.
    + destruct (setNodeStatus_ok (node_id n) SKIPPED w) as [w1 Hw1].
      unfold bind at 1. unfold bind at 1. rewrite Hw1. unfold ret. apply IH.
    + unfold bind, ret. apply IH.
Qed.

Lemma router_fold_ready sts ns acc :
  (foldl (router_step sts (categorize sts)) acc ns).1
  = (acc.1 ++ (node_id <$> filter (pushes sts) ns))%list.
Proof.
  revert acc. induction ns as [|n ns IH]; intros acc; simpl.
  - by rewrite app_nil_r.
  - rewrite IH. rewrite filter_cons.
    destruct (decide (pushes sts n)) as [Hd|Hd]; unfold pushes in Hd;
      unfold router_step; destruct (decide_node _ _ _) eqn:E; try congruence;
      simpl; try done.
    by rewrite <- app_assoc.
Qed.

Lemma router_fold_updates sts ns acc k :
  (foldl (router_step sts (categorize sts)) acc ns).2 !! k
  = if decide (k ∈ node_id <$> filter (skips sts) ns) then Some SKIPPED
    else acc.2 !! k.
Proof.
  revert acc. induction ns as [|n ns IH]; intros acc; simpl.
  - done.
  - rewrite IH. rewrite filter_cons.
    destruct (decide (skips sts n)) as [Hd|Hd]; unfold skips in Hd;
      unfold router_step; destruct (decide_node _ _ _) eqn:E; try congruence;
      simpl; try done.
    all: repeat case_decide; try done; try set_solver.
    + assert (node_id n = k) as -> by set_solver. by rewrite lookup_insert_eq.
    + rewrite lookup_insert_ne; [done|]. set_solver.
Qed.

Lemma router_ok wf state w :
  ∃ w', router wf state w = (Ok (router_result wf (statuses state)), w').
Proof.
  unfold router.
  destruct (for_each_router_visit state (categorize (statuses state))
              (nodes wf) ([], ∅) w) as [w' Hw'].
  exists w'. unfold bind. rewrite Hw'.
  destruct (foldl _ _ _) as [ready su] eqn:E. unfold ret, router_result.
  do 3 f_equal.
  - unfold router_updates. by rewrite E.
  - unfold router_ready.
    pose proof (router_fold_ready (statuses state) (nodes wf) ([], ∅)) as H.
    rewrite E in H. simpl in H. by rewrite H.
Qed.

Lemma router_updates_lookup wf sts k :
  router_updates wf sts !! k
  = if decide (k ∈ router_skipped wf sts) then Some SKIPPED else None.
Proof.
  unfold router_updates. rewrite router_fold_updates. simpl.
  unfold router_skipped. by destruct (decide _).
Qed.

(** ** The conditional edge *)

Lemma processed_lt wf sts p :
  statuses_of wf sts → p ∈ node_ids wf →
  (∀ s, sts !! p = Some s → s = PENDING ∨ s = RUNNING) →
  (length (filter (fun e => is_processed e) (map_to_list sts)) < length (node_ids wf))%nat.
Proof.
  intros Hkeys Hp Hopen.
  set (L := filter (fun e => is_processed e) (map_to_list sts)).
  assert (NoDup L.*1) as Hnd.
  { apply NoDup_fmap_fst.
    - intros k s1 s2 H1 H2.
      apply list_elem_of_filter in H1 as [_ H1], H2 as [_ H2].
      apply elem_of_map_to_list in H1, H2. congruence.
    - apply NoDup_filter, NoDup_map_to_list. }
  assert (L.*1 ⊆+ filter (fun k => k ≠ p) (node_ids wf)) as Hsub.
  { apply NoDup_submseteq; [done|]. intros k Hk.
    apply list_elem_of_fmap in Hk as ([k' s] & -> & Hin). simpl.
    apply list_elem_of_filter in Hin as [Hproc Hin].
    apply elem_of_map_to_list in Hin.
    apply list_elem_of_filter. split.
    - intros ->. unfold is_processed in Hproc. simpl in Hproc.
      apply Is_true_true, bool_decide_eq_true_1 in Hproc.
      destruct (Hopen s Hin); naive_solver.
    - apply Hkeys. eauto. }
  apply submseteq_length in Hsub. rewrite length_fmap in Hsub.
  pose proof (length_filter_lt (fun k => k ≠ p) (node_ids wf) p Hp) as Hlt.
  assert (¬ p ≠ p) as Hpp by auto. specialize (Hlt Hpp). lia.
Qed.

Lemma route_deadlock wf state p :
  statuses_of wf (statuses state) →
  next state = [] →
  statuses state !! p = Some PENDING →
  route wf state
  = RouteThrow (deadlock_error
       (filter (fun i => is_pending (statuses state) i) (node_ids wf))).
Proof.
  intros Hkeys Hnext Hp. unfold route.
  assert (p ∈ node_ids wf) as Hin by (apply Hkeys; eauto).
  pose proof (processed_lt wf (statuses state) p Hkeys Hin) as Hlt.
  case_decide as Hlen.
  { exfalso. unfold node_ids in Hlt. rewrite Hlen in Hlt.
    assert (∀ s, statuses state !! p = Some s → s = PENDING ∨ s = RUNNING) as Ho
      by (intros s; rewrite Hp; naive_solver).
    specialize (Hlt Ho). lia. }
  rewrite Hnext. fold (node_ids wf).
  destruct (filter _ (node_ids wf)) as [|x l] eqn:E; [|done].
  exfalso.
  assert (p ∈ filter (fun i => is_pending (statuses state) i) (node_ids wf)) as Hpf.
  { apply list_elem_of_filter. split; [|done].
    unfold is_pending. apply Is_true_true, bool_decide_eq_true_2. by right. }
  rewrite E in Hpf. by apply elem_of_nil in Hpf.
Qed.

Lemma graph_loop_S env wf fuel thread state :
  graph_loop env wf (S fuel) thread state =
  (let* update := router wf state in
   let state1 := apply_update state update in
   match route wf state1 with
   | RouteThrow msg => throw msg
   | RouteEnd =>
       checkpoint thread state1;;
       match fuel with
       | O => throw (GraphRecursionError env)
       | S _ => ret state1
       end
   | RouteNode nodeId =>
       match handler_of wf nodeId with
       | None => throw ("Branch condition returned unknown or null destination")
       | Some node =>
           checkpoint thread state1;;
           match fuel with
           | O => throw (GraphRecursionError env)
           | S fuel2 =>
               let* update' := createNodeHandler env node state1 in
               let state2 := apply_update state1 update' in
               checkpoint thread state2;;
               graph_loop env wf fuel2 thread state2
           end
       end
   end).
Proof. reflexivity. Qed.

Lemma after_router_statuses wf state k :
  statuses (after_router wf state) !! k
  = if decide (k ∈ router_skipped wf (statuses state)) then Some SKIPPED
    else statuses state !! k.
Proof.
  unfold after_router, apply_update, router_result, merge_right. simpl.
  rewrite lookup_union, router_updates_lookup.
  case_decide; simpl; [by destruct (statuses state !! k)|].
  by rewrite (left_id None _).
Qed.

Lemma after_router_next wf state :
  next (after_router wf state) = router_ready wf (statuses state).
Proof. reflexivity. Qed.

Lemma elem_of_router_ready wf sts k :
  k ∈ router_ready wf sts ↔ ∃ node, node ∈ nodes wf ∧ node_id node = k ∧ pushes sts node.
Proof.
  unfold router_ready. rewrite list_elem_of_fmap. split.
  - intros (n & -> & Hin). apply list_elem_of_filter in Hin as [? ?]. eauto.
  - intros (n & Hin & <- & Hp). exists n. split; [done|].
    by apply list_elem_of_filter.
Qed.

Lemma elem_of_router_skipped wf sts k :
  k ∈ router_skipped wf sts ↔ ∃ node, node ∈ nodes wf ∧ node_id node = k ∧ skips sts node.
Proof.
  unfold router_skipped. rewrite list_elem_of_fmap. split.
  - intros (n & -> & Hin). apply list_elem_of_filter in Hin as [? ?]. eauto.
  - intros (n & Hin & <- & Hp). exists n. split; [done|].
    by apply list_elem_of_filter.
Qed.

Lemma pushes_iff sts node :
  pushes sts node ↔
  open_status sts (node_id node) ∧ ∀ dep, dep ∈ node_deps node → dep_complete sts dep.
Proof.
  unfold pushes. pose proof (decide_node_cases sts node) as H.
  destruct (decide_node _ _ _).
  - split; [done|]. intros [Ho Hall]. destruct H as [H | [H _]]; tauto.
  - split; [done|]. intros [Ho Hall]. destruct H as (_ & dep & Hin & Hb).
    specialize (Hall dep Hin). unfold dep_complete, dep_blocked in *.
    destruct Hall, Hb; congruence.
  - tauto.
Qed.

Lemma skips_iff sts node :
  skips sts node ↔
  open_status sts (node_id node) ∧ ∃ dep, dep ∈ node_deps node ∧ dep_blocked sts dep.
Proof.
  unfold skips. pose proof (decide_node_cases sts node) as H.
  destruct (decide_node _ _ _).
  - split; [done|]. intros [Ho Hany]. destruct H as [H | [_ H]]; tauto.
  - tauto.
  - split; [done|]. intros [Ho Hany]. tauto.
Qed.

Lemma node_id_inj wf n1 n2 :
  NoDup (node_ids wf) → n1 ∈ nodes wf → n2 ∈ nodes wf →
  node_id n1 = node_id n2 → n1 = n2.
Proof.
  unfold node_ids. induction (nodes wf) as [|n ns IH]; intros Hnd H1 H2 Heq.
  - by apply elem_of_nil in H1.
  - rewrite fmap_cons in Hnd. apply NoDup_cons in Hnd as [Hnot Hnd].
    apply elem_of_cons in H1 as [-> | H1], H2 as [-> | H2]; auto.
    + exfalso. apply Hnot. rewrite Heq. by apply list_elem_of_fmap_2.
    + exfalso. apply Hnot. rewrite <- Heq. by apply list_elem_of_fmap_2.
Qed.

(** ** The scan of the earlier scheduler *)

Lemma legacy_for_each_scan wf ns acc w :
  ∃ w', for_each ns (Legacy.scan_node wf) acc w = (Ok (foldl (scan_step wf) acc ns), w').
Proof.
  revert acc w. induction ns as [|n ns IH]; intros [ready s] w; simpl.
  - by eexists.
  - unfold Legacy.scan_node at 1, scan_step at 2. simpl.
    destruct (Legacy.scan_decision _ _ _); simpl.
    + unfold bind, ret. apply IH.
    + destruct (setNodeStatus_ok (node_id n) SKIPPED w) as [w1 Hw1].
      unfold bind at 1. unfold bind at 1. rewrite Hw1. unfold ret. apply IH.
    + unfold bind, ret. apply IH.
Qed.

Lemma legacy_scan_ok wf s w :
  ∃ w', Legacy.scan wf s w = (Ok (foldl (scan_step wf) ([], s) (nodes wf)), w').
Proof. apply legacy_for_each_scan. Qed.

Lemma is_done_coherent s k :
  coherent s →
  (Legacy.is_done s k = true ↔
   dep_complete (Legacy.l_statuses s) k ∨ dep_blocked (Legacy.l_statuses s) k).
Proof.
  intros Hc. destruct (Hc k) as (H1 & H2 & H3).
  unfold Legacy.is_done, dep_blocked. rewrite bool_decide_eq_true. tauto.
Qed.

Lemma scan_decision_cases wf s node :
  coherent s →
  let sts := Legacy.l_statuses s in
  let deps := default [] (Legacy.nodeDeps wf !! node_id node) in
  match Legacy.scan_decision wf s node with
  | PushReady =>
      open_status sts (node_id node) ∧ ∀ dep, dep ∈ deps → dep_complete sts dep
  | MarkSkipped =>
      open_status sts (node_id node) ∧ ∃ dep, dep ∈ deps ∧ dep_blocked sts dep
  | Leave =>
      ¬ open_status sts (node_id node) ∨
      ¬ ∀ dep, dep ∈ deps → dep_complete sts dep
  end.
Proof.
  intros Hc. cbv zeta. unfold Legacy.scan_decision.
  destruct (Legacy.is_done s (node_id node)) eqn:Hdone.
  { left. apply (is_done_coherent _ _ Hc) in Hdone. unfold open_status.
    unfold dep_complete, dep_blocked in Hdone. naive_solver. }
  case_decide as Hrun.
  { left. unfold open_status. naive_solver. }
  assert (open_status (Legacy.l_statuses s) (node_id node)) as Ho.
  { unfold open_status.
    assert (¬ (dep_complete (Legacy.l_statuses s) (node_id node)
               ∨ dep_blocked (Legacy.l_statuses s) (node_id node))) as Hn.
    { intros Hd. apply (is_done_coherent _ _ Hc) in Hd. congruence. }
    unfold dep_complete, dep_blocked in Hn.
    destruct (Legacy.l_statuses s !! node_id node) as [[]|]; naive_solver. }
  destruct (existsb _ _) eqn:Hany.
  { split; [done|]. apply existsb_exists in Hany as (dep & Hin & Hb).
    apply bool_decide_eq_true_1 in Hb. exists dep.
    split; [by apply list_elem_of_In|].
    destruct (Hc dep) as (_ & H2 & H3). unfold dep_blocked. tauto. }
  destruct (forallb _ _) eqn:Hall.
  - split; [done|]. intros dep Hin. rewrite forallb_forall in Hall.
    apply list_elem_of_In, Hall, bool_decide_eq_true_1 in Hin.
    by apply Hc.
  - right. intros H.
    assert (forallb (λ dep, bool_decide (dep ∈ Legacy.l_completed s))
              (default [] (Legacy.nodeDeps wf !! node_id node)) = true)
      as Ht; [|congruence].
    apply forallb_forall. intros dep Hin. apply bool_decide_eq_true_2.
    apply Hc, H. by apply list_elem_of_In.
Qed.

Lemma scan_decision_push_iff wf s node :
  coherent s →
  Legacy.scan_decision wf s node = PushReady ↔
  open_status (Legacy.l_statuses s) (node_id node) ∧
  ∀ dep, dep ∈ default [] (Legacy.nodeDeps wf !! node_id node) →
         dep_complete (Legacy.l_statuses s) dep.
Proof.
  intros Hc. pose proof (scan_decision_cases wf s node Hc) as H. simpl in H.
  destruct (Legacy.scan_decision _ _ _).
  - split; [done|]. tauto.
  - split; [done|]. intros [_ Hall]. destruct H as (_ & dep & Hin & Hb).
    specialize (Hall dep Hin). unfold dep_complete, dep_blocked in *.
    destruct Hall, Hb; congruence.
  - tauto.
Qed.

Lemma scan_step_coherent wf acc node :
  coherent acc.2 → coherent (scan_step wf acc node).2.
Proof.
  intros Hc. unfold scan_step.
  pose proof (scan_decision_cases wf acc.2 node Hc) as H. simpl in H.
  destruct (Legacy.scan_decision _ _ _); [done| |done].
  destruct H as [Ho _]. intros k. simpl.
  destruct (Hc k) as (H1 & H2 & H3). unfold dep_complete in *.
  destruct (decide (k = node_id node)) as [->|Hne].
  - rewrite !lookup_insert_eq. unfold open_status in Ho.
    split_and!; [| |set_solver]; naive_solver.
  - rewrite !lookup_insert_ne by done. set_solver.
Qed.

(** What a scan leaves unchanged, and when it pushes a node. *)
Lemma scan_step_statuses wf acc node k :
  coherent acc.2 →
  Legacy.l_statuses (scan_step wf acc node).2 !! k = Legacy.l_statuses acc.2 !! k ∨
  (k = node_id node ∧ open_status (Legacy.l_statuses acc.2) k ∧
   Legacy.l_statuses (scan_step wf acc node).2 !! k = Some SKIPPED).
Proof.
  intros Hc. unfold scan_step.
  pose proof (scan_decision_cases wf acc.2 node Hc) as H. simpl in H.
  destruct (Legacy.scan_decision _ _ _); simpl; auto.
  destruct (decide (k = node_id node)) as [->|Hne].
  - right. rewrite lookup_insert_eq. by destruct H.
  - left. by rewrite lookup_insert_ne.
Qed.

Lemma scan_fold_spec wf ns acc :
  coherent acc.2 →
  let r := foldl (scan_step wf) acc ns in
  coherent r.2 ∧
  (∀ k, k ∉ node_id <$> ns → Legacy.l_statuses r.2 !! k = Legacy.l_statuses acc.2 !! k) ∧
  (∀ k, Legacy.l_statuses r.2 !! k = Legacy.l_statuses acc.2 !! k ∨
        (open_status (Legacy.l_statuses acc.2) k ∧
         Legacy.l_statuses r.2 !! k = Some SKIPPED)) ∧
  (∀ k, k ∈ r.1 ↔
        k ∈ acc.1 ∨ ∃ pre n post, ns = (pre ++ n :: post)%list ∧ node_id n = k ∧
                    Legacy.scan_decision wf (foldl (scan_step wf) acc pre).2 n = PushReady).
Proof.
  revert acc. induction ns as [|n ns IH]; intros acc Hc; simpl.
  - split_and!; try done; [by left|]. intros k. split; [auto|].
    intros [?|(pre & n & post & Heq & _)]; [done|]. by destruct pre.
  - pose proof (scan_step_coherent wf acc n Hc) as Hc1.
    destruct (IH _ Hc1) as (IH1 & IH2 & IH3 & IH4). split_and!; [done|..].
    + intros k Hk. rewrite IH2 by set_solver.
      destruct (scan_step_statuses wf acc n k Hc) as [?|(-> & _)]; [done|set_solver].
    + intros k.
      destruct (IH3 k) as [Heq'|[Ho' Heq']];
        destruct (scan_step_statuses wf acc n k Hc) as [Heq|(Hk & Ho & Heq)].
      * left. congruence.
      * right. split; [done|]. congruence.
      * right. split; [|done]. unfold open_status in *. by rewrite <- Heq.
      * right. done.
    + intros k. rewrite IH4. split.
      * intros [Hk | (pre & n' & post & -> & Hid & Hd)].
        -- unfold scan_step in Hk.
           destruct (Legacy.scan_decision _ _ _) eqn:E; simpl in Hk; auto.
           apply elem_of_app in Hk as [Hk | Hk]; [by left|].
           apply list_elem_of_singleton in Hk as ->.
           right. exists [], n, ns. done.
        -- right. exists (n :: pre), n', post. done.
      * intros [Hk | (pre & n' & post & Heq & Hid & Hd)].
        -- left. unfold scan_step.
           destruct (Legacy.scan_decision _ _ _); simpl; auto.
           apply elem_of_app. by left.
        -- destruct pre as [|p pre]; simpl in *.
           ++ injection Heq as -> ->. left. unfold scan_step. rewrite Hd. simpl.
              apply elem_of_app. right. rewrite Hid. by apply list_elem_of_singleton.
           ++ injection Heq as -> ->. right. exists pre, n', post. done.
Qed.

Lemma nodeDeps_lookup wf node :
  NoDup (node_ids wf) → node ∈ nodes wf →
  Legacy.nodeDeps wf !! node_id node = Some (node_deps node).
Proof.
  unfold Legacy.nodeDeps, node_ids. intros Hnd Hin.
  assert (∀ ns (m : gmap string (list string)), NoDup (node_id <$> ns) →
            (node ∈ ns ∨ ((node_id node ∉ node_id <$> ns) ∧
                          m !! node_id node = Some (node_deps node))) →
            foldl (λ m n, <[node_id n := node_deps n]> m) m ns !! node_id node
            = Some (node_deps node)) as H.
  { induction ns as [|n ns IH]; intros m Hnd' Hcase; simpl.
    - destruct Hcase as [Hcase | [_ ?]]; [by apply elem_of_nil in Hcase | done].
    - rewrite fmap_cons in Hnd'. apply NoDup_cons in Hnd' as [Hnot Hnd'].
      apply IH; [done|].
      destruct Hcase as [Hcase | [Hnotin Hm]].
      + apply elem_of_cons in Hcase as [-> | Hcase]; [|by left].
        right. split; [done|]. by rewrite lookup_insert_eq.
      + right. split; [set_solver|]. rewrite lookup_insert_ne; [done|]. set_solver. }
  apply H; auto.
Qed.

(** ** The frontier of a tick *)

Lemma router_frontier wf state w :
  frontier (router wf state w) = router_ready wf (statuses state) ∧
  status_updates (router wf state w) = router_updates wf (statuses state).
Proof.
  destruct (router_ok wf state w) as [w' ->]. done.
Qed.

Lemma legacy_scan_frontier wf s node w :
  NoDup (node_ids wf) → coherent s → node ∈ nodes wf →
  Legacy.l_statuses s !! node_id node = Some PENDING →
  (node_id node ∈ legacy_frontier (Legacy.scan wf s w)) ↔
  ∀ dep, dep ∈ node_deps node → dep_complete (Legacy.l_statuses s) dep.
Proof.
  intros Hnd Hc Hin Hp.
  destruct (legacy_scan_ok wf s w) as [w' ->]. unfold legacy_frontier. simpl.
  destruct (scan_fold_spec wf (nodes wf) ([], s) Hc) as (_ & _ & _ & Hready).
  rewrite Hready. clear Hready.
  assert (∀ pre post, nodes wf = (pre ++ node :: post)%list →
     Legacy.scan_decision wf (foldl (scan_step wf) ([], s) pre).2 node = PushReady ↔
     ∀ dep, dep ∈ node_deps node → dep_complete (Legacy.l_statuses s) dep) as Hvisit.
  { intros pre post Heq.
    destruct (scan_fold_spec wf pre ([], s) Hc) as (Hc' & Hsame & Hchg & _).
    simpl in *. rewrite (scan_decision_push_iff _ _ _ Hc').
    rewrite (nodeDeps_lookup wf node Hnd Hin). simpl.
    assert (node_id node ∉ node_id <$> pre) as Hnotin.
    { unfold node_ids in Hnd. rewrite Heq, fmap_app, fmap_cons in Hnd.
      apply NoDup_app in Hnd as (_ & Hd & _). intros Hx. apply (Hd _ Hx).
      apply elem_of_cons. by left. }
    split.
    - intros [_ Hall] dep Hdep. specialize (Hall dep Hdep).
      destruct (Hchg dep) as [Heq'|[_ Heq']]; unfold dep_complete in *.
      + by rewrite <- Heq'.
      + rewrite Heq' in Hall. naive_solver.
    - intros Hall. split.
      + unfold open_status. rewrite (Hsame _ Hnotin). by right.
      + intros dep Hdep. specialize (Hall dep Hdep).
        destruct (Hchg dep) as [Heq'|[Ho _]]; unfold dep_complete, open_status in *.
        * by rewrite Heq'.
        * naive_solver. }
  split.
  - intros [Habs | (pre & n & post & Heq & Hid & Hd)]; [by apply elem_of_nil in Habs|].
    assert (n = node) as ->.
    { apply (node_id_inj wf); auto. rewrite Heq. apply elem_of_app. right.
      apply elem_of_cons. by left. }
    by apply (Hvisit pre post).
  - intros Hall. right.
    apply list_elem_of_split in Hin as (pre & post & Heq).
    exists pre, node, post. split_and!; [done..|]. by apply (Hvisit pre post).
Qed.

Lemma legacy_scan_settled wf s k st w :
  coherent s → Legacy.l_statuses s !! k = Some st → st ≠ PENDING →
  (k ∉ legacy_frontier (Legacy.scan wf s w)) ∧
  legacy_statuses (Legacy.scan wf s w) !! k = Some st.
Proof.
  intros Hc Hk Hst.
  destruct (legacy_scan_ok wf s w) as [w' ->]. unfold legacy_frontier, legacy_statuses.
  simpl.
  destruct (scan_fold_spec wf (nodes wf) ([], s) Hc) as (_ & _ & Hchg & Hready).
  simpl in *. split.
  - rewrite Hready. intros [Habs | (pre & n & post & Heq & Hid & Hd)];
      [by apply elem_of_nil in Habs|].
    destruct (scan_fold_spec wf pre ([], s) Hc) as (Hc' & _ & Hchg' & _).
    simpl in *. apply (scan_decision_push_iff _ _ _ Hc') in Hd as [Ho _].
    rewrite Hid in Ho.
    destruct (Hchg' k) as [Heq'|[Ho' Heq']]; unfold open_status in *.
    + rewrite Heq', Hk in Ho. naive_solver.
    + rewrite Hk in Ho'. naive_solver.
  - destruct (Hchg k) as [Heq'|[Ho' _]]; [congruence|].
    unfold open_status in Ho'. rewrite Hk in Ho'. naive_solver.
Qed.

(** C1 (the ready frontier).  In a tick of the router, and in a scan of the
    earlier scheduler, a node whose status is PENDING is put on the ready
    frontier exactly when every dependency it declares has status SUCCESS or
    CACHED; a node that is RUNNING or has a terminal status is not put on the
    frontier and its status is not written.  Node ids are unique. *)
Theorem C1_ready_frontier (wf : WorkflowDefinition) :
  NoDup (node_ids wf) →
  (∀ (state : RunState) (w : World),
     (∀ node, node ∈ nodes wf → statuses state !! node_id node = Some PENDING →
        ((node_id node ∈ frontier (router wf state w)) ↔
         ∀ dep, dep ∈ node_deps node → dep_complete (statuses state) dep)) ∧
     (∀ k st, statuses state !! k = Some st → st ≠ PENDING →
        (k ∉ frontier (router wf state w)) ∧
        status_updates (router wf state w) !! k = None)) ∧
  (∀ (s : Legacy.LoopState) (w : World),
     coherent s →
     (∀ node, node ∈ nodes wf → Legacy.l_statuses s !! node_id node = Some PENDING →
        ((node_id node ∈ legacy_frontier (Legacy.scan wf s w)) ↔
         ∀ dep, dep ∈ node_deps node → dep_complete (Legacy.l_statuses s) dep)) ∧
     (∀ k st, Legacy.l_statuses s !! k = Some st → st ≠ PENDING →
        (k ∉ legacy_frontier (Legacy.scan wf s w)) ∧
        legacy_statuses (Legacy.scan wf s w) !! k = Some st)).
Proof.
  intros Hnd. split.
  - intros state w. destruct (router_frontier wf state w) as [-> ->]. split.
    + intros node Hin Hp. rewrite elem_of_router_ready. split.
      * intros (n & Hn & Hid & Hpush).
        assert (n = node) as -> by (by apply (node_id_inj wf)).
        by apply pushes_iff in Hpush as [_ ?].
      * intros Hall. exists node. split_and!; [done..|].
        apply pushes_iff. split; [by right | done].
    + intros k st Hk Hst. split.
      * rewrite elem_of_router_ready. intros (n & _ & Hid & Hpush).
        apply pushes_iff in Hpush as [Ho _]. rewrite Hid in Ho.
        unfold open_status in Ho. rewrite Hk in Ho. naive_solver.
      * rewrite router_updates_lookup. case_decide as Hs; [|done].
        apply elem_of_router_skipped in Hs as (n & _ & Hid & Hskip).
        apply skips_iff in Hskip as [Ho _]. rewrite Hid in Ho.
        unfold open_status in Ho. rewrite Hk in Ho. naive_solver.
  - intros s w Hc. split.
    + intros node Hin Hp. by apply legacy_scan_frontier.
    + intros k st Hk Hst. by apply legacy_scan_settled.
Qed.

(** ** Deadlock *)

Lemma after_router_statuses_of wf state :
  statuses_of wf (statuses state) → statuses_of wf (statuses (after_router wf state)).
Proof.
  intros Hkeys k. rewrite after_router_statuses. case_decide as Hs; [|apply Hkeys].
  intros _. apply elem_of_router_skipped in Hs as (n & Hin & <- & _).
  by apply list_elem_of_fmap_2.
Qed.

Lemma scan_fold_sets wf ns acc :
  let r := foldl (scan_step wf) acc ns in
  Legacy.l_completed r.2 = Legacy.l_completed acc.2 ∧
  Legacy.l_failed r.2 = Legacy.l_failed acc.2 ∧
  Legacy.l_skipped acc.2 ⊆ Legacy.l_skipped r.2.
Proof.
  revert acc. induction ns as [|n ns IH]; intros acc; simpl; [done|].
  destruct (IH (scan_step wf acc n)) as (-> & -> & Hsub).
  unfold scan_step in *. destruct (Legacy.scan_decision _ _ _); simpl in *;
    split_and!; set_solver.
Qed.

Lemma legacy_loop_entered wf s p :
  NoDup (node_ids wf) → coherent s →
  (∀ k, Legacy.is_done s k = true → k ∈ node_ids wf) →
  p ∈ node_ids wf → Legacy.is_done s p = false →
  (size (Legacy.l_completed s) + size (Legacy.l_failed s) + size (Legacy.l_skipped s)
   < length (nodes wf))%nat.
Proof.
  intros Hnd Hc Hsets Hp Hopen.
  assert (Legacy.l_completed s ## Legacy.l_failed s) as D1.
  { intros k H1 H2. destruct (Hc k) as (E1 & E2 & _).
    apply E1 in H1. apply E2 in H2. unfold dep_complete in H1. naive_solver. }
  assert (Legacy.l_completed s ∪ Legacy.l_failed s ## Legacy.l_skipped s) as D2.
  { intros k H1 H2. destruct (Hc k) as (E1 & E2 & E3).
    apply E3 in H2. apply elem_of_union in H1 as [H1|H1];
      [apply E1 in H1; unfold dep_complete in H1 | apply E2 in H1]; naive_solver. }
  rewrite <- size_union by done. rewrite <- size_union by done.
  rewrite <- (length_fmap node_id). fold (node_ids wf).
  rewrite <- (size_list_to_set (C := gset string)) by done.
  apply subset_size. split.
  - intros k Hk. apply elem_of_list_to_set. apply Hsets.
    unfold Legacy.is_done. apply bool_decide_eq_true_2. set_solver.
  - intros Hsub. assert (p ∈ (list_to_set (node_ids wf) : gset string)) as Hin
      by (by apply elem_of_list_to_set).
    apply Hsub in Hin. unfold Legacy.is_done in Hopen.
    apply bool_decide_eq_false_1 in Hopen. set_solver.
Qed.

(** Deadlock, while the keys of the status map are node ids of the workflow
    (as they are all along a new run).  When the frontier computed in a tick
    is empty and a node is still PENDING, the run stops in that tick with
    the deadlock error, whose message lists the nodes that are still
    pending, in workflow order: for the graph, the nodes whose status is
    PENDING or absent once the router's update is applied; for the earlier
    scheduler, the nodes in none of its three sets. *)
Theorem deadlock_detected (env : Env) (wf : WorkflowDefinition) (fuel : nat) :
  (∀ (thread : option string) (state : RunState) (update : PartialRunState)
     (w w1 : World) (p : string),
     statuses_of wf (statuses state) →
     router wf state w = (Ok update, w1) →
     next (apply_update state update) = [] →
     statuses (apply_update state update) !! p = Some PENDING →
     let pendingNodes :=
       filter (fun k => is_pending (statuses (apply_update state update)) k)
              (node_ids wf) in
     graph_loop env wf (S fuel) thread state w
     = (Throw (deadlock_error pendingNodes), w1) ∧
     (∀ k, k ∈ pendingNodes ↔
           k ∈ node_ids wf ∧ (statuses (apply_update state update) !! k = None ∨
                              statuses (apply_update state update) !! k = Some PENDING))) ∧
  (∀ (s s1 : Legacy.LoopState) (w w2 : World) (q : NodeDefinition),
     NoDup (node_ids wf) →
     coherent s →
     (∀ k, Legacy.is_done s k = true → k ∈ node_ids wf) →
     Legacy.scan wf s w = (Ok ([], s1), w2) →
     q ∈ nodes wf → Legacy.is_done s1 (node_id q) = false →
     (∃ w', Legacy.run_loop env wf (S fuel) s w
            = (Throw (deadlock_error (node_id <$> Legacy.still_open wf s1)), w')) ∧
     (∀ n, n ∈ Legacy.still_open wf s1 ↔
           n ∈ nodes wf ∧ Legacy.is_done s1 (node_id n) = false)).
Proof.
  split.
  - intros thread state update w w1 p Hkeys Hr Hnext Hp pendingNodes.
    destruct (router_ok wf state w) as [w' Hr']. rewrite Hr in Hr'.
    injection Hr' as -> ->. fold (after_router wf state) in *. split.
    + rewrite graph_loop_S. rewrite (bind_ok _ _ _ _ _ Hr). cbv zeta.
      fold (after_router wf state).
      by rewrite (route_deadlock wf _ p (after_router_statuses_of _ _ Hkeys) Hnext Hp).
    + intros k. unfold pendingNodes. rewrite list_elem_of_filter.
      unfold is_pending. rewrite Is_true_true, bool_decide_eq_true. tauto.
  - intros s s1 w w2 q Hnd Hc Hsets Hscan Hq Hopen. split.
    + simpl.
      assert (Legacy.is_done s (node_id q) = false) as Hopen0.
      { destruct (legacy_scan_ok wf s w) as [w3 Hs]. rewrite Hscan in Hs.
        injection Hs as Hs _.
        destruct (scan_fold_sets wf (nodes wf) ([], s)) as (E1 & E2 & E3).
        rewrite <- Hs in *. simpl in *.
        unfold Legacy.is_done in *. apply bool_decide_eq_false_2.
        apply bool_decide_eq_false_1 in Hopen. rewrite E1, E2 in Hopen. set_solver. }
      pose proof (legacy_loop_entered wf s (node_id q) Hnd Hc Hsets
                    (list_elem_of_fmap_2 node_id _ _ Hq) Hopen0) as Hlt.
      case_decide; [|lia].
      rewrite (bind_ok _ _ _ _ _ Hscan).
      destruct (Legacy.still_open wf s1) as [|x l] eqn:E.
      { exfalso.
        assert (q ∈ Legacy.still_open wf s1) as Hin.
        { unfold Legacy.still_open. apply list_elem_of_filter. split; [|done].
          by rewrite Hopen. }
        rewrite E in Hin. by apply elem_of_nil in Hin. }
      unfold complete, bind, modify, save, throw. eauto.
    + intros n. unfold Legacy.still_open. rewrite list_elem_of_filter.
      destruct (Legacy.is_done s1 (node_id n)); simpl; naive_solver.
Qed.

(** ** What a computation adds to the trace *)

Lemma trace_ext_refl P w : trace_ext P w w.
Proof. exists []. by rewrite app_nil_r. Qed.

Lemma trace_ext_trans P w1 w2 w3 :
  trace_ext P w1 w2 → trace_ext P w2 w3 → trace_ext P w1 w3.
Proof.
  intros (e1 & H1 & F1) (e2 & H2 & F2). exists (e1 ++ e2)%list. split.
  - by rewrite H2, H1, app_assoc.
  - by apply Forall_app.
Qed.

Lemma trace_ext_weaken (P Q : Event → Prop) w w' :
  (∀ e, P e → Q e) → trace_ext P w w' → trace_ext Q w w'.
Proof.
  intros HPQ (evs & H & F). exists evs. split; [done|].
  eapply Forall_impl; eauto.
Qed.

Lemma trace_ext_same P w w' : w_trace w' = w_trace w → trace_ext P w w'.
Proof. intros H. exists []. by rewrite app_nil_r. Qed.

Lemma trace_ext_emit (P : Event → Prop) w e : P e → trace_ext P w (emit e w).
Proof. intros H. exists [e]. split; [done|]. by apply Forall_singleton. Qed.

#[global] Instance trace_ext_preorder P : PreOrder (trace_ext P).
Proof.
  split; [intros w; apply trace_ext_refl | intros w1 w2 w3; apply trace_ext_trans].
Qed.

Section Steps.
Context (R : relation World) `{!PreOrder R}.

Lemma steps_ret {A} (a : A) : steps R (ret a).
Proof. intros w. reflexivity. Qed.

Lemma steps_throw {A} e : steps R (@throw A e).
Proof. intros w. reflexivity. Qed.

Lemma steps_hang {A} : steps R (@hang A).
Proof. intros w. reflexivity. Qed.

Lemma steps_lift {A} (r : Res A) : steps R (lift r).
Proof. intros w. reflexivity. Qed.

Lemma steps_get_world : steps R get_world.
Proof. intros w. reflexivity. Qed.

Lemma steps_bind {A B} (m : M A) (k : A → M B) :
  steps R m → (∀ a, steps R (k a)) → steps R (bind m k).
Proof.
  intros Hm Hk w. unfold bind. specialize (Hm w).
  destruct (m w) as [[a| |] w1]; simpl in *; try done.
  etrans; [done|]. apply Hk.
Qed.

Lemma steps_try_catch {A} (m : M A) (h : string → M A) :
  steps R m → (∀ e, steps R (h e)) → steps R (try_catch m h).
Proof.
  intros Hm Hh w. unfold try_catch. specialize (Hm w).
  destruct (m w) as [[a| |] w1]; simpl in *; try done.
  etrans; [done|]. apply Hh.
Qed.

Lemma steps_modify (f : World → World) :
  (∀ w, R w (f w)) → steps R (modify f).
Proof. intros H w. apply H. Qed.

Lemma steps_for_each {A S} (xs : list A) (f : S → A → M S) (s : S) :
  (∀ s x, steps R (f s x)) → steps R (for_each xs f s).
Proof.
  intros Hf. revert s. induction xs as [|x xs IH]; intros s; simpl.
  - apply steps_ret.
  - apply steps_bind; [apply Hf | apply IH].
Qed.

End Steps.

Lemma steps_weaken {A} (R R' : relation World) (m : M A) :
  (∀ w w', R w w' → R' w w') → steps R m → steps R' m.
Proof. intros HR H w. apply HR, H. Qed.

Lemma emits_weaken {A} (P Q : Event → Prop) (m : M A) :
  (∀ e, P e → Q e) → emits P m → emits Q m.
Proof. intros HPQ. apply steps_weaken. intros w w'. by apply trace_ext_weaken. Qed.

Lemma emits_ret {A} P (a : A) : emits P (ret a).
Proof. apply steps_ret, _. Qed.

Lemma emits_throw {A} P e : emits P (@throw A e).
Proof. apply steps_throw, _. Qed.

Lemma emits_hang {A} P : emits P (@hang A).
Proof. apply steps_hang, _. Qed.

Lemma emits_lift {A} P (r : Res A) : emits P (lift r).
Proof. apply steps_lift, _. Qed.

Lemma emits_get_world P : emits P get_world.
Proof. apply steps_get_world, _. Qed.

Lemma emits_bind {A B} P (m : M A) (k : A → M B) :
  emits P m → (∀ a, emits P (k a)) → emits P (bind m k).
Proof. apply steps_bind, _. Qed.

Lemma emits_try_catch {A} P (m : M A) (h : string → M A) :
  emits P m → (∀ e, emits P (h e)) → emits P (try_catch m h).
Proof. apply steps_try_catch, _. Qed.

Lemma emits_modify P (f : World → World) :
  (∀ w, trace_ext P w (f w)) → emits P (modify f).
Proof. apply steps_modify. Qed.

Lemma emits_for_each {A S} P (xs : list A) (f : S → A → M S) (s : S) :
  (∀ s x, emits P (f s x)) → emits P (for_each xs f s).
Proof. apply steps_for_each, _. Qed.

Lemma emits_save P : emits P save.
Proof. intros w. by apply trace_ext_same. Qed.

Lemma emits_sleep P d : emits P (sleep d).
Proof. intros w. by apply trace_ext_same. Qed.

Lemma emits_setNodeStatus (P : Event → Prop) nodeId status :
  P (EvSetNodeStatus nodeId status) → emits P (setNodeStatus nodeId status).
Proof.
  intros HP. unfold setNodeStatus. apply emits_bind; [|intros; apply emits_save].
  apply emits_modify. intros w.
  match goal with |- trace_ext _ _ (emit ?e ?w') =>
    apply (trace_ext_trans _ _ w'); [by apply trace_ext_same | by apply trace_ext_emit]
  end.
Qed.

Lemma emits_setNodeOutput P nodeId output : emits P (setNodeOutput nodeId output).
Proof.
  unfold setNodeOutput. apply emits_bind; [|intros; apply emits_save].
  apply emits_modify. intros w. by apply trace_ext_same.
Qed.

Lemma emits_setNodeError P nodeId error : emits P (setNodeError nodeId error).
Proof.
  unfold setNodeError. apply emits_bind; [|intros; apply emits_save].
  apply emits_modify. intros w. by apply trace_ext_same.
Qed.

Lemma emits_complete P status : emits P (complete status).
Proof.
  unfold complete. apply emits_bind; [|intros; apply emits_save].
  apply emits_modify. intros w. by apply trace_ext_same.
Qed.

Lemma emits_checkpoint P thread state : emits P (checkpoint thread state).
Proof.
  destruct thread; simpl; [|apply emits_ret].
  apply emits_modify. intros w. by apply trace_ext_same.
Qed.

Lemma emits_CacheStore_get (P : Event → Prop) key :
  P (EvCacheGet key) → emits P (CacheStore_get key).
Proof. intros HP w. by apply trace_ext_emit. Qed.

Lemma emits_CacheStore_put (P : Event → Prop) key value :
  P (EvCachePut key value) → emits P (CacheStore_put key value).
Proof.
  intros HP w. unfold CacheStore_put. simpl.
  match goal with |- trace_ext _ _ (emit ?e ?w') =>
    apply (trace_ext_trans _ _ w'); [by apply trace_ext_same | by apply trace_ext_emit]
  end.
Qed.

Ltac emits_step :=
  first
    [ apply emits_ret | apply emits_throw | apply emits_hang | apply emits_lift
    | apply emits_get_world | apply emits_save | apply emits_sleep
    | apply emits_setNodeOutput | apply emits_setNodeError | apply emits_complete
    | apply emits_checkpoint
    | apply emits_CacheStore_get; done
    | apply emits_CacheStore_put; done
    | apply emits_setNodeStatus; solve [eauto]
    | apply emits_bind; [|intros ?]
    | apply emits_try_catch; [|intros ?] ].

Ltac emits_auto := repeat (emits_step || case_match || case_decide).

#[global] Instance quiet_preorder : PreOrder quiet.
Proof.
  split.
  - intros w. split; [done | apply trace_ext_refl].
  - intros w1 w2 w3 [C1 T1] [C2 T2]. split; [congruence|]. by eapply trace_ext_trans.
Qed.

#[global] Instance quiet_stable : ProcessStable quiet.
Proof.
  split; [apply _| |].
  - intros w e He. split; [done | by apply trace_ext_emit].
  - intros w t. split; [done | by apply trace_ext_same].
Qed.

#[global] Instance executor_events_stable : ExecutorStable (trace_ext executor_event).
Proof.
  split; [split; [apply _| |]| |].
  - intros w e He. apply trace_ext_emit. by destruct e.
  - intros w t. by apply trace_ext_same.
  - intros w key. by apply trace_ext_emit.
  - intros w key value.
    match goal with |- trace_ext _ _ (emit ?e ?w') =>
      apply (trace_ext_trans _ _ w'); [by apply trace_ext_same | by apply trace_ext_emit]
    end.
Qed.

(** ** Asynchronous functions, turn by turn *)

Lemma Async_ind {A} (P : Async A → Prop) :
  (∀ run, (∀ w p' w', run w = (Ok (inr p'), w') → P p') → P (Resume run)) →
  ∀ p, P p.
Proof.
  intros H. fix IH 1. intros [run]. apply H. intros w p' w' E.
  destruct (run w) as [[[a|q]|e|] w1]; try discriminate.
  injection E as <- _. apply IH.
Qed.

Section Turns.
Context (R : relation World) `{!PreOrder R}.

Lemma turns_resolve {A} (a : A) : each_turn R (Resume (resolve a)).
Proof. intros w. split; [reflexivity|done]. Qed.

Lemma turns_throw {A} e : each_turn R (Resume (@throw (A + Async A) e)).
Proof. intros w. split; [reflexivity|done]. Qed.

Lemma turns_bind {X A} (m : M X) (k : X → M (A + Async A)) :
  steps R m → (∀ x, each_turn R (Resume (k x))) →
  each_turn R (Resume (let* x := m in k x)).
Proof.
  intros Hm Hk w. specialize (Hm w). unfold bind.
  destruct (m w) as [[x|e|] w1]; simpl in *; [|done..].
  destruct (Hk x w1) as [H1 H2]. split; [by etrans|done].
Qed.

Lemma turns_await {X A} (op : M X) (k : X → M (A + Async A)) :
  steps R op → (∀ x, each_turn R (Resume (k x))) →
  each_turn R (Resume (await op k)).
Proof.
  intros Hop Hk w. split; [reflexivity|]. simpl. by apply turns_bind.
Qed.

Lemma each_turn_after {A B} (p : Async A) (k : A → M (B + Async B)) :
  each_turn R p → (∀ a, each_turn R (Resume (k a))) → each_turn R (after p k).
Proof.
  intros Hp Hk. induction p as [run IH] using Async_ind.
  intros w. simpl. destruct (Hp w) as [H1 H2].
  destruct (run w) as [[[a|q]|e|] w1] eqn:E; simpl in *; try done.
  - destruct (Hk a w1) as [H3 H4]. split; [by etrans|done].
  - split; [done|]. by eapply IH.
Qed.

Lemma turns_await_call {A B} (call : M (A + Async A)) (k : A → M (B + Async B)) :
  each_turn R (Resume call) → (∀ a, each_turn R (Resume (k a))) →
  each_turn R (Resume (await_call call k)).
Proof.
  intros Hc Hk w. unfold await_call, bind. destruct (Hc w) as [H1 H2].
  destruct (call w) as [[[a|q]|e|] w1] eqn:E; simpl in *; try done.
  - destruct (Hk a w1) as [H3 H4]. split; [by etrans|done].
  - split; [done|]. by apply each_turn_after.
Qed.

(** The fan-out: every call and every turn is an [R]-step. *)
Lemma settle_turns i r s :
  Forall (fun ip : nat * Async JSON => each_turn R ip.2) (fo_running s) →
  match r with Ok (inr p) => each_turn R p | _ => True end →
  Forall (fun ip : nat * Async JSON => each_turn R ip.2) (fo_running (settle i r s)).
Proof.
  intros Hs Hr. destruct r as [[v|p]|e|]; simpl; try done.
  apply Forall_app. split; [done|]. by apply Forall_singleton.
Qed.

Lemma start_next_turns body queue s w :
  (∀ i, each_turn R (Resume (body i))) →
  Forall (fun ip : nat * Async JSON => each_turn R ip.2) (fo_running s) →
  R w (start_next body queue s w).2 ∧
  Forall (fun ip : nat * Async JSON => each_turn R ip.2)
         (fo_running (start_next body queue s w).1).
Proof.
  intros Hbody. revert s w. induction queue as [|i queue IH]; intros s w Hs; simpl.
  - split; [reflexivity|done].
  - case_decide; [|split; [reflexivity|done]].
    destruct (Hbody i w) as [H1 H2].
    destruct (body i w) as [r w1] eqn:E. simpl in *.
    destruct (IH (settle i r s) w1) as [H3 H4].
    { apply settle_turns; [done|]. by destruct r as [[]| |]. }
    split; [by etrans|done].
Qed.

Lemma fan_step_turns env body s w :
  (∀ i, each_turn R (Resume (body i))) →
  Forall (fun ip : nat * Async JSON => each_turn R ip.2) (fo_running s) →
  R w (fan_step env body s w).2 ∧
  Forall (fun ip : nat * Async JSON => each_turn R ip.2)
         (fo_running (fan_step env body s w).1).
Proof.
  intros Hbody Hs. unfold fan_step.
  destruct (chosen env w s) as [[i p]|] eqn:E; [|split; [reflexivity|done]].
  assert (each_turn R p) as Hp.
  { unfold chosen in E. apply list_elem_of_lookup_2 in E.
    by apply (proj1 (Forall_forall _ _) Hs (i, p)). }
  destruct p as [run]. simpl in *. destruct (Hp w) as [H1 H2].
  destruct (run w) as [r w1] eqn:Er. simpl in *.
  destruct (start_next_turns body
              (fo_queue (settle i r (without_item (turn env w s) s)))
              (settle i r (without_item (turn env w s) s)) w1 Hbody) as [H3 H4].
  { apply settle_turns.
    - simpl. by apply Forall_delete.
    - by destruct r as [[]| |]. }
  split; [by etrans|done].
Qed.

Lemma fan_run_turns env fuel body s w :
  (∀ i, each_turn R (Resume (body i))) →
  Forall (fun ip : nat * Async JSON => each_turn R ip.2) (fo_running s) →
  R w (fan_run env fuel body s w).2.
Proof.
  intros Hbody. revert s w. induction fuel as [|fuel IH]; intros s w Hs; simpl.
  - reflexivity.
  - destruct (fan_step_turns env body s w Hbody Hs) as [H1 H2].
    destruct (fan_step env body s w) as [s1 w1]. simpl in *.
    etrans; [done|]. by apply IH.
Qed.

End Turns.

Section ProcessSteps.
Context (env : Env) (R : relation World) `{!ProcessStable R}.

Lemma steps_sleep d : steps R (sleep d).
Proof. intros w. apply ps_clock. Qed.

Lemma steps_kill_child : steps R kill_child.
Proof. intros w. by apply ps_emit. Qed.

Lemma steps_do_spawn cmd argv cwd envv : steps R (do_spawn env cmd argv cwd envv).
Proof. intros w. by apply ps_emit. Qed.

Lemma steps_call_agent ag c : steps R (call_agent ag c).
Proof. intros w. by apply ps_emit. Qed.

Lemma steps_await_exit spec child : steps R (await_exit spec child).
Proof.
  unfold await_exit.
  destruct child; [apply steps_throw, _| |].
  - destruct (exec_timer spec); [destruct (_ <? _)%N|];
      repeat (apply steps_bind; [apply _| |intros ?]);
      try apply steps_sleep; try apply steps_kill_child;
      try (apply steps_throw, _); apply steps_ret, _.
  - destruct (exec_timer spec); [|apply steps_hang, _].
    repeat (apply steps_bind; [apply _| |intros ?]);
      try apply steps_sleep; try apply steps_kill_child;
      apply steps_throw, _.
Qed.

Lemma steps_collect_artifacts fs acc : steps R (collect_artifacts env fs acc).
Proof.
  revert acc. induction fs as [|f fs IH]; intros acc; simpl; [apply steps_ret, _|].
  apply steps_bind; [apply _|apply steps_get_world, _|]. intros w.
  destruct (fs_access _ _ _); [apply IH | apply steps_throw, _].
Qed.

Lemma steps_read_result spec dflt : steps R (read_result env spec dflt).
Proof.
  unfold read_result. destruct (result_file spec); [|apply steps_ret, _].
  apply steps_bind; [apply _|apply steps_get_world, _|]. intros w.
  apply steps_bind; [apply _|apply steps_lift, _|]. intros text.
  apply steps_lift, _.
Qed.

Lemma turns_collect_artifacts {A} fs acc (k : list string → M (A + Async A)) :
  (∀ arts, each_turn R (Resume (k arts))) →
  each_turn R (Resume (collect_artifacts_async env fs acc k)).
Proof.
  intros Hk. revert acc. induction fs as [|f fs IH]; intros acc; simpl; [apply Hk|].
  apply turns_await; [apply _| |].
  - apply steps_bind; [apply _|apply steps_get_world, _|]. intros w. apply steps_ret, _.
  - intros [|]; [apply IH|apply turns_throw, _].
Qed.

Lemma turns_read_result {A} spec dflt (k : JSON → M (A + Async A)) :
  (∀ res, each_turn R (Resume (k res))) →
  each_turn R (Resume (read_result_async env spec dflt k)).
Proof.
  intros Hk. unfold read_result_async. destruct (result_file spec); [|apply Hk].
  apply turns_await; [apply _| |].
  - apply steps_bind; [apply _|apply steps_get_world, _|]. intros w. apply steps_lift, _.
  - intros text. apply turns_bind; [apply _|apply steps_lift, _|apply Hk].
Qed.

End ProcessSteps.

Section ExecutorSteps.
Context (env : Env) (R : relation World) `{!ExecutorStable R}.

Lemma steps_CacheStore_get key : steps R (CacheStore_get key).
Proof. intros w. apply es_get. Qed.

Lemma steps_CacheStore_put key value : steps R (CacheStore_put key value).
Proof. intros w. apply es_put. Qed.

Lemma steps_runExec_spawn spec key : steps R (runExec_spawn env spec key).
Proof.
  unfold runExec_spawn.
  apply steps_bind; [apply _|apply steps_do_spawn, _|]. intros child.
  apply steps_bind; [apply _|apply steps_await_exit, _|]. intros exitCode.
  case_decide; [apply steps_throw, _|].
  apply steps_bind; [apply _|apply steps_collect_artifacts, _|]. intros arts.
  apply steps_bind; [apply _|apply steps_read_result, _|]. intros res.
  apply steps_bind; [apply _| |intros; apply steps_ret, _].
  destruct (exec_caches spec); [apply steps_CacheStore_put | apply steps_ret, _].
Qed.

Lemma steps_runExec spec : steps R (runExec env spec).
Proof.
  unfold runExec. apply steps_bind; [apply _| |].
  { destruct (exec_caches spec); [apply steps_CacheStore_get | apply steps_ret, _]. }
  intros [h|]; [apply steps_ret, _ | apply steps_runExec_spawn].
Qed.

Lemma steps_runTask_agent ag spec key : steps R (runTask_agent env ag spec key).
Proof.
  unfold runTask_agent.
  apply steps_bind; [apply _|apply steps_call_agent, _|]. intros res.
  apply steps_bind; [apply _| |intros; apply steps_ret, _].
  destruct (task_caches spec); [apply steps_CacheStore_put | apply steps_ret, _].
Qed.

Lemma steps_runTask ag spec : steps R (runTask env ag spec).
Proof.
  unfold runTask. apply steps_bind; [apply _| |].
  { destruct (task_caches spec); [apply steps_CacheStore_get | apply steps_ret, _]. }
  intros [h|]; [apply steps_ret, _ | apply steps_runTask_agent].
Qed.

Lemma steps_run_body msg body : steps R (run_body env msg body).
Proof.
  destruct body as [e|t|k]; simpl.
  - apply steps_runExec.
  - destruct (agentRegistry env (agent t)); [apply steps_runTask | apply steps_throw, _].
  - apply steps_throw, _.
Qed.

Lemma turns_runExec_spawn spec key :
  each_turn R (Resume (runExec_spawn_async env spec key)).
Proof.
  unfold runExec_spawn_async.
  apply turns_bind; [apply _|apply steps_do_spawn, _|]. intros child.
  apply turns_await; [apply _|apply steps_await_exit, _|]. intros exitCode.
  case_decide; [apply turns_throw, _|].
  apply turns_collect_artifacts; [apply _|]. intros arts.
  apply turns_read_result; [apply _|]. intros res.
  destruct (exec_caches spec); [|apply turns_resolve, _].
  apply turns_await; [apply _|apply steps_CacheStore_put|]. intros _.
  apply turns_resolve, _.
Qed.

Lemma turns_runExec spec : each_turn R (Resume (runExec_async env spec)).
Proof.
  unfold runExec_async. destruct (exec_caches spec); [|apply turns_runExec_spawn].
  apply turns_await; [apply _|apply steps_CacheStore_get|].
  intros [h|]; [apply turns_resolve, _|apply turns_runExec_spawn].
Qed.

Lemma turns_runTask_agent ag spec key :
  each_turn R (Resume (runTask_agent_async env ag spec key)).
Proof.
  unfold runTask_agent_async. apply turns_bind; [apply _| |].
  { intros w. by apply ps_emit. }
  intros promise. apply turns_await; [apply _|apply steps_lift, _|]. intros res.
  destruct (task_caches spec); [|apply turns_resolve, _].
  apply turns_await; [apply _|apply steps_CacheStore_put|]. intros _.
  apply turns_resolve, _.
Qed.

Lemma turns_runTask ag spec : each_turn R (Resume (runTask_async env ag spec)).
Proof.
  unfold runTask_async. destruct (task_caches spec); [|apply turns_runTask_agent].
  apply turns_await; [apply _|apply steps_CacheStore_get|].
  intros [h|]; [apply turns_resolve, _|apply turns_runTask_agent].
Qed.

Lemma turns_run_body msg body : each_turn R (Resume (run_body_async env msg body)).
Proof.
  destruct body as [e|t|k]; simpl run_body_async.
  - apply turns_runExec.
  - destruct (agentRegistry env (agent t)); [apply turns_runTask | apply turns_throw, _].
  - apply turns_throw, _.
Qed.

Lemma turns_item_body spec vs outs items i :
  each_turn R (Resume (item_body env spec vs outs items i)).
Proof.
  unfold item_body. destruct (items !! i); [|apply turns_throw, _].
  unfold map_item. apply turns_bind; [apply _|apply steps_lift, _|].
  intros resolvedBody. apply turns_await_call; [apply _|apply turns_run_body|].
  intros. apply turns_resolve, _.
Qed.

Lemma steps_resolve_items tc ov : steps R (resolve_items env tc ov).
Proof.
  unfold resolve_items.
  destruct ov; try (apply steps_bind; [apply _|apply steps_lift, _|];
                    intros; apply steps_ret, _).
  apply steps_bind; [apply _|apply steps_lift, _|]. intros resolved.
  destruct (JSON_parse env resolved) as [[]| |];
    try apply steps_throw, _; try apply steps_ret, _; try apply steps_hang, _.
  apply steps_bind; [apply _|apply steps_lift, _|]. intros. apply steps_ret, _.
Qed.

Lemma steps_runMap spec vs outs : steps R (runMap env spec vs outs).
Proof.
  unfold runMap. apply steps_bind; [apply _|apply steps_resolve_items|].
  intros items. apply steps_bind; [apply _| |intros; apply steps_ret, _].
  intros w. unfold promise_all_limited. cbv zeta.
  pose proof (turns_item_body spec vs outs items) as Hbody.
  destruct (start_next_turns R (item_body env spec vs outs items)
              (seq 0 (length items))
              {| fo_queue := seq 0 (length items); fo_running := []; fo_stuck := [];
                 fo_values := replicate (length items) None; fo_rejected := None |}
              w Hbody) as [H0 Hrun]; [done|].
  unfold fan_init.
  destruct (start_next _ _ _ w) as [s0 w0]. simpl in *.
  pose proof (fan_run_turns R env (fan_turns env spec vs outs items)
                (item_body env spec vs outs items) s0 w0 Hbody Hrun) as H.
  destruct (fan_run _ _ _ _ _) as [s w1]. simpl in *. by etrans.
Qed.

Lemma steps_runReduce spec vs outs : steps R (runReduce env spec vs outs).
Proof.
  unfold runReduce. apply steps_bind; [apply _|apply steps_lift, _|].
  intros resolvedBody. apply steps_run_body.
Qed.

Lemma steps_run_node node state : steps R (run_node env node state).
Proof.
  unfold run_node. destruct node as [e|t|m|r].
  - apply steps_bind; [apply _|apply steps_lift, _|].
    intros [e'|t'|m'|r']; try apply steps_throw, _.
    + apply steps_runExec.
    + destruct (agentRegistry env (agent t'));
        [apply steps_runTask | apply steps_throw, _].
  - apply steps_bind; [apply _|apply steps_lift, _|].
    intros [e'|t'|m'|r']; try apply steps_throw, _.
    + apply steps_runExec.
    + destruct (agentRegistry env (agent t'));
        [apply steps_runTask | apply steps_throw, _].
  - apply steps_runMap.
  - apply steps_runReduce.
Qed.

End ExecutorSteps.

Section ExecutorTraces.
Context (env : Env).

Lemma emits_runExec_spawn spec key :
  emits executor_event (runExec_spawn env spec key).
Proof. apply steps_runExec_spawn, _. Qed.

Lemma emits_runTask_agent ag spec key :
  emits executor_event (runTask_agent env ag spec key).
Proof. apply steps_runTask_agent, _. Qed.

Lemma emits_run_node node state : emits executor_event (run_node env node state).
Proof. apply steps_run_node, _. Qed.

Lemma emits_createNodeHandler node state :
  emits (handler_event (node_id node)) (createNodeHandler env node state).
Proof.
  unfold createNodeHandler. apply emits_try_catch.
  - apply emits_bind; [apply emits_setNodeStatus; right; eauto|]. intros _.
    apply emits_bind.
    { eapply emits_weaken; [|apply emits_run_node]. by left. }
    intros output.
    apply emits_bind; [apply emits_setNodeOutput|]. intros _.
    apply emits_bind; [apply emits_setNodeStatus; right; eauto|]. intros _.
    apply emits_ret.
  - intros e.
    apply emits_bind; [apply emits_setNodeError|]. intros _.
    apply emits_bind; [apply emits_setNodeStatus; right; eauto|]. intros _.
    apply emits_ret.
Qed.

(** What a handler returns: the status of its node, one of SUCCESS, CACHED
    and FAILED -- unless the node never settles. *)
Lemma createNodeHandler_returns node state w :
  (createNodeHandler env node state w).1 = Hang ∨
  ∃ u st, (createNodeHandler env node state w).1 = Ok u ∧
          p_statuses u = Some {[node_id node := st]} ∧
          (st = SUCCESS ∨ st = CACHED ∨ st = FAILED) ∧
          (p_outputs u = None ∨ ∃ o, p_outputs u = Some {[node_id node := o]}) ∧
          p_next u = None.
Proof.
  unfold createNodeHandler, try_catch.
  destruct (setNodeStatus_ok (node_id node) RUNNING w) as [w1 H1].
  rewrite (bind_ok _ _ _ _ _ H1).
  destruct (run_node env node state w1) as [[output| e |] w2] eqn:E.
  - rewrite (bind_ok _ _ _ _ _ E).
    destruct (setNodeOutput_ok (node_id node) output w2) as [w3 H3].
    rewrite (bind_ok _ _ _ _ _ H3).
    destruct (setNodeStatus_ok (node_id node) (final_status output) w3) as [w4 H4].
    rewrite (bind_ok _ _ _ _ _ H4). simpl. right.
    eexists _, _. split_and!; [done..| | |done].
    + unfold final_status. destruct (cached output) as [[]|]; auto.
    + right. eauto.
  - rewrite (bind_throw _ _ _ _ _ E).
    destruct (setNodeError_ok (node_id node) e w2) as [w3 H3].
    rewrite (bind_ok _ _ _ _ _ H3).
    destruct (setNodeStatus_ok (node_id node) FAILED w3) as [w4 H4].
    rewrite (bind_ok _ _ _ _ _ H4). simpl. right.
    eexists _, _. split_and!; [done..| | |done]; auto.
  - rewrite (bind_hang _ _ _ _ E). by left.
Qed.

End ExecutorTraces.

(** ** The run of the graph *)

Lemma checkpoint_ok thread state w :
  ∃ w', checkpoint thread state w = (Ok tt, w') ∧ w_trace w' = w_trace w.
Proof. destruct thread; simpl; unfold modify, ret; eauto. Qed.

Lemma router_trace wf state :
  emits (fun e => ∃ k, e = EvSetNodeStatus k SKIPPED
                       ∧ k ∈ router_skipped wf (statuses state))
        (router wf state).
Proof.
  unfold router. apply emits_bind.
  2:{ intros [ready su]. apply emits_ret. }
  assert (∀ ns acc, (∀ n, n ∈ ns → n ∈ nodes wf) →
            emits (fun e => ∃ k, e = EvSetNodeStatus k SKIPPED
                                 ∧ k ∈ router_skipped wf (statuses state))
                  (for_each ns (router_visit state (categorize (statuses state))) acc))
    as H; [|by apply H].
  induction ns as [|n ns IH]; intros acc Hin; simpl; [apply emits_ret|].
  apply emits_bind.
  - unfold router_visit. destruct acc as [ready su].
    destruct (decide_node _ _ _) eqn:E; [apply emits_ret| |apply emits_ret].
    apply emits_bind; [|intros; apply emits_ret].
    apply emits_setNodeStatus. exists (node_id n). split; [done|].
    apply elem_of_router_skipped. exists n. split_and!; [|done..].
    apply Hin. apply elem_of_cons. by left.
  - intros acc'. apply IH. intros n' Hn'. apply Hin. apply elem_of_cons. by right.
Qed.

Lemma handler_of_id wf nodeId node :
  handler_of wf nodeId = Some node → node ∈ nodes wf ∧ node_id node = nodeId.
Proof.
  unfold handler_of. intros H. apply find_some in H as [Hin Hb].
  apply bool_decide_eq_true_1 in Hb. split; [by apply list_elem_of_In | done].
Qed.

(** Along a run of the graph, only nodes that are open (PENDING or without
    a status) when it starts have their status written or are run; the
    other nodes keep their status and their output. *)
Lemma graph_loop_settled env wf fuel thread state w :
  trace_ext (run_event (open_status (statuses state))) w
            (graph_loop env wf fuel thread state w).2 ∧
  ∀ final, (graph_loop env wf fuel thread state w).1 = Ok final →
    ∀ k, ¬ open_status (statuses state) k →
      statuses final !! k = statuses state !! k ∧
      outputs final !! k = outputs state !! k.
Proof.
  revert state w. induction fuel as [fuel IH] using lt_wf_ind. intros state w.
  destruct fuel as [|fuel].
  { simpl. split; [apply trace_ext_refl | done]. }
  rewrite graph_loop_S.
  destruct (router_ok wf state w) as [w1 Hr].
  pose proof (router_trace wf state w) as Ht. rewrite Hr in Ht. simpl in Ht.
  rewrite (bind_ok _ _ _ _ _ Hr). cbv zeta. fold (after_router wf state).
  assert (trace_ext (run_event (open_status (statuses state))) w w1) as Ht1.
  { eapply trace_ext_weaken; [|exact Ht]. intros e (k & -> & Hk). right.
    exists k, SKIPPED. split; [done|].
    apply elem_of_router_skipped in Hk as (n & _ & <- & Hs).
    by apply skips_iff in Hs as [? _]. }
  assert (∀ k, ¬ open_status (statuses state) k →
            statuses (after_router wf state) !! k = statuses state !! k) as Hsame.
  { intros k Hk. rewrite after_router_statuses. case_decide as Hs; [|done].
    exfalso. apply Hk. apply elem_of_router_skipped in Hs as (n & _ & <- & Hs).
    by apply skips_iff in Hs as [? _]. }
  destruct (route wf (after_router wf state)) as [|nodeId|msg] eqn:Eroute.
  - destruct (checkpoint_ok thread (after_router wf state) w1) as (w2 & Hc & Htr).
    rewrite (bind_ok _ _ _ _ _ Hc).
    assert (trace_ext (run_event (open_status (statuses state))) w w2) as Ht2.
    { eapply trace_ext_trans; [exact Ht1 | by apply trace_ext_same]. }
    destruct fuel as [|fuel2]; simpl; (split; [done|]); [done|].
    intros final [= <-] k Hk. split; [by apply Hsame | done].
  - destruct (handler_of wf nodeId) as [node|] eqn:Eh; [|by split].
    destruct (checkpoint_ok thread (after_router wf state) w1) as (w2 & Hc & Htr).
    rewrite (bind_ok _ _ _ _ _ Hc).
    assert (trace_ext (run_event (open_status (statuses state))) w w2) as Ht2.
    { eapply trace_ext_trans; [exact Ht1 | by apply trace_ext_same]. }
    destruct fuel as [|fuel2]; [by split|].
    apply handler_of_id in Eh as [Hin Hid].
    assert (open_status (statuses state) nodeId) as Hopen.
    { unfold route in Eroute. case_decide; [done|].
      rewrite after_router_next in Eroute.
      destruct (router_ready wf (statuses state)) as [|first rest] eqn:Er.
      { by case_match. }
      injection Eroute as <-.
      assert (first ∈ router_ready wf (statuses state)) as Hf
        by (rewrite Er; apply elem_of_cons; by left).
      apply elem_of_router_ready in Hf as (n & _ & <- & Hp).
      by apply pushes_iff in Hp as [? _]. }
    pose proof (emits_createNodeHandler env node (after_router wf state) w2) as Hh.
    destruct (createNodeHandler_returns env node (after_router wf state) w2)
      as [Hhang | (u & st & Hu & Hst & Hterm & Hout & _)].
    + destruct (createNodeHandler env node (after_router wf state) w2) as [r w3] eqn:Eh2.
      simpl in Hhang. subst r. rewrite (bind_hang _ _ _ _ Eh2). split; [|done].
      simpl in *. eapply trace_ext_trans; [exact Ht2|].
      eapply trace_ext_weaken; [|exact Hh]. intros e [He | [st ->]]; [by left|].
      right. exists (node_id node), st. by rewrite Hid.
    + destruct (createNodeHandler env node (after_router wf state) w2) as [r w3] eqn:Eh2.
      simpl in Hu. subst r. rewrite (bind_ok _ _ _ _ _ Eh2). cbv zeta.
      set (state2 := apply_update (after_router wf state) u).
      destruct (checkpoint_ok thread state2 w3) as (w4 & Hc4 & Htr4).
      rewrite (bind_ok _ _ _ _ _ Hc4).
      assert (∀ k, k ≠ nodeId → statuses state2 !! k
                                 = statuses (after_router wf state) !! k) as Hst2.
      { intros k Hk. unfold state2, apply_update, merge_right. simpl.
        rewrite Hst. simpl. rewrite lookup_union, lookup_singleton_ne by congruence.
        by rewrite (left_id None _). }
      assert (∀ k, k ≠ nodeId → outputs state2 !! k = outputs state !! k) as Hout2.
      { intros k Hk. unfold state2, apply_update, merge_right. simpl.
        destruct Hout as [-> | [o ->]]; simpl; [done|].
        rewrite lookup_union, lookup_singleton_ne by congruence.
        by rewrite (left_id None _). }
      assert (∀ k, open_status (statuses state2) k → open_status (statuses state) k)
        as Hmono.
      { intros k Hk. destruct (decide (k = nodeId)) as [->|Hne]; [done|].
        unfold open_status in Hk. rewrite (Hst2 _ Hne), after_router_statuses in Hk.
        case_decide; [naive_solver | done]. }
      destruct (IH fuel2 ltac:(lia) state2 w4) as [IHt IHf]. split.
      * eapply trace_ext_trans; [exact Ht2|].
        eapply (trace_ext_trans _ _ w3).
        { simpl in Hh. eapply trace_ext_weaken; [|exact Hh].
          intros e [He | [st' ->]]; [by left|].
          right. exists (node_id node), st'. by rewrite Hid. }
        eapply (trace_ext_trans _ _ w4); [by apply trace_ext_same|].
        eapply trace_ext_weaken; [|exact IHt].
        intros e [He | (k & st' & -> & Hk)]; [by left|]. right. eauto.
      * intros final Hfinal k Hk.
        assert (k ≠ nodeId) as Hne by (intros ->; done).
        destruct (IHf final Hfinal k) as [E1 E2].
        { intros Ho. by apply Hk, Hmono. }
        rewrite E1, E2, (Hst2 _ Hne), (Hout2 _ Hne). split; [by apply Hsame | done].
  - split; [done|]. done.
Qed.

(** ** Resume *)

Lemma setNodeStatus_world nodeId status w :
  ∃ w', setNodeStatus nodeId status w = (Ok tt, w') ∧
        w_checkpoints w' = w_checkpoints w ∧ w_cache w' = w_cache w ∧
        w_trace w' = (w_trace w ++ [EvSetNodeStatus nodeId status])%list.
Proof. unfold setNodeStatus, bind, modify, save. eexists. split; [done|]. done. Qed.

Lemma for_each_reset_entry sts l acc w :
  (∀ e, e ∈ l → sts !! e.1 = Some e.2) →
  ∃ w', for_each l reset_entry acc w = (Ok (foldl reset_step acc l), w') ∧
        w_checkpoints w' = w_checkpoints w ∧ trace_ext (resets sts) w w'.
Proof.
  revert acc w. induction l as [|[k s] l IH]; intros acc w Hl; simpl.
  - eexists. split_and!; [done..|]. apply trace_ext_refl.
  - assert (∀ e, e ∈ l → sts !! e.1 = Some e.2) as Hl'
      by (intros e He; apply Hl; apply elem_of_cons; by right).
    unfold reset_entry at 1, reset_step at 2. simpl. case_decide as Hd.
    + destruct (setNodeStatus_world k PENDING w) as (w1 & H1 & Hc1 & _ & Ht1).
      unfold bind at 1. unfold bind at 1. rewrite H1. unfold ret.
      destruct (IH (<[k := PENDING]> acc) w1 Hl') as (w2 & H2 & Hc2 & Ht2).
      exists w2. split_and!; [done|congruence|].
      eapply trace_ext_trans; [|exact Ht2].
      exists [EvSetNodeStatus k PENDING]. split; [done|].
      apply Forall_singleton. exists k. split; [done|].
      specialize (Hl (k, s)). simpl in Hl. unfold dep_blocked.
      rewrite Hl by (apply elem_of_cons; by left). naive_solver.
    + unfold bind at 1, ret. by apply IH.
Qed.

Lemma reset_fold_lookup l acc k :
  NoDup l.*1 →
  foldl reset_step acc l !! k
  = match list_to_map (M := gmap string NodeStatus) l !! k with
    | Some FAILED | Some SKIPPED => Some PENDING
    | _ => acc !! k
    end.
Proof.
  revert acc. induction l as [|[k' s] l IH]; intros acc Hnd; simpl; [done|].
  rewrite fmap_cons in Hnd. apply NoDup_cons in Hnd as [Hnot Hnd].
  rewrite IH by done. unfold reset_step. simpl.
  destruct (decide (k = k')) as [->|Hne].
  - rewrite lookup_insert_eq.
    rewrite (not_elem_of_list_to_map_1 l k') by done.
    case_decide as Hd; [rewrite lookup_insert_eq|]; destruct s; naive_solver.
  - rewrite lookup_insert_ne by done.
    destruct (list_to_map l !! k) as [[]|]; try done;
      case_decide; try done; by rewrite lookup_insert_ne.
Qed.

Lemma resumed_statuses values k :
  statuses (resumed values) !! k = reset_status <$> statuses values !! k.
Proof.
  unfold resumed, merge_right. simpl. rewrite lookup_union.
  rewrite reset_fold_lookup by apply NoDup_fst_map_to_list.
  rewrite list_to_map_to_list.
  destruct (statuses values !! k) as [[]|]; done.
Qed.

Lemma resume_state_ok values w :
  ∃ w', resume_state values w = (Ok (resumed values), w') ∧
        w_checkpoints w' = w_checkpoints w ∧
        trace_ext (resets (statuses values)) w w'.
Proof.
  unfold resume_state.
  destruct (for_each_reset_entry (statuses values) (map_to_list (statuses values)) ∅ w)
    as (w' & H & Hc & Ht).
  { intros [k s] He. by apply elem_of_map_to_list. }
  exists w'. by rewrite (bind_ok _ _ _ _ _ H).
Qed.

Lemma map_union_self {V} (m : gmap string V) : m ∪ m = m.
Proof.
  apply map_eq. intros k. rewrite lookup_union. by destruct (m !! k).
Qed.

Lemma apply_input_resumed values : apply_input values (resumed values) = resumed values.
Proof.
  unfold apply_input, resumed, merge_right. simpl. f_equal.
  - apply map_union_self.
  - apply map_union_self.
  - by rewrite <- (assoc_L (∪)), map_union_self.
Qed.

Lemma resume_run_spares env wf fuel thread values w :
  trace_ext (spares_completed (statuses values)) w
            (graph_loop env wf fuel thread (resumed values) w).2.
Proof.
  destruct (graph_loop_settled env wf fuel thread (resumed values) w) as [Ht _].
  eapply trace_ext_weaken; [|exact Ht].
  intros e [He | (k & st & -> & Ho)] k' Hk' [st' Hw].
  - subst e. done.
  - injection Hw as Hk _. subst k'. unfold open_status in Ho.
    rewrite resumed_statuses in Ho. unfold dep_complete in Hk'.
    destruct Hk' as [Hk' | Hk']; rewrite Hk' in Ho; simpl in Ho; naive_solver.
Qed.

Lemma graph_invoke_resumed env wf fuel thread values w :
  w_checkpoints w !! thread = Some values →
  graph_invoke env wf fuel (Some (resumed values)) (Some thread) w
  = graph_loop env wf fuel (Some thread) (resumed values)
      (set_checkpoints (<[thread := resumed values]> (w_checkpoints w)) w).
Proof.
  intros Hcp. unfold graph_invoke, bind, get_world. simpl. rewrite Hcp. simpl.
  by rewrite apply_input_resumed.
Qed.

(** C2 (resume).  Resuming from a snapshot: every node the snapshot has as
    FAILED or SKIPPED starts as PENDING; every node it has as SUCCESS or
    CACHED keeps its status and its output, at the start and in the final
    state, and no event of the resumed run writes its status (its handler,
    which starts by writing RUNNING, is never run); the failure record of
    the state the scheduler loop restarts from is empty.  This is what
    [run()] does on a thread with a snapshot: unless the construction of the
    graph refuses the workflow, in which case nothing is read or written, it
    writes the resets to the run store and then runs the scheduler loop from
    the snapshot with the resets applied and no failure record, and reports
    on the state that loop ends in. *)
Theorem C2_resume (env : Env) (wf : WorkflowDefinition) (fuel : nat)
    (thread : string) (values : RunState) (w : World) :
  thread ≠ "" →
  w_checkpoints w !! thread = Some values →
  ∃ w1,
    resume_state values w = (Ok (resumed values), w1) ∧
    (∀ k, dep_blocked (statuses values) k →
          statuses (resumed values) !! k = Some PENDING) ∧
    (∀ k, dep_complete (statuses values) k →
          statuses (resumed values) !! k = statuses values !! k ∧
          outputs (resumed values) !! k = outputs values !! k) ∧
    failed (resumed values) = None ∧
    WorkflowRuntime_run env wf fuel true (Some thread) w
    = match buildGraphFromWorkflow env wf with
      | Ok _ =>
          try_catch
            (let* finalState :=
               graph_loop env wf fuel (Some thread) (resumed values) in
             report finalState)
            (fun error => complete Run_failed;; throw error)
            (set_checkpoints (<[thread := resumed values]> (w_checkpoints w1)) w1)
      | Throw e => (Throw e, w)
      | Hang => (Hang, w)
      end ∧
    (∀ w' final,
       (graph_loop env wf fuel (Some thread) (resumed values) w').1 = Ok final →
       ∀ k, dep_complete (statuses values) k →
            statuses final !! k = statuses values !! k ∧
            outputs final !! k = outputs values !! k) ∧
    trace_ext (spares_completed (statuses values)) w
              (WorkflowRuntime_run env wf fuel true (Some thread) w).2.
Proof.
  intros Hthread Hcp.
  destruct (resume_state_ok values w) as (w1 & Hres & Hc1 & Ht1).
  assert (WorkflowRuntime_run env wf fuel true (Some thread) w
          = match buildGraphFromWorkflow env wf with
            | Ok _ =>
                try_catch
                  (let* finalState :=
                     graph_loop env wf fuel (Some thread) (resumed values) in
                   report finalState)
                  (fun error => complete Run_failed;; throw error)
                  (set_checkpoints (<[thread := resumed values]> (w_checkpoints w1)) w1)
            | Throw e => (Throw e, w)
            | Hang => (Hang, w)
            end) as Hrun.
  { unfold WorkflowRuntime_run. unfold bind at 1, get_world.
    assert (str_or (Some thread) (getThreadId (w_store w)) = thread) as ->.
    { unfold str_or. by case_decide. }
    assert (bool_decide (str_or (Some thread) "" ≠ "") = true) as ->.
    { apply bool_decide_eq_true_2. unfold str_or. by case_decide. }
    simpl negb. cbv iota. unfold bind at 1, lift.
    destruct (buildGraphFromWorkflow env wf) as [names|e|]; [|done..].
    unfold bind at 1. unfold bind at 1. unfold graph_getState at 1. rewrite Hcp.
    unfold bind at 1. rewrite Hres. unfold ret at 1.
    unfold try_catch. unfold bind at 1.
    rewrite (graph_invoke_resumed env wf fuel thread values w1) by congruence.
    unfold bind at 2. done. }
  exists w1. split_and!; [done|..|done|done| |].
  - intros k Hk. rewrite resumed_statuses. unfold dep_blocked in Hk.
    destruct Hk as [-> | ->]; done.
  - intros k Hk. rewrite resumed_statuses. unfold dep_complete in Hk.
    destruct Hk as [-> | ->]; done.
  - intros w' final Hfinal k Hk.
    destruct (graph_loop_settled env wf fuel (Some thread) (resumed values) w')
      as [_ Hf].
    destruct (Hf final Hfinal k) as [E1 E2].
    + unfold open_status. rewrite resumed_statuses. unfold dep_complete in Hk.
      destruct Hk as [-> | ->]; simpl; naive_solver.
    + rewrite E1, E2, resumed_statuses. unfold dep_complete in Hk.
      destruct Hk as [-> | ->]; done.
  - rewrite Hrun.
    destruct (buildGraphFromWorkflow env wf) as [names|e|];
      [|apply trace_ext_refl..].
    assert (trace_ext (spares_completed (statuses values)) w w1) as Hs1.
    { eapply trace_ext_weaken; [|exact Ht1].
      intros e (k & -> & Hb) k' Hk' [st' Hw]. injection Hw as Hk _. subst k'.
      unfold dep_complete, dep_blocked in *. naive_solver. }
    set (w2 := set_checkpoints _ w1).
    assert (trace_ext (spares_completed (statuses values)) w w2) as Hs1'.
    { eapply trace_ext_trans; [exact Hs1|]. by apply trace_ext_same. }
    unfold try_catch. unfold bind at 1.
    pose proof (resume_run_spares env wf fuel (Some thread) values w2) as Hs2.
    destruct (graph_loop env wf fuel (Some thread) (resumed values) w2)
      as [[final|e|] w3]; simpl in Hs2.
    + pose proof (trace_ext_trans _ _ _ _ Hs1' Hs2) as Hs3.
      assert (emits (spares_completed (statuses values)) (report final)) as Hrep.
      { unfold report. destruct (failed final); [emits_auto|].
        destruct (_ <$> _); emits_auto. }
      specialize (Hrep w3).
      destruct (report final w3) as [[[]|e|] w4]; simpl in *.
      * by eapply trace_ext_trans.
      * eapply trace_ext_trans; [exact Hs3|]. eapply trace_ext_trans; [exact Hrep|].
        assert (emits (spares_completed (statuses values))
                      (complete Run_failed;; @throw unit e)) as Hc by emits_auto.
        apply Hc.
      * by eapply trace_ext_trans.
    + eapply trace_ext_trans; [exact Hs1'|]. eapply trace_ext_trans; [exact Hs2|].
      assert (emits (spares_completed (statuses values))
                    (complete Run_failed;; @throw unit e)) as Hc by emits_auto.
      apply Hc.
    + by eapply trace_ext_trans.
Qed.

(** ** The executors and the cache *)

Lemma post_ret {A} (Q : A → Prop) a : Q a → post Q (ret a).
Proof. intros H w a' w' [= <- _]. done. Qed.

Lemma post_throw {A} (Q : A → Prop) e : post Q (throw e).
Proof. by intros w a w' [=]. Qed.

Lemma post_hang {A} (Q : A → Prop) : post Q hang.
Proof. by intros w a w' [=]. Qed.

Lemma post_bind {A B} (Q : B → Prop) (m : M A) (k : A → M B) :
  (∀ a, post Q (k a)) → post Q (bind m k).
Proof.
  intros Hk w b w'. unfold bind. destruct (m w) as [[a| |] w1]; try done.
  apply Hk.
Qed.

Lemma setNodeOutput_world nodeId output w :
  ∃ w', setNodeOutput nodeId output w = (Ok tt, w') ∧
        w_cache w' = w_cache w ∧ w_trace w' = w_trace w.
Proof. unfold setNodeOutput, bind, modify, save. eexists. split; [done|]. done. Qed.

Section ExecutorFacts.
Context (env : Env).

(** *** The cache key is always attached *)

Lemma runExec_hash spec :
  post (fun out => hash out = Some (exec_key env spec)) (runExec env spec).
Proof.
  unfold runExec. apply post_bind. intros [h|]; [by apply post_ret|].
  unfold runExec_spawn. apply post_bind. intros child.
  apply post_bind. intros exitCode. case_decide; [apply post_throw|].
  apply post_bind. intros arts. apply post_bind. intros res.
  apply post_bind. intros _. by apply post_ret.
Qed.

Lemma runTask_hash ag spec :
  post (fun out => hash out = Some (task_key env ag spec)) (runTask env ag spec).
Proof.
  unfold runTask. apply post_bind. intros [h|]; [by apply post_ret|].
  unfold runTask_agent. apply post_bind. intros res.
  apply post_bind. intros _. by apply post_ret.
Qed.

Lemma runMap_hash spec vs outs :
  post (fun out => hash out = None) (runMap env spec vs outs).
Proof.
  unfold runMap. apply post_bind. intros items. apply post_bind. intros results.
  by apply post_ret.
Qed.

(** *** Cache hits *)

Lemma runExec_hit spec w hit :
  exec_caches spec = true →
  w_cache w !! exec_key env spec = Some hit →
  runExec env spec w
  = (Ok (with_cache_metadata hit (exec_key env spec)),
     emit (EvCacheGet (exec_key env spec)) w).
Proof.
  intros Hc Hhit. unfold runExec. rewrite Hc.
  unfold bind, CacheStore_get. by rewrite Hhit.
Qed.

Lemma runTask_hit ag spec w hit :
  task_caches spec = true →
  w_cache w !! task_key env ag spec = Some hit →
  runTask env ag spec w
  = (Ok (with_cache_metadata hit (task_key env ag spec)),
     emit (EvCacheGet (task_key env ag spec)) w).
Proof.
  intros Hc Hhit. unfold runTask. rewrite Hc.
  unfold bind, CacheStore_get. by rewrite Hhit.
Qed.

Lemma run_body_hit msg body w key hit :
  body_cache_key env body = Some key →
  w_cache w !! key = Some hit →
  run_body env msg body w = (Ok (with_cache_metadata hit key), emit (EvCacheGet key) w).
Proof.
  intros Hkey Hhit. destruct body as [spec|spec|k]; simpl in *; [| |done].
  - destruct (exec_caches spec) eqn:Hc; [|done]. injection Hkey as <-.
    by apply runExec_hit.
  - destruct (agentRegistry env (agent spec)) as [ag|]; [|done].
    destruct (task_caches spec) eqn:Hc; [|done]. injection Hkey as <-.
    by apply runTask_hit.
Qed.

Lemma run_node_hit node state w key hit :
  node_cache_key env state node = Some key →
  w_cache w !! key = Some hit →
  run_node env node state w = (Ok (with_cache_metadata hit key), emit (EvCacheGet key) w).
Proof.
  intros Hkey Hhit. unfold run_node, node_cache_key in *. fold (resolved env state node).
  destruct node as [e|t|m|r]; [| |done|].
  - unfold bind at 1, lift.
    destruct (resolved env state _) as [[spec|spec|m'|r']| |]; try done.
    + by apply (run_body_hit "" (BExec spec)).
    + by apply (run_body_hit "" (BTask spec)).
  - unfold bind at 1, lift.
    destruct (resolved env state _) as [[spec|spec|m'|r']| |]; try done.
    + by apply (run_body_hit "" (BExec spec)).
    + by apply (run_body_hit "" (BTask spec)).
  - unfold runReduce, bind at 1, lift.
    destruct (renderBody _ _ _) as [body| |]; try done.
    by apply run_body_hit.
Qed.

End ExecutorFacts.

(** C5 (cache hit).  When the cache holds an entry under the key of a node
    that opts into caching, the handler of the node reads that entry and
    runs nothing: between the two status writes the only event is the cache
    read (no process is spawned, no agent is called, the cache is not
    written).  The node ends CACHED, and its output is the cache entry: the
    same result, artifacts and logs, with the key in [hash] and the [cached]
    flag set. *)
Theorem C5_cache_hit (env : Env) (node : NodeDefinition) (state : RunState)
    (w : World) (key : string) (hit : NodeOutput) :
  node_cache_key env state node = Some key →
  w_cache w !! key = Some hit →
  ∃ output w',
    createNodeHandler env node state w
    = (Ok {| p_outputs := Some {[node_id node := output]};
             p_statuses := Some {[node_id node := CACHED]};
             p_next := None; p_failed := None |}, w') ∧
    w_trace w' = (w_trace w ++ [EvSetNodeStatus (node_id node) RUNNING;
                               EvCacheGet key;
                               EvSetNodeStatus (node_id node) CACHED])%list ∧
    w_cache w' = w_cache w ∧
    payload output = payload hit ∧
    hash output = Some key ∧ cached output = Some true.
Proof.
  intros Hkey Hhit.
  exists (with_cache_metadata hit key).
  unfold createNodeHandler, try_catch.
  destruct (setNodeStatus_world (node_id node) RUNNING w) as (w1 & H1 & _ & Hc1 & Ht1).
  rewrite (bind_ok _ _ _ _ _ H1).
  assert (w_cache w1 !! key = Some hit) as Hhit1 by (by rewrite Hc1).
  pose proof (run_node_hit env node state w1 key hit Hkey Hhit1) as Hrun.
  rewrite (bind_ok _ _ _ _ _ Hrun).
  destruct (setNodeOutput_world (node_id node) (with_cache_metadata hit key)
              (emit (EvCacheGet key) w1)) as (w3 & H3 & Hc3 & Ht3).
  rewrite (bind_ok _ _ _ _ _ H3).
  destruct (setNodeStatus_world (node_id node) CACHED w3) as (w4 & H4 & _ & Hc4 & Ht4).
  assert (final_status (with_cache_metadata hit key) = CACHED) as -> by done.
  rewrite (bind_ok _ _ _ _ _ H4).
  exists w4. split_and!; try done.
  - rewrite Ht4, Ht3. simpl. rewrite Ht1. by rewrite <- !app_assoc.
  - rewrite Hc4, Hc3. simpl. done.
Qed.

(** *** Failures of a command node *)

Section ExecFailures.
Context (env : Env).

(** On a miss, [runExec] is what follows the spawn. *)
Lemma runExec_miss spec w :
  cache_misses env spec w →
  runExec env spec w =
  (let* exitCode := await_exit spec (child_of env spec w) in
   let stdoutStr := trim (child_stdout (child_of env spec w)) in
   let stderrStr := trim (child_stderr (child_of env spec w)) in
   if decide (exitCode ≠ 0)
   then throw (exec_failed_error exitCode (command spec) (default [] (args spec))
                                 stderrStr)
   else
     let* arts := collect_artifacts env (produced_files spec) [] in
     let* res := read_result env spec
                   (JObj [("stdout", JStr stdoutStr); ("stderr", JStr stderrStr);
                          ("exitCode", JNum exitCode)]) in
     let output := {| result := res; artifacts := arts; logs := None;
                      hash := Some (exec_key env spec); cached := Some false |} in
     (if exec_caches spec then CacheStore_put (exec_key env spec) output else ret tt);;
     ret output) (spawned env spec w).
Proof.
  intros Hmiss. unfold runExec, child_of, spawned, before_spawn.
  destruct (exec_caches spec) eqn:Hc.
  - destruct Hmiss as [? | Hmiss]; [congruence|].
    unfold bind at 1. unfold CacheStore_get. rewrite Hmiss.
    unfold runExec_spawn. unfold bind at 1. unfold do_spawn. by rewrite Hc.
  - unfold bind at 1. unfold ret at 1.
    unfold runExec_spawn. unfold bind at 1. unfold do_spawn. by rewrite Hc.
Qed.

Lemma exec_failed_error_stderr exitCode cmd argv stderrStr :
  ∃ pre, exec_failed_error exitCode cmd argv stderrStr = pre +:+ stderrStr.
Proof.
  unfold exec_failed_error.
  exists ("exec failed (" +:+ pretty exitCode +:+ "): " +:+ cmd +:+ " " +:+
          join " " argv +:+ String "010"%char "").
  assert (∀ a b c : string, (a +:+ b) +:+ c = a +:+ (b +:+ c)) as Hassoc.
  { intros a b c. induction a as [|x a IH]; [done|].
    change (String x ((a +:+ b) +:+ c) = String x (a +:+ (b +:+ c))).
    by rewrite IH. }
  rewrite !Hassoc. done.
Qed.

Lemma setTimeout_delay_le t : 0 < t → (setTimeout_delay t ≤ Z.to_N t)%N.
Proof.
  intros Ht. unfold setTimeout_delay. destruct (2147483647 <? t) eqn:E; [|lia].
  apply Z.ltb_lt in E. lia.
Qed.

End ExecFailures.

(** C8 (failures of a command node).  On a cache miss: if the child closes
    with a non-zero exit code (a missing code counts as -1) before any timer
    fires, the node fails with [exec failed (code): command args] followed by
    the captured, trimmed stderr; if a positive timeout is set and the child
    has not closed when it elapses, the child is sent SIGKILL and the node
    fails with the timeout error. *)
Theorem C8_exec_failures (env : Env) (spec : ExecNode) (w : World) :
  cache_misses env spec w →
  (∀ after code out err,
     child_of env spec w = ProcClose after code out err →
     (∀ d, exec_timer spec = Some d → (after ≤ d)%N) →
     default (-1) code ≠ 0 →
     (runExec env spec w).1
     = Throw (exec_failed_error (default (-1) code) (command spec)
                                (default [] (args spec)) (trim err)) ∧
     ∃ pre, exec_failed_error (default (-1) code) (command spec)
                              (default [] (args spec)) (trim err)
            = pre +:+ trim err) ∧
  (∀ t,
     timeout (exec_base spec) = Some t → 0 < t →
     (child_of env spec w = ProcNever ∨
      ∃ after code out err, child_of env spec w = ProcClose after code out err ∧
                            (Z.to_N t < after)%N) →
     (runExec env spec w).1 = Throw ("exec timeout after " +:+ pretty t +:+ "ms") ∧
     EvKill "SIGKILL" ∈ w_trace (runExec env spec w).2).
Proof.
  intros Hmiss. split.
  - intros after code out err Hchild Htimer Hcode.
    split; [|apply exec_failed_error_stderr].
    rewrite (runExec_miss env spec w Hmiss). rewrite Hchild. simpl.
    unfold bind at 1. unfold await_exit.
    destruct (exec_timer spec) as [d|] eqn:Ed.
    + specialize (Htimer d eq_refl).
      assert ((d <? after)%N = false) as -> by (apply N.ltb_ge; lia).
      simpl. by case_decide.
    + simpl. by case_decide.
  - intros t Ht Hpos Hchild.
    rewrite (runExec_miss env spec w Hmiss).
    assert (exec_timer spec = Some (setTimeout_delay t)) as Etimer.
    { unfold exec_timer. rewrite Ht.
      by assert ((0 <? t) = true) as -> by (by apply Z.ltb_lt). }
    assert (timeout_error spec = "exec timeout after " +:+ pretty t +:+ "ms") as Emsg.
    { unfold timeout_error. by rewrite Ht. }
    pose proof (setTimeout_delay_le t Hpos) as Hle.
    destruct Hchild as [Hchild | (after & code & out & err & Hchild & Hlt)];
      rewrite Hchild; unfold bind at 1; unfold await_exit; rewrite Etimer.
    + simpl. rewrite Emsg. split; [done|].
      apply elem_of_app. right. by apply list_elem_of_singleton.
    + assert ((setTimeout_delay t <? after)%N = true) as -> by (apply N.ltb_lt; lia).
      simpl. rewrite Emsg. split; [done|].
      apply elem_of_app. right. by apply list_elem_of_singleton.
Qed.

(** *** The determinism flag *)

Section Determinism.
Context (env : Env).

Lemma runExec_spawn_quiet spec key :
  exec_caches spec = false → steps quiet (runExec_spawn env spec key).
Proof.
  intros Hc. unfold runExec_spawn.
  apply steps_bind; [apply _|apply steps_do_spawn, _|]. intros child.
  apply steps_bind; [apply _|apply steps_await_exit, _|]. intros exitCode.
  case_decide; [apply steps_throw, _|].
  apply steps_bind; [apply _|apply steps_collect_artifacts, _|]. intros arts.
  apply steps_bind; [apply _|apply steps_read_result, _|]. intros res.
  rewrite Hc. apply steps_bind; [apply _|apply steps_ret, _|]. intros _.
  apply steps_ret, _.
Qed.

Lemma runExec_quiet spec :
  exec_caches spec = false → steps quiet (runExec env spec).
Proof.
  intros Hc. unfold runExec. rewrite Hc.
  apply steps_bind; [apply _|apply steps_ret, _|].
  intros [h|]; [apply steps_ret, _ | by apply runExec_spawn_quiet].
Qed.

Lemma runTask_quiet ag spec :
  task_caches spec = false → steps quiet (runTask env ag spec).
Proof.
  intros Hc. unfold runTask. rewrite Hc.
  apply steps_bind; [apply _|apply steps_ret, _|].
  intros [h|]; [apply steps_ret, _|].
  unfold runTask_agent.
  apply steps_bind; [apply _|apply steps_call_agent, _|]. intros res.
  rewrite Hc. apply steps_bind; [apply _|apply steps_ret, _|]. intros _.
  apply steps_ret, _.
Qed.

(** With caching on, the first thing [runExec] does is read the cache. *)
Lemma runExec_reads_first spec w :
  exec_caches spec = true →
  ∃ rest, w_trace (runExec env spec w).2
          = (w_trace w ++ EvCacheGet (exec_key env spec) :: rest)%list.
Proof.
  intros Hc. unfold runExec. rewrite Hc. unfold bind at 1. unfold CacheStore_get.
  destruct (w_cache w !! exec_key env spec) as [h|]; simpl.
  - exists []. done.
  - destruct (emits_runExec_spawn env spec (exec_key env spec)
                (emit (EvCacheGet (exec_key env spec)) w)) as (evs & -> & _).
    exists evs. simpl. by rewrite <- app_assoc.
Qed.

Lemma runTask_reads_first ag spec w :
  task_caches spec = true →
  ∃ rest, w_trace (runTask env ag spec w).2
          = (w_trace w ++ EvCacheGet (task_key env ag spec) :: rest)%list.
Proof.
  intros Hc. unfold runTask. rewrite Hc. unfold bind at 1. unfold CacheStore_get.
  destruct (w_cache w !! task_key env ag spec) as [h|]; simpl.
  - exists []. done.
  - pose proof (emits_runTask_agent env ag spec (task_key env ag spec)) as He.
    destruct (He (emit (EvCacheGet (task_key env ag spec)) w)) as (evs & -> & _).
    exists evs. simpl. by rewrite <- app_assoc.
Qed.

(** ... and a fresh output is written to the cache under the key. *)
Lemma runExec_writes_back spec w out w' :
  exec_caches spec = true →
  w_cache w !! exec_key env spec = None →
  runExec env spec w = (Ok out, w') →
  w_cache w' = <[exec_key env spec := out]> (w_cache w) ∧
  cached out = Some false ∧
  EvCachePut (exec_key env spec) out ∈ w_trace w'.
Proof.
  intros Hc Hmiss. rewrite (runExec_miss env spec w (or_intror Hmiss)).
  set (child := child_of env spec w). set (w1 := spawned env spec w).
  assert (w_cache w1 = w_cache w) as C1.
  { unfold w1, spawned, before_spawn. by destruct (exec_caches spec). }
  unfold bind at 1.
  pose proof (steps_await_exit quiet spec child w1) as [Q2 _].
  destruct (await_exit spec child w1) as [[exitCode| |] w2]; try done.
  case_decide; [done|]. unfold bind at 1.
  pose proof (steps_collect_artifacts env quiet (produced_files spec) [] w2) as [Q3 _].
  destruct (collect_artifacts env (produced_files spec) [] w2) as [[arts| |] w3];
    try done.
  unfold bind at 1.
  match goal with |- context [read_result env spec ?d] =>
    pose proof (steps_read_result env quiet spec d w3) as [Q4 _];
    destruct (read_result env spec d w3) as [[res| |] w4]; try done
  end.
  rewrite Hc. unfold bind, CacheStore_put, ret. intros [= <- <-]. simpl in *.
  split_and!; [congruence | done |].
  apply elem_of_app. right. by apply list_elem_of_singleton.
Qed.

End Determinism.

(** C10 (the determinism flag left unset).  A command node caches unless
    its flag is explicitly false: with the flag unset or true the cache is
    read before anything else, and on a miss the fresh output is written
    under the key; with the flag false the cache is neither read nor
    written.  A delegated-task node caches only when its flag is explicitly
    true: with the flag unset or false the cache is neither read nor
    written. *)
Theorem C10_unset_flag (env : Env) :
  (∀ spec w,
     deterministic (exec_base spec) ≠ Some false →
     (∃ rest, w_trace (runExec env spec w).2
              = (w_trace w ++ EvCacheGet (exec_key env spec) :: rest)%list) ∧
     (∀ out w', w_cache w !! exec_key env spec = None →
                runExec env spec w = (Ok out, w') →
                w_cache w' = <[exec_key env spec := out]> (w_cache w) ∧
                cached out = Some false ∧
                EvCachePut (exec_key env spec) out ∈ w_trace w')) ∧
  (∀ spec w,
     deterministic (exec_base spec) = Some false →
     quiet w (runExec env spec w).2) ∧
  (∀ ag spec w,
     deterministic (task_base spec) ≠ Some true →
     quiet w (runTask env ag spec w).2) ∧
  (∀ ag spec w,
     deterministic (task_base spec) = Some true →
     ∃ rest, w_trace (runTask env ag spec w).2
             = (w_trace w ++ EvCacheGet (task_key env ag spec) :: rest)%list).
Proof.
  split_and!.
  - intros spec w Hdet.
    assert (exec_caches spec = true) as Hc by (by apply bool_decide_eq_true_2).
    split; [by apply runExec_reads_first|].
    intros out w' Hmiss Hrun. by apply (runExec_writes_back env spec w).
  - intros spec w Hdet. apply runExec_quiet.
    apply bool_decide_eq_false_2. by rewrite Hdet; intros [].
  - intros ag spec w Hdet. apply runTask_quiet. by apply bool_decide_eq_false_2.
  - intros ag spec w Hdet. apply runTask_reads_first. by apply bool_decide_eq_true_2.
Qed.

(** ** Fan-out *)

Lemma with_queue_same s : with_queue (fo_queue s) s = s.
Proof. by destruct s. Qed.

Lemma with_queue_settle queue i r s :
  with_queue queue (settle i r s) = settle i r (with_queue queue s).
Proof. by destruct r as [[]| |]. Qed.

Lemma fo_queue_settle i r s : fo_queue (settle i r s) = fo_queue s.
Proof. by destruct r as [[]| |]. Qed.

Lemma fo_stuck_settle i r s : r ≠ Hang → fo_stuck (settle i r s) = fo_stuck s.
Proof. by destruct r as [[]| |]. Qed.

Lemma settle_activeCount i r s : (activeCount (settle i r s) ≤ S (activeCount s))%nat.
Proof.
  unfold activeCount. destruct r as [[v|p]|e|]; simpl; rewrite ?length_app; simpl; lia.
Qed.

Lemma without_item_activeCount k s :
  is_Some (fo_running s !! k) →
  S (activeCount (without_item k s)) = activeCount s.
Proof.
  intros [x Hk]. unfold activeCount. simpl.
  pose proof (length_delete (fo_running s) k (mk_is_Some _ _ Hk)). pose proof (lookup_lt_Some _ _ _ Hk). lia.
Qed.

Lemma sum_list_delete (ns : list nat) k n :
  ns !! k = Some n → (sum_list (delete k ns) + n = sum_list ns)%nat.
Proof.
  revert k. induction ns as [|m ns IH]; intros [|k] Hk; simplify_eq/=; [lia|].
  specialize (IH k Hk). lia.
Qed.

Lemma last_fan_history env fuel body s w :
  last (fan_history env fuel body s w) = Some (fan_run env fuel body s w).1.
Proof.
  revert s w. induction fuel as [|fuel IH]; intros s w; simpl; [done|].
  destruct (fan_step env body s w) as [s1 w1] eqn:E.
  specialize (IH s1 w1).
  destruct (fan_history env fuel body s1 w1) eqn:Eh; [by destruct fuel|].
  done.
Qed.

(** *** Rules *)

Section FanOut.
Context (env : Env) (body : nat → M (JSON + Async JSON)).

Lemma start_next_rule (I : FanOut → Prop) queue s w :
  kept_by_calls body I → I (with_queue queue s) → I (start_next body queue s w).1.
Proof.
  intros Hcall. revert s w. induction queue as [|i queue IH]; intros s w HI; simpl; [done|].
  case_decide; [|done].
  specialize (Hcall i queue s w HI). destruct (body i w) as [r w1]. simpl in *.
  apply IH. auto.
Qed.

Lemma fan_step_rule (I : FanOut → Prop) s w :
  kept_by_calls body I → kept_by_turns I → I s → I (fan_step env body s w).1.
Proof.
  intros Hcall Hturn HI. unfold fan_step, chosen.
  destruct (fo_running s !! turn env w s) as [[i p]|] eqn:E; [|done].
  specialize (Hturn _ _ _ _ w E HI). destruct (resume p w) as [r w1]. simpl in *.
  apply (start_next_rule I); [done|]. by rewrite with_queue_same.
Qed.

Lemma fan_history_rule (I : FanOut → Prop) fuel s w :
  kept_by_calls body I → kept_by_turns I → I s →
  Forall I (fan_history env fuel body s w).
Proof.
  intros Hcall Hturn. revert s w. induction fuel as [|fuel IH]; intros s w HI; simpl.
  - by apply Forall_singleton.
  - pose proof (fan_step_rule I s w Hcall Hturn HI) as H1.
    destruct (fan_step env body s w) as [s1 w1]. apply Forall_cons. split; [done|].
    by apply IH.
Qed.

Lemma fan_run_rule (I : FanOut → Prop) fuel s w :
  kept_by_calls body I → kept_by_turns I → I s → I (fan_run env fuel body s w).1.
Proof.
  intros Hcall Hturn HI.
  pose proof (fan_history_rule I fuel s w Hcall Hturn HI) as H.
  pose proof (last_fan_history env fuel body s w) as Hl.
  apply last_Some_elem_of in Hl. by apply (proj1 (Forall_forall _ _) H).
Qed.

Lemma fan_init_rule (I : FanOut → Prop) n w :
  kept_by_calls body I →
  I {| fo_queue := seq 0 n; fo_running := []; fo_stuck := [];
       fo_values := replicate n None; fo_rejected := None |} →
  I (fan_init body n w).1.
Proof. intros Hcall HI. by apply (start_next_rule I). Qed.

(** *** The concurrency ceiling *)

Lemma ceiling_calls : kept_by_calls body (fun s => (activeCount s ≤ concurrency)%nat).
Proof.
  intros i queue s w _ Hlt.
  pose proof (settle_activeCount i (body i w).1 s) as H.
  unfold activeCount in *. rewrite with_queue_settle.
  destruct (body i w).1 as [[v|p]|e|]; simpl in *; lia.
Qed.

Lemma ceiling_turns : kept_by_turns (fun s => (activeCount s ≤ concurrency)%nat).
Proof.
  intros k i p s w Hk Hle.
  pose proof (without_item_activeCount k s (mk_is_Some _ _ Hk)) as H1.
  pose proof (settle_activeCount i (resume p w).1 (without_item k s)) as H2. lia.
Qed.

(** The calls that are made at once: as many as there are slots. *)
Lemma start_next_queue queue s w :
  ∃ k, fo_queue (start_next body queue s w).1 = drop k queue ∧
       (Nat.min (concurrency - activeCount s) (length queue) ≤ k)%nat.
Proof.
  revert s w. induction queue as [|i queue IH]; intros s w; simpl.
  - exists 0%nat. split; [done|lia].
  - case_decide as Hlt.
    + destruct (body i w) as [r w1].
      destruct (IH (settle i r s) w1) as (k & Hk & Hle).
      exists (S k). split; [done|].
      pose proof (settle_activeCount i r s). lia.
    + exists 0%nat. split; [done|lia].
Qed.

Lemma start_next_slots_used queue s w : slots_used (start_next body queue s w).1.
Proof.
  revert s w. induction queue as [|i queue IH]; intros s w; simpl; [by left|].
  case_decide as Hlt.
  - destruct (body i w) as [r w1]. apply IH.
  - right. simpl. unfold activeCount in *. simpl. lia.
Qed.

Lemma fan_step_slots_used s w : slots_used s → slots_used (fan_step env body s w).1.
Proof.
  intros Hs. unfold fan_step.
  destruct (chosen env w s) as [[i p]|]; [|done].
  destruct (resume p w) as [r w1]. apply start_next_slots_used.
Qed.

Lemma fan_run_slots_used fuel s w : slots_used s → slots_used (fan_run env fuel body s w).1.
Proof.
  revert s w. induction fuel as [|fuel IH]; intros s w Hs; simpl; [done|].
  pose proof (fan_step_slots_used s w Hs).
  destruct (fan_step env body s w) as [s1 w1]. by apply IH.
Qed.

End FanOut.

(** *** Every fan-out comes to rest *)

Lemma awaits_le_unfold {A} n (p : Async A) :
  awaits_le n p ↔
  ∀ w, match resume p w with
       | (Ok (inr p'), _) => match n with O => False | S n' => awaits_le n' p' end
       | _ => True
       end.
Proof. by destruct n. Qed.

Lemma awaits_le_at {A} n (p : Async A) w :
  awaits_le n p →
  match resume p w with
  | (Ok (inr p'), _) => match n with O => False | S n' => awaits_le n' p' end
  | _ => True
  end.
Proof. intros H. by apply (proj1 (awaits_le_unfold n p)). Qed.

Lemma awaits_le_mono {A} n m (p : Async A) :
  (n ≤ m)%nat → awaits_le n p → awaits_le m p.
Proof.
  revert m p. induction n as [|n IH]; intros m p Hle H;
    apply awaits_le_unfold; intros w;
    apply (awaits_le_at _ _ w) in H;
    destruct (resume p w) as [[[a|q]|e|] w1]; try done.
  destruct m as [|m]; [lia|]. apply IH; [lia|done].
Qed.

Lemma awaits_resolve {A} n (a : A) : awaits_le n (Resume (resolve a)).
Proof. by apply awaits_le_unfold. Qed.

Lemma awaits_throw {A} n e : awaits_le n (Resume (@throw (A + Async A) e)).
Proof. by apply awaits_le_unfold. Qed.

Lemma awaits_bind {X A} n (m : M X) (k : X → M (A + Async A)) :
  (∀ x, awaits_le n (Resume (k x))) → awaits_le n (Resume (let* x := m in k x)).
Proof.
  intros Hk. apply awaits_le_unfold. intros w. simpl. unfold bind.
  destruct (m w) as [[x|e|] w1]; [|done..].
  apply (awaits_le_at _ _ w1 (Hk x)).
Qed.

Lemma awaits_await {X A} n (op : M X) (k : X → M (A + Async A)) :
  (∀ x, awaits_le n (Resume (k x))) → awaits_le (S n) (Resume (await op k)).
Proof. intros Hk. apply awaits_le_unfold. intros w. simpl. by apply awaits_bind. Qed.

Lemma awaits_after {A B} a b (p : Async A) (k : A → M (B + Async B)) :
  awaits_le a p → (∀ x, awaits_le b (Resume (k x))) → awaits_le (a + b) (after p k).
Proof.
  intros Hp Hk. revert p Hp. induction a as [|a IH]; intros [run] Hp;
    apply awaits_le_unfold; intros w; simpl;
    pose proof (awaits_le_at _ _ w Hp) as Hw; simpl in Hw;
    destruct (run w) as [[[x|q]|e|] w1]; try done.
  - apply (awaits_le_at _ _ w1 (Hk x)).
  - apply (awaits_le_at _ _ w1 (awaits_le_mono b (S a + b) _ ltac:(lia) (Hk x))).
  - by apply IH.
Qed.

Lemma awaits_await_call {A B} a b (call : M (A + Async A)) (k : A → M (B + Async B)) :
  awaits_le a (Resume call) → (∀ x, awaits_le b (Resume (k x))) →
  awaits_le (a + b) (Resume (await_call call k)).
Proof.
  intros Hc Hk. apply awaits_le_unfold. intros w. simpl. unfold await_call, bind.
  pose proof (awaits_le_at _ _ w Hc) as Hw. simpl in Hw.
  destruct (call w) as [[[x|q]|e|] w1]; try done.
  - apply (awaits_le_at _ _ w1 (awaits_le_mono b (a + b) _ ltac:(lia) (Hk x))).
  - simpl. destruct a as [|a]; [done|]. by apply awaits_after.
Qed.

Section Rest.
Context (env : Env) (body : nat → M (JSON + Async JSON)) (bound : nat → nat).
Hypothesis body_awaits : ∀ i, awaits_le (bound i) (Resume (body i)).

Lemma turns_left_calls turns : kept_by_calls body (fun s => turns_left bound s turns).
Proof.
  intros i queue s w (ns & Hns & Hle) Hlt. simpl in *.
  change (list_fmap nat nat bound queue) with (bound <$> queue) in Hle.
  pose proof (awaits_le_at _ _ w (body_awaits i)) as Hi. simpl in Hi.
  destruct (body i w) as [[[v|p]|e|] w1]; simpl.
  - exists ns. split; [done|]. simpl. lia.
  - destruct (bound i) as [|b] eqn:Eb; [done|].
    exists (ns ++ [b])%list. split.
    + apply Forall2_app; [done|]. by apply Forall2_cons.
    + simpl. rewrite length_app, sum_list_with_app. simpl. lia.
  - exists ns. split; [done|]. simpl. lia.
  - exists ns. split; [done|]. simpl. lia.
Qed.

Lemma turns_left_turn k i p s w turns :
  fo_running s !! k = Some (i, p) → turns_left bound s (S turns) →
  turns_left bound (settle i (resume p w).1 (without_item k s)) turns.
Proof.
  intros Hk (ns & Hns & Hle).
  destruct (Forall2_lookup_l _ _ _ _ _ Hns Hk) as (n & Hn & Hp). simpl in Hp.
  pose proof (Forall2_delete _ _ _ k Hns) as Hdel.
  pose proof (sum_list_delete ns k n Hn) as Hsum.
  pose proof (length_delete (fo_running s) k (mk_is_Some _ _ Hk)) as Hlen.
  pose proof (lookup_lt_Some _ _ _ Hk) as Hlt.
  apply (awaits_le_at _ _ w) in Hp.
  destruct (resume p w) as [[[v|p']|e|] w1]; simpl.
  - exists (delete k ns). split; [done|]. simpl. lia.
  - destruct n as [|n']; [done|].
    exists (delete k ns ++ [n'])%list. split.
    + apply Forall2_app; [done|]. by apply Forall2_cons.
    + simpl. rewrite length_app, sum_list_with_app. simpl. lia.
  - exists (delete k ns). split; [done|]. simpl. lia.
  - exists (delete k ns). split; [done|]. simpl. lia.
Qed.

Lemma chosen_is_Some w s : fo_running s ≠ [] → is_Some (chosen env w s).
Proof.
  intros Hne. apply lookup_lt_is_Some_2. unfold turn.
  apply Nat.mod_upper_bound. by destruct (fo_running s).
Qed.

Lemma fan_run_idle fuel s w :
  fo_running s = [] → fan_run env fuel body s w = (s, w).
Proof.
  intros Hs. induction fuel as [|fuel IH]; simpl; [done|].
  assert (fan_step env body s w = (s, w)) as ->; [|done].
  unfold fan_step, chosen. by rewrite Hs.
Qed.

Lemma fan_run_rests fuel s w :
  turns_left bound s fuel → fo_running (fan_run env fuel body s w).1 = [].
Proof.
  revert s w. induction fuel as [|fuel IH]; intros s w Hs; simpl.
  - destruct Hs as (ns & Hns & Hle). destruct (fo_running s); [done|simpl in Hle; lia].
  - destruct (decide (fo_running s = [])) as [Hnil|Hne].
    { pose proof (fan_run_idle (S fuel) s w Hnil) as H. simpl in H. by rewrite H. }
    destruct (chosen_is_Some w s Hne) as [[i p] Hc].
    unfold fan_step. rewrite Hc. unfold chosen in Hc.
    pose proof (turns_left_turn _ i p s w fuel Hc Hs) as Ht.
    destruct (resume p w) as [r w1]. simpl in Ht.
    pose proof (start_next_rule body (fun s => turns_left bound s fuel)
                  (fo_queue (settle i r (without_item (turn env w s) s)))
                  (settle i r (without_item (turn env w s) s)) w1
                  (turns_left_calls fuel)) as Hn.
    rewrite with_queue_same in Hn. specialize (Hn Ht).
    destruct (start_next _ _ _ _) as [s1 w2]. by apply IH.
Qed.

Lemma fan_init_turns_left n w :
  turns_left bound (fan_init body n w).1 (sum_list (bound <$> seq 0 n)).
Proof.
  apply (fan_init_rule body (fun s => turns_left bound s (sum_list (bound <$> seq 0 n))));
    [apply turns_left_calls|].
  exists []. split; [done|]. simpl. lia.
Qed.

End Rest.

(** *** Results by position *)

Lemma yields_at {A} (P : Res A → Prop) (p : Async A) w :
  yields P p →
  match resume p w with
  | (Ok (inl a), _) => P (Ok a)
  | (Ok (inr p'), _) => yields P p'
  | (Throw e, _) => P (Throw e)
  | (Hang, _) => P Hang
  end.
Proof. destruct p as [run]. intros H. apply (H w). Qed.

Lemma can_yield_at {A} (r : Res A) (p : Async A) w :
  match resume p w with
  | (Ok (inl a), _) => r = Ok a
  | (Ok (inr p'), _) => can_yield r p'
  | (Throw e, _) => r = Throw e
  | (Hang, _) => r = Hang
  end → can_yield r p.
Proof. destruct p as [run]. intros H. by exists w. Qed.

Lemma running_items_delete (l : list (nat * Async JSON)) k i p j :
  l !! k = Some (i, p) → j ∈ l.*1 → j ≠ i → j ∈ (delete k l).*1.
Proof.
  revert k. induction l as [|[i' p'] l IH]; intros [|k] Hk Hj Hne; simplify_eq/=.
  - apply elem_of_cons in Hj as [->|Hj]; done.
  - apply elem_of_cons in Hj as [->|Hj]; [apply list_elem_of_here|].
    apply list_elem_of_further. by eapply IH.
Qed.

Lemma running_items_app s i p :
  ∀ j, j ∈ ((fo_running s ++ [(i, p)])%list).*1 ↔ j ∈ running_items s ∨ j = i.
Proof.
  intros j. unfold running_items. rewrite fmap_app, elem_of_app. simpl.
  by rewrite list_elem_of_singleton.
Qed.

Lemma values_all (g : nat → JSON) n (values : list (option JSON)) :
  length values = n →
  (∀ i, (i < n)%nat → values !! i = Some (Some (g i))) →
  mapM (fun v => v) values = Some (g <$> seq 0 n).
Proof.
  intros Hlen Hall.
  assert (values = Some <$> (g <$> seq 0 n)) as ->.
  { apply list_eq. intros i. rewrite !list_lookup_fmap.
    destruct (decide (i < n)%nat) as [Hi|Hi].
    - rewrite Hall by done. by rewrite lookup_seq_lt by done.
    - rewrite lookup_ge_None_2 by lia. by rewrite lookup_seq_ge by lia. }
  by apply mapM_fmap_Some.
Qed.

Section AllOk.
Context (env : Env) (body : nat → M (JSON + Async JSON)) (g : nat → JSON) (n : nat).
Hypothesis body_ok : ∀ i, (i < n)%nat → yields (fun r => r = Ok (g i)) (Resume (body i)).

Lemma all_ok_calls : kept_by_calls body (all_ok g n).
Proof.
  intros i queue s w (Hrej & Hstuck & Hlen & Hrun & Hq & Hall) Hlt.
  unfold running_items in Hall. simpl in Hrej, Hstuck, Hlen, Hrun, Hq, Hall.
  apply Forall_cons in Hq as [Hi Hq].
  pose proof (yields_at _ _ w (body_ok i Hi)) as Hy. simpl in Hy.
  destruct (body i w) as [[[v|p]|e|] w1]; unfold all_ok, running_items; simpl; try done.
  - injection Hy as ->. split_and!; try done.
    + by rewrite length_insert.
    + intros j Hj. destruct (decide (j = i)) as [->|Hne].
      { right. right. apply list_lookup_insert_eq. lia. }
      destruct (Hall j Hj) as [Hin|[Hin|Hv]].
      * apply elem_of_cons in Hin as [?|?]; [done|by left].
      * by right; left.
      * right. right. by rewrite list_lookup_insert_ne.
  - split_and!; try done.
    + apply Forall_app. split; [done|]. by apply Forall_singleton.
    + intros j Hj. destruct (Hall j Hj) as [Hin|[Hin|Hv]].
      * apply elem_of_cons in Hin as [->|?]; [|by left].
        right. left. apply running_items_app. by right.
      * right. left. apply running_items_app. by left.
      * by right; right.
Qed.

Lemma all_ok_turns : kept_by_turns (all_ok g n).
Proof.
  intros k i p s w Hk (Hrej & Hstuck & Hlen & Hrun & Hq & Hall).
  pose proof (proj1 (Forall_lookup _ _) Hrun k _ Hk) as [Hi Hp]. simpl in Hi, Hp.
  pose proof (yields_at _ _ w Hp) as Hy.
  pose proof (Forall_delete _ _ k Hrun) as Hdel. unfold running_items in Hall.
  destruct (resume p w) as [[[v|p']|e|] w1]; unfold all_ok, running_items; simpl; try done.
  - injection Hy as ->. split_and!; try done.
    + by rewrite length_insert.
    + intros j Hj. destruct (decide (j = i)) as [->|Hne].
      { right. right. apply list_lookup_insert_eq. lia. }
      destruct (Hall j Hj) as [Hin|[Hin|Hv]].
      * by left.
      * right. left. by eapply running_items_delete.
      * right. right. by rewrite list_lookup_insert_ne.
  - split_and!; try done.
    + apply Forall_app. split; [done|]. by apply Forall_singleton.
    + intros j Hj. destruct (Hall j Hj) as [Hin|[Hin|Hv]].
      * by left.
      * right. left. rewrite fmap_app, elem_of_app. simpl.
        destruct (decide (j = i)) as [->|Hne].
        -- right. apply list_elem_of_here.
        -- left. by eapply running_items_delete.
      * by right; right.
Qed.

Lemma all_ok_outcome s :
  all_ok g n s → fo_running s = [] → slots_used s →
  fan_outcome s = Ok (g <$> seq 0 n).
Proof.
  intros (Hrej & Hstuck & Hlen & Hrun & Hq & Hall) Hnil Hslots.
  assert (fo_queue s = []) as Hqueue.
  { destruct Hslots as [?|Hle]; [done|].
    unfold activeCount, concurrency in Hle. rewrite Hnil, Hstuck in Hle. simpl in Hle. lia. }
  unfold fan_outcome. rewrite Hrej, Hstuck.
  rewrite (values_all g n); [done..|].
  intros i Hi. destruct (Hall i Hi) as [Hin|[Hin|Hv]]; [| |done].
  - rewrite Hqueue in Hin. by apply elem_of_nil in Hin.
  - unfold running_items in Hin. rewrite Hnil in Hin. by apply elem_of_nil in Hin.
Qed.

Lemma all_ok_init :
  all_ok g n {| fo_queue := seq 0 n; fo_running := []; fo_stuck := [];
                fo_values := replicate n None; fo_rejected := None |}.
Proof.
  split_and!; simpl; try done.
  - apply length_replicate.
  - apply Forall_forall. intros i Hi. apply elem_of_seq in Hi. lia.
  - intros i Hi. left. apply elem_of_seq. lia.
Qed.

End AllOk.

(** *** One failure fails the node *)

Section OneFails.
Context (env : Env) (body : nat → M (JSON + Async JSON)) (i0 n : nat).
Hypothesis body_ends : ∀ i, (i < n)%nat → yields (fun r => r ≠ Hang) (Resume (body i)).
Hypothesis body_throws : yields (fun r => ∃ e, r = Throw e) (Resume (body i0)).

Lemma one_fails_calls : kept_by_calls body (one_fails body i0 n).
Proof.
  intros i queue s w (Hstuck & Hrun & Hq & Hrej) Hlt.
  unfold running_items in Hrej. simpl in Hstuck, Hrun, Hq, Hrej.
  apply Forall_cons in Hq as [Hi Hq].
  pose proof (yields_at _ _ w (body_ends i Hi)) as Hy. simpl in Hy.
  pose proof (yields_at _ _ w body_throws) as Ht. simpl in Ht.
  pose proof (can_yield_at (A:=JSON)) as Hc.
  destruct (body i w) as [[[v|p]|e|] w1] eqn:E; unfold one_fails, running_items; simpl;
    try done.
  - split_and!; try done. destruct (fo_rejected s); [done|].
    destruct Hrej as [Hin|?]; [|by right].
    apply elem_of_cons in Hin as [->|?]; [|by left].
    rewrite E in Ht. by destruct Ht.
  - split_and!; try done.
    + apply Forall_app. split; [done|]. apply Forall_singleton. simpl.
      split_and!; [done..| |].
      * intros ->. by rewrite E in Ht.
      * intros r Hr. apply (Hc r (Resume (body i)) w). simpl. by rewrite E.
    + destruct (fo_rejected s); [done|].
      destruct Hrej as [Hin|?].
      * apply elem_of_cons in Hin as [->|?]; [|by left].
        right. apply running_items_app. by right.
      * right. apply running_items_app. by left.
  - split_and!; try done.
    destruct (fo_rejected s); simpl; [done|].
    exists i. split; [done|]. apply (Hc _ (Resume (body i)) w). simpl. by rewrite E.
Qed.

Lemma one_fails_turns : kept_by_turns (one_fails body i0 n).
Proof.
  intros k i p s w Hk (Hstuck & Hrun & Hq & Hrej).
  pose proof (proj1 (Forall_lookup _ _) Hrun k _ Hk) as (Hi & Hends & Hthrows & Hcan).
  simpl in Hi, Hends, Hthrows, Hcan.
  pose proof (yields_at _ _ w Hends) as Hy.
  pose proof (Forall_delete _ _ k Hrun) as Hdel.
  pose proof (can_yield_at (A:=JSON)) as Hc. unfold running_items in Hrej.
  destruct (resume p w) as [[[v|p']|e|] w1] eqn:E; unfold one_fails, running_items; simpl;
    try done.
  - split_and!; try done. destruct (fo_rejected s); [done|].
    destruct Hrej as [?|Hin]; [by left|].
    destruct (decide (i0 = i)) as [->|Hne].
    + pose proof (yields_at _ _ w (Hthrows eq_refl)) as Ht. rewrite E in Ht. by destruct Ht.
    + right. by eapply running_items_delete.
  - split_and!; try done.
    + apply Forall_app. split; [done|]. apply Forall_singleton. simpl.
      split_and!; [done..| |].
      * intros Heq. pose proof (yields_at _ _ w (Hthrows Heq)) as Ht. by rewrite E in Ht.
      * intros r Hr. apply Hcan. apply (Hc r p w). by rewrite E.
    + destruct (fo_rejected s); [done|].
      destruct Hrej as [?|Hin]; [by left|]. right.
      rewrite fmap_app, elem_of_app. simpl.
      destruct (decide (i0 = i)) as [->|Hne].
      * right. apply list_elem_of_here.
      * left. by eapply running_items_delete.
  - split_and!; try done.
    destruct (fo_rejected s); simpl; [done|].
    exists i. split; [done|]. apply Hcan. apply (Hc _ p w). by rewrite E.
Qed.

Lemma one_fails_outcome s :
  one_fails body i0 n s → fo_running s = [] → slots_used s →
  ∃ e i, fan_outcome s = Throw e ∧ (i < n)%nat ∧ can_yield (Throw e) (Resume (body i)).
Proof.
  intros (Hstuck & Hrun & Hq & Hrej) Hnil Hslots.
  assert (fo_queue s = []) as Hqueue.
  { destruct Hslots as [?|Hle]; [done|].
    unfold activeCount, concurrency in Hle. rewrite Hnil, Hstuck in Hle. simpl in Hle. lia. }
  unfold fan_outcome. destruct (fo_rejected s) as [e|].
  - destruct Hrej as (i & Hi & Hcan). by exists e, i.
  - unfold running_items in Hrej. rewrite Hqueue, Hnil in Hrej.
    destruct Hrej as [Hin|Hin]; by apply elem_of_nil in Hin.
Qed.

Lemma one_fails_init :
  (i0 < n)%nat →
  one_fails body i0 n {| fo_queue := seq 0 n; fo_running := []; fo_stuck := [];
                         fo_values := replicate n None; fo_rejected := None |}.
Proof.
  intros Hi0. split_and!; simpl; try done.
  - apply Forall_forall. intros i Hi. apply elem_of_seq in Hi. lia.
  - left. apply elem_of_seq. lia.
Qed.

End OneFails.

(** *** The awaits of an item *)

Section ItemAwaits.
Context (env : Env).

Lemma awaits_collect_artifacts {A} b fs acc (k : list string → M (A + Async A)) :
  (∀ arts, awaits_le b (Resume (k arts))) →
  awaits_le (length fs + b) (Resume (collect_artifacts_async env fs acc k)).
Proof.
  intros Hk. revert acc. induction fs as [|f fs IH]; intros acc; simpl; [apply Hk|].
  apply awaits_await. intros [|]; [apply IH|apply awaits_throw].
Qed.

Lemma awaits_read_result {A} b spec dflt (k : JSON → M (A + Async A)) :
  (∀ res, awaits_le b (Resume (k res))) →
  awaits_le (S b) (Resume (read_result_async env spec dflt k)).
Proof.
  intros Hk. unfold read_result_async. destruct (result_file spec).
  - apply awaits_await. intros text. by apply awaits_bind.
  - by apply (awaits_le_mono b); [lia|].
Qed.

Lemma awaits_runExec_spawn spec key :
  awaits_le (3 + length (produced_files spec)) (Resume (runExec_spawn_async env spec key)).
Proof.
  unfold runExec_spawn_async. apply awaits_bind. intros child.
  apply (awaits_await (2 + length (produced_files spec))). intros exitCode.
  case_decide; [apply awaits_throw|].
  replace (2 + length (produced_files spec))%nat
    with (length (produced_files spec) + 2)%nat by lia.
  apply awaits_collect_artifacts. intros arts.
  apply awaits_read_result. intros res.
  destruct (exec_caches spec); [|apply awaits_resolve].
  apply awaits_await. intros _. apply awaits_resolve.
Qed.

Lemma awaits_runExec spec :
  awaits_le (4 + length (produced_files spec)) (Resume (runExec_async env spec)).
Proof.
  unfold runExec_async. destruct (exec_caches spec).
  - apply (awaits_await (3 + length (produced_files spec))).
    intros [h|]; [apply awaits_resolve|apply awaits_runExec_spawn].
  - eapply awaits_le_mono; [|apply awaits_runExec_spawn]. lia.
Qed.

Lemma awaits_runTask_agent ag spec key :
  awaits_le 2 (Resume (runTask_agent_async env ag spec key)).
Proof.
  unfold runTask_agent_async. apply awaits_bind. intros promise.
  apply awaits_await. intros res.
  destruct (task_caches spec); [|apply awaits_resolve].
  apply awaits_await. intros _. apply awaits_resolve.
Qed.

Lemma awaits_runTask ag spec : awaits_le 3 (Resume (runTask_async env ag spec)).
Proof.
  unfold runTask_async. destruct (task_caches spec).
  - apply awaits_await. intros [h|]; [apply awaits_resolve|apply awaits_runTask_agent].
  - eapply awaits_le_mono; [|apply awaits_runTask_agent]. lia.
Qed.

Lemma awaits_map_item spec vs outs item :
  awaits_le (item_awaits env spec vs outs item) (Resume (map_item env spec vs outs item)).
Proof.
  unfold item_awaits, map_item. apply awaits_le_unfold. intros w. simpl.
  unfold bind at 1. unfold lift at 1.
  destruct (renderBody env _ (map_body spec)) as [resolvedBody|e|]; simpl; [|done..].
  assert (∀ n, awaits_le n (Resume (run_body_async env "Unsupported map body kind: "
                                                       resolvedBody)) →
               awaits_le n (Resume (await_call
                 (run_body_async env "Unsupported map body kind: " resolvedBody)
                 (fun itemOutput : NodeOutput => resolve (result itemOutput))))) as Hcall.
  { intros n Hn. replace n with (n + 0)%nat by lia.
    apply awaits_await_call; [done|]. intros. apply awaits_resolve. }
  destruct resolvedBody as [e|t|k]; simpl run_body_async in *.
  - apply (awaits_le_at _ _ w (Hcall _ (awaits_runExec e))).
  - assert (awaits_le 3 (Resume
              match agentRegistry env (agent t) with
              | Some ag => runTask_async env ag t
              | None => throw ("Agent " +:+ agent t +:+ " not found")
              end)) as Ht.
    { destruct (agentRegistry env (agent t)); [apply awaits_runTask|apply awaits_throw]. }
    apply (awaits_le_at _ _ w (Hcall _ Ht)).
  - apply (awaits_le_at _ _ w (Hcall 0%nat (awaits_throw _ _))).
Qed.

End ItemAwaits.

(** *** The fan-out node *)

Section RunMap.
Context (env : Env) (spec : MapNode) (vs : gmap string JSON)
        (outs : gmap string NodeOutput).

Lemma item_body_at items i x :
  items !! i = Some x →
  item_body env spec vs outs items i = map_item env spec vs outs x.
Proof. intros Hx. unfold item_body. by rewrite Hx. Qed.

Lemma item_body_awaits items i :
  awaits_le (from_option (item_awaits env spec vs outs) 0%nat (items !! i))
            (Resume (item_body env spec vs outs items i)).
Proof.
  unfold item_body. destruct (items !! i) as [x|].
  - apply awaits_map_item.
  - apply awaits_throw.
Qed.

Lemma fan_turns_seq items :
  sum_list ((fun i => from_option (item_awaits env spec vs outs) 0%nat (items !! i))
              <$> seq 0 (length items))
  = fan_turns env spec vs outs items.
Proof.
  unfold fan_turns. f_equal. apply list_eq. intros i. rewrite !list_lookup_fmap.
  destruct (decide (i < length items)%nat) as [Hi|Hi].
  - rewrite lookup_seq_lt by done. simpl.
    by destruct (lookup_lt_is_Some_2 items i Hi) as [x ->].
  - rewrite lookup_seq_ge by lia. by rewrite lookup_ge_None_2 by lia.
Qed.

Lemma runMap_items w items w1 :
  resolve_items env {| tc_vars := vs; tc_outputs := outs; tc_item := None |}
                (over spec) w = (Ok items, w1) →
  ∃ final w',
    map_end env spec vs outs items w1 = (final, w') ∧
    last (map_history env spec vs outs items w1) = Some final ∧
    fo_running final = [] ∧ slots_used final ∧
    runMap env spec vs outs w = (map_output (length items) (fan_outcome final), w').
Proof.
  intros Hres. unfold runMap. rewrite (bind_ok _ _ _ _ _ Hres).
  unfold map_end, map_history, map_start, bind, promise_all_limited. cbv zeta.
  rewrite last_fan_history.
  pose proof (fan_init_turns_left (item_body env spec vs outs items) _
                (item_body_awaits items) (length items) w1) as Hleft.
  rewrite fan_turns_seq in Hleft.
  pose proof (start_next_slots_used (item_body env spec vs outs items)
                (seq 0 (length items))
                {| fo_queue := seq 0 (length items); fo_running := []; fo_stuck := [];
                   fo_values := replicate (length items) None; fo_rejected := None |} w1)
    as Hslots.
  fold (fan_init (item_body env spec vs outs items) (length items) w1) in Hslots.
  destruct (fan_init _ _ w1) as [s0 w0]. simpl in *.
  pose proof (fan_run_rests env (item_body env spec vs outs items) _
                (item_body_awaits items) _ s0 w0 Hleft) as Hrest.
  pose proof (fan_run_slots_used env (item_body env spec vs outs items)
                (fan_turns env spec vs outs items) s0 w0 Hslots) as Hslots'.
  destruct (fan_run _ _ _ _ _) as [s w']. simpl in *.
  exists s, w'. split_and!; [done..|]. by destruct (fan_outcome s).
Qed.

Lemma map_history_rule (I : FanOut → Prop) items w1 :
  kept_by_calls (item_body env spec vs outs items) I → kept_by_turns I →
  I {| fo_queue := seq 0 (length items); fo_running := []; fo_stuck := [];
       fo_values := replicate (length items) None; fo_rejected := None |} →
  Forall I (map_history env spec vs outs items w1).
Proof.
  intros Hcalls Hturns Hinit. unfold map_history, map_start. cbv zeta.
  apply fan_history_rule; [done..|]. by apply fan_init_rule.
Qed.

Lemma map_history_last (I : FanOut → Prop) items w1 final :
  kept_by_calls (item_body env spec vs outs items) I → kept_by_turns I →
  I {| fo_queue := seq 0 (length items); fo_running := []; fo_stuck := [];
       fo_values := replicate (length items) None; fo_rejected := None |} →
  last (map_history env spec vs outs items w1) = Some final → I final.
Proof.
  intros Hcalls Hturns Hinit Hlast.
  apply last_Some_elem_of in Hlast.
  by apply (proj1 (Forall_forall _ _) (map_history_rule I items w1 Hcalls Hturns Hinit)).
Qed.

End RunMap.


(** ** The thread id of a run directory *)

Section RunSteps.
Context (env : Env) (wf : WorkflowDefinition) (R : relation World) `{!RunStable R}.

Lemma steps_createNodeHandler node state : steps R (createNodeHandler env node state).
Proof.
  unfold createNodeHandler. apply steps_try_catch; [apply _| |].
  - apply steps_bind; [apply _|apply rs_setNodeStatus|]. intros _.
    apply steps_bind; [apply _|apply steps_run_node, _|]. intros output.
    apply steps_bind; [apply _|apply rs_setNodeOutput|]. intros _.
    apply steps_bind; [apply _|apply rs_setNodeStatus|]. intros _.
    apply steps_ret, _.
  - intros e.
    apply steps_bind; [apply _|apply rs_setNodeError|]. intros _.
    apply steps_bind; [apply _|apply rs_setNodeStatus|]. intros _.
    apply steps_ret, _.
Qed.

Lemma steps_router state : steps R (router wf state).
Proof.
  unfold router. apply steps_bind; [apply _| |].
  - apply steps_for_each; [apply _|]. intros [ready su] node. unfold router_visit.
    destruct (decide_node _ _ _); try apply steps_ret, _.
    apply steps_bind; [apply _|apply rs_setNodeStatus|]. intros _. apply steps_ret, _.
  - intros [ready su]. apply steps_ret, _.
Qed.

Lemma steps_checkpoint thread state : steps R (checkpoint thread state).
Proof.
  destruct thread; simpl; [|apply steps_ret, _].
  apply steps_modify. intros w. apply rs_checkpoints.
Qed.

Lemma steps_graph_loop fuel thread state : steps R (graph_loop env wf fuel thread state).
Proof.
  revert state. induction fuel as [fuel IH] using lt_wf_ind. intros state.
  destruct fuel as [|fuel].
  { apply steps_throw, _. }
  rewrite graph_loop_S.
  apply steps_bind; [apply _|apply steps_router|]. intros update. cbv zeta.
  destruct (route wf _); [| |apply steps_throw, _].
  - apply steps_bind; [apply _|apply steps_checkpoint|]. intros _.
    destruct fuel; [apply steps_throw, _|apply steps_ret, _].
  - destruct (handler_of wf nodeId); [|apply steps_throw, _].
    apply steps_bind; [apply _|apply steps_checkpoint|]. intros _.
    destruct fuel as [|fuel2]; [apply steps_throw, _|].
    apply steps_bind; [apply _|apply steps_createNodeHandler|]. intros update'.
    apply steps_bind; [apply _|apply steps_checkpoint|]. intros _. apply IH. lia.
Qed.

Lemma steps_graph_invoke fuel input thread :
  steps R (graph_invoke env wf fuel input thread).
Proof.
  unfold graph_invoke. apply steps_bind; [apply _|apply steps_get_world, _|].
  intros w. cbv zeta. apply steps_bind; [apply _|apply steps_checkpoint|].
  intros _. apply steps_graph_loop.
Qed.

Lemma steps_fresh_state : steps R (fresh_state wf).
Proof.
  unfold fresh_state. apply steps_bind; [apply _| |intros; apply steps_ret, _].
  apply steps_for_each; [apply _|]. intros acc node. unfold init_pending.
  apply steps_bind; [apply _|apply rs_setNodeStatus|]. intros _. apply steps_ret, _.
Qed.

Lemma steps_resume_state values : steps R (resume_state values).
Proof.
  unfold resume_state. apply steps_bind; [apply _| |intros; apply steps_ret, _].
  apply steps_for_each; [apply _|]. intros acc [nodeId status]. unfold reset_entry.
  case_decide; [|apply steps_ret, _].
  apply steps_bind; [apply _|apply rs_setNodeStatus|]. intros _. apply steps_ret, _.
Qed.

Lemma steps_report finalState : steps R (report finalState).
Proof.
  unfold report. destruct (failed finalState).
  - apply steps_bind; [apply _|apply rs_complete|]. intros _. apply steps_throw, _.
  - destruct (_ <$> _); [apply rs_complete|].
    apply steps_bind; [apply _|apply rs_complete|]. intros _. apply steps_throw, _.
Qed.

Lemma steps_WorkflowRuntime_run fuel checkpointer ctx_threadId :
  steps R (WorkflowRuntime_run env wf fuel checkpointer ctx_threadId).
Proof.
  unfold WorkflowRuntime_run.
  apply steps_bind; [apply _|apply steps_get_world, _|]. intros w. cbv zeta.
  apply steps_bind; [apply _|apply steps_lift, _|]. intros _.
  apply steps_bind; [apply _| |].
  - destruct (negb _).
    { apply steps_bind; [apply _|apply steps_fresh_state|]. intros. apply steps_ret, _. }
    destruct (negb _); [apply steps_throw, _|].
    apply steps_bind; [apply _| |].
    { intros w0. unfold graph_getState. simpl. reflexivity. }
    intros [values|]; [|apply steps_ret, _].
    apply steps_bind; [apply _|apply steps_resume_state|]. intros. apply steps_ret, _.
  - intros initialState. apply steps_try_catch; [apply _| |].
    + apply steps_bind; [apply _|apply steps_graph_invoke|]. intros finalState.
      apply steps_report.
    + intros e. apply steps_bind; [apply _|apply rs_complete|]. intros _.
      apply steps_throw, _.
Qed.

End RunSteps.

#[global] Instance thread_rel_preorder dir tid : PreOrder (thread_rel dir tid).
Proof.
  split.
  - intros w. by split_and!.
  - intros w1 w2 w3 (A1 & B1 & C1) (A2 & B2 & C2). split_and!; [auto|auto|congruence].
Qed.

Lemma generated_emit w e :
  (∀ t, e ≠ EvGenerateThreadId t) →
  generated (w_trace (emit e w)) = generated (w_trace w).
Proof.
  intros He. unfold generated. simpl. rewrite omap_app. simpl.
  destruct e; try (by rewrite app_nil_r). by destruct (He tid).
Qed.

Lemma thread_rel_frame dir tid w w' :
  w_store w' = w_store w → w_files w' = w_files w →
  generated (w_trace w') = generated (w_trace w) → thread_rel dir tid w w'.
Proof.
  intros Hs Hf Hg. unfold thread_rel, thread_inv. rewrite Hs, Hf. by split_and!.
Qed.

(** A store method that changes the metadata but not its thread id, then saves. *)
Lemma thread_rel_update dir tid (f : World → RunMetadata) (ev : list Event) w :
  (∀ w, threadId (f w) = threadId (metadata (w_store w))) →
  generated ev = [] →
  thread_rel dir tid w
    (mkWorld (w_cache w) (<[runDir (w_store w) := f w]> (w_files w))
             (mkRunStore (runDir (w_store w)) (f w)) (w_checkpoints w) (w_clock w)
             (w_rng w) (w_trace w ++ ev)).
Proof.
  intros Hf Hev. unfold thread_rel, thread_inv. simpl. split_and!.
  - intros (Hd & Ht & Hfile). split_and!; [done|by rewrite Hf|].
    intros md. rewrite Hd, lookup_insert_eq. intros [= <-]. by rewrite Hf.
  - intros (Hd & _) _. rewrite Hd, lookup_insert_eq. eauto.
  - unfold generated in *. by rewrite omap_app, Hev, app_nil_r.
Qed.

#[global] Instance thread_rel_stable dir tid : RunStable (thread_rel dir tid).
Proof.
  split; [split; [split; [apply _| |]| |]|..].
  - intros w e He. apply thread_rel_frame; [done..|]. apply generated_emit.
    by destruct e.
  - intros w t. by apply thread_rel_frame.
  - intros w key. apply thread_rel_frame; [done..|]. by apply generated_emit.
  - intros w key value. apply thread_rel_frame; [done..|].
    by apply (generated_emit (set_cache _ w)).
  - intros nodeId status w. unfold setNodeStatus, bind, modify, save. simpl.
    match goal with |- context [with_nodes _ ?ns] =>
      apply (thread_rel_update dir tid
               (fun w => with_nodes (metadata (w_store w)) ns)
               [EvSetNodeStatus nodeId status] w); done
    end.
  - intros nodeId output w. unfold setNodeOutput, bind, modify, save. simpl.
    match goal with |- context [with_nodes _ ?ns] =>
      pose proof (thread_rel_update dir tid
               (fun w => with_nodes (metadata (w_store w)) ns) [] w) as H
    end.
    rewrite app_nil_r in H. by apply H.
  - intros nodeId error w. unfold setNodeError, bind, modify, save. simpl.
    match goal with |- context [with_nodes _ ?ns] =>
      pose proof (thread_rel_update dir tid
               (fun w => with_nodes (metadata (w_store w)) ns) [] w) as H
    end.
    rewrite app_nil_r in H. by apply H.
  - intros status w. unfold complete, bind, modify, save. simpl.
    pose proof (thread_rel_update dir tid
      (fun w => mkRunMetadata (workflowName (metadata (w_store w)))
                  (threadId (metadata (w_store w)))
                  (checkpointDbPath (metadata (w_store w)))
                  (startTime (metadata (w_store w))) (Some (w_clock w)) status
                  (meta_nodes (metadata (w_store w)))) [] w) as H.
    rewrite app_nil_r in H. by apply H.
  - intros w c. by apply thread_rel_frame.
Qed.

Section ThreadId.
Context (env : Env) (wf : WorkflowDefinition).

Lemma str_or_Some s d : s ≠ "" → str_or (Some s) d = s.
Proof. intros H. unfold str_or. by case_decide. Qed.

Lemma runCommand_fresh fuel dir w :
  dir ≠ "" →
  runCommand env wf fuel {| opt_out := Some dir; opt_resume := false |} w
  = try_catch (WorkflowRuntime_run env wf fuel true None) (fun _ => process_exit)
              (fresh_world env wf dir w).
Proof.
  intros Hdir. unfold runCommand. simpl opt_resume. cbv iota.
  unfold bind at 1. unfold bind at 1. unfold get_world at 1. unfold ret at 1.
  simpl opt_out. rewrite (str_or_Some dir _ Hdir).
  unfold bind at 1. unfold bind at 1. unfold RunStore_new at 1.
  unfold bind at 1. simpl str_or. cbv iota.
  destruct (decide ("" = "")) as [_|Hne]; [|done].
  unfold generateThreadId at 1. unfold bind at 1. unfold get_world at 1.
  unfold ret at 1. unfold bind at 1. unfold RunStore_init at 1. unfold modify at 1.
  unfold ret at 1. unfold bind at 1. unfold modify at 1. reflexivity.
Qed.

Lemma RunStore_loadForResume_ok dir md w :
  w_files w !! dir = Some md → threadId md ≠ "" →
  RunStore_loadForResume env dir w = (Ok {| runDir := dir; metadata := md |}, w).
Proof.
  intros Hfile Htid. unfold RunStore_loadForResume.
  unfold bind at 1. unfold RunStore_load. rewrite Hfile.
  unfold bind at 1. unfold RunStore_new. unfold bind at 1.
  rewrite (str_or_Some _ _ Htid). by case_decide.
Qed.

Lemma runCommand_resume fuel dir md w :
  dir ≠ "" → w_files w !! dir = Some md → threadId md ≠ "" →
  runCommand env wf fuel {| opt_out := Some dir; opt_resume := true |} w
  = if fs_access env (w_trace w) dir
       && fs_access env (w_trace w) (dir +:+ "/checkpoints.db")
    then try_catch (WorkflowRuntime_run env wf fuel true (Some (threadId md)))
                   (fun _ => process_exit)
                   (set_store {| runDir := dir; metadata := md |} w)
    else (Throw "process.exit(1)", w).
Proof.
  intros Hdir Hfile Htid. unfold runCommand. simpl opt_resume. cbv iota.
  unfold bind at 1. unfold bind at 1. unfold resume_setup. simpl opt_out.
  rewrite (str_or_Some dir _ Hdir). case_decide; [done|].
  unfold bind at 1. unfold get_world at 1.
  destruct (fs_access env (w_trace w) dir); [|done]. cbn [negb andb].
  unfold bind at 1. unfold try_catch at 1. unfold RunStore_load at 1. rewrite Hfile.
  unfold bind at 1. unfold get_world at 1.
  destruct (fs_access env (w_trace w) (dir +:+ "/checkpoints.db")); [|done].
  unfold ret at 1. unfold ret at 1. simpl.
  unfold bind at 1. rewrite (RunStore_loadForResume_ok dir md w Hfile Htid).
  unfold bind at 1. unfold modify at 1. reflexivity.
Qed.

Lemma fresh_tid_nonempty w : fresh_tid env w ≠ "".
Proof. unfold fresh_tid. done. Qed.

Lemma run_keeps_thread fuel dir tid ctx_threadId w :
  thread_rel dir tid w
    (try_catch (WorkflowRuntime_run env wf fuel true ctx_threadId)
               (fun _ => process_exit) w).2.
Proof.
  apply (steps_try_catch (thread_rel dir tid)).
  - apply steps_WorkflowRuntime_run, _.
  - intros e. apply steps_throw, _.
Qed.

End ThreadId.

(** C9 (the thread id).  A new run on a directory generates one thread id
    and records it in [run.json]; nothing the run does afterwards generates
    another or changes the recorded one.  Loading the store of a directory
    whose [run.json] records a thread id generates nothing and gives a store
    with that id, and a resumed run -- which runs under that id -- leaves
    the recorded id as it is, generating none.  So every resume attempt
    against the directory works with the id of its first run. *)
Theorem C9_thread_id (env : Env) (wf : WorkflowDefinition) (fuel : nat)
    (dir : string) :
  dir ≠ "" →
  (∀ w, let w' := (runCommand env wf fuel
                     {| opt_out := Some dir; opt_resume := false |} w).2 in
        fresh_tid env w ≠ "" ∧
        generated (w_trace w') = (generated (w_trace w) ++ [fresh_tid env w])%list ∧
        dir_thread dir (fresh_tid env w) w') ∧
  (∀ tid w, tid ≠ "" → dir_thread dir tid w →
        ∃ store, RunStore_loadForResume env dir w = (Ok store, w) ∧
                 getThreadId store = tid) ∧
  (∀ tid w, tid ≠ "" → dir_thread dir tid w →
        let w' := (runCommand env wf fuel
                     {| opt_out := Some dir; opt_resume := true |} w).2 in
        generated (w_trace w') = generated (w_trace w) ∧
        dir_thread dir tid w' ∧
        (fs_access env (w_trace w) dir = true →
         fs_access env (w_trace w) (dir +:+ "/checkpoints.db") = true →
         ∃ store, getThreadId store = tid ∧
           runCommand env wf fuel {| opt_out := Some dir; opt_resume := true |} w
           = try_catch (WorkflowRuntime_run env wf fuel true (Some tid))
                       (fun _ => process_exit) (set_store store w))).
Proof.
  intros Hdir. split_and!.
  - intros w. cbv zeta. rewrite (runCommand_fresh env wf fuel dir w Hdir).
    split; [apply fresh_tid_nonempty|].
    destruct (run_keeps_thread env wf fuel dir (fresh_tid env w) None
                (fresh_world env wf dir w)) as (Hinv & Hfile & Hgen).
    assert (thread_inv dir (fresh_tid env w) (fresh_world env wf dir w)) as Hi.
    { unfold thread_inv. simpl. split_and!; [done..|].
      intros md. rewrite lookup_insert_eq. by intros [= <-]. }
    split.
    + rewrite Hgen. unfold generated. simpl. by rewrite omap_app.
    + destruct (Hfile Hi) as [md Hmd].
      { simpl. rewrite lookup_insert_eq. eauto. }
      exists md. split; [done|]. by apply (Hinv Hi).
  - intros tid w Htid (md & Hfile & <-).
    exists {| runDir := dir; metadata := md |}. split; [|done].
    by apply RunStore_loadForResume_ok.
  - intros tid w Htid (md & Hfile & <-). cbv zeta.
    rewrite (runCommand_resume env wf fuel dir md w Hdir Hfile Htid).
    destruct (fs_access env (w_trace w) dir &&
              fs_access env (w_trace w) (dir +:+ "/checkpoints.db")) eqn:Hfs.
    + destruct (run_keeps_thread env wf fuel dir (threadId md) (Some (threadId md))
                  (set_store {| runDir := dir; metadata := md |} w))
        as (Hinv & Hf & Hgen).
      assert (thread_inv dir (threadId md)
                (set_store {| runDir := dir; metadata := md |} w)) as Hi.
      { unfold thread_inv. simpl. split_and!; [done..|].
        intros md'. rewrite Hfile. by intros [= <-]. }
      split_and!.
      * by rewrite Hgen.
      * destruct (Hf Hi) as [md' Hmd']; [simpl; eauto|].
        exists md'. split; [done|]. by apply (Hinv Hi).
      * intros _ _. by exists {| runDir := dir; metadata := md |}.
    + simpl. split_and!; [done|by exists md|].
      intros H1 H2. by rewrite H1, H2 in Hfs.
Qed.

(** ** The keys of the status map along a run

    A new run starts with exactly the node ids as keys, all PENDING, and
    neither the router nor a handler adds another key. *)

Lemma for_each_init_pending ns acc w :
  ∃ w', for_each ns init_pending acc w = (Ok (all_pending ns acc), w').
Proof.
  revert acc w. induction ns as [|n ns IH]; intros acc w; simpl.
  - by eexists.
  - unfold init_pending at 1.
    destruct (setNodeStatus_ok (node_id n) PENDING w) as [w1 H1].
    unfold bind at 1. unfold bind at 1. rewrite H1. unfold ret at 1.
    apply IH.
Qed.

Lemma all_pending_lookup ns acc k :
  all_pending ns acc !! k
  = if decide (k ∈ node_id <$> ns) then Some PENDING else acc !! k.
Proof.
  revert acc. induction ns as [|n ns IH]; intros acc; simpl; [done|].
  rewrite IH. destruct (decide (k = node_id n)) as [->|Hne].
  - rewrite lookup_insert_eq, (decide_True _ _ (list_elem_of_here _ _)).
    by case_decide.
  - rewrite lookup_insert_ne by done.
    destruct (decide (k ∈ node_id <$> ns)) as [Hk|Hk].
    + by rewrite decide_True by (by apply list_elem_of_further).
    + rewrite decide_False; [done|]. rewrite elem_of_cons. naive_solver.
Qed.

Lemma fresh_state_ok wf w :
  ∃ st w', fresh_state wf w = (Ok st, w') ∧
           statuses_of wf (statuses st) ∧
           (∀ k, k ∈ node_ids wf → statuses st !! k = Some PENDING) ∧
           next st = [] ∧ failed st = None.
Proof.
  unfold fresh_state.
  destruct (for_each_init_pending (nodes wf) ∅ w) as [w' H].
  rewrite (bind_ok _ _ _ _ _ H). eexists _, _. split; [done|]. simpl.
  split_and!; [|by intros k Hk; rewrite all_pending_lookup, decide_True|done..].
  intros k [st Hk]. rewrite all_pending_lookup in Hk. by case_decide.
Qed.

(** With no checkpoint on the thread, the graph starts from the state
    [run()] passes to [invoke]. *)
Lemma apply_input_fresh st :
  statuses (apply_input (createInitialState ∅) st) = statuses st.
Proof. simpl. unfold merge_right. apply (right_id ∅ (∪)). Qed.

Lemma handler_statuses_of env wf node state w u w' :
  node ∈ nodes wf → statuses_of wf (statuses state) →
  createNodeHandler env node state w = (Ok u, w') →
  statuses_of wf (statuses (apply_update state u)).
Proof.
  intros Hin Hkeys Hrun.
  destruct (createNodeHandler_returns env node state w) as [Hh|(u' & st & Hu & Hs & _)];
    rewrite Hrun in *; simpl in *; [done|].
  injection Hu as <-. intros k. unfold apply_update. simpl. rewrite Hs. simpl.
  unfold merge_right. rewrite lookup_union.
  destruct (decide (k = node_id node)) as [->|Hne].
  - intros _. by apply list_elem_of_fmap_2.
  - rewrite lookup_singleton_ne by done. rewrite (left_id None _). apply Hkeys.
Qed.

(** ** The earlier scheduler keeps its sets in step with the statuses

    [coherent] holds when the loop starts and after every tick, and the
    three sets only ever hold node ids. *)

Lemma post_weaken {A} (P Q : A → Prop) (m : M A) :
  post P m → (∀ a, P a → Q a) → post Q m.
Proof. intros Hm HPQ w a w' H. by apply HPQ, (Hm w a w'). Qed.

Lemma post_bind_with {A B} (P : A → Prop) (Q : B → Prop) (m : M A) (k : A → M B) :
  post P m → (∀ a, P a → post Q (k a)) → post Q (bind m k).
Proof.
  intros Hm Hk w b w'. unfold bind. destruct (m w) as [[a| |] w1] eqn:E; try done.
  apply Hk. by apply (Hm w a w1).
Qed.

Lemma post_try_catch {A} (Q : A → Prop) (m : M A) (h : string → M A) :
  post Q m → (∀ e, post Q (h e)) → post Q (try_catch m h).
Proof.
  intros Hm Hh w a w'. unfold try_catch. destruct (m w) as [[a1|e|] w1] eqn:E.
  - intros [= <- <-]. by apply (Hm w a1 w1).
  - apply Hh.
  - done.
Qed.

Lemma legacy_init_inv wf : legacy_inv wf (legacy_init wf).
Proof.
  split.
  - intros k. unfold dep_complete. simpl. rewrite all_pending_lookup.
    case_decide; rewrite ?lookup_empty; set_solver.
  - intros k Hk. unfold Legacy.is_done in Hk. simpl in Hk.
    apply bool_decide_eq_true_1 in Hk. set_solver.
Qed.

Lemma executeNode_executed env wf nodeId s :
  nodeId ∈ node_ids wf → post (executed s nodeId) (Legacy.executeNode env wf nodeId s).
Proof.
  intros Hin. unfold Legacy.executeNode.
  destruct (List.find _ _) as [node|] eqn:Hfind.
  2:{ exfalso. apply list_elem_of_fmap in Hin as (n & -> & Hn).
      apply list_elem_of_In in Hn.
      pose proof (find_none _ _ Hfind n Hn) as Hb. simpl in Hb.
      by apply bool_decide_eq_false_1 in Hb. }
  apply post_bind. intros _. apply post_try_catch.
  - apply post_bind. intros resolvedNode. apply post_bind. intros output.
    apply post_bind. intros _. apply post_bind. intros _. apply post_ret.
    unfold executed, dep_complete. simpl. split_and!; [done..| |].
    + intros k Hk. by rewrite !lookup_insert_ne.
    + rewrite lookup_insert_eq. unfold final_status.
      destruct (cached output) as [[]|]; auto.
  - intros e. apply post_bind. intros _. apply post_bind. intros _. apply post_ret.
    unfold executed. simpl. split_and!; [done..| |].
    + intros k Hk. by rewrite !lookup_insert_ne.
    + by rewrite lookup_insert_eq.
Qed.

Lemma execute_ready_inv env wf s nodeId :
  legacy_inv wf s → nodeId ∈ node_ids wf → Legacy.is_done s nodeId = false →
  post (fun s' => legacy_inv wf s' ∧
                  ∀ k, Legacy.is_done s' k = true ↔
                       Legacy.is_done s k = true ∨ k = nodeId)
       (Legacy.execute_ready env wf s nodeId).
Proof.
  intros [Hc Hids] Hin Hopen. unfold Legacy.execute_ready.
  apply (post_bind_with (executed s nodeId)); [by apply executeNode_executed|].
  intros [s' err] (E1 & E2 & E3 & Hother & Hown). simpl in *.
  apply bool_decide_eq_false_1 in Hopen.
  assert (∀ k, k ≠ nodeId →
            (k ∈ Legacy.l_completed s ↔ dep_complete (Legacy.l_statuses s') k) ∧
            (k ∈ Legacy.l_failed s ↔ Legacy.l_statuses s' !! k = Some FAILED) ∧
            (k ∈ Legacy.l_skipped s ↔ Legacy.l_statuses s' !! k = Some SKIPPED)) as Hrest.
  { intros k Hk. unfold dep_complete. rewrite (Hother k Hk). apply Hc. }
  destruct err as [e|]; apply post_ret.
  - split; [split|].
    + intros k. simpl. rewrite E1, E2, E3.
      destruct (decide (k = nodeId)) as [->|Hk].
      * unfold dep_complete. rewrite Hown. set_solver.
      * destruct (Hrest k Hk) as (R1 & R2 & R3). set_solver.
    + intros k Hk. unfold Legacy.is_done in Hk. simpl in Hk.
      apply bool_decide_eq_true_1 in Hk. rewrite E1, E2, E3 in Hk.
      destruct (decide (k = nodeId)) as [->|Hne]; [done|].
      apply Hids. unfold Legacy.is_done. apply bool_decide_eq_true_2. set_solver.
    + intros k. unfold Legacy.is_done. simpl. rewrite E1, E2, E3.
      rewrite !bool_decide_eq_true. set_solver.
  - split; [split|].
    + intros k. simpl. rewrite E1, E2, E3.
      destruct (decide (k = nodeId)) as [->|Hk].
      * unfold dep_complete in *. split_and!; [set_solver| |].
        -- split; [set_solver|]. intros Hf. rewrite Hf in Hown. naive_solver.
        -- split; [set_solver|]. intros Hf. rewrite Hf in Hown. naive_solver.
      * destruct (Hrest k Hk) as (R1 & R2 & R3). set_solver.
    + intros k Hk. unfold Legacy.is_done in Hk. simpl in Hk.
      apply bool_decide_eq_true_1 in Hk. rewrite E1, E2, E3 in Hk.
      destruct (decide (k = nodeId)) as [->|Hne]; [done|].
      apply Hids. unfold Legacy.is_done. apply bool_decide_eq_true_2. set_solver.
    + intros k. unfold Legacy.is_done. simpl. rewrite E1, E2, E3.
      rewrite !bool_decide_eq_true. set_solver.
Qed.

Lemma for_each_execute_ready_inv env wf ready s :
  legacy_inv wf s → NoDup ready →
  (∀ k, k ∈ ready → k ∈ node_ids wf ∧ Legacy.is_done s k = false) →
  post (fun s' => legacy_inv wf s' ∧
                  ∀ k, Legacy.is_done s' k = true ↔
                       Legacy.is_done s k = true ∨ k ∈ ready)
       (for_each ready (Legacy.execute_ready env wf) s).
Proof.
  revert s. induction ready as [|x ready IH]; intros s Hinv Hnd Hready; simpl.
  - apply post_ret. split; [done|]. intros k. rewrite elem_of_nil. tauto.
  - apply NoDup_cons in Hnd as [Hx Hnd].
    destruct (Hready x) as [Hin Hopen]; [by apply list_elem_of_here|].
    apply (post_bind_with _ _ _ _ (execute_ready_inv env wf s x Hinv Hin Hopen)).
    intros s1 [Hinv1 Hdone1].
    eapply post_weaken; [apply (IH s1 Hinv1 Hnd)|].
    + intros k Hk. destruct (Hready k) as [Hkin Hkopen];
        [by apply list_elem_of_further|].
      split; [done|]. apply not_true_is_false. rewrite Hdone1.
      intros [Hd | ->]; [congruence | done].
    + intros s2 [Hinv2 Hdone2]. split; [done|]. intros k.
      rewrite Hdone2, Hdone1, elem_of_cons. tauto.
Qed.

(** The frontier of a scan lists ids of the workflow, in workflow order. *)
Lemma scan_fold_sublist wf ns acc :
  ∃ l, (foldl (scan_step wf) acc ns).1 = (acc.1 ++ l)%list ∧
       l `sublist_of` (node_id <$> ns).
Proof.
  revert acc. induction ns as [|n ns IH]; intros acc; simpl.
  - exists []. by rewrite app_nil_r.
  - destruct (IH (scan_step wf acc n)) as (l & -> & Hl).
    unfold scan_step. destruct (Legacy.scan_decision _ _ _); simpl.
    + exists l. split; [done|]. by apply sublist_cons.
    + exists l. split; [done|]. by apply sublist_cons.
    + exists (node_id n :: l). split; [by rewrite <- app_assoc|]. by apply sublist_skip.
Qed.

Lemma scan_fold_skipped wf ns acc k :
  k ∈ Legacy.l_skipped (foldl (scan_step wf) acc ns).2 →
  k ∈ Legacy.l_skipped acc.2 ∨ k ∈ node_id <$> ns.
Proof.
  revert acc. induction ns as [|n ns IH]; intros acc; simpl; [auto|].
  intros Hk. apply IH in Hk as [Hk|Hk]; [|right; by apply list_elem_of_further].
  unfold scan_step in Hk. destruct (Legacy.scan_decision _ _ _); simpl in Hk; auto.
  apply elem_of_union in Hk as [Hk|Hk]; [|by left].
  apply elem_of_singleton in Hk as ->. right. apply list_elem_of_here.
Qed.

Lemma scan_inv wf s :
  NoDup (node_ids wf) → legacy_inv wf s →
  post (fun r => legacy_inv wf r.2 ∧ NoDup r.1 ∧
                 (∀ k, k ∈ r.1 → k ∈ node_ids wf ∧ Legacy.is_done r.2 k = false) ∧
                 (∀ k, Legacy.is_done s k = true → Legacy.is_done r.2 k = true))
       (Legacy.scan wf s).
Proof.
  intros Hnd [Hc Hids] w r w' Hscan.
  destruct (legacy_scan_ok wf s w) as [w1 Hs]. rewrite Hscan in Hs.
  injection Hs as -> _.
  destruct (scan_fold_spec wf (nodes wf) ([], s) Hc) as (Hc' & _ & Hchg & Hready).
  destruct (scan_fold_sets wf (nodes wf) ([], s)) as (E1 & E2 & E3).
  destruct (scan_fold_sublist wf (nodes wf) ([], s)) as (l & El & Hl).
  simpl in *. split_and!.
  - split; [done|]. intros k Hk. unfold Legacy.is_done in Hk.
    apply bool_decide_eq_true_1 in Hk. rewrite E1, E2 in Hk.
    destruct Hk as [Hk|[Hk|Hk]].
    + apply Hids. unfold Legacy.is_done. apply bool_decide_eq_true_2. auto.
    + apply Hids. unfold Legacy.is_done. apply bool_decide_eq_true_2. auto.
    + apply scan_fold_skipped in Hk as [Hk|Hk]; [|done].
      apply Hids. unfold Legacy.is_done. apply bool_decide_eq_true_2. auto.
  - rewrite El. by eapply sublist_NoDup.
  - intros k Hk. split.
    + rewrite El in Hk. by eapply elem_of_sublist.
    + apply Hready in Hk as [Hk | (pre & n & post & Heq & Hid & Hd)];
        [by apply elem_of_nil in Hk|].
      destruct (scan_fold_spec wf pre ([], s) Hc) as (Hcp & _ & _ & _). simpl in Hcp.
      destruct (proj1 (scan_decision_push_iff _ _ _ Hcp) Hd) as [Ho _].
      rewrite Heq, foldl_app in Hc' |- *. simpl in Hc' |- *.
      set (before := foldl (scan_step wf) ([], s) pre) in *.
      assert (scan_step wf before n = ((before.1 ++ [node_id n])%list, before.2))
        as Estep by (unfold scan_step; by rewrite Hd).
      rewrite Estep in Hc' |- *.
      destruct (scan_fold_spec wf post ((before.1 ++ [node_id n])%list, before.2) Hcp)
        as (_ & Hsame & _ & _).
      simpl in Hsame.
      assert (k ∉ node_id <$> post) as Hnotin.
      { unfold node_ids in Hnd. rewrite Heq, fmap_app, fmap_cons in Hnd.
        apply NoDup_app in Hnd as (_ & _ & Hnd). apply NoDup_cons in Hnd as [Hn _].
        by rewrite <- Hid. }
      apply not_true_is_false. intros Hdone.
      apply (is_done_coherent _ _ Hc') in Hdone.
      unfold dep_complete, dep_blocked in Hdone. rewrite (Hsame k Hnotin) in Hdone.
      unfold open_status in Ho. rewrite Hid in Ho. naive_solver.
  - intros k Hk. unfold Legacy.is_done in *. apply bool_decide_eq_true_1 in Hk.
    apply bool_decide_eq_true_2. rewrite E1, E2. set_solver.
Qed.

Lemma run_loop_inv env wf fuel s :
  NoDup (node_ids wf) → legacy_inv wf s →
  post (legacy_inv wf) (Legacy.run_loop env wf fuel s).
Proof.
  intros Hnd. revert s. induction fuel as [|fuel IH]; intros s Hinv; simpl.
  - apply post_hang.
  - case_decide; [|by apply post_ret].
    apply (post_bind_with _ _ _ _ (scan_inv wf s Hnd Hinv)).
    intros [ready s1] (Hinv1 & Hnd1 & Hready & _). simpl in *.
    destruct ready as [|x ready].
    + destruct (Legacy.still_open wf s1); [by apply post_ret|].
      apply post_bind. intros _. apply post_throw.
    + apply (post_bind_with _ _ _ _
               (for_each_execute_ready_inv env wf (x :: ready) s1 Hinv1 Hnd1 Hready)).
      intros s2 [Hinv2 _]. by apply IH.
Qed.

(** [run] enters the loop in [legacy_init], so every state its loop scans is
    coherent ([scan_inv], [for_each_execute_ready_inv]), and so is the state
    the loop ends in. *)
Lemma legacy_run_starts env wf fuel :
  ∃ k, Legacy.run env wf fuel = bind (Legacy.run_loop env wf fuel (legacy_init wf)) k.
Proof. eexists. reflexivity. Qed.

Lemma legacy_run_coherent env wf fuel :
  NoDup (node_ids wf) →
  post coherent (Legacy.run_loop env wf fuel (legacy_init wf)).
Proof.
  intros Hnd. eapply post_weaken.
  - apply (run_loop_inv env wf fuel _ Hnd (legacy_init_inv wf)).
  - by intros s [Hc _].
Qed.

(** ** The cache key on the output *)

Lemma run_body_hash env msg body :
  post (fun out => is_Some (hash out)) (run_body env msg body).
Proof.
  destruct body as [spec|spec|k]; simpl.
  - intros w out w' H. apply runExec_hash in H. rewrite H. eauto.
  - destruct (agentRegistry env (agent spec)) as [ag|]; [|apply post_throw].
    intros w out w' H. apply runTask_hash in H. rewrite H. eauto.
  - apply post_throw.
Qed.

(** C7, as the code has it.  The output of a completed command,
    delegated-task or fan-in node always carries the cache key in [hash],
    whatever the determinism flag says; the output of a completed fan-out
    node never carries one. *)
Theorem C7_hash_always (env : Env) :
  (∀ spec w out w',
     runExec env spec w = (Ok out, w') → hash out = Some (exec_key env spec)) ∧
  (∀ ag spec w out w',
     runTask env ag spec w = (Ok out, w') → hash out = Some (task_key env ag spec)) ∧
  (∀ spec vs outs w out w',
     runMap env spec vs outs w = (Ok out, w') → hash out = None) ∧
  (∀ node state w out w',
     run_node env node state w = (Ok out, w') →
     match node with NMap _ => hash out = None | _ => is_Some (hash out) end).
Proof.
  split_and!.
  - intros spec w out w'. apply runExec_hash.
  - intros ag spec w out w'. apply runTask_hash.
  - intros spec vs outs w out w'. apply runMap_hash.
  - intros node state w out w' H. unfold run_node in H.
    destruct node as [e|t|m|r].
    + unfold bind at 1, lift in H.
      destruct (renderNode _ _ _) as [[e'|t'|m'|r']| |]; try done.
      * apply runExec_hash in H. rewrite H. eauto.
      * destruct (agentRegistry env (agent t')) as [ag|]; [|done].
        apply runTask_hash in H. rewrite H. eauto.
    + unfold bind at 1, lift in H.
      destruct (renderNode _ _ _) as [[e'|t'|m'|r']| |]; try done.
      * apply runExec_hash in H. rewrite H. eauto.
      * destruct (agentRegistry env (agent t')) as [ag|]; [|done].
        apply runTask_hash in H. rewrite H. eauto.
    + by apply runMap_hash in H.
    + unfold runReduce, bind at 1, lift in H.
      destruct (renderBody _ _ _) as [body| |]; try done.
      by apply run_body_hash in H.
Qed.

(** C7 does not hold with its if-and-only-if: this command is explicitly
    non-deterministic, completes, and its output carries a cache key. *)
Lemma C7_counterexample :
  ∃ out w', runExec demo_env uncached_echo demo_world = (Ok out, w') ∧
            deterministic (exec_base uncached_echo) = Some false ∧
            hash out = Some "exec:echo:hi".
Proof. eexists _, _. vm_compute. done. Qed.

(** ** How far a failure is propagated in one tick

    The router decides on the statuses it was given, so a tick marks only
    the pending nodes that depend directly on a FAILED or SKIPPED node.  A
    pending node behind one of those is left PENDING by that tick; when
    nothing is ready the conditional edge then ends the run with the
    deadlock error, before any later tick could mark it. *)

Lemma router_marks_skipped wf state node :
  NoDup (node_ids wf) → node ∈ nodes wf →
  statuses state !! node_id node = Some PENDING →
  (statuses (after_router wf state) !! node_id node = Some SKIPPED ↔
   ∃ dep, dep ∈ node_deps node ∧ dep_blocked (statuses state) dep) ∧
  (statuses (after_router wf state) !! node_id node = Some PENDING ↔
   ∀ dep, dep ∈ node_deps node → ¬ dep_blocked (statuses state) dep).
Proof.
  intros Hnd Hin Hp. rewrite after_router_statuses.
  assert (node_id node ∈ router_skipped wf (statuses state) ↔
          ∃ dep, dep ∈ node_deps node ∧ dep_blocked (statuses state) dep) as Hs.
  { rewrite elem_of_router_skipped. split.
    - intros (n & Hn & Hid & Hskip).
      assert (n = node) as -> by (by apply (node_id_inj wf)).
      by apply skips_iff in Hskip as [_ ?].
    - intros Hdep. exists node. split_and!; [done..|].
      apply skips_iff. split; [by right | done]. }
  case_decide as Hd; rewrite Hs in Hd.
  - split; [tauto|]. split; [done|]. intros Hall. destruct Hd as (dep & ? & ?).
    by destruct (Hall dep).
  - rewrite Hp. split; [split; [done | tauto]|]. split; [|done].
    intros _ dep Hdep Hb. apply Hd. eauto.
Qed.

Lemma skip_stops_at_direct_dependents env wf fuel thread state w b c :
  NoDup (node_ids wf) → statuses_of wf (statuses state) →
  b ∈ nodes wf → c ∈ nodes wf →
  statuses state !! node_id b = Some PENDING →
  statuses state !! node_id c = Some PENDING →
  (∃ dep, dep ∈ node_deps b ∧ dep_blocked (statuses state) dep) →
  node_id b ∈ node_deps c →
  (∀ dep, dep ∈ node_deps c → ¬ dep_blocked (statuses state) dep) →
  router_ready wf (statuses state) = [] →
  ∃ w' pendingNodes,
    graph_loop env wf (S fuel) thread state w
    = (Throw (deadlock_error pendingNodes), w') ∧
    node_id c ∈ pendingNodes ∧
    statuses (after_router wf state) !! node_id b = Some SKIPPED ∧
    statuses (after_router wf state) !! node_id c = Some PENDING.
Proof.
  intros Hnd Hkeys Hb Hc Hpb Hpc Hblocked Hdep Hfree Hready.
  pose proof (proj1 (router_marks_skipped wf state b Hnd Hb Hpb)) as Hsb.
  pose proof (proj2 (router_marks_skipped wf state c Hnd Hc Hpc)) as Hsc.
  apply Hsb in Hblocked. apply Hsc in Hfree.
  destruct (router_ok wf state w) as [w' Hr].
  exists w', (filter (fun i => is_pending (statuses (after_router wf state)) i)
                     (node_ids wf)).
  split_and!; [| |done..].
  - rewrite graph_loop_S, (bind_ok _ _ _ _ _ Hr). cbv zeta.
    fold (after_router wf state).
    rewrite (route_deadlock wf _ (node_id c)); [done| |done..].
    by apply after_router_statuses_of.
  - apply list_elem_of_filter. split; [|by apply list_elem_of_fmap_2].
    unfold is_pending. apply Is_true_true, bool_decide_eq_true_2. by right.
Qed.

(** C4 on the chain A -> B -> C with A failing.  The run of the graph ends
    with the deadlock error on C: B is marked SKIPPED in the tick after A
    failed, and in that same tick the conditional edge, finding the frontier
    empty and C still PENDING, throws.  C is left PENDING, not SKIPPED. *)
Theorem C4_chain_deadlocks :
  let r := WorkflowRuntime_run demo_env chain 25 true None demo_world in
  r.1 = Throw "Workflow deadlock detected. Nodes still pending but none are ready: C" ∧
  recorded_status r "A" = Some FAILED ∧
  recorded_status r "B" = Some SKIPPED ∧
  recorded_status r "C" = Some PENDING.
Proof. vm_compute. done. Qed.

(** The earlier scheduler, which adds to [skipped] while it scans, skips
    both B and C on the same workflow, where every node is listed after its
    dependencies ... *)
Lemma legacy_chain_skips :
  let r := Legacy.run demo_env chain 25 demo_world in
  r.1 = Throw "Workflow failed: A failed (2 skipped)" ∧
  recorded_status r "A" = Some FAILED ∧
  recorded_status r "B" = Some SKIPPED ∧
  recorded_status r "C" = Some SKIPPED.
Proof. vm_compute. done. Qed.

(** ... and stalls like the graph when C is listed before B (it writes no
    PENDING status to the run store, so C has none). *)
Lemma legacy_reordered_deadlocks :
  let r := Legacy.run demo_env chain_reordered 25 demo_world in
  r.1 = Throw "Workflow deadlock detected. Nodes still pending but none are ready: C" ∧
  recorded_status r "A" = Some FAILED ∧
  recorded_status r "B" = Some SKIPPED ∧
  recorded_status r "C" = None.
Proof. vm_compute. done. Qed.

(** C3 on a resumed run.  [yoke run] of [before_edit] fails at C; the
    workflow is then edited into [stuck] (OLD is gone, C waits for a node
    that does not exist) and the run is resumed.  The checkpoint has A and
    OLD as SUCCESS, and C, which was FAILED, is reset to PENDING.  In the
    first tick the frontier is empty and C is PENDING, but the conditional
    edge first compares the number of processed entries of the status map
    (two: A and the stale OLD) with the number of nodes of the workflow
    (two) and returns END: the command returns, [run.json] says success,
    nothing has been run, and C is left PENDING.  A new run of [stuck] stops
    with the deadlock error on C. *)
Theorem C3_stale_status_ends_run :
  let first := runCommand demo_env before_edit recursionLimit
                 {| opt_out := Some ".runs/r"; opt_resume := false |} demo_world in
  let again := runCommand demo_env stuck recursionLimit
                 {| opt_out := Some ".runs/r"; opt_resume := true |} first.2 in
  let thread := threadId (metadata (w_store first.2)) in
  let fresh := WorkflowRuntime_run demo_env stuck recursionLimit true None demo_world in
  (first.1 = Throw "process.exit(1)" ∧
   recorded_status first "C" = Some FAILED ∧
   (run_status <$> w_files first.2 !! ".runs/r") = Some Run_failed ∧
   (statuses <$> w_checkpoints first.2 !! thread)
   = Some {["A" := SUCCESS; "OLD" := SUCCESS; "C" := FAILED]}) ∧
  (let state := resumed (default (createInitialState ∅)
                                  (w_checkpoints first.2 !! thread)) in
   let ticked := after_router stuck state in
   statuses ticked = {["A" := SUCCESS; "OLD" := SUCCESS; "C" := PENDING]} ∧
   next ticked = [] ∧
   route stuck ticked = RouteEnd) ∧
  (again.1 = Ok tt ∧
   (run_status <$> w_files again.2 !! ".runs/r") = Some Run_success ∧
   recorded_status again "C" = Some PENDING ∧
   drop (length (w_trace first.2)) (w_trace again.2) = [EvSetNodeStatus "C" PENDING]) ∧
  fresh.1 = Throw "Workflow deadlock detected. Nodes still pending but none are ready: C".
Proof. vm_compute. done. Qed.

(** * The theorems on the worked examples *)

(** ** Checking the side conditions on concrete states *)

Lemma statuses_of_check wf sts :
  map_Forall (fun k _ => k ∈ node_ids wf) sts → statuses_of wf sts.
Proof. intros H k [st Hk]. by apply (H k st). Qed.

Lemma coherent_check s :
  map_Forall (fun k st =>
      (k ∈ Legacy.l_completed s ↔ st = SUCCESS ∨ st = CACHED) ∧
      (k ∈ Legacy.l_failed s ↔ st = FAILED) ∧
      (k ∈ Legacy.l_skipped s ↔ st = SKIPPED)) (Legacy.l_statuses s) →
  set_Forall (fun k => is_Some (Legacy.l_statuses s !! k))
             (Legacy.l_completed s ∪ Legacy.l_failed s ∪ Legacy.l_skipped s) →
  coherent s.
Proof.
  intros H1 H2 k. unfold dep_complete.
  destruct (Legacy.l_statuses s !! k) as [st|] eqn:E.
  - destruct (H1 k st E) as (A & B & C). naive_solver.
  - assert (k ∉ Legacy.l_completed s ∪ Legacy.l_failed s ∪ Legacy.l_skipped s) as Hn.
    { intros Hk. apply H2 in Hk. rewrite E in Hk. by destruct Hk. }
    split_and!; split; try done; intros Hk; exfalso; apply Hn; set_solver.
Qed.

Lemma is_done_check wf s :
  set_Forall (fun k => k ∈ node_ids wf)
             (Legacy.l_completed s ∪ Legacy.l_failed s ∪ Legacy.l_skipped s) →
  ∀ k, Legacy.is_done s k = true → k ∈ node_ids wf.
Proof.
  intros H k Hk. apply H. unfold Legacy.is_done in Hk.
  apply bool_decide_eq_true_1 in Hk. set_solver.
Qed.

Ltac by_compute := apply (bool_decide_unpack _); vm_compute; exact I.

(** ** C1: the frontier of a tick of the chain *)

Lemma chain_NoDup : NoDup (node_ids chain).
Proof. by_compute. Defined.

Lemma tick_loop_coherent : coherent tick_loop.
Proof. apply coherent_check; by_compute. Defined.

Lemma C1_ready_frontier_witness :
  (("B" ∈ frontier (router chain tick_state demo_world)) ↔
   ∀ dep, dep ∈ ["A"] → dep_complete statuses_A_done dep) ∧
  (("C" ∈ legacy_frontier (Legacy.scan chain tick_loop demo_world)) ↔
   ∀ dep, dep ∈ ["B"] → dep_complete statuses_A_done dep).
Proof.
  destruct (C1_ready_frontier chain chain_NoDup) as [Hrouter Hlegacy].
  split.
  - destruct (Hrouter tick_state demo_world) as [H _].
    apply (H (exec_node "B" ["A"] "echo" ["b"])).
    + apply list_elem_of_further, list_elem_of_here.
    + reflexivity.
  - destruct (Hlegacy tick_loop demo_world tick_loop_coherent) as [H _].
    apply (H (exec_node "C" ["B"] "echo" ["c"])).
    + apply list_elem_of_further, list_elem_of_further, list_elem_of_here.
    + reflexivity.
Defined.

(** ** C2: resuming the chain after B failed *)

Lemma C2_resume_witness :
  statuses (resumed snapshot) !! "B" = Some PENDING ∧
  statuses (resumed snapshot) !! "C" = Some PENDING ∧
  statuses (resumed snapshot) !! "A" = Some SUCCESS ∧
  failed (resumed snapshot) = None ∧
  trace_ext (spares_completed (statuses snapshot)) resume_world
    (WorkflowRuntime_run demo_env chain 25 true (Some "run-0-r0") resume_world).2.
Proof.
  assert ("run-0-r0" ≠ "") as Hthread by done.
  assert (w_checkpoints resume_world !! "run-0-r0" = Some snapshot) as Hcp
    by reflexivity.
  destruct (C2_resume demo_env chain 25 "run-0-r0" snapshot resume_world Hthread Hcp)
    as (w1 & _ & Hreset & Hkeep & Hfailed & _ & _ & Htrace).
  split_and!; [| | |exact Hfailed|exact Htrace].
  - apply Hreset. left. reflexivity.
  - apply Hreset. right. reflexivity.
  - destruct (Hkeep "A") as [-> _]; [left|]; reflexivity.
Defined.

(** ** Deadlock: a node that waits for a missing one *)

Lemma deadlock_detected_witness :
  graph_loop demo_env stuck 1 None stuck_state demo_world
  = (Throw "Workflow deadlock detected. Nodes still pending but none are ready: C",
     demo_world) ∧
  ∃ w', Legacy.run_loop demo_env stuck 1 stuck_loop demo_world
        = (Throw "Workflow deadlock detected. Nodes still pending but none are ready: C",
           w').
Proof.
  destruct (deadlock_detected demo_env stuck 0) as [Hgraph Hlegacy]. split.
  - destruct (Hgraph None stuck_state (router_result stuck stuck_statuses)
                demo_world demo_world "C") as [Heq _].
    + apply statuses_of_check. by_compute.
    + reflexivity.
    + reflexivity.
    + reflexivity.
    + exact Heq.
  - destruct (Hlegacy stuck_loop stuck_loop demo_world demo_world
                (exec_node "C" ["ghost"] "echo" ["c"])) as [Hthrow _].
    + by_compute.
    + apply coherent_check; by_compute.
    + apply is_done_check. by_compute.
    + reflexivity.
    + apply list_elem_of_further, list_elem_of_here.
    + reflexivity.
    + exact Hthrow.
Defined.

(** ** C5: a node whose entry is in the cache *)

Lemma C5_cache_hit_witness :
  ∃ output w',
    createNodeHandler demo_env (exec_node "A" [] "echo" ["hi"])
                      (createInitialState ∅) warm_world
    = (Ok {| p_outputs := Some {["A" := output]};
             p_statuses := Some {["A" := CACHED]};
             p_next := None; p_failed := None |}, w') ∧
    w_trace w' = [EvSetNodeStatus "A" RUNNING; EvCacheGet "exec:echo:hi";
                  EvSetNodeStatus "A" CACHED] ∧
    w_cache w' = w_cache warm_world ∧
    payload output = payload cached_out ∧
    hash output = Some "exec:echo:hi" ∧ cached output = Some true.
Proof.
  apply (C5_cache_hit demo_env (exec_node "A" [] "echo" ["hi"])
           (createInitialState ∅) warm_world "exec:echo:hi" cached_out);
    reflexivity.
Defined.

(** ** C6: seven items, and a failing one *)


(** The two environments do resume the items in different orders. *)
Lemma greet_orders_differ :
  running_items <$> map_history demo_env greet ∅ ∅ letters demo_world
  ≠ running_items <$> map_history demo_env_lifo greet ∅ ∅ letters demo_world.
Proof. vm_compute. discriminate. Qed.


(** ** C7: the key on the output of an uncached command *)

Lemma C7_hash_always_witness :
  deterministic (exec_base uncached_echo) = Some false ∧
  hash said = Some (exec_key demo_env uncached_echo) ∧
  ∀ out w', runMap demo_env greet ∅ ∅ demo_world = (Ok out, w') → hash out = None.
Proof.
  destruct (C7_hash_always demo_env) as (Hexec & _ & Hmap & _).
  split_and!.
  - reflexivity.
  - apply (Hexec uncached_echo demo_world said
             (runExec demo_env uncached_echo demo_world).2).
    vm_compute. reflexivity.
  - intros out w'. apply Hmap.
Defined.

(** ** C8: a failing command and a slow one *)

Lemma C8_exec_failures_witness :
  (runExec demo_env failing demo_world).1
  = Throw (exec_failed_error 1 "false" ["x"] "boom") ∧
  (runExec demo_env slow demo_world).1 = Throw "exec timeout after 100ms" ∧
  EvKill "SIGKILL" ∈ w_trace (runExec demo_env slow demo_world).2.
Proof.
  assert (cache_misses demo_env failing demo_world) as Hf by (right; reflexivity).
  assert (cache_misses demo_env slow demo_world) as Hs by (right; reflexivity).
  split.
  - destruct (C8_exec_failures demo_env failing demo_world Hf) as [Hexit _].
    destruct (Hexit 1%N (Some 1) "" " boom ") as [Hthrow _].
    + reflexivity.
    + intros d Hd. discriminate Hd.
    + discriminate.
    + exact Hthrow.
  - destruct (C8_exec_failures demo_env slow demo_world Hs) as [_ Htimeout].
    apply (Htimeout 100).
    + reflexivity.
    + reflexivity.
    + right. exists 5000%N, (Some 0), "", "". split; reflexivity.
Defined.

(** ** C9: a run and its resume *)

Lemma C9_thread_id_witness :
  let w1 := (runCommand demo_env chain 25
               {| opt_out := Some ".runs/demo"; opt_resume := false |} demo_world).2 in
  let w2 := (runCommand demo_env chain 25
               {| opt_out := Some ".runs/demo"; opt_resume := true |} w1).2 in
  generated (w_trace w1) = ["run-0-r0"] ∧ dir_thread ".runs/demo" "run-0-r0" w1 ∧
  generated (w_trace w2) = generated (w_trace w1) ∧
  dir_thread ".runs/demo" "run-0-r0" w2.
Proof.
  intros w1 w2.
  assert (".runs/demo" ≠ "") as Hdir by discriminate.
  assert ("run-0-r0" ≠ "") as Htid by discriminate.
  destruct (C9_thread_id demo_env chain 25 ".runs/demo" Hdir) as (Hfresh & _ & Hresume).
  destruct (Hfresh demo_world) as (_ & Hgen & Hrec).
  destruct (Hresume "run-0-r0" w1 Htid Hrec) as (Hgen2 & Hrec2 & _).
  split_and!.
  - exact Hgen.
  - exact Hrec.
  - exact Hgen2.
  - exact Hrec2.
Defined.

(** ** C10: a command and a task with the flag unset *)

Lemma C10_unset_flag_witness :
  (∃ rest, w_trace (runExec demo_env unset_echo demo_world).2
           = EvCacheGet "exec:echo:hi" :: rest) ∧
  w_cache (runExec demo_env unset_echo demo_world).2 !! "exec:echo:hi" = Some said ∧
  quiet demo_world (runExec demo_env uncached_echo demo_world).2 ∧
  quiet demo_world (runTask demo_env demo_agent unset_task demo_world).2.
Proof.
  destruct (C10_unset_flag demo_env) as (Hexec & Hexec_off & Htask & _).
  assert (deterministic (exec_base unset_echo) ≠ Some false) as Hunset by discriminate.
  destruct (Hexec unset_echo demo_world Hunset) as [Hreads Hwrites].
  split_and!.
  - exact Hreads.
  - destruct (Hwrites said (runExec demo_env unset_echo demo_world).2) as (-> & _).
    + reflexivity.
    + vm_compute. reflexivity.
    + apply lookup_insert_eq.
  - apply Hexec_off. reflexivity.
  - apply Htask. discriminate.
Defined.

(** * Further properties *)

(** ** The cache store *)


(** ** The run store *)

Lemma store_call_ok c w : ∃ w', store_call c w = (Ok tt, w').
Proof.
  destruct c; simpl;
    unfold setNodeStatus, setNodeOutput, setNodeError, complete, sleep, bind, modify, save;
    eauto.
Qed.

Lemma store_calls_ok cs w : ∃ w', store_calls cs w = (Ok tt, w').
Proof.
  unfold store_calls. revert w. induction cs as [|c cs IH]; intros w; simpl.
  - by eexists.
  - destruct (store_call_ok c w) as [w1 H1]. rewrite (bind_ok _ _ _ _ _ H1).
    apply IH.
Qed.

Lemma store_calls_app cs1 cs2 w :
  store_calls (cs1 ++ cs2) w = store_calls cs2 (store_calls cs1 w).2.
Proof.
  unfold store_calls. revert w. induction cs1 as [|c cs IH]; intros w; simpl; [done|].
  destruct (store_call_ok c w) as [w1 H1]. rewrite !(bind_ok _ _ _ _ _ H1).
  apply IH.
Qed.


Lemma timed_later now now' e : (now ≤ now')%N → timed now e → timed now' e.
Proof.
  intros Hle (H1 & H2 & H3). split_and!; [| |done].
  - intros s Hs. specialize (H1 s Hs). lia.
  - intros t Ht. specialize (H2 t Ht). lia.
Qed.

Lemma store_call_timed c w : all_timed w → all_timed (store_call c w).2.
Proof.
  intros Hall. destruct c as [k st|k out|k err|st|d]; simpl;
    intros k' e'; unfold node_entry; simpl.
  - destruct (decide (k' = k)) as [->|Hne];
      [rewrite lookup_insert_eq | rewrite lookup_insert_ne by done; apply Hall].
    intros [= <-]. pose proof (Hall k) as Hk. unfold node_entry in Hk.
    destruct (meta_nodes (metadata (w_store w)) !! k) as [e|]; simpl.
    + destruct (Hk e eq_refl) as (H1 & H2 & H3).
      destruct (is_finished st); unfold timed; simpl; [|done].
      split_and!; [done|by intros t [= <-]|].
      destruct (nm_startTime e) as [s|] eqn:Es.
      * intros d [= <-]. exists s, (w_clock w). split_and!; try done. by apply H1.
      * intros d Hd. destruct (H3 d Hd) as (s & t & Hs & _). done.
    + unfold timed; simpl. split_and!; [by intros s [= <-]|done|done].
  - destruct (decide (k' = k)) as [->|Hne];
      [rewrite lookup_insert_eq | rewrite lookup_insert_ne by done; apply Hall].
    intros [= <-]. pose proof (Hall k) as Hk. unfold node_entry in Hk.
    destruct (meta_nodes (metadata (w_store w)) !! k) as [e|]; simpl.
    + destruct (Hk e eq_refl) as (H1 & H2 & H3). unfold timed; simpl. done.
    + unfold timed; simpl. by split_and!.
  - destruct (decide (k' = k)) as [->|Hne];
      [rewrite lookup_insert_eq | rewrite lookup_insert_ne by done; apply Hall].
    intros [= <-]. pose proof (Hall k) as Hk. unfold node_entry in Hk.
    destruct (meta_nodes (metadata (w_store w)) !! k) as [e|]; simpl.
    + destruct (Hk e eq_refl) as (H1 & H2 & H3). unfold timed; simpl. done.
    + unfold timed; simpl. by split_and!.
  - apply Hall.
  - intros He. eapply timed_later; [|by apply (Hall k')]. lia.
Qed.

Lemma store_calls_timed cs w : all_timed w → all_timed (store_calls cs w).2.
Proof.
  unfold store_calls. revert w. induction cs as [|c cs IH]; intros w Hall; simpl; [done|].
  destruct (store_call_ok c w) as [w1 H1]. rewrite (bind_ok _ _ _ _ _ H1).
  apply IH. pose proof (store_call_timed c w Hall) as H. by rewrite H1 in H.
Qed.

(** Whatever is called on a store that starts without entries, and however
    time passes in between: a node's recorded duration is the distance from
    its recorded start to its recorded end, and is not negative; an entry
    without a start time has no duration. *)
Theorem store_durations (cs : list StoreCall) (w : World) (nodeId : string)
    (e : NodeMeta) :
  meta_nodes (metadata (w_store w)) = ∅ →
  node_entry (store_calls cs w).2 nodeId = Some e →
  match nm_duration e with
  | Some d => ∃ s t, nm_startTime e = Some s ∧ nm_endTime e = Some t ∧
                     d = Z.of_N t - Z.of_N s ∧ 0 ≤ d
  | None => True
  end.
Proof.
  intros Hempty He.
  assert (all_timed w) as Hw.
  { intros k e'. unfold node_entry. by rewrite Hempty, lookup_empty. }
  destruct (store_calls_timed cs w Hw nodeId e He) as (_ & _ & H3).
  destruct (nm_duration e) as [d|]; [|done].
  destruct (H3 d eq_refl) as (s & t & Hs & Ht & Hle & ->).
  exists s, t. split_and!; [done..|lia].
Qed.

Lemma store_call_start c w nodeId e :
  node_entry w nodeId = Some e →
  ∃ e', node_entry (store_call c w).2 nodeId = Some e' ∧
        nm_startTime e' = nm_startTime e.
Proof.
  unfold node_entry. intros He.
  destruct c as [k st|k out|k err|st|d]; simpl; try (by exists e);
    (destruct (decide (nodeId = k)) as [->|Hne];
       [rewrite lookup_insert_eq, He; simpl
       |rewrite lookup_insert_ne by done; by exists e]).
  - destruct (is_finished st); by eexists.
  - by eexists.
  - by eexists.
Qed.

(** The start time of a node is fixed by the first call that mentions the
    node: a first [setNodeStatus] records the time of that call, and no later
    call changes the start time of an entry (a status RUNNING written after
    PENDING does not restart the clock; an entry created by [setNodeOutput]
    or [setNodeError] never gets a start time). *)
Theorem store_start_fixed (cs : list StoreCall) (w : World) (nodeId : string) :
  (∀ e, node_entry w nodeId = Some e →
        ∃ e', node_entry (store_calls cs w).2 nodeId = Some e' ∧
              nm_startTime e' = nm_startTime e) ∧
  (node_entry w nodeId = None →
   ∀ status, ∃ e',
     node_entry (store_calls (CallSetNodeStatus nodeId status :: cs) w).2 nodeId
     = Some e' ∧ nm_startTime e' = Some (w_clock w)).
Proof.
  assert (∀ cs w e, node_entry w nodeId = Some e →
            ∃ e', node_entry (store_calls cs w).2 nodeId = Some e' ∧
                  nm_startTime e' = nm_startTime e) as Hfix.
  { clear. unfold store_calls. induction cs as [|c cs IH]; intros w e He; simpl.
    - by exists e.
    - destruct (store_call_ok c w) as [w1 H1]. rewrite (bind_ok _ _ _ _ _ H1).
      destruct (store_call_start c w nodeId e He) as (e1 & He1 & Hs1).
      rewrite H1 in He1. destruct (IH w1 e1 He1) as (e2 & He2 & Hs2).
      exists e2. split; [done | congruence]. }
  split; [apply Hfix|].
  intros Hnone status. unfold store_calls. simpl.
  destruct (store_call_ok (CallSetNodeStatus nodeId status) w) as [w1 H1].
  simpl in H1. rewrite (bind_ok _ _ _ _ _ H1).
  assert (node_entry w1 nodeId
          = Some (mkNodeMeta status (Some (w_clock w)) None None None None)) as He1.
  { unfold node_entry in *. revert H1.
    unfold setNodeStatus, bind, modify, save. simpl. intros [= <-]. simpl.
    by rewrite lookup_insert_eq, Hnone. }
  destruct (Hfix cs w1 _ He1) as (e' & He' & Hs). by exists e'.
Qed.

(** ** The node handler *)

Lemma setNodeStatus_entry nodeId status w :
  ∃ w' e, setNodeStatus nodeId status w = (Ok tt, w') ∧
          node_entry w' nodeId = Some e ∧ nm_status e = status ∧
          (∀ e0, node_entry w nodeId = Some e0 →
                 nm_output e = nm_output e0 ∧ nm_error e = nm_error e0) ∧
          saved w'.
Proof.
  unfold setNodeStatus, bind, modify, save, node_entry, saved. simpl.
  eexists _, _. split; [reflexivity|]. simpl. rewrite !lookup_insert_eq.
  split; [reflexivity|]. split_and!; [| |done].
  - destruct (meta_nodes _ !! _) as [e|]; [|done]. by destruct (is_finished _).
  - intros e0 ->. by destruct (is_finished _).
Qed.

Lemma setNodeOutput_entry nodeId output w :
  ∃ w' e, setNodeOutput nodeId output w = (Ok tt, w') ∧
          node_entry w' nodeId = Some e ∧ nm_output e = Some output.
Proof.
  unfold setNodeOutput, bind, modify, save, node_entry. simpl.
  eexists _, _. split; [reflexivity|]. simpl. by rewrite lookup_insert_eq.
Qed.

Lemma setNodeError_entry nodeId error w :
  ∃ w' e, setNodeError nodeId error w = (Ok tt, w') ∧
          node_entry w' nodeId = Some e ∧ nm_error e = Some error.
Proof.
  unfold setNodeError, bind, modify, save, node_entry. simpl.
  eexists _, _. split; [reflexivity|]. simpl. by rewrite lookup_insert_eq.
Qed.

(** The three ways a handler ends. *)
Lemma createNodeHandler_cases env node state w :
  let nodeId := node_id node in
  let w1 := (setNodeStatus nodeId RUNNING w).2 in
  createNodeHandler env node state w =
  match run_node env node state w1 with
  | (Ok output, w2) =>
      (Ok {| p_outputs := Some {[nodeId := output]};
             p_statuses := Some {[nodeId := final_status output]};
             p_next := None; p_failed := None |},
       (setNodeStatus nodeId (final_status output) (setNodeOutput nodeId output w2).2).2)
  | (Throw errorMsg, w2) =>
      (Ok {| p_outputs := None; p_statuses := Some {[nodeId := FAILED]};
             p_next := None; p_failed := Some (Some (mkFailed nodeId errorMsg)) |},
       (setNodeStatus nodeId FAILED (setNodeError nodeId errorMsg w2).2).2)
  | (Hang, w2) => (Hang, w2)
  end.
Proof.
  cbv zeta. unfold createNodeHandler, try_catch.
  destruct (setNodeStatus_ok (node_id node) RUNNING w) as [w1 H1].
  rewrite (bind_ok _ _ _ _ _ H1), H1. cbn [snd].
  destruct (run_node env node state w1) as [[output|error|] w2] eqn:E.
  - rewrite (bind_ok _ _ _ _ _ E).
    destruct (setNodeOutput_ok (node_id node) output w2) as [w3 H3].
    rewrite (bind_ok _ _ _ _ _ H3), H3. cbn [snd].
    destruct (setNodeStatus_ok (node_id node) (final_status output) w3) as [w4 H4].
    by rewrite (bind_ok _ _ _ _ _ H4), H4.
  - rewrite (bind_throw _ _ _ _ _ E).
    destruct (setNodeError_ok (node_id node) error w2) as [w3 H3].
    rewrite (bind_ok _ _ _ _ _ H3), H3. cbn [snd].
    destruct (setNodeStatus_ok (node_id node) FAILED w3) as [w4 H4].
    by rewrite (bind_ok _ _ _ _ _ H4), H4.
  - by rewrite (bind_hang _ _ _ _ E).
Qed.

Lemma createNodeHandler_hang env node state w :
  (createNodeHandler env node state w).1 = Hang →
  ∃ w1, (run_node env node state w1).1 = Hang.
Proof.
  rewrite createNodeHandler_cases. cbv zeta.
  destruct (run_node env node state _) as [[output|error|] w2] eqn:E; [done..|].
  intros _. eexists. by rewrite E.
Qed.

(** What a handler returns is what [run.json] shows for its node. *)
Lemma createNodeHandler_mirror env node state w u w' :
  createNodeHandler env node state w = (Ok u, w') →
  ∃ e, node_entry w' (node_id node) = Some e ∧
       p_statuses u = Some {[node_id node := nm_status e]} ∧
       (nm_status e = SUCCESS ∨ nm_status e = CACHED → is_Some (nm_output e)).
Proof.
  rewrite createNodeHandler_cases. cbv zeta.
  destruct (run_node env node state _) as [[output|error|] w2]; [| |done].
  - destruct (setNodeOutput_entry (node_id node) output w2) as (w3 & e3 & H3 & He3 & Ho3).
    rewrite H3. cbn [snd].
    destruct (setNodeStatus_entry (node_id node) (final_status output) w3)
      as (w4 & e4 & H4 & He4 & Hs4 & Hkeep & _).
    rewrite H4. intros [= <- <-]. exists e4. destruct (Hkeep e3 He3) as [Ho4 _].
    split_and!; [done|by rewrite Hs4|]. intros _. rewrite Ho4, Ho3. by eexists.
  - destruct (setNodeError_entry (node_id node) error w2) as (w3 & e3 & H3 & He3 & _).
    rewrite H3. cbn [snd].
    destruct (setNodeStatus_entry (node_id node) FAILED w3)
      as (w4 & e4 & H4 & He4 & Hs4 & _).
    rewrite H4. intros [= <- <-]. exists e4.
    split_and!; [done|by rewrite Hs4|]. rewrite Hs4. by intros [?|?].
Qed.

(** A handler never throws: whatever its executor throws becomes the FAILED
    update with the error message, and the handler settles unless the
    executor never does.  What it returns is what [run.json] then shows for
    the node: the same status, and the output or the error. *)
Theorem handler_records (env : Env) (node : NodeDefinition) (state : RunState)
    (w : World) :
  let nodeId := node_id node in
  let started := (setNodeStatus nodeId RUNNING w).2 in
  let r := createNodeHandler env node state w in
  match r.1 with
  | Throw _ => False
  | Hang => (run_node env node state started).1 = Hang
  | Ok u =>
      saved r.2 ∧
      ∃ e, node_entry r.2 nodeId = Some e ∧
           p_statuses u = Some {[nodeId := nm_status e]} ∧
           match (run_node env node state started).1 with
           | Ok output =>
               p_outputs u = Some {[nodeId := output]} ∧ p_failed u = None ∧
               nm_output e = Some output ∧ nm_status e = final_status output
           | Throw error =>
               p_outputs u = None ∧
               p_failed u = Some (Some (mkFailed nodeId error)) ∧
               nm_error e = Some error ∧ nm_status e = FAILED
           | Hang => False
           end
  end.
Proof.
  cbv zeta. rewrite createNodeHandler_cases. cbv zeta.
  destruct (run_node env node state _) as [[output|error|] w2]; cbn [fst snd]; [| |done].
  - destruct (setNodeOutput_entry (node_id node) output w2) as (w3 & e3 & H3 & He3 & Ho3).
    rewrite H3. cbn [snd].
    destruct (setNodeStatus_entry (node_id node) (final_status output) w3)
      as (w4 & e4 & H4 & He4 & Hs4 & Hkeep & Hsaved).
    rewrite H4. cbn [snd]. split; [done|].
    exists e4. destruct (Hkeep e3 He3) as [Ho4 _].
    split_and!; [done|by rewrite Hs4|done|done|congruence|done].
  - destruct (setNodeError_entry (node_id node) error w2) as (w3 & e3 & H3 & He3 & Ho3).
    rewrite H3. cbn [snd].
    destruct (setNodeStatus_entry (node_id node) FAILED w3)
      as (w4 & e4 & H4 & He4 & Hs4 & Hkeep & Hsaved).
    rewrite H4. cbn [snd]. split; [done|].
    exists e4. destruct (Hkeep e3 He3) as [_ Ho4].
    split_and!; [done|by rewrite Hs4|done|done|congruence|done].
Qed.

(** ** The outcome of a run *)

Lemma bind_eq {A B} (m : M A) (k : A → M B) w :
  bind m k w = match m w with
               | (Ok a, w1) => k a w1
               | (Throw e, w1) => (Throw e, w1)
               | (Hang, w1) => (Hang, w1)
               end.
Proof. unfold bind. by destruct (m w) as [[]]. Qed.

Lemma complete_ended status w :
  ∃ w', complete status w = (Ok tt, w') ∧ ended status w'.
Proof.
  unfold complete, bind, modify, save, ended, saved. simpl.
  eexists. split; [reflexivity|]. simpl.
  split; [reflexivity|]. split; [by eexists|apply lookup_insert_eq].
Qed.

Lemma report_ended finalState w :
  match (report finalState w).1 with
  | Ok _ => ended Run_success (report finalState w).2
  | Throw _ => ended Run_failed (report finalState w).2
  | Hang => False
  end.
Proof.
  unfold report. destruct (failed finalState) as [f|].
  - destruct (complete_ended Run_failed w) as (w' & H & He).
    by rewrite (bind_ok _ _ _ _ _ H).
  - destruct (fst <$> _) as [|n l].
    + destruct (complete_ended Run_success w) as (w' & H & He). by rewrite H.
    + destruct (complete_ended Run_failed w) as (w' & H & He).
      by rewrite (bind_ok _ _ _ _ _ H).
Qed.

(** The graph settles unless the executor of one of its nodes never does. *)
Lemma graph_loop_hang env wf fuel thread state w :
  (graph_loop env wf fuel thread state w).1 = Hang →
  ∃ node state' w', node ∈ nodes wf ∧ (run_node env node state' w').1 = Hang.
Proof.
  revert state w. induction fuel as [fuel IH] using lt_wf_ind. intros state w.
  destruct fuel as [|fuel]; [done|].
  rewrite graph_loop_S.
  destruct (router_ok wf state w) as [w1 Hr].
  rewrite (bind_ok _ _ _ _ _ Hr). cbv zeta.
  destruct (route wf _) as [|nodeId|msg]; [| |done].
  - destruct (checkpoint_ok thread (apply_update state (router_result wf (statuses state))) w1)
      as (w2 & Hc & _).
    rewrite (bind_ok _ _ _ _ _ Hc). by destruct fuel.
  - destruct (handler_of wf nodeId) as [node|] eqn:Hh; [|done].
    destruct (checkpoint_ok thread (apply_update state (router_result wf (statuses state))) w1)
      as (w2 & Hc & _).
    rewrite (bind_ok _ _ _ _ _ Hc).
    destruct fuel as [|fuel2]; [done|].
    apply handler_of_id in Hh as [Hnode _].
    pose proof (createNodeHandler_hang env node
                  (apply_update state (router_result wf (statuses state))) w2) as Hrec.
    pose proof (createNodeHandler_returns env node
                  (apply_update state (router_result wf (statuses state))) w2) as Hret.
    destruct (createNodeHandler env node _ w2) as [[u|e|] w3] eqn:Eh; cbn [fst] in Hrec.
    + rewrite (bind_ok _ _ _ _ _ Eh). cbv zeta.
      destruct (checkpoint_ok thread
                  (apply_update (apply_update state (router_result wf (statuses state))) u) w3)
        as (w4 & Hc4 & _).
      rewrite (bind_ok _ _ _ _ _ Hc4). apply IH. lia.
    + by destruct Hret as [? | (? & ? & ? & _)].
    + intros _. destruct (Hrec eq_refl) as [w' Hw']. eauto.
Qed.

Lemma graph_invoke_loop env wf fuel input thread w :
  ∃ state0 w0, graph_invoke env wf fuel input thread w
               = graph_loop env wf fuel thread state0 w0.
Proof.
  unfold graph_invoke.
  rewrite (bind_ok _ _ _ _ _ (eq_refl : get_world w = (Ok w, w))). cbv zeta.
  match goal with |- context [checkpoint thread ?st] =>
    destruct (checkpoint_ok thread st w) as (w0 & Hc & _); exists st, w0
  end.
  by rewrite (bind_ok _ _ _ _ _ Hc).
Qed.

Lemma run_body_ended env wf fuel (input : option RunState) thread w :
  let r := try_catch
             (let* finalState := graph_invoke env wf fuel input thread in
              report finalState)
             (fun error => complete Run_failed;; throw error) w in
  match r.1 with
  | Ok _ => ended Run_success r.2
  | Throw _ => ended Run_failed r.2
  | Hang => ∃ node state' w', node ∈ nodes wf ∧ (run_node env node state' w').1 = Hang
  end.
Proof.
  cbv zeta. unfold try_catch.
  destruct (bind _ _ w) as [[[]|e|] w1] eqn:E; cbn [fst snd].
  - unfold bind in E.
    destruct (graph_invoke _ _ _ _ _ w) as [[fs| |] w2]; try done.
    pose proof (report_ended fs w2) as Hr. by rewrite E in Hr.
  - destruct (complete_ended Run_failed w1) as (w' & H & He).
    by rewrite (bind_ok _ _ _ _ _ H).
  - rewrite bind_eq in E.
    destruct (graph_invoke _ _ _ _ _ w) as [[fs| |] w2] eqn:Ei; [|done|].
    + pose proof (report_ended fs w2) as Hr. by rewrite E in Hr.
    + destruct (graph_invoke_loop env wf fuel input thread w) as (st0 & w0 & Hloop).
      rewrite Hloop in Ei. eapply graph_loop_hang. by rewrite Ei.
Qed.

(** The construction of the graph settles at once. *)
Lemma addNodes_settles env names keys : addNodes env names keys ≠ Hang.
Proof.
  revert names. induction keys as [|key keys IH]; intros names; simpl; [done|].
  unfold addNode. destruct (addNode_reserved env key); [done|].
  case_decide; [done|apply IH].
Qed.

Lemma buildGraph_settles env wf : buildGraphFromWorkflow env wf ≠ Hang.
Proof. apply addNodes_settles. Qed.

(** [run()] once the graph is built. *)
Lemma WorkflowRuntime_run_built env wf fuel checkpointer ctx_threadId w names :
  buildGraphFromWorkflow env wf = Ok names →
  WorkflowRuntime_run env wf fuel checkpointer ctx_threadId w
  = (let thread := str_or ctx_threadId (getThreadId (w_store w)) in
     let isResume := bool_decide (str_or ctx_threadId "" ≠ "") in
     let* initialState :=
       (if negb isResume then
          let* st := fresh_state wf in ret (Some st)
        else if negb checkpointer then
          throw "Cannot resume without a checkpointer"
        else
          let* checkpointState := graph_getState thread in
          match checkpointState with
          | Some values => let* st := resume_state values in ret (Some st)
          | None => ret None
          end) in
     try_catch
       (let* finalState :=
          graph_invoke env wf fuel initialState
                       (if checkpointer then Some thread else None) in
        report finalState)
       (fun error => complete Run_failed;; throw error)) w.
Proof.
  intros Hbuild. unfold WorkflowRuntime_run.
  rewrite (bind_ok _ _ _ _ _ (eq_refl : get_world w = (Ok w, w))). cbv zeta.
  rewrite Hbuild.
  by rewrite (bind_ok _ _ _ _ _ (eq_refl : lift (Ok names) w = (Ok names, w))).
Qed.

(** With a checkpointer, [run()] reaches its [try] block once the graph is
    built. *)
Lemma WorkflowRuntime_run_try env wf fuel ctx_threadId w names :
  buildGraphFromWorkflow env wf = Ok names →
  ∃ input thread w1,
    WorkflowRuntime_run env wf fuel true ctx_threadId w
    = try_catch
        (let* finalState := graph_invoke env wf fuel input thread in
         report finalState)
        (fun error => complete Run_failed;; throw error) w1.
Proof.
  intros Hbuild. rewrite (WorkflowRuntime_run_built _ _ _ _ _ _ _ Hbuild). cbv zeta.
  set (thread := str_or ctx_threadId (getThreadId (w_store w))).
  destruct (bool_decide (str_or ctx_threadId "" ≠ "")) eqn:Hres; cbn [negb].
  - rewrite bind_eq, bind_eq. unfold graph_getState.
    destruct (w_checkpoints w !! thread) as [values|] eqn:Hcp.
    + destruct (resume_state_ok values w) as (w' & H & _).
      rewrite (bind_ok _ _ _ _ _ H). cbn [ret]. by eexists _, _, _.
    + cbn [ret]. by eexists _, _, _.
  - destruct (fresh_state_ok wf w) as (st & w' & H & _).
    rewrite bind_eq, (bind_ok _ _ _ _ _ H). cbn [ret]. by eexists _, _, _.
Qed.

Lemma WorkflowRuntime_run_refused env wf fuel checkpointer ctx_threadId w e :
  buildGraphFromWorkflow env wf = Throw e →
  WorkflowRuntime_run env wf fuel checkpointer ctx_threadId w = (Throw e, w).
Proof.
  intros Hbuild. unfold WorkflowRuntime_run.
  rewrite (bind_ok _ _ _ _ _ (eq_refl : get_world w = (Ok w, w))). cbv zeta.
  rewrite bind_eq. unfold lift at 1. by rewrite Hbuild.
Qed.

(** When [run()] returns, [run.json] says [success]; when it throws,
    [run.json] says [failed], in both cases with an end time and written to
    disk.  The exceptions are the two errors thrown before the [try]: the
    error of the construction of the graph (a node id used twice, a node
    called router, a name LangGraph reserves) and a resume without a
    checkpointer.  Then nothing is written and the status stays as it was.
    And [run()] settles unless the executor of one of the nodes never
    does. *)
Theorem run_outcome (env : Env) (wf : WorkflowDefinition) (fuel : nat)
    (checkpointer : bool) (ctx_threadId : option string) (w : World) :
  let r := WorkflowRuntime_run env wf fuel checkpointer ctx_threadId w in
  match r.1 with
  | Ok _ => ended Run_success r.2 ∧ ∃ names, buildGraphFromWorkflow env wf = Ok names
  | Throw e =>
      (ended Run_failed r.2 ∧ ∃ names, buildGraphFromWorkflow env wf = Ok names) ∨
      (r.2 = w ∧
       (buildGraphFromWorkflow env wf = Throw e ∨
        (e = "Cannot resume without a checkpointer" ∧
         checkpointer = false ∧ str_or ctx_threadId "" ≠ "")))
  | Hang => ∃ node state' w', node ∈ nodes wf ∧ (run_node env node state' w').1 = Hang
  end.
Proof.
  cbv zeta.
  destruct (buildGraphFromWorkflow env wf) as [names|e|] eqn:Hbuild.
  2:{ rewrite (WorkflowRuntime_run_refused _ _ _ _ _ _ _ Hbuild). cbn [fst snd]. auto. }
  2:{ by destruct (buildGraph_settles env wf). }
  rewrite (WorkflowRuntime_run_built _ _ _ _ _ _ _ Hbuild). cbv zeta.
  set (thread := str_or ctx_threadId (getThreadId (w_store w))).
  destruct (bool_decide (str_or ctx_threadId "" ≠ "")) eqn:Hres; cbn [negb].
  - destruct checkpointer; cbn [negb].
    + rewrite bind_eq, bind_eq. unfold graph_getState.
      destruct (w_checkpoints w !! thread) as [values|] eqn:Hcp.
      * destruct (resume_state_ok values w) as (w' & H & _).
        rewrite (bind_ok _ _ _ _ _ H). cbn [ret].
        pose proof (run_body_ended env wf fuel (Some (resumed values))
                      (Some thread) w') as Hb.
        cbv zeta in Hb. destruct (try_catch _ _ w') as [[]w2]; cbn [fst snd] in *;
          [split; eauto | left; split; eauto | done].
      * cbn [ret].
        pose proof (run_body_ended env wf fuel None (Some thread) w) as Hb.
        cbv zeta in Hb. destruct (try_catch _ _ w) as [[]w2]; cbn [fst snd] in *;
          [split; eauto | left; split; eauto | done].
    + right. apply bool_decide_eq_true in Hres. auto.
  - destruct (fresh_state_ok wf w) as (st & w' & H & _).
    rewrite bind_eq, (bind_ok _ _ _ _ _ H). cbn [ret].
    pose proof (run_body_ended env wf fuel (Some st)
                  (if checkpointer then Some thread else None) w') as Hb.
    cbv zeta in Hb. destruct (try_catch _ _ w') as [[]w2]; cbn [fst snd] in *;
          [split; eauto | left; split; eauto | done].
Qed.

(** ** How a run of the graph ends *)

Lemma filter_length_le {A} (P Q : A → bool) (l : list A) :
  (∀ x, x ∈ l → P x → Q x) →
  (length (filter (fun x => P x) l) ≤ length (filter (fun x => Q x) l))%nat.
Proof.
  induction l as [|a l IH]; intros H; [done|].
  rewrite !filter_cons.
  assert (length (filter (λ x, P x) l) ≤ length (filter (λ x, Q x) l))%nat as IH'.
  { apply IH. intros x Hx. apply H. by apply list_elem_of_further. }
  destruct (decide (P a)) as [Hp|Hp]; destruct (decide (Q a)) as [Hq|Hq]; simpl; try lia.
  exfalso. apply Hq, H; [apply list_elem_of_here | done].
Qed.

Lemma filter_length_lt {A} (P Q : A → bool) (l : list A) (a : A) :
  (∀ x, x ∈ l → P x → Q x) → a ∈ l → Q a → ¬ P a →
  (length (filter (fun x => P x) l) < length (filter (fun x => Q x) l))%nat.
Proof.
  induction l as [|b l IH]; intros H Ha Hq Hp; [by apply elem_of_nil in Ha|].
  rewrite !filter_cons.
  assert (length (filter (λ x, P x) l) ≤ length (filter (λ x, Q x) l))%nat as Hle.
  { apply filter_length_le. intros x Hx. apply H. by apply list_elem_of_further. }
  apply elem_of_cons in Ha as [<- | Ha].
  - rewrite decide_False by done. rewrite decide_True by done. simpl. lia.
  - assert (length (filter (λ x, P x) l) < length (filter (λ x, Q x) l))%nat as Hlt.
    { apply IH; try done. intros x Hx. apply H. by apply list_elem_of_further. }
    destruct (decide (P b)) as [Hpb|Hpb]; destruct (decide (Q b)) as [Hqb|Hqb];
      simpl; try lia.
    exfalso. apply Hqb, H; [apply list_elem_of_here | done].
Qed.

Lemma is_pending_open sts k : is_pending sts k ↔ open_status sts k.
Proof.
  unfold is_pending, open_status. split.
  - intros H. by apply Is_true_true, bool_decide_eq_true_1 in H.
  - intros H. by apply Is_true_true, bool_decide_eq_true_2.
Qed.

Lemma handler_of_is_Some wf k : k ∈ node_ids wf → is_Some (handler_of wf k).
Proof.
  unfold node_ids, handler_of. intros Hk.
  apply list_elem_of_fmap in Hk as (n & -> & Hin).
  destruct (List.find _ _) as [n'|] eqn:E; [by eexists|].
  exfalso. apply list_elem_of_In in Hin.
  pose proof (find_none _ _ E n Hin) as Hn. simpl in Hn.
  by rewrite bool_decide_eq_true_2 in Hn.
Qed.

Lemma pushes_not_skips sts node : pushes sts node → ¬ skips sts node.
Proof. unfold pushes, skips. congruence. Qed.

(** The end of the route: every node of the workflow is settled. *)
Lemma route_end_settled wf state :
  statuses_of wf (statuses state) → no_running (statuses state) →
  route wf state = RouteEnd →
  ∀ k, k ∈ node_ids wf → ∃ s, statuses state !! k = Some s ∧ settled_status s.
Proof.
  intros Hkeys Hnr Hroute k Hk.
  assert (¬ open_status (statuses state) k) as Hnot.
  { intros Ho. unfold route in Hroute. case_decide as Hlen.
    - pose proof (processed_lt wf (statuses state) k Hkeys Hk) as Hlt.
      unfold node_ids in Hlt. rewrite Hlen in Hlt.
      assert (∀ s, statuses state !! k = Some s → s = PENDING ∨ s = RUNNING) as Hs.
      { intros s Hs. destruct Ho as [Ho|Ho]; rewrite Ho in Hs; [done|]. left. congruence. }
      specialize (Hlt Hs). lia.
    - destruct (next state); [|done].
      fold (node_ids wf) in Hroute.
      destruct (filter _ (node_ids wf)) as [|x l] eqn:E; [|done].
      assert (k ∈ filter (fun i => is_pending (statuses state) i) (node_ids wf)) as Hin.
      { apply list_elem_of_filter. split; [by apply is_pending_open | done]. }
      rewrite E in Hin. by apply elem_of_nil in Hin. }
  unfold open_status in Hnot. specialize (Hnr k).
  destruct (statuses state !! k) as [s|]; [|tauto].
  exists s. split; [done|]. unfold settled_status.
  destruct s;
    first [ by exfalso; apply Hnot; right | by exfalso; apply Hnr | naive_solver ].
Qed.

Lemma route_throw_deadlock wf state msg :
  route wf state = RouteThrow msg →
  next state = [] ∧
  ∃ p ps, open_nodes wf (statuses state) = p :: ps ∧ msg = deadlock_error (p :: ps).
Proof.
  unfold route. case_decide; [done|]. destruct (next state); [|done].
  fold (node_ids wf). unfold open_nodes.
  destruct (filter _ (node_ids wf)) as [|x l] eqn:E; [done|].
  intros [= <-]. split; [done|]. eauto.
Qed.

Lemma route_node_ready wf state nodeId :
  route wf (after_router wf state) = RouteNode nodeId →
  ∃ node, node ∈ nodes wf ∧ node_id node = nodeId ∧ pushes (statuses state) node.
Proof.
  unfold route. case_decide; [done|]. rewrite after_router_next.
  destruct (router_ready wf (statuses state)) as [|first rest] eqn:Er.
  { by case_match. }
  intros [= <-]. apply elem_of_router_ready. rewrite Er. apply list_elem_of_here.
Qed.

Lemma after_router_no_running wf state :
  no_running (statuses state) → no_running (statuses (after_router wf state)).
Proof.
  intros H k. rewrite after_router_statuses. case_decide; [done | apply H].
Qed.

Lemma after_router_open wf state k :
  open_status (statuses (after_router wf state)) k → open_status (statuses state) k.
Proof.
  unfold open_status. rewrite after_router_statuses.
  case_decide; [naive_solver | done].
Qed.

Lemma handler_update_statuses state u nodeId st k :
  p_statuses u = Some {[nodeId := st]} →
  statuses (apply_update state u) !! k
  = if decide (k = nodeId) then Some st else statuses state !! k.
Proof.
  intros Hs. unfold apply_update, merge_right. simpl. rewrite Hs. simpl.
  rewrite lookup_union. case_decide as Hk.
  - subst. rewrite lookup_singleton_eq. by destruct (statuses state !! nodeId).
  - rewrite lookup_singleton_ne by done. by rewrite (left_id None _).
Qed.

(** A run of the graph from a state without RUNNING entries and without
    stale keys never stops on the recursion limit when the supersteps that
    may still run are at least two for every pending node (its run and the
    run of the router before it) and two more (the last run of the router,
    and one left over when the graph ends).  It then ends in one of three
    ways: it returns, and then every node of the workflow is SUCCESS,
    CACHED, FAILED or SKIPPED; or it throws the deadlock error, which lists
    nodes of the workflow; or it never settles, because the executor of one
    of the nodes never does. *)
Theorem graph_run_ends (env : Env) (wf : WorkflowDefinition) (fuel : nat)
    (thread : option string) (state : RunState) (w : World) :
  statuses_of wf (statuses state) → no_running (statuses state) →
  (2 * length (open_nodes wf (statuses state)) + 2 ≤ fuel)%nat →
  match (graph_loop env wf fuel thread state w).1 with
  | Ok final =>
      ∀ k, k ∈ node_ids wf → ∃ s, statuses final !! k = Some s ∧ settled_status s
  | Throw e => ∃ p ps, e = deadlock_error (p :: ps) ∧ p :: ps ⊆ node_ids wf
  | Hang => ∃ node state' w', node ∈ nodes wf ∧ (run_node env node state' w').1 = Hang
  end.
Proof.
  revert state w. induction fuel as [fuel IH] using lt_wf_ind.
  intros state w Hkeys Hnr Hfuel.
  destruct fuel as [|[|fuel]]; [lia..|].
  rewrite graph_loop_S.
  destruct (router_ok wf state w) as [w1 Hr].
  rewrite (bind_ok _ _ _ _ _ Hr). cbv zeta. fold (after_router wf state).
  pose proof (after_router_statuses_of wf state Hkeys) as Hkeys1.
  pose proof (after_router_no_running wf state Hnr) as Hnr1.
  destruct (route wf (after_router wf state)) as [|nodeId|msg] eqn:Eroute.
  - destruct (checkpoint_ok thread (after_router wf state) w1) as (w2 & Hc & _).
    rewrite (bind_ok _ _ _ _ _ Hc). cbn [ret fst].
    by apply (route_end_settled wf (after_router wf state)).
  - destruct (route_node_ready wf state nodeId Eroute) as (n & Hin & Hid & Hpush).
    assert (nodeId ∈ node_ids wf) as Hmem.
    { rewrite <- Hid. by apply list_elem_of_fmap_2. }
    destruct (handler_of_is_Some wf nodeId Hmem) as [node Hh]. rewrite Hh.
    destruct (checkpoint_ok thread (after_router wf state) w1) as (w2 & Hc & _).
    rewrite (bind_ok _ _ _ _ _ Hc).
    apply handler_of_id in Hh as [Hnode Hnid].
    destruct (createNodeHandler_returns env node (after_router wf state) w2)
      as [Hhang | (u & st & Hu & Hst & Hterm & _)].
    + destruct (createNodeHandler_hang env node (after_router wf state) w2 Hhang)
        as [w' Hw'].
      destruct (createNodeHandler env node (after_router wf state) w2) as [r w3] eqn:Eh.
      cbn [fst] in Hhang. subst r. rewrite (bind_hang _ _ _ _ Eh). cbn [fst].
      eauto.
    + destruct (createNodeHandler env node (after_router wf state) w2) as [r w3] eqn:Eh.
      simpl in Hu. subst r. rewrite (bind_ok _ _ _ _ _ Eh). cbv zeta.
      set (state2 := apply_update (after_router wf state) u).
      destruct (checkpoint_ok thread state2 w3) as (w4 & Hc4 & _).
      rewrite (bind_ok _ _ _ _ _ Hc4).
      rewrite Hnid in Hst.
      assert (∀ k, statuses state2 !! k
                   = if decide (k = nodeId) then Some st
                     else statuses (after_router wf state) !! k) as Hst2.
      { intros k. by apply handler_update_statuses. }
      assert (length (open_nodes wf (statuses state2))
              < length (open_nodes wf (statuses state)))%nat as Hless.
      2:{ apply IH; [lia|by eapply handler_statuses_of| |lia].
          intros k. rewrite Hst2. case_decide; [|apply Hnr1].
          destruct Hterm as [-> | [-> | ->]]; done. }
      unfold open_nodes. apply (filter_length_lt _ _ _ nodeId); [|done| |].
      * intros k _ Hk. apply is_pending_open. apply is_pending_open in Hk.
        apply (after_router_open wf). unfold open_status in *.
        rewrite Hst2 in Hk. case_decide; [|done].
        destruct Hterm as [-> | [-> | ->]]; naive_solver.
      * apply is_pending_open. rewrite <- Hid.
        by apply pushes_iff in Hpush as [? _].
      * rewrite is_pending_open. unfold open_status. rewrite Hst2.
        rewrite decide_True by done.
        destruct Hterm as [-> | [-> | ->]]; naive_solver.
  - apply route_throw_deadlock in Eroute as (_ & p & ps & Hopen & ->). simpl.
    exists p, ps. split; [done|]. rewrite <- Hopen. unfold open_nodes.
    intros k Hk. by apply list_elem_of_filter in Hk as [_ ?].
Qed.

(** ** What a run keeps true *)

#[global] Instance same_store_stable : ExecutorStable same_store.
Proof.
  split; [split; [split| |]| |].
  - by intros w.
  - intros w1 w2 w3 [H1 H2] [H3 H4]. split; congruence.
  - by intros w e _.
  - by intros w t.
  - by intros w key.
  - by intros w key value.
Qed.

Lemma graph_loop_rule env wf (I : RunState → World → Prop) :
  NoDup (node_ids wf) →
  (∀ state w, I state w → I (after_router wf state) (router wf state w).2) →
  (∀ state w c, I state w → I state (set_checkpoints c w)) →
  (∀ state node u w w',
     I state w → node ∈ nodes wf → open_status (statuses state) (node_id node) →
     createNodeHandler env node state w = (Ok u, w') → I (apply_update state u) w') →
  ∀ fuel thread state w final w',
    I state w → graph_loop env wf fuel thread state w = (Ok final, w') →
    I final w' ∧ route wf final = RouteEnd.
Proof.
  intros Hnd Hrouter Hcp Hhandler fuel thread.
  assert (∀ state st' w, I state w → I state (checkpoint thread st' w).2) as Hcheck.
  { intros state st' w Hi. destruct thread; simpl; [by apply Hcp | done]. }
  induction fuel as [fuel IH] using lt_wf_ind. intros state w final w' Hi.
  destruct fuel as [|fuel]; [done|].
  rewrite graph_loop_S.
  destruct (router_ok wf state w) as [w1 Hr].
  pose proof (Hrouter state w Hi) as Hi1. rewrite Hr in Hi1. simpl in Hi1.
  rewrite (bind_ok _ _ _ _ _ Hr). cbv zeta. fold (after_router wf state).
  destruct (route wf (after_router wf state)) as [|nodeId|msg] eqn:Eroute.
  - destruct (checkpoint_ok thread (after_router wf state) w1) as (w2 & Hc & _).
    pose proof (Hcheck _ (after_router wf state) w1 Hi1) as Hi2.
    rewrite Hc in Hi2. rewrite (bind_ok _ _ _ _ _ Hc).
    destruct fuel; [done|]. by intros [= <- <-].
  - destruct (handler_of wf nodeId) as [node|] eqn:Hh; [|done].
    destruct (checkpoint_ok thread (after_router wf state) w1) as (w2 & Hc & _).
    pose proof (Hcheck _ (after_router wf state) w1 Hi1) as Hi2.
    rewrite Hc in Hi2. rewrite (bind_ok _ _ _ _ _ Hc). simpl in Hi2.
    destruct fuel as [|fuel2]; [done|].
    destruct (route_node_ready wf state nodeId Eroute) as (n & Hin & Hid & Hpush).
    apply handler_of_id in Hh as [Hnode Hnid].
    assert (open_status (statuses (after_router wf state)) (node_id node)) as Hopen.
    { rewrite Hnid, <- Hid. unfold open_status. rewrite after_router_statuses.
      rewrite decide_False.
      - by apply pushes_iff in Hpush as [? _].
      - intros Hs. apply elem_of_router_skipped in Hs as (n' & Hin' & Hid' & Hs).
        assert (n' = n) as -> by (apply (node_id_inj wf); congruence).
        by apply pushes_not_skips in Hpush. }
    destruct (createNodeHandler env node (after_router wf state) w2) as [[u| |] w3] eqn:Eh.
    + rewrite (bind_ok _ _ _ _ _ Eh). cbv zeta.
      pose proof (Hhandler _ _ _ _ _ Hi2 Hnode Hopen Eh) as Hi3.
      set (state2 := apply_update (after_router wf state) u) in *.
      destruct (checkpoint_ok thread state2 w3) as (w4 & Hc4 & _).
      pose proof (Hcheck _ state2 w3 Hi3) as Hi4. rewrite Hc4 in Hi4.
      rewrite (bind_ok _ _ _ _ _ Hc4). apply IH; [lia|done].
    + by rewrite (bind_throw _ _ _ _ _ Eh).
    + by rewrite (bind_hang _ _ _ _ Eh).
  - done.
Qed.

#[global] Instance keeps_entry_stable k : ExecutorStable (keeps_entry k).
Proof.
  unfold keeps_entry. split; [split; [split| |]| |].
  - by intros w.
  - intros w1 w2 w3 H1 H2. congruence.
  - by intros w e _.
  - by intros w t.
  - by intros w key.
  - by intros w key value.
Qed.

Lemma setNodeStatus_keeps k nodeId status :
  k ≠ nodeId → steps (keeps_entry k) (setNodeStatus nodeId status).
Proof.
  intros Hk w. unfold keeps_entry, setNodeStatus, bind, modify, save, node_entry. simpl.
  by rewrite lookup_insert_ne.
Qed.

Lemma setNodeOutput_keeps k nodeId output :
  k ≠ nodeId → steps (keeps_entry k) (setNodeOutput nodeId output).
Proof.
  intros Hk w. unfold keeps_entry, setNodeOutput, bind, modify, save, node_entry. simpl.
  by rewrite lookup_insert_ne.
Qed.

Lemma setNodeError_keeps k nodeId error :
  k ≠ nodeId → steps (keeps_entry k) (setNodeError nodeId error).
Proof.
  intros Hk w. unfold keeps_entry, setNodeError, bind, modify, save, node_entry. simpl.
  by rewrite lookup_insert_ne.
Qed.

Lemma createNodeHandler_keeps env node state k :
  k ≠ node_id node → steps (keeps_entry k) (createNodeHandler env node state).
Proof.
  intros Hk. unfold createNodeHandler. apply steps_try_catch; [apply _| |].
  - apply steps_bind; [apply _|by apply setNodeStatus_keeps|]. intros _.
    apply steps_bind; [apply _|apply steps_run_node, _|]. intros output.
    apply steps_bind; [apply _|by apply setNodeOutput_keeps|]. intros _.
    apply steps_bind; [apply _|by apply setNodeStatus_keeps|]. intros _.
    apply steps_ret, _.
  - intros e.
    apply steps_bind; [apply _|by apply setNodeError_keeps|]. intros _.
    apply steps_bind; [apply _|by apply setNodeStatus_keeps|]. intros _.
    apply steps_ret, _.
Qed.

Lemma setNodeStatus_status nodeId status w :
  entry_status (setNodeStatus nodeId status w).2 nodeId = Some status.
Proof.
  destruct (setNodeStatus_entry nodeId status w) as (w' & e & H & He & Hs & _).
  rewrite H. unfold entry_status. simpl. by rewrite He, <- Hs.
Qed.

(** The router's writes: SKIPPED for the nodes it skips, nothing else. *)
Lemma router_visit_entries state c ns acc w k :
  let w' := (for_each ns (router_visit state c) acc w).2 in
  if decide (k ∈ node_id <$> filter (fun n => decide_node (statuses state) c n = MarkSkipped) ns)
  then entry_status w' k = Some SKIPPED
  else node_entry w' k = node_entry w k.
Proof.
  cbv zeta. revert acc w. induction ns as [|n ns IH]; intros [ready su] w.
  { cbn [for_each ret snd]. rewrite filter_nil, fmap_nil.
    case_decide as H; [by apply elem_of_nil in H | done]. }
  cbn [for_each]. rewrite bind_eq. rewrite filter_cons. cbn beta.
  destruct (router_visit state c (ready, su) n w) as [r1 w1] eqn:Ev.
  unfold router_visit in Ev.
  destruct (decide_node (statuses state) c n) eqn:E.
  - destruct (decide (Leave = MarkSkipped)) as [?|_]; [done|].
    injection Ev as <- <-. apply IH.
  - destruct (decide (MarkSkipped = MarkSkipped)) as [_|?]; [|done].
    destruct (setNodeStatus_ok (node_id n) SKIPPED w) as [w2 H1].
    rewrite (bind_ok _ _ _ _ _ H1) in Ev. injection Ev as <- <-.
    specialize (IH (ready, <[node_id n := SKIPPED]> su) w2).
    rewrite fmap_cons.
    destruct (decide (k = node_id n)) as [->|Hne].
    + rewrite decide_True by apply list_elem_of_here.
      case_decide as Hin; [done|]. unfold entry_status. rewrite IH.
      pose proof (setNodeStatus_status (node_id n) SKIPPED w) as Hs.
      by rewrite H1 in Hs.
    + pose proof (setNodeStatus_keeps k (node_id n) SKIPPED Hne w) as Hk.
      rewrite H1 in Hk. unfold keeps_entry in Hk. simpl in Hk.
      case_decide as Hin.
      * rewrite decide_True; [done|]. by apply list_elem_of_further.
      * rewrite decide_False; [congruence|].
        intros [?|?]%elem_of_cons; done.
  - destruct (decide (PushReady = MarkSkipped)) as [?|_]; [done|].
    injection Ev as <- <-. apply IH.
Qed.

Lemma router_entries wf state w k :
  let w' := (router wf state w).2 in
  if decide (k ∈ router_skipped wf (statuses state))
  then entry_status w' k = Some SKIPPED
  else node_entry w' k = node_entry w k.
Proof.
  cbv zeta. unfold router. rewrite bind_eq.
  pose proof (router_visit_entries state (categorize (statuses state)) (nodes wf)
                ([], ∅) w k) as H. cbv zeta in H.
  destruct (for_each _ _ _ w) as [[[ready su]| |] w1]; exact H.
Qed.

Lemma run_inv_router wf state w :
  run_inv wf state w → run_inv wf (after_router wf state) (router wf state w).2.
Proof.
  intros (Hkeys & Hnr & Hbl & Hmir & Hout). split_and!.
  - by apply after_router_statuses_of.
  - by apply after_router_no_running.
  - intros [k Hk].
    assert (∃ k', statuses state !! k' = Some FAILED) as [k' Hk'].
    { rewrite after_router_statuses in Hk. case_decide as Hs; [|apply Hbl; eauto].
      apply elem_of_router_skipped in Hs as (n & _ & _ & Hs).
      apply skips_iff in Hs as [_ (d & _ & [Hd|Hd])]; [eauto | apply Hbl; eauto]. }
    exists k'. rewrite after_router_statuses. rewrite decide_False; [done|].
    intros Hs. apply elem_of_router_skipped in Hs as (n & _ & <- & Hs).
    apply skips_iff in Hs as [[Ho|Ho] _]; congruence.
  - intros k Hk. rewrite after_router_statuses.
    pose proof (router_entries wf state w k) as He. cbv zeta in He.
    case_decide; [done|]. unfold entry_status. rewrite He. by apply Hmir.
  - intros k e Hk He Hs.
    pose proof (router_entries wf state w k) as Hr. cbv zeta in Hr.
    case_decide.
    + unfold entry_status in Hr. rewrite He in Hr. simpl in Hr.
      destruct Hs as [Hs|Hs]; congruence.
    + rewrite Hr in He. by apply (Hout k e).
Qed.

Lemma run_inv_checkpoints wf state w c :
  run_inv wf state w → run_inv wf state (set_checkpoints c w).
Proof. done. Qed.

Lemma run_inv_handler env wf state node u w w' :
  run_inv wf state w → node ∈ nodes wf → open_status (statuses state) (node_id node) →
  createNodeHandler env node state w = (Ok u, w') →
  run_inv wf (apply_update state u) w'.
Proof.
  intros (Hkeys & Hnr & Hbl & Hmir & Hout) Hin Hopen Hrun.
  destruct (createNodeHandler_mirror env node state w u w' Hrun) as (e & He & Hst & Hres).
  assert (nm_status e = SUCCESS ∨ nm_status e = CACHED ∨ nm_status e = FAILED) as Hfin.
  { destruct (createNodeHandler_returns env node state w) as [Hh|(u' & st & Hu & Hs & Hf & _)];
      rewrite Hrun in Hh || rewrite Hrun in Hu; cbn [fst] in *; [done|].
    injection Hu as <-. rewrite Hst in Hs.
    assert (({[node_id node := nm_status e]} : gmap string NodeStatus) !! node_id node
            = ({[node_id node := st]} : gmap string NodeStatus) !! node_id node) as Hl
      by congruence.
    rewrite !lookup_singleton_eq in Hl. injection Hl as ->. done. }
  assert (∀ k, statuses (apply_update state u) !! k
               = if decide (k = node_id node) then Some (nm_status e)
                 else statuses state !! k) as Hupd.
  { intros k. by apply handler_update_statuses. }
  assert (∀ k, k ≠ node_id node → node_entry w' k = node_entry w k) as Hkeep.
  { intros k Hk. pose proof (createNodeHandler_keeps env node state k Hk w) as H.
    by rewrite Hrun in H. }
  split_and!.
  - by eapply handler_statuses_of.
  - intros k. rewrite Hupd. case_decide; [|apply Hnr].
    destruct Hfin as [-> | [-> | ->]]; done.
  - intros [k Hk]. rewrite Hupd in Hk. case_decide as Hd.
    { destruct Hfin as [H | [H | H]]; rewrite H in Hk; done. }
    destruct Hbl as [k' Hk']; [eauto|]. exists k'. rewrite Hupd.
    rewrite decide_False; [done|]. intros ->. destruct Hopen; congruence.
  - intros k Hk. rewrite Hupd. case_decide as Hd.
    + subst. unfold entry_status. by rewrite He.
    + unfold entry_status. rewrite (Hkeep k Hd). by apply Hmir.
  - intros k e' Hk He' Hs. destruct (decide (k = node_id node)) as [->|Hd].
    + rewrite He in He'. injection He' as <-. by apply Hres.
    + rewrite (Hkeep k Hd) in He'. by apply (Hout k e').
Qed.

(** Along a run of the graph. *)
Lemma graph_loop_run_inv env wf fuel thread state w final w' :
  NoDup (node_ids wf) → run_inv wf state w →
  graph_loop env wf fuel thread state w = (Ok final, w') →
  run_inv wf final w' ∧
  ∀ k, k ∈ node_ids wf → ∃ s, statuses final !! k = Some s ∧ settled_status s.
Proof.
  intros Hnd Hi Hrun.
  destruct (graph_loop_rule env wf (run_inv wf) Hnd (run_inv_router wf)
              (run_inv_checkpoints wf) (run_inv_handler env wf)
              fuel thread state w final w' Hi Hrun) as [Hf Hroute].
  split; [done|]. destruct Hf as (Hkeys & Hnr & _). by apply route_end_settled.
Qed.

(** ** A new run *)

Lemma init_pending_entries ns acc w k :
  let w' := (for_each ns init_pending acc w).2 in
  (if decide (k ∈ node_id <$> ns) then entry_status w' k = Some PENDING
   else node_entry w' k = node_entry w k) ∧
  w_checkpoints w' = w_checkpoints w.
Proof.
  cbv zeta. revert acc w. induction ns as [|n ns IH]; intros acc w.
  { cbn [for_each ret snd]. rewrite fmap_nil.
    split; [|done]. case_decide as H; [by apply elem_of_nil in H | done]. }
  cbn [for_each]. rewrite bind_eq.
  destruct (setNodeStatus_world (node_id n) PENDING w) as (w1 & H1 & Hc1 & _).
  assert (init_pending acc n w = (Ok (<[node_id n := PENDING]> acc), w1)) as ->.
  { unfold init_pending. by rewrite (bind_ok _ _ _ _ _ H1). }
  destruct (IH (<[node_id n := PENDING]> acc) w1) as [IHe IHc].
  split; [|congruence]. rewrite fmap_cons.
  destruct (decide (k = node_id n)) as [->|Hne].
  - rewrite decide_True by apply list_elem_of_here.
    case_decide as Hin; [done|]. unfold entry_status. rewrite IHe.
    pose proof (setNodeStatus_status (node_id n) PENDING w) as Hs.
    by rewrite H1 in Hs.
  - pose proof (setNodeStatus_keeps k (node_id n) PENDING Hne w) as Hk.
    rewrite H1 in Hk. unfold keeps_entry in Hk. simpl in Hk.
    case_decide as Hin.
    + rewrite decide_True; [done|]. by apply list_elem_of_further.
    + rewrite decide_False; [congruence|].
      intros [?|?]%elem_of_cons; done.
Qed.

Lemma fresh_state_inv wf w :
  ∃ st w', fresh_state wf w = (Ok st, w') ∧ run_inv wf st w' ∧
           failed st = None ∧ w_checkpoints w' = w_checkpoints w.
Proof.
  destruct (fresh_state_ok wf w) as (st & w' & H & Hkeys & Hall & _ & Hf).
  exists st, w'. split; [done|].
  assert (∀ k s, statuses st !! k = Some s → s = PENDING) as Hpend.
  { intros k s Hk. assert (k ∈ node_ids wf) as Hin by (apply Hkeys; eauto).
    rewrite (Hall k Hin) in Hk. congruence. }
  pose proof (init_pending_entries (nodes wf) ∅ w) as He. cbv zeta in He.
  assert (w' = (for_each (nodes wf) init_pending ∅ w).2) as Hw'.
  { unfold fresh_state in H. rewrite bind_eq in H.
    destruct (for_each _ _ _ w) as [[a| |] w1]; cbn [ret snd] in *; [|done..].
    by injection H. }
  rewrite <- Hw' in He.
  split_and!; [split_and!| done | apply (He "")]; [done| | | |].
  - intros k Hk. by apply Hpend in Hk.
  - intros [k Hk]. by apply Hpend in Hk.
  - intros k Hk. rewrite (Hall k Hk). destruct (He k) as [Hek _].
    by rewrite decide_True in Hek.
  - intros k e Hk Hek Hs. destruct (He k) as [Hek' _].
    rewrite decide_True in Hek' by done. unfold entry_status in Hek'.
    rewrite Hek in Hek'. simpl in Hek'. destruct Hs; congruence.
Qed.

Lemma str_or_empty o d : str_or o "" = "" → str_or o d = d.
Proof. unfold str_or. destruct o as [s|]; [|done]. by case_decide. Qed.

Lemma report_ok finalState w w' :
  report finalState w = (Ok tt, w') →
  failed finalState = None ∧
  (∀ k, statuses finalState !! k ≠ Some FAILED) ∧
  ∀ k, node_entry w' k = node_entry w k.
Proof.
  unfold report. destruct (failed finalState) as [f|].
  { destruct (complete_ended Run_failed w) as (w1 & H & _).
    by rewrite (bind_ok _ _ _ _ _ H). }
  destruct (fst <$> _) as [|n l] eqn:E.
  - intros H. split; [done|]. split.
    + intros k Hk. apply fmap_nil_inv in E.
      assert ((k, FAILED) ∈ filter (fun e : string * NodeStatus => bool_decide (e.2 = FAILED))
                                   (map_to_list (statuses finalState))) as Hin.
      { apply list_elem_of_filter. split; [by apply Is_true_true, bool_decide_eq_true_2|].
        by apply elem_of_map_to_list. }
      rewrite E in Hin. by apply elem_of_nil in Hin.
    + intros k. unfold complete, bind, modify, save in H. by injection H as <-.
  - destruct (complete_ended Run_failed w) as (w1 & H & _).
    by rewrite (bind_ok _ _ _ _ _ H).
Qed.

(** A new run that returns has run every node of the workflow to the end:
    [run.json] shows each of them as SUCCESS or CACHED, with its output.
    (The node ids are distinct, and no checkpoint is stored yet under the
    thread id of the run.) *)
Theorem new_run_success (env : Env) (wf : WorkflowDefinition) (fuel : nat)
    (checkpointer : bool) (ctx_threadId : option string) (w w' : World) :
  NoDup (node_ids wf) →
  str_or ctx_threadId "" = "" →
  (checkpointer = true → w_checkpoints w !! getThreadId (w_store w) = None) →
  WorkflowRuntime_run env wf fuel checkpointer ctx_threadId w = (Ok tt, w') →
  ∀ k, k ∈ node_ids wf →
    ∃ e, node_entry w' k = Some e ∧
         (nm_status e = SUCCESS ∨ nm_status e = CACHED) ∧ is_Some (nm_output e).
Proof.
  intros Hnd Hnew Hcp Hrun k Hk.
  destruct (buildGraphFromWorkflow env wf) as [names|e|] eqn:Hbuild.
  2:{ by rewrite (WorkflowRuntime_run_refused _ _ _ _ _ _ _ Hbuild) in Hrun. }
  2:{ by destruct (buildGraph_settles env wf). }
  rewrite (WorkflowRuntime_run_built _ _ _ _ _ _ _ Hbuild) in Hrun. cbv zeta in Hrun.
  rewrite (str_or_empty _ (getThreadId (w_store w)) Hnew), Hnew in Hrun.
  rewrite bool_decide_eq_false_2 in Hrun by auto. cbn [negb] in Hrun.
  destruct (fresh_state_inv wf w) as (st & w1 & Hfresh & Hinv & Hfailed & Hcps).
  rewrite bind_eq, (bind_ok _ _ _ _ _ Hfresh) in Hrun. cbn [ret] in Hrun.
  unfold try_catch in Hrun. rewrite bind_eq in Hrun.
  destruct (graph_invoke _ _ _ _ _ w1) as [[final|e|] w2] eqn:Einv.
  2:{ destruct (complete_ended Run_failed w2) as (w3 & H & _).
      by rewrite (bind_ok _ _ _ _ _ H) in Hrun. }
  2:{ done. }
  assert (report final w2 = (Ok tt, w')) as Hrep.
  { destruct (report final w2) as [[[]|e|] w3] eqn:Er; [done| |done].
    destruct (complete_ended Run_failed w3) as (w4 & H & _).
    by rewrite (bind_ok _ _ _ _ _ H) in Hrun. }
  apply report_ok in Hrep as (_ & Hnofail & Hsame).
  unfold graph_invoke in Einv.
  rewrite (bind_ok _ _ _ _ _ (eq_refl : get_world w1 = (Ok w1, w1))) in Einv.
  assert ((t ← (if checkpointer then Some (getThreadId (w_store w)) else None);
           w_checkpoints w1 !! t) = None) as Hbase.
  { destruct checkpointer; [|done]. simpl. rewrite Hcps. by apply Hcp. }
  rewrite Hbase in Einv. cbn [default from_option] in Einv.
  assert (run_inv wf (apply_input (createInitialState ∅) st) w1) as Hinv0.
  { unfold run_inv, mirrors in *. by rewrite apply_input_fresh. }
  match type of Einv with context [checkpoint ?t ?s0] =>
    assert (∃ w0, checkpoint t s0 w1 = (Ok tt, w0) ∧ run_inv wf s0 w0)
      as (w0 & Hcheck & Hinv1)
  end.
  { destruct checkpointer; simpl; unfold modify; eexists; (split; [done|]); [|done].
    by apply run_inv_checkpoints. }
  rewrite (bind_ok _ _ _ _ _ Hcheck) in Einv. clear Hinv0. rename Hinv1 into Hinv0.
  destruct (graph_loop_run_inv _ _ _ _ _ _ _ _ Hnd Hinv0 Einv)
    as [(_ & _ & Hbl & Hmir & Hout) Hset].
  destruct (Hset k Hk) as (s & Hs & Hsettled).
  assert (s = SUCCESS ∨ s = CACHED) as Hdone.
  { destruct Hsettled as [? | [? | [-> | ->]]]; auto.
    - by apply Hnofail in Hs.
    - destruct Hbl as [k' Hk']; [eauto|]. by apply Hnofail in Hk'. }
  specialize (Hmir k Hk). rewrite Hs in Hmir. unfold entry_status in Hmir.
  rewrite <- Hsame in Hmir.
  destruct (node_entry w' k) as [e|] eqn:Ee; [|done]. injection Hmir as Hmir.
  exists e. split; [done|]. split; [by rewrite Hmir|].
  apply (Hout k e Hk); [by rewrite <- Hsame | by rewrite Hmir].
Qed.

(** ** What the executors leave in the cache *)

Section ExecutorCache.
Context (env : Env).

Lemma quiet_cache w w' : quiet w w' → w_cache w' = w_cache w.
Proof. by intros [? _]. Qed.

Lemma runExec_spawn_cache spec key w :
  let r := runExec_spawn env spec key w in
  match r.1 with
  | Ok out =>
      cached out = Some false ∧
      w_cache r.2 = if exec_caches spec then <[key := out]> (w_cache w) else w_cache w
  | _ => w_cache r.2 = w_cache w
  end.
Proof.
  cbv zeta. unfold runExec_spawn. rewrite bind_eq.
  pose proof (steps_do_spawn env quiet (command spec) (default [] (args spec))
                (default (process_cwd env) (exec_cwd spec))
                (process_env env ++ default [] (exec_env spec)) w) as Q1.
  destruct (do_spawn _ _ _ _ _ w) as [[child| |] w1]; cbn [fst snd] in *;
    [|by apply quiet_cache..].
  apply quiet_cache in Q1. rewrite bind_eq.
  pose proof (steps_await_exit quiet spec child w1) as Q2.
  destruct (await_exit spec child w1) as [[exitCode| |] w2]; cbn [fst snd] in *;
    apply quiet_cache in Q2; [|congruence..].
  case_decide; [simpl; congruence|]. rewrite bind_eq.
  pose proof (steps_collect_artifacts env quiet (produced_files spec) [] w2) as Q3.
  destruct (collect_artifacts env (produced_files spec) [] w2) as [[arts| |] w3];
    cbn [fst snd] in *; apply quiet_cache in Q3; [|congruence..].
  rewrite bind_eq.
  match goal with |- context [read_result env spec ?d] =>
    pose proof (steps_read_result env quiet spec d w3) as Q4;
    destruct (read_result env spec d w3) as [[res| |] w4]
  end; cbn [fst snd] in *; apply quiet_cache in Q4; [|congruence..].
  destruct (exec_caches spec); unfold bind, CacheStore_put, ret; simpl;
    (split; [done|congruence]).
Qed.

Lemma runExec_unfold spec w :
  runExec env spec w =
  if exec_caches spec then
    match w_cache w !! exec_key env spec with
    | Some h => (Ok (with_cache_metadata h (exec_key env spec)),
                 emit (EvCacheGet (exec_key env spec)) w)
    | None => runExec_spawn env spec (exec_key env spec)
                (emit (EvCacheGet (exec_key env spec)) w)
    end
  else runExec_spawn env spec (exec_key env spec) w.
Proof.
  unfold runExec. rewrite bind_eq. destruct (exec_caches spec); [|done].
  unfold CacheStore_get. by destruct (w_cache w !! _).
Qed.

Lemma runTask_unfold ag spec w :
  runTask env ag spec w =
  if task_caches spec then
    match w_cache w !! task_key env ag spec with
    | Some h => (Ok (with_cache_metadata h (task_key env ag spec)),
                 emit (EvCacheGet (task_key env ag spec)) w)
    | None => runTask_agent env ag spec (task_key env ag spec)
                (emit (EvCacheGet (task_key env ag spec)) w)
    end
  else runTask_agent env ag spec (task_key env ag spec) w.
Proof.
  unfold runTask. rewrite bind_eq. destruct (task_caches spec); [|done].
  unfold CacheStore_get. by destruct (w_cache w !! _).
Qed.

Lemma runTask_agent_cache ag spec key w :
  let r := runTask_agent env ag spec key w in
  match r.1 with
  | Ok out =>
      cached out = Some false ∧
      w_cache r.2 = if task_caches spec then <[key := out]> (w_cache w) else w_cache w
  | _ => w_cache r.2 = w_cache w
  end.
Proof.
  cbv zeta. unfold runTask_agent. rewrite bind_eq. unfold call_agent.
  destruct (agent_run ag _ _) as [res| |]; cbn [fst snd]; [|done..].
  destruct (task_caches spec); unfold bind, CacheStore_put, ret; simpl; done.
Qed.

Lemma runExec_cache spec w :
  let r := runExec env spec w in
  match r.1 with
  | Ok out =>
      w_cache r.2 = w_cache w ∨
      (cached out = Some false ∧ w_cache w !! exec_key env spec = None ∧
       w_cache r.2 = <[exec_key env spec := out]> (w_cache w))
  | _ => w_cache r.2 = w_cache w
  end.
Proof.
  cbv zeta. rewrite runExec_unfold.
  destruct (exec_caches spec) eqn:Hc.
  - destruct (w_cache w !! exec_key env spec) as [h|] eqn:Hk; [by left|].
    pose proof (runExec_spawn_cache spec (exec_key env spec)
                  (emit (EvCacheGet (exec_key env spec)) w)) as H.
    cbv zeta in H. rewrite Hc in H.
    destruct (runExec_spawn _ _ _ _) as [[out| |] w1]; cbn [fst snd] in *; [|done..].
    right. by destruct H.
  - pose proof (runExec_spawn_cache spec (exec_key env spec) w) as H.
    cbv zeta in H. rewrite Hc in H.
    destruct (runExec_spawn _ _ _ _) as [[out| |] w1]; cbn [fst snd] in *; [|done..].
    left. by destruct H.
Qed.

Lemma runTask_cache ag spec w :
  let r := runTask env ag spec w in
  match r.1 with
  | Ok out =>
      w_cache r.2 = w_cache w ∨
      (cached out = Some false ∧ w_cache w !! task_key env ag spec = None ∧
       w_cache r.2 = <[task_key env ag spec := out]> (w_cache w))
  | _ => w_cache r.2 = w_cache w
  end.
Proof.
  cbv zeta. rewrite runTask_unfold.
  destruct (task_caches spec) eqn:Hc.
  - destruct (w_cache w !! task_key env ag spec) as [h|] eqn:Hk; [by left|].
    pose proof (runTask_agent_cache ag spec (task_key env ag spec)
                  (emit (EvCacheGet (task_key env ag spec)) w)) as H.
    cbv zeta in H. rewrite Hc in H.
    destruct (runTask_agent _ _ _ _ _) as [[out| |] w1]; cbn [fst snd] in *; [|done..].
    right. by destruct H.
  - pose proof (runTask_agent_cache ag spec (task_key env ag spec) w) as H.
    cbv zeta in H. rewrite Hc in H.
    destruct (runTask_agent _ _ _ _ _) as [[out| |] w1]; cbn [fst snd] in *; [|done..].
    left. by destruct H.
Qed.

Lemma runTask_writes_back ag spec w out w' :
  task_caches spec = true →
  w_cache w !! task_key env ag spec = None →
  runTask env ag spec w = (Ok out, w') →
  w_cache w' = <[task_key env ag spec := out]> (w_cache w).
Proof.
  intros Hc Hk. rewrite runTask_unfold, Hc, Hk. intros Hrun.
  pose proof (runTask_agent_cache ag spec (task_key env ag spec)
                (emit (EvCacheGet (task_key env ag spec)) w)) as H.
  cbv zeta in H. rewrite Hrun, Hc in H. by destruct H.
Qed.

End ExecutorCache.

(** A command or a delegated task that fails (a non-zero exit, a timeout, a
    spawn error, a missing file, an agent that throws) or never settles
    leaves the cache as it was.  One that completes either leaves the cache
    as it was or adds the output it returns, under its own key, where there
    was no entry. *)
Theorem failures_not_cached (env : Env) :
  (∀ spec w,
     let r := runExec env spec w in
     match r.1 with
     | Ok out =>
         w_cache r.2 = w_cache w ∨
         (w_cache w !! exec_key env spec = None ∧
          w_cache r.2 = <[exec_key env spec := out]> (w_cache w))
     | _ => w_cache r.2 = w_cache w
     end) ∧
  (∀ ag spec w,
     let r := runTask env ag spec w in
     match r.1 with
     | Ok out =>
         w_cache r.2 = w_cache w ∨
         (w_cache w !! task_key env ag spec = None ∧
          w_cache r.2 = <[task_key env ag spec := out]> (w_cache w))
     | _ => w_cache r.2 = w_cache w
     end).
Proof.
  split.
  - intros spec w. pose proof (runExec_cache env spec w) as H. cbv zeta in *.
    destruct (runExec env spec w).1; [|done..]. naive_solver.
  - intros ag spec w. pose proof (runTask_cache env ag spec w) as H. cbv zeta in *.
    destruct (runTask env ag spec w).1; [|done..]. naive_solver.
Qed.

Lemma exec_key_same (env : Env) (a b : ExecNode) :
  same_command env a b → exec_key env a = exec_key env b.
Proof.
  intros (H1 & H2 & H3 & H4 & H5). unfold exec_key. by rewrite H1, H2, H3, H4, H5.
Qed.

Lemma task_key_same (env : Env) (ag : Agent) (a b : TaskNode) :
  same_request a b → task_key env ag a = task_key env ag b.
Proof. intros (H1 & H2 & H3). unfold task_key. by rewrite H1, H2, H3. Qed.

(** Once a caching command or task has completed, the cache holds what it
    returned under its key. *)
Lemma runExec_fills (env : Env) spec w out w1 :
  exec_caches spec = true →
  runExec env spec w = (Ok out, w1) →
  ∃ h, w_cache w1 !! exec_key env spec = Some h ∧ payload h = payload out.
Proof.
  intros Hc Hrun. destruct (w_cache w !! exec_key env spec) as [h|] eqn:Hk.
  - rewrite (runExec_hit env spec w h Hc Hk) in Hrun. injection Hrun as <- <-.
    exists h. by split.
  - destruct (runExec_writes_back env spec w out w1 Hc Hk Hrun) as (-> & _).
    exists out. split; [apply lookup_insert_eq|done].
Qed.

Lemma runTask_fills (env : Env) ag spec w out w1 :
  task_caches spec = true →
  runTask env ag spec w = (Ok out, w1) →
  ∃ h, w_cache w1 !! task_key env ag spec = Some h ∧ payload h = payload out.
Proof.
  intros Hc Hrun. destruct (w_cache w !! task_key env ag spec) as [h|] eqn:Hk.
  - rewrite (runTask_hit env ag spec w h Hc Hk) in Hrun. injection Hrun as <- <-.
    exists h. by split.
  - rewrite (runTask_writes_back env ag spec w out w1 Hc Hk Hrun).
    exists out. split; [apply lookup_insert_eq|done].
Qed.


(** ** A command that exits with 0 *)

Section ExecCompletes.
Context (env : Env).

Lemma collect_artifacts_spec fs acc w :
  collect_artifacts env fs acc w =
  match missing_files env (w_trace w) fs with
  | f :: _ => (Throw ("Expected file " +:+ f +:+ " was not produced"), w)
  | [] => (Ok (acc ++ (path_resolve env <$> fs))%list, w)
  end.
Proof.
  unfold missing_files. revert acc. induction fs as [|f fs IH]; intros acc.
  { simpl. by rewrite app_nil_r. }
  cbn [collect_artifacts]. rewrite bind_eq. cbn [get_world].
  rewrite filter_cons.
  destruct (fs_access env (w_trace w) (path_resolve env f)) eqn:E.
  - rewrite decide_False by done. rewrite IH.
    destruct (filter _ fs); [|done]. by rewrite fmap_cons, <- app_assoc.
  - by rewrite decide_True by done.
Qed.

Lemma await_exit_closes spec after code out err w :
  (∀ d, exec_timer spec = Some d → (after ≤ d)%N) →
  await_exit spec (ProcClose after code out err) w
  = (Ok (default (-1) code), set_clock (w_clock w + after)%N w).
Proof.
  intros Htimer. unfold await_exit.
  destruct (exec_timer spec) as [d|] eqn:Ed; [|done].
  specialize (Htimer d eq_refl).
  by assert ((d <? after)%N = false) as -> by (apply N.ltb_ge; lia).
Qed.

End ExecCompletes.

(** [trim] on white space beyond ASCII: the no-break space, the line
    separator and the byte order mark go, at both ends, with the ASCII
    white space between them; white space inside stays; a letter whose
    encoding has two bytes and the zero width space, which is not white
    space, stay. *)
Lemma trim_white_space :
  trim (nbsp +:+ "hi" +:+ nbsp) = "hi" ∧
  trim (byte_order_mark +:+ " " +:+ line_separator +:+ "a" +:+ nbsp +:+ "b"
        +:+ line_separator +:+ " " +:+ nbsp)
  = "a" +:+ nbsp +:+ "b" ∧
  trim (" " +:+ e_acute +:+ " ") = e_acute ∧
  trim (zero_width_space +:+ "x" +:+ zero_width_space)
  = zero_width_space +:+ "x" +:+ zero_width_space ∧
  trim (nbsp +:+ line_separator) = "".
Proof. by vm_compute. Qed.

(** A command that misses the cache and closes with exit code 0 before any
    timer fires: if one of the files it declares is not there, it fails
    with the first of them in the error; if they all are and no result file
    is declared, its result is the trimmed stdout and stderr with exit code
    0, and its artifacts are the resolved paths of the declared files, in
    their order; with a result file that is read, the result is what
    [JSON.parse] makes of its text, and the command fails with the error of
    [JSON.parse] when the text does not parse. *)
Theorem exec_completes (env : Env) (spec : ExecNode) (w : World)
    (after : N) (out err : string) :
  cache_misses env spec w →
  child_of env spec w = ProcClose after (Some 0) out err →
  (∀ d, exec_timer spec = Some d → (after ≤ d)%N) →
  let tr := w_trace (spawned env spec w) in
  let output res :=
    {| result := res; artifacts := path_resolve env <$> produced_files spec;
       logs := None; hash := Some (exec_key env spec); cached := Some false |} in
  match missing_files env tr (produced_files spec) with
  | f :: _ =>
      (runExec env spec w).1 = Throw ("Expected file " +:+ f +:+ " was not produced")
  | [] =>
      match result_file spec with
      | None =>
          (runExec env spec w).1
          = Ok (output (JObj [("stdout", JStr (trim out)); ("stderr", JStr (trim err));
                              ("exitCode", JNum 0)]))
      | Some file =>
          ∀ text,
            fs_readFile env tr (path_resolve env file) = Ok text →
            (runExec env spec w).1
            = match JSON_parse env text with
              | Ok v => Ok (output v)
              | Throw error => Throw error
              | Hang => Hang
              end
      end
  end.
Proof.
  intros Hmiss Hchild Htimer. cbv zeta.
  rewrite (runExec_miss env spec w Hmiss), Hchild.
  rewrite bind_eq, (await_exit_closes spec after (Some 0) out err _ Htimer).
  cbn [default]. rewrite decide_False by auto.
  rewrite bind_eq, collect_artifacts_spec. cbn [w_trace set_clock].
  destruct (missing_files env _ _) as [|f l]; [|done].
  rewrite bind_eq. unfold read_result.
  destruct (result_file spec) as [file|].
  - intros text Hread. rewrite bind_eq. cbn [get_world].
    rewrite bind_eq. unfold lift. cbn [w_trace set_clock]. rewrite Hread.
    destruct (JSON_parse env text) as [v|error|]; [|done..].
    cbn [ret]. rewrite bind_eq. by destruct (exec_caches spec).
  - cbn [ret child_stdout child_stderr]. rewrite bind_eq. by destruct (exec_caches spec).
Qed.

(** ** The execution plan *)

Section PlanFacts.
Context (wf : WorkflowDefinition).

Lemma plan_nodeDeps_lookup node :
  NoDup (node_ids wf) → node ∈ nodes wf →
  Plan.nodeDeps wf !! node_id node = Some (node_deps node).
Proof. apply nodeDeps_lookup. Qed.

Lemma in_level_iff processed node :
  Is_true (Plan.in_level wf processed node) ↔
  ((node_id node ∉ processed) ∧
   (∀ dep, dep ∈ default [] (Plan.nodeDeps wf !! node_id node) → dep ∈ processed)).
Proof.
  unfold Plan.in_level. case_decide as Hp.
  - split; [done|]. by intros [Hn _].
  - split.
    + intros H. apply Is_true_true in H. rewrite forallb_forall in H.
      split; [done|]. intros dep Hd.
      apply list_elem_of_In in Hd. specialize (H dep Hd).
      by apply bool_decide_eq_true_1 in H.
    + intros [_ H]. apply Is_true_true, forallb_forall. intros dep Hd.
      apply bool_decide_eq_true_2, H. by apply list_elem_of_In.
Qed.

Lemma elem_of_current_level processed k :
  k ∈ Plan.current_level wf processed ↔
  ∃ node, node ∈ nodes wf ∧ node_id node = k ∧ Plan.in_level wf processed node.
Proof.
  unfold Plan.current_level. rewrite list_elem_of_fmap. split.
  - intros (n & -> & Hin). apply list_elem_of_filter in Hin as [? ?]. eauto.
  - intros (n & Hin & <- & Hp). exists n. split; [done|]. by apply list_elem_of_filter.
Qed.

Lemma current_level_ids processed k :
  k ∈ Plan.current_level wf processed → k ∈ node_ids wf ∧ k ∉ processed.
Proof.
  intros (n & Hin & <- & Hl)%elem_of_current_level. split.
  - by apply list_elem_of_fmap_2.
  - by apply in_level_iff in Hl as [? _].
Qed.

Lemma levels_loop_chain fuel levels processed ls :
  Plan.levels_loop wf fuel levels processed = Some ls →
  ∃ more, ls = (levels ++ more)%list ∧ plan_chain wf processed more ∧
          let final := processed ∪ list_to_set (concat more) in
          ¬ (size final < length (nodes wf))%nat ∨ Plan.current_level wf final = [].
Proof.
  revert levels processed. induction fuel as [|fuel IH]; intros levels processed; [done|].
  simpl. case_decide as Hsize.
  - case_decide as Hlen.
    + intros [= <-]. exists []. rewrite app_nil_r. split; [done|].
      split; [constructor|]. simpl. right.
      assert (processed ∪ ∅ = processed) as -> by set_solver.
      by apply length_zero_iff_nil.
    + intros (more & -> & Hchain & Hend)%IH.
      exists (Plan.current_level wf processed :: more).
      split; [by rewrite <- app_assoc|]. split.
      * constructor; [done| |done]. intros E. by rewrite E in Hlen.
      * simpl in *. rewrite list_to_set_app_L.
        by assert (processed ∪ (list_to_set (Plan.current_level wf processed)
                                ∪ list_to_set (concat more))
                   = processed ∪ list_to_set (Plan.current_level wf processed)
                     ∪ list_to_set (concat more)) as -> by set_solver.
  - intros [= <-]. exists []. rewrite app_nil_r. split; [done|].
    split; [constructor|]. simpl. left.
    by assert (processed ∪ ∅ = processed) as -> by set_solver.
Qed.

Lemma plan_chain_level processed more i level :
  plan_chain wf processed more → more !! i = Some level →
  level = Plan.current_level wf (processed ∪ list_to_set (concat (take i more))) ∧
  level ≠ [].
Proof.
  intros Hchain. revert i. induction Hchain as [|processed l rest -> Hne Hchain IH];
    intros i Hi; [done|].
  destruct i as [|i]; simpl in *.
  - injection Hi as <-. split; [|done]. f_equal. set_solver.
  - destruct (IH i Hi) as [-> ?]. split; [|done]. f_equal.
    rewrite list_to_set_app_L. set_solver.
Qed.

Lemma elem_of_concat (ls : list (list string)) k :
  k ∈ concat ls ↔ ∃ l, k ∈ l ∧ l ∈ ls.
Proof.
  induction ls as [|l ls IH]; simpl.
  - split; [by intros ?%elem_of_nil | by intros (l & _ & ?%elem_of_nil)].
  - rewrite elem_of_app, IH. split.
    + intros [H | (l' & H1 & H2)].
      * exists l. split; [done | apply list_elem_of_here].
      * exists l'. split; [done | by apply list_elem_of_further].
    + intros (l' & H1 & [-> | H2]%elem_of_cons); [by left | right; eauto].
Qed.

Lemma elem_of_concat_take (ls : list (list string)) i k :
  k ∈ concat (take i ls) ↔ planned_before ls i k.
Proof.
  unfold planned_before. rewrite elem_of_concat. split.
  - intros (l & Hk & Hl). apply list_elem_of_lookup in Hl as [j Hj].
    apply lookup_take_Some in Hj as [Hj Hlt]. eauto.
  - intros (j & l & Hlt & Hj & Hk). exists l. split; [done|].
    apply list_elem_of_lookup. exists j. by apply lookup_take_Some.
Qed.

Lemma elem_of_concat_planned (ls : list (list string)) k :
  k ∈ concat ls ↔ planned ls k.
Proof.
  unfold planned. rewrite elem_of_concat. split.
  - intros (l & Hk & Hl). apply list_elem_of_lookup in Hl as [j Hj]. eauto.
  - intros (j & l & Hj & Hk). exists l. split; [done|].
    apply list_elem_of_lookup. eauto.
Qed.

Lemma plan_chain_ids processed more k :
  plan_chain wf processed more → k ∈ concat more → k ∈ node_ids wf.
Proof.
  intros Hchain. induction Hchain as [|processed l rest -> Hne Hchain IH]; simpl.
  - by intros ?%elem_of_nil.
  - intros [Hk|Hk]%elem_of_app; [|by apply IH].
    by apply current_level_ids in Hk as [? _].
Qed.

Lemma plan_chain_size processed more :
  plan_chain wf processed more →
  (size processed + length more ≤ size (processed ∪ list_to_set (concat more)))%nat.
Proof.
  intros Hchain. induction Hchain as [|processed l rest -> Hne Hchain IH]; simpl.
  - assert (processed ∪ ∅ = processed) as -> by set_solver. lia.
  - rewrite list_to_set_app_L.
    assert (processed ∪ (list_to_set (Plan.current_level wf processed)
                         ∪ list_to_set (concat rest))
            = processed ∪ list_to_set (Plan.current_level wf processed)
              ∪ list_to_set (concat rest)) as -> by set_solver.
    etrans; [|exact IH].
    destruct (Plan.current_level wf processed) as [|k l] eqn:E; [done|].
    assert (k ∉ processed) as Hk.
    { apply (current_level_ids processed k). rewrite E. apply list_elem_of_here. }
    assert (size (processed ∪ {[k]}) ≤ size (processed ∪ list_to_set (k :: l)))%nat as Hle.
    { apply subseteq_size. set_solver. }
    rewrite size_union in Hle by set_solver. rewrite size_singleton in Hle. lia.
Qed.

Lemma ids_size (X : gset string) :
  (∀ k, k ∈ X → k ∈ node_ids wf) → (size X ≤ length (nodes wf))%nat.
Proof.
  intros H. assert (X ⊆ list_to_set (node_ids wf)) as Hsub by set_solver.
  apply subseteq_size in Hsub. etrans; [exact Hsub|].
  unfold node_ids. rewrite <- (length_fmap node_id (nodes wf)).
  generalize (node_id <$> nodes wf). clear. intros l.
  induction l as [|a l IH]; [rewrite list_to_set_nil, size_empty; simpl; lia|].
  rewrite list_to_set_cons. cbn [length].
  destruct (decide (a ∈ (list_to_set l : gset string))).
  - assert ({[a]} ∪ list_to_set l = (list_to_set l : gset string)) as -> by set_solver. lia.
  - rewrite size_union by set_solver. rewrite size_singleton. lia.
Qed.

Lemma ids_size_lt (X : gset string) k :
  (∀ k, k ∈ X → k ∈ node_ids wf) → k ∈ node_ids wf → k ∉ X →
  (size X < length (nodes wf))%nat.
Proof.
  intros H Hk Hn.
  assert (size (X ∪ {[k]}) ≤ length (nodes wf))%nat as Hle.
  { apply ids_size. intros k' [? | Hk']%elem_of_union; [auto|].
    by apply elem_of_singleton in Hk' as ->. }
  rewrite size_union in Hle by set_solver. rewrite size_singleton in Hle. lia.
Qed.

Lemma levels_loop_total fuel levels processed :
  (∀ k, k ∈ processed → k ∈ node_ids wf) →
  (length (nodes wf) - size processed < fuel)%nat →
  is_Some (Plan.levels_loop wf fuel levels processed).
Proof.
  revert levels processed. induction fuel as [|fuel IH]; intros levels processed Hsub Hfuel;
    [lia|].
  simpl. case_decide as Hsize; [|by eexists].
  case_decide as Hlen; [by eexists|].
  destruct (Plan.current_level wf processed) as [|k l] eqn:E; [done|].
  assert (k ∈ node_ids wf ∧ k ∉ processed) as [Hk Hn].
  { apply current_level_ids. rewrite E. apply list_elem_of_here. }
  apply IH.
  - intros k' [?|Hk']%elem_of_union; [auto|].
    apply elem_of_list_to_set in Hk'. rewrite <- E in Hk'.
    by apply current_level_ids in Hk' as [? _].
  - assert (size (processed ∪ {[k]}) ≤ size (processed ∪ list_to_set (k :: l)))%nat as Hle.
    { apply subseteq_size. set_solver. }
    rewrite size_union in Hle by set_solver. rewrite size_singleton in Hle. lia.
Qed.

Lemma levels_loop_more fuel fuel' levels processed ls :
  Plan.levels_loop wf fuel levels processed = Some ls → (fuel ≤ fuel')%nat →
  Plan.levels_loop wf fuel' levels processed = Some ls.
Proof.
  revert fuel' levels processed. induction fuel as [|fuel IH];
    intros fuel' levels processed; [done|].
  intros H Hle. destruct fuel' as [|fuel']; [lia|]. simpl in *.
  case_decide; [|done]. case_decide; [done|]. apply IH; [done | lia].
Qed.

End PlanFacts.

Lemma filter_ext_in {A} (P Q : A → Prop) `{!∀ x, Decision (P x)} `{!∀ x, Decision (Q x)}
    (l : list A) :
  (∀ x, x ∈ l → P x ↔ Q x) → filter P l = filter Q l.
Proof.
  induction l as [|a l IH]; intros Hext; [done|].
  rewrite !filter_cons.
  assert (filter P l = filter Q l) as ->.
  { apply IH. intros x Hx. apply Hext. by apply list_elem_of_further. }
  pose proof (Hext a (list_elem_of_here _ _)) as Ha.
  destruct (decide (P a)); destruct (decide (Q a)); tauto.
Qed.

(** The loop of the plan ends, after at most one more round than there are
    nodes: with any larger bound it gives the same levels.  There are at
    most as many levels as nodes, no level is empty, and no id is in two
    levels. *)
Theorem plan_terminates (wf : WorkflowDefinition) :
  ∃ ls, (∀ fuel, (length (nodes wf) < fuel)%nat → Plan.plan_levels wf fuel = Some ls) ∧
        (length ls ≤ length (nodes wf))%nat ∧
        Forall (fun level => level ≠ []) ls ∧
        (∀ i j li lj k, ls !! i = Some li → ls !! j = Some lj →
                        k ∈ li → k ∈ lj → i = j).
Proof.
  destruct (levels_loop_total wf (S (length (nodes wf))) [] ∅) as [ls Hls].
  { by intros k ?%elem_of_empty. }
  { rewrite size_empty. lia. }
  exists ls. split.
  { intros fuel Hfuel. apply (levels_loop_more wf _ _ _ _ _ Hls). lia. }
  destruct (levels_loop_chain wf _ _ _ _ Hls) as (more & -> & Hchain & _).
  simpl. split_and!.
  - pose proof (plan_chain_size wf ∅ more Hchain) as Hsize.
    rewrite size_empty in Hsize.
    assert (size (∅ ∪ list_to_set (concat more) : gset string) ≤ length (nodes wf))%nat.
    { apply ids_size. intros k Hk. apply (plan_chain_ids wf ∅ more k Hchain).
      set_solver. }
    lia.
  - apply Forall_lookup. intros i level Hi.
    by destruct (plan_chain_level wf ∅ more i level Hchain Hi).
  - assert (∀ i j li lj k, (i < j)%nat → more !! i = Some li → more !! j = Some lj →
              k ∈ li → k ∈ lj → False) as Hlt.
    { intros i j li lj k Hij Hi Hj Hki Hkj.
      destruct (plan_chain_level wf ∅ more j lj Hchain Hj) as [-> _].
      apply current_level_ids in Hkj as [_ Hn]. apply Hn.
      apply elem_of_union. right. apply elem_of_list_to_set, elem_of_concat_take.
      exists i, li. done. }
    intros i j li lj k Hi Hj Hki Hkj.
    destruct (Nat.lt_trichotomy i j) as [H | [H | H]]; [|done|].
    + destruct (Hlt i j li lj k H Hi Hj Hki Hkj).
    + destruct (Hlt j i lj li k H Hj Hi Hkj Hki).
Qed.

(** The levels of the plan respect the dependencies, and leave out only
    what cannot run: every dependency of a node of a level is in an earlier
    level; a node that is in no level has a dependency that is in no level
    (it is on a cycle, or behind one, or behind an id that is not a node);
    and only ids of nodes are planned. *)
Theorem plan_order (wf : WorkflowDefinition) (fuel : nat) (ls : list (list string)) :
  NoDup (node_ids wf) →
  Plan.plan_levels wf fuel = Some ls →
  (∀ i level node, ls !! i = Some level → node ∈ nodes wf → node_id node ∈ level →
     ∀ dep, dep ∈ node_deps node → planned_before ls i dep) ∧
  (∀ node, node ∈ nodes wf → ¬ planned ls (node_id node) →
     ∃ dep, dep ∈ node_deps node ∧ ¬ planned ls dep) ∧
  (∀ k, planned ls k → k ∈ node_ids wf).
Proof.
  intros Hnd Hls.
  destruct (levels_loop_chain wf _ _ _ _ Hls) as (more & -> & Hchain & Hend).
  simpl in *. split_and!.
  - intros i level node Hi Hnode Hk dep Hdep.
    destruct (plan_chain_level wf ∅ more i level Hchain Hi) as [-> _].
    apply elem_of_current_level in Hk as (n & Hn & Hid & Hl).
    assert (n = node) as -> by (by apply (node_id_inj wf)).
    apply in_level_iff in Hl as [_ Hdeps].
    rewrite (plan_nodeDeps_lookup wf node Hnd Hnode) in Hdeps. simpl in Hdeps.
    specialize (Hdeps dep Hdep). apply elem_of_concat_take. set_solver.
  - intros node Hnode Hnot.
    set (final := (∅ ∪ list_to_set (concat more) : gset string)) in *.
    assert (∀ k, k ∈ final ↔ planned more k) as Hfinal.
    { intros k. unfold final. rewrite <- elem_of_concat_planned. set_solver. }
    assert (node_id node ∉ final) as Hn by (by rewrite Hfinal).
    destruct Hend as [Hsize | Hempty].
    + exfalso. apply Hsize. apply (ids_size_lt wf final (node_id node)); [| |done].
      * intros k Hk. apply (plan_chain_ids wf ∅ more k Hchain). unfold final in Hk.
        set_solver.
      * by apply list_elem_of_fmap_2.
    + destruct (decide (Is_true (Plan.in_level wf final node))) as [Hl|Hl].
      * exfalso.
        assert (node_id node ∈ Plan.current_level wf final) as Hin.
        { apply elem_of_current_level. eauto. }
        rewrite Hempty in Hin. by apply elem_of_nil in Hin.
      * rewrite in_level_iff in Hl.
        rewrite (plan_nodeDeps_lookup wf node Hnd Hnode) in Hl. simpl in Hl.
        destruct (decide (Forall (fun dep => dep ∈ final) (node_deps node))) as [Hall|Hex].
        { exfalso. apply Hl. split; [done|]. by apply Forall_forall. }
        apply not_Forall_Exists in Hex; [|apply _].
        apply Exists_exists in Hex as (dep & Hdep & Hdn).
        exists dep. split; [done|]. by rewrite <- Hfinal.
  - intros k Hk. apply elem_of_concat_planned in Hk.
    by apply (plan_chain_ids wf ∅ more k Hchain).
Qed.

(** The plan previews the run: the level the plan computes from a set of
    processed nodes is the frontier the router of the graph computes once
    exactly those nodes have completed (SUCCESS or CACHED) and the others
    are still pending. *)
Theorem plan_level_frontier (wf : WorkflowDefinition) (processed : gset string)
    (sts : gmap string NodeStatus) :
  NoDup (node_ids wf) →
  (∀ k, k ∈ processed ↔ dep_complete sts k) →
  (∀ node, node ∈ nodes wf → node_id node ∉ processed → open_status sts (node_id node)) →
  Plan.current_level wf processed = router_ready wf sts.
Proof.
  intros Hnd Hdone Hopen. unfold Plan.current_level, router_ready. f_equal.
  apply filter_ext_in. intros node Hnode.
  rewrite in_level_iff, pushes_iff.
  rewrite (plan_nodeDeps_lookup wf node Hnd Hnode). simpl. split.
  - intros [Hn Hdeps]. split; [by apply Hopen|].
    intros dep Hdep. by apply Hdone, Hdeps.
  - intros [Ho Hdeps]. split.
    + rewrite Hdone. unfold open_status, dep_complete in *.
      destruct Ho as [-> | ->]; by intros [? | ?].
    + intros dep Hdep. by apply Hdone, Hdeps.
Qed.

(** ** The first graph builder *)

Section BuilderFacts.
Context (wf : WorkflowDefinition).

Lemma elem_of_start_edges a b :
  (a, b) ∈ Builder.start_edges wf ↔
  a = "__start__" ∧ ∃ n, n ∈ nodes wf ∧ node_id n = b ∧ node_deps n = [].
Proof.
  unfold Builder.start_edges. rewrite list_elem_of_fmap. split.
  - intros (n & [= -> ->] & Hn). apply list_elem_of_filter in Hn as [Hd Hn]. eauto.
  - intros (-> & n & Hn & <- & Hd). exists n. split; [done|]. by apply list_elem_of_filter.
Qed.

Lemma elem_of_dep_edges a b :
  (a, b) ∈ Builder.dep_edges wf ↔ ∃ n, n ∈ nodes wf ∧ node_id n = b ∧ a ∈ node_deps n.
Proof.
  unfold Builder.dep_edges. rewrite list_elem_of_bind. split.
  - intros (n & He & Hn). apply list_elem_of_fmap in He as (d & [= -> ->] & Hd). eauto.
  - intros (n & Hn & <- & Hd). exists n. split; [|done]. apply list_elem_of_fmap. eauto.
Qed.

Lemma elem_of_nodesDependedOn a :
  a ∈ Builder.nodesDependedOn wf ↔ ∃ m, m ∈ nodes wf ∧ a ∈ node_deps m.
Proof.
  unfold Builder.nodesDependedOn. rewrite elem_of_list_to_set, list_elem_of_bind.
  naive_solver.
Qed.

Lemma elem_of_end_edges a b :
  (a, b) ∈ Builder.end_edges wf ↔
  b = "__end__" ∧ ∃ n, n ∈ nodes wf ∧ node_id n = a ∧ ∀ m, m ∈ nodes wf → a ∉ node_deps m.
Proof.
  unfold Builder.end_edges. rewrite list_elem_of_fmap. split.
  - intros (n & [= -> ->] & Hn). apply list_elem_of_filter in Hn as [Hd Hn].
    split; [done|]. exists n. split_and!; [done..|].
    intros m Hm Hin. apply Hd, elem_of_nodesDependedOn. eauto.
  - intros (-> & n & Hn & <- & Hd). exists n. split; [done|].
    apply list_elem_of_filter. split; [|done].
    intros (m & Hm & Hin)%elem_of_nodesDependedOn. by apply (Hd m).
Qed.

End BuilderFacts.

(** The edges the first builder draws are the dependencies: an edge from
    the start to every node without dependencies, an edge from every
    dependency to its dependent, an edge to the end from every node nothing
    depends on, and no other edge.  So every node has an edge coming in and
    an edge going out. *)
Theorem builder_edges_connect (wf : WorkflowDefinition) :
  (∀ a b, (a, b) ∈ Builder.edges wf ↔
     (a = "__start__" ∧ ∃ n, n ∈ nodes wf ∧ node_id n = b ∧ node_deps n = []) ∨
     (∃ n, n ∈ nodes wf ∧ node_id n = b ∧ a ∈ node_deps n) ∨
     (b = "__end__" ∧ ∃ n, n ∈ nodes wf ∧ node_id n = a ∧
                        ∀ m, m ∈ nodes wf → a ∉ node_deps m)) ∧
  (∀ n, n ∈ nodes wf →
     (∃ a, (a, node_id n) ∈ Builder.edges wf) ∧
     (∃ b, (node_id n, b) ∈ Builder.edges wf)).
Proof.
  assert (∀ a b, (a, b) ∈ Builder.edges wf ↔
     (a = "__start__" ∧ ∃ n, n ∈ nodes wf ∧ node_id n = b ∧ node_deps n = []) ∨
     (∃ n, n ∈ nodes wf ∧ node_id n = b ∧ a ∈ node_deps n) ∨
     (b = "__end__" ∧ ∃ n, n ∈ nodes wf ∧ node_id n = a ∧
                        ∀ m, m ∈ nodes wf → a ∉ node_deps m)) as Hchar.
  { intros a b. unfold Builder.edges.
    by rewrite !elem_of_app, elem_of_start_edges, elem_of_dep_edges, elem_of_end_edges. }
  split; [done|]. intros n Hn. split.
  - destruct (node_deps n) as [|d ds] eqn:Hd.
    + exists "__start__". apply Hchar. left. eauto.
    + exists d. apply Hchar. right. left. exists n. split_and!; [done..|].
      rewrite Hd. apply list_elem_of_here.
  - destruct (decide (node_id n ∈ Builder.nodesDependedOn wf)) as [Hdep|Hdep].
    + apply elem_of_nodesDependedOn in Hdep as (m & Hm & Hin).
      exists (node_id m). apply Hchar. right. left. eauto.
    + exists "__end__". apply Hchar. right. right. split; [done|].
      exists n. split_and!; [done..|]. intros m Hm Hin.
      apply Hdep, elem_of_nodesDependedOn. eauto.
Qed.

Lemma mermaid_lines_perm (ns : list NodeDefinition) :
  (ns ≫= Mermaid.edge_lines_of) ≡ₚ
  (((fun e : string * string => "  START --> " +:+ e.2)
      <$> ((fun n => ("__start__", node_id n)) <$> filter (fun n => node_deps n = []) ns))
   ++ ((fun e : string * string => "  " +:+ e.1 +:+ " --> " +:+ e.2)
         <$> (ns ≫= fun n => (fun depId => (depId, node_id n)) <$> node_deps n)))%list.
Proof.
  induction ns as [|n ns IH]; [done|].
  rewrite !bind_cons, filter_cons, IH. unfold Mermaid.edge_lines_of.
  destruct (node_deps n) as [|d ds] eqn:Hd.
  - rewrite decide_True by done. rewrite decide_True by done. done.
  - rewrite decide_False by done. rewrite decide_False by done.
    rewrite fmap_app, <- (list_fmap_compose _ _ (d :: ds)).
    rewrite !app_assoc. apply Permutation_app; [|done].
    apply Permutation_app_comm.
Qed.

Lemma mermaid_dependents (ns : list NodeDefinition) :
  (ns ≫= fun n => if decide (length (node_deps n) = 0%nat) then [] else node_deps n)
  = ns ≫= node_deps.
Proof.
  induction ns as [|n ns IH]; [done|]. rewrite !bind_cons, IH.
  by destruct (node_deps n).
Qed.

(** The Mermaid diagram draws one arrow for every edge of the first
    builder and no other arrow: its arrows are the builder's edges, in
    another order. *)
Theorem mermaid_edges_match (wf : WorkflowDefinition) :
  Mermaid.edge_lines wf ≡ₚ
  (((fun e : string * string => "  START --> " +:+ e.2) <$> Builder.start_edges wf)
   ++ ((fun e : string * string => "  " +:+ e.1 +:+ " --> " +:+ e.2)
         <$> Builder.dep_edges wf)
   ++ ((fun e : string * string => "  " +:+ e.1 +:+ " --> END")
         <$> Builder.end_edges wf))%list.
Proof.
  unfold Mermaid.edge_lines. rewrite app_assoc. apply Permutation_app.
  - apply mermaid_lines_perm.
  - unfold Builder.end_edges. rewrite <- list_fmap_compose.
    unfold Mermaid.nodesWithDependents, Builder.nodesDependedOn.
    by rewrite mermaid_dependents.
Qed.

Lemma bind_assoc {A B C} (m : M A) (f : A → M B) (g : B → M C) w :
  (let* b := (let* a := m in f a) in g b) w = (let* a := m in let* b := f a in g b) w.
Proof. unfold bind. by destruct (m w) as [[a| |] w1]. Qed.

(** The three ways the builder's handler ends on a command or task node. *)
Lemma builder_nodeHandler_cases env node state w :
  kind_name node = "exec" ∨ kind_name node = "task" →
  let nodeId := node_id node in
  let w1 := (setNodeStatus nodeId RUNNING w).2 in
  Builder.nodeHandler env node state w =
  match run_node env node state w1 with
  | (Ok output, w2) =>
      (Ok {| p_outputs := Some (<[nodeId := output]> (outputs state));
             p_statuses := Some (<[nodeId := final_status output]> (statuses state));
             p_next := None; p_failed := None |},
       (setNodeStatus nodeId (final_status output) (setNodeOutput nodeId output w2).2).2)
  | (Throw errorMsg, w2) =>
      (Ok {| p_outputs := None;
             p_statuses := Some (<[nodeId := FAILED]> (statuses state));
             p_next := None; p_failed := Some (Some (mkFailed nodeId errorMsg)) |},
       (setNodeStatus nodeId FAILED (setNodeError nodeId errorMsg w2).2).2)
  | (Hang, w2) => (Hang, w2)
  end.
Proof.
  intros Hkind. cbv zeta. unfold Builder.nodeHandler, try_catch.
  destruct (setNodeStatus_ok (node_id node) RUNNING w) as [w1 H1].
  rewrite (bind_ok _ _ _ _ _ H1), H1. cbn [snd].
  rewrite <- bind_assoc.
  assert (∀ w0, run_node env node state w0 =
            (let* resolvedNode :=
               lift (renderNode env {| tc_vars := vars state; tc_outputs := outputs state;
                                       tc_item := None |} node) in
             match resolvedNode with
             | NExec e => runExec env e
             | NTask taskNode =>
                 match agentRegistry env (agent taskNode) with
                 | None => throw ("Agent " +:+ agent taskNode +:+ " not found")
                 | Some ag => runTask env ag taskNode
                 end
             | other => throw ("Unsupported node kind: " +:+ kind_name other)
             end) w0) as Hsame.
  { intros w0. destruct node; simpl in Hkind; try done; naive_solver. }
  rewrite bind_eq, <- Hsame.
  destruct (run_node env node state w1) as [[output|error|] w2]; [| |done].
  - destruct (setNodeOutput_ok (node_id node) output w2) as [w3 H3].
    rewrite (bind_ok _ _ _ _ _ H3), H3. cbn [snd].
    destruct (setNodeStatus_ok (node_id node) (final_status output) w3) as [w4 H4].
    by rewrite (bind_ok _ _ _ _ _ H4), H4.
  - destruct (setNodeError_ok (node_id node) error w2) as [w3 H3].
    rewrite (bind_ok _ _ _ _ _ H3), H3. cbn [snd].
    destruct (setNodeStatus_ok (node_id node) FAILED w3) as [w4 H4].
    by rewrite (bind_ok _ _ _ _ _ H4), H4.
Qed.

(** On a command or a delegated-task node the handler of the first builder
    and the handler of the graph do the same: they leave the same world, and
    the state after the builder's update, whose channels keep the last
    value, is the state after the graph's update, whose channels merge.
    A fan-out or fan-in node, which the graph's handler runs, is failed by
    the builder's with [Unsupported node kind]. *)
Theorem builder_handler_agrees (env : Env) (node : NodeDefinition)
    (state : RunState) (w : World) :
  let r1 := Builder.nodeHandler env node state w in
  let r2 := createNodeHandler env node state w in
  ((kind_name node = "exec" ∨ kind_name node = "task") →
   r1.2 = r2.2 ∧
   match r1.1, r2.1 with
   | Ok u1, Ok u2 => Builder.apply_last state u1 = apply_update state u2
   | Hang, Hang => True
   | _, _ => False
   end) ∧
  (∀ node',
     renderNode env {| tc_vars := vars state; tc_outputs := outputs state;
                       tc_item := None |} node = Ok node' →
     kind_name node' = "map" ∨ kind_name node' = "reduce" →
     ∃ u, r1.1 = Ok u ∧
          p_statuses u = Some (<[node_id node := FAILED]> (statuses state)) ∧
          p_failed u = Some (Some (mkFailed (node_id node)
                                     ("Unsupported node kind: " +:+ kind_name node')))).
Proof.
  cbv zeta. split.
  - intros Hkind.
    rewrite createNodeHandler_cases, (builder_nodeHandler_cases env node state w Hkind).
    cbv zeta.
    destruct (run_node env node state _) as [[output|error|] w2]; cbn [fst snd]; [| |done].
    + split; [done|].
      unfold Builder.apply_last, apply_update, merge_right. simpl.
      by rewrite !insert_union_singleton_l.
    + split; [done|].
      unfold Builder.apply_last, apply_update, merge_right. simpl.
      by rewrite !insert_union_singleton_l.
  - intros node' Hrender Hkind.
    unfold Builder.nodeHandler, try_catch.
    destruct (setNodeStatus_ok (node_id node) RUNNING w) as [w1 H1].
    rewrite (bind_ok _ _ _ _ _ H1). rewrite bind_eq. unfold lift at 1.
    rewrite Hrender.
    assert (∀ w0 (k : NodeOutput → M PartialRunState),
              (let* output :=
                 match node' with
                 | NExec e => runExec env e
                 | NTask taskNode =>
                     match agentRegistry env (agent taskNode) with
                     | None => throw ("Agent " +:+ agent taskNode +:+ " not found")
                     | Some ag => runTask env ag taskNode
                     end
                 | other => throw ("Unsupported node kind: " +:+ kind_name other)
                 end in k output) w0
              = (Throw ("Unsupported node kind: " +:+ kind_name node'), w0)) as ->.
    { intros w0 k. destruct node'; simpl in Hkind; try done; naive_solver. }
    destruct (setNodeError_ok (node_id node)
                ("Unsupported node kind: " +:+ kind_name node') w1) as [w3 H3].
    rewrite (bind_ok _ _ _ _ _ H3).
    destruct (setNodeStatus_ok (node_id node) FAILED w3) as [w4 H4].
    rewrite (bind_ok _ _ _ _ _ H4). cbn [ret fst]. by eexists.
Qed.

(** ** The agents *)

Lemma map_set_get key a m nm :
  AgentRegistry.get nm (AgentRegistry.map_set key a m)
  = if decide (nm = key) then Some a else AgentRegistry.get nm m.
Proof.
  unfold AgentRegistry.get. induction m as [|[k b] m IH]; simpl.
  - case_decide as Hk.
    + by rewrite bool_decide_eq_true_2.
    + rewrite bool_decide_eq_false_2; [done | congruence].
  - destruct (decide (k = key)) as [->|Hne]; simpl.
    + case_decide as Hk.
      * by rewrite bool_decide_eq_true_2.
      * by rewrite !bool_decide_eq_false_2 by congruence.
    + destruct (decide (k = nm)) as [->|Hne'].
      * rewrite bool_decide_eq_true_2 by done. by rewrite decide_False.
      * rewrite bool_decide_eq_false_2 by done. apply IH.
Qed.

Lemma map_set_keys key a m :
  (AgentRegistry.map_set key a m).*1
  = if decide (key ∈ m.*1) then m.*1 else (m.*1 ++ [key])%list.
Proof.
  induction m as [|[k b] m IH]; [done|].
  cbn [AgentRegistry.map_set]. rewrite (fmap_cons fst (k, b) m). cbn [fst].
  destruct (decide (k = key)) as [->|Hne].
  - rewrite fmap_cons. by rewrite decide_True by apply list_elem_of_here.
  - rewrite fmap_cons, IH. cbn [fst]. destruct (decide (key ∈ m.*1)) as [Hin|Hin].
    + by rewrite decide_True by (by apply list_elem_of_further).
    + rewrite decide_False; [done|]. intros [?|?]%elem_of_cons; congruence.
Qed.

Lemma registry_get_has nm m :
  AgentRegistry.has nm m = true ↔ is_Some (AgentRegistry.get nm m).
Proof.
  unfold AgentRegistry.has, AgentRegistry.get. rewrite bool_decide_eq_true.
  induction m as [|[k b] m IH]; simpl.
  - split; [by intros ?%elem_of_nil | by intros [? ?]].
  - destruct (decide (k = nm)) as [->|Hne].
    + rewrite bool_decide_eq_true_2 by done. simpl. split; [by eexists|].
      intros _. apply list_elem_of_here.
    + rewrite bool_decide_eq_false_2 by done. rewrite <- IH.
      rewrite elem_of_cons. naive_solver.
Qed.

(** The registry is a map from names to agents.  [register] makes [get]
    return the agent under its name and leaves the other names alone;
    registering a name again replaces the agent without listing the name
    twice; [has] says whether [get] finds an agent; [list] gives every name
    once, in the order of the first registrations. *)
Theorem registry_map (m : AgentRegistry.t) (a : Agent) (nm : string) :
  let m' := AgentRegistry.register a m in
  AgentRegistry.get (agent_name a) m' = Some a ∧
  (nm ≠ agent_name a → AgentRegistry.get nm m' = AgentRegistry.get nm m) ∧
  (AgentRegistry.has nm m' = true ↔ is_Some (AgentRegistry.get nm m')) ∧
  (nm ∈ AgentRegistry.list m' ↔ AgentRegistry.has nm m' = true) ∧
  AgentRegistry.list m'
  = (if AgentRegistry.has (agent_name a) m then AgentRegistry.list m
     else AgentRegistry.list m ++ [agent_name a])%list ∧
  (NoDup (AgentRegistry.list m) → NoDup (AgentRegistry.list m')).
Proof.
  cbv zeta. unfold AgentRegistry.register, AgentRegistry.list.
  assert ((AgentRegistry.map_set (agent_name a) a m).*1
          = if AgentRegistry.has (agent_name a) m then m.*1
            else (m.*1 ++ [agent_name a])%list) as Hkeys.
  { rewrite map_set_keys. unfold AgentRegistry.has.
    destruct (decide (agent_name a ∈ m.*1)) as [Hin|Hin].
    - by rewrite bool_decide_eq_true_2.
    - by rewrite bool_decide_eq_false_2. }
  split_and!.
  - by rewrite map_set_get, decide_True.
  - intros Hne. by rewrite map_set_get, decide_False.
  - apply registry_get_has.
  - unfold AgentRegistry.has. by rewrite bool_decide_eq_true.
  - exact Hkeys.
  - intros Hnd. rewrite Hkeys. unfold AgentRegistry.has. case_bool_decide as Hin; [done|].
    apply NoDup_app. split_and!; [done| |apply NoDup_singleton].
    intros x Hx ->%list_elem_of_singleton. done.
Qed.

(** With the registry the constructor builds, which knows [cursor], [augie]
    and [cloud_code] in this order: a task for another agent fails with
    [Agent <name> not found] and changes nothing; a task for one of the
    three that is not served from the cache cannot fail: it returns the
    agent's name, the prompt and the inputs of the node with a fixed
    response, the line of the stub as its log, and no artifact. *)
Theorem builtin_agents (env : Env) :
  agentRegistry env = (fun nm => AgentRegistry.get nm AgentRegistry.new) →
  AgentRegistry.list AgentRegistry.new = ["cursor"; "augie"; "cloud_code"] ∧
  (∀ msg spec w,
     agent spec ∉ AgentRegistry.list AgentRegistry.new →
     run_body env msg (BTask spec) w
     = (Throw ("Agent " +:+ agent spec +:+ " not found"), w)) ∧
  (∀ msg spec w,
     agent spec ∈ AgentRegistry.list AgentRegistry.new →
     ∃ ag, agentRegistry env (agent spec) = Some ag ∧ agent_name ag = agent spec ∧
           (task_caches spec = false ∨ w_cache w !! task_key env ag spec = None →
            ∃ response label,
              (run_body env msg (BTask spec) w).1
              = Ok {| result := JObj [("agent", JStr (agent spec));
                                      ("prompt", JStr (prompt spec));
                                      ("inputs", JObj (default [] (inputs spec)));
                                      ("response", JStr response)];
                      artifacts := [];
                      logs := Some [label +:+ " agent executed (stub)"];
                      hash := Some (task_key env ag spec);
                      cached := Some false |})).
Proof.
  intros Hreg. split; [done|]. split.
  - intros msg spec w Hnot. simpl. rewrite Hreg.
    destruct (AgentRegistry.get (agent spec) AgentRegistry.new) as [ag|] eqn:E; [|done].
    exfalso. apply Hnot.
    assert (AgentRegistry.has (agent spec) AgentRegistry.new = true) as Hhas.
    { apply registry_get_has. by eexists. }
    unfold AgentRegistry.has in Hhas. by apply bool_decide_eq_true_1 in Hhas.
  - intros msg spec w Hin.
    assert (∃ response label,
              AgentRegistry.get (agent spec) AgentRegistry.new
              = Some (stub_agent (agent spec) label response)) as (response & label & Hget).
    { change (agent spec ∈ ["cursor"; "augie"; "cloud_code"]) in Hin.
      repeat (apply elem_of_cons in Hin as [-> | Hin]); [..|by apply elem_of_nil in Hin];
        by eexists _, _. }
    exists (stub_agent (agent spec) label response).
    split; [by rewrite Hreg|]. split; [done|].
    intros Hmiss. exists response, label. simpl. rewrite Hreg, Hget.
    rewrite runTask_unfold.
    assert (∀ w0, (runTask_agent env (stub_agent (agent spec) label response) spec
                     (task_key env (stub_agent (agent spec) label response) spec) w0).1
                  = Ok {| result := JObj [("agent", JStr (agent spec));
                                          ("prompt", JStr (prompt spec));
                                          ("inputs", JObj (default [] (inputs spec)));
                                          ("response", JStr response)];
                          artifacts := [];
                          logs := Some [label +:+ " agent executed (stub)"];
                          hash := Some (task_key env (stub_agent (agent spec) label response)
                                                 spec);
                          cached := Some false |}) as Hrun.
    { intros w0. unfold runTask_agent. rewrite bind_eq. unfold call_agent. simpl.
      rewrite bind_eq. by destruct (task_caches spec). }
    destruct (task_caches spec) eqn:Hc; [|apply Hrun].
    destruct Hmiss as [? | ->]; [done | apply Hrun].
Qed.

(** ** The run command *)

Section CommandFacts.
Context (env : Env) (wf : WorkflowDefinition).

Lemma run_then_exit fuel ctx_threadId w :
  let r := try_catch (WorkflowRuntime_run env wf fuel true ctx_threadId)
                     (fun _ => process_exit) w in
  match r.1 with
  | Ok _ => ended Run_success r.2
  | Throw e =>
      e = "process.exit(1)" ∧
      (ended Run_failed r.2 ∨
       (r.2 = w ∧ ∃ error, buildGraphFromWorkflow env wf = Throw error))
  | Hang => ∃ node state' w', node ∈ nodes wf ∧ (run_node env node state' w').1 = Hang
  end.
Proof.
  cbv zeta.
  assert (∀ m : M unit, try_catch m (fun _ => process_exit) w
          = match m w with
            | (Throw e, w') => (Throw "process.exit(1)", w')
            | r => r
            end) as -> by done.
  destruct (buildGraphFromWorkflow env wf) as [names|error|] eqn:Hbuild.
  - destruct (WorkflowRuntime_run_try env wf fuel ctx_threadId w names Hbuild)
      as (input & thread & w1 & ->).
    pose proof (run_body_ended env wf fuel input thread w1) as H. cbv zeta in H.
    destruct (try_catch _ _ w1) as [[[]|e|] w2]; cbn [fst snd] in *; auto.
  - rewrite (WorkflowRuntime_run_refused _ _ _ _ _ _ _ Hbuild). cbn [fst snd]. eauto.
  - by destruct (buildGraph_settles env wf).
Qed.

Lemma RunStore_new_ok dir nm tid w :
  ∃ s w', RunStore_new env dir nm tid w = (Ok s, w').
Proof.
  unfold RunStore_new. rewrite bind_eq. case_decide.
  - unfold generateThreadId. rewrite bind_eq. by eexists _, _.
  - cbn [ret]. rewrite bind_eq. by eexists _, _.
Qed.

Lemma RunStore_new_fresh dir nm tid w :
  ∃ s w', RunStore_new env dir nm tid w = (Ok s, w') ∧ runDir s = dir ∧
          run_status (metadata s) = Run_running ∧ endTime (metadata s) = None ∧
          meta_nodes (metadata s) = ∅.
Proof.
  unfold RunStore_new. rewrite bind_eq. case_decide.
  - unfold generateThreadId. rewrite bind_eq. by eexists _, _.
  - cbn [ret]. rewrite bind_eq. by eexists _, _.
Qed.

(** The guards of the resume mode. *)
Lemma resume_setup_cases options w :
  let dir := str_or (opt_out options) "" in
  if decide (dir = "" ∨ fs_access env (w_trace w) dir = false ∨
             w_files w !! dir = None ∨
             fs_access env (w_trace w) (dir +:+ "/checkpoints.db") = false)
  then resume_setup env options w = (Throw "process.exit(1)", w)
  else ∃ md, w_files w !! dir = Some md ∧
             resume_setup env options w = (Ok (dir, threadId md), w).
Proof.
  cbv zeta. unfold resume_setup.
  destruct (decide (str_or (opt_out options) "" = "")) as [Hd|Hd].
  { rewrite decide_True by auto. done. }
  rewrite bind_eq. cbn [get_world].
  destruct (fs_access env (w_trace w) (str_or (opt_out options) "")) eqn:Ha; cbn [negb].
  2:{ rewrite decide_True by auto. done. }
  rewrite bind_eq. unfold try_catch, RunStore_load.
  destruct (w_files w !! str_or (opt_out options) "") as [md|] eqn:Hf.
  2:{ rewrite decide_True by auto. done. }
  rewrite bind_eq. cbn [get_world].
  destruct (fs_access env (w_trace w) (str_or (opt_out options) "" +:+ "/checkpoints.db"))
    eqn:Hc.
  - rewrite decide_False by naive_solver. by exists md.
  - rewrite decide_True by auto. done.
Qed.

Lemma runCommand_cases fuel options w :
  let dir := str_or (opt_out options) "" in
  let guard := dir = "" ∨ fs_access env (w_trace w) dir = false ∨
               w_files w !! dir = None ∨
               fs_access env (w_trace w) (dir +:+ "/checkpoints.db") = false in
  (opt_resume options = true ∧ guard ∧
   runCommand env wf fuel options w = (Throw "process.exit(1)", w)) ∨
  ((opt_resume options = true → ¬ guard) ∧
   ∃ tid w0, (opt_resume options = false → just_created w0) ∧
             runCommand env wf fuel options w
             = try_catch (WorkflowRuntime_run env wf fuel true tid)
                         (fun _ => process_exit) w0).
Proof.
  cbv zeta. unfold runCommand.
  destruct (opt_resume options) eqn:Hres.
  - pose proof (resume_setup_cases options w) as Hsetup. cbv zeta in Hsetup.
    case_decide as Hguard.
    + left. split; [done|]. split; [done|]. by rewrite bind_eq, bind_eq, Hsetup.
    + right. split; [done|]. destruct Hsetup as (md & Hfile & Hsetup).
      rewrite bind_eq, bind_eq, Hsetup. cbn [ret fst snd].
      rewrite bind_eq. unfold RunStore_loadForResume. rewrite bind_eq.
      unfold RunStore_load. rewrite Hfile. rewrite bind_eq.
      destruct (RunStore_new_ok (str_or (opt_out options) "") (workflowName md)
                  (Some (threadId md)) w) as (s & w1 & ->).
      cbn [ret]. rewrite bind_eq. unfold modify. by eexists _, _.
  - right. split; [done|]. rewrite bind_eq, bind_eq. cbn [get_world ret fst snd].
    rewrite bind_eq, bind_eq.
    destruct (RunStore_new_fresh (str_or (opt_out options) (".runs/" +:+ pretty (w_clock w)))
                (wf_name wf) None w) as (s & w1 & -> & Hdir & Hst & Hend & Hnodes).
    rewrite bind_eq. unfold RunStore_init, modify. cbn [ret].
    rewrite bind_eq. eexists _, _. split; [|reflexivity].
    intros _. unfold just_created, saved. cbn. rewrite Hst, Hend, Hnodes.
    split_and!; [done..|]. apply lookup_insert_eq.
Qed.

End CommandFacts.

(** The command returns only when the run succeeded, and then [run.json]
    says [success]; every failure ends in [process.exit(1)].  Then
    [run.json] says [failed], with two exceptions.  A guard of the resume
    mode stops the command before anything is loaded, run or written: when
    no directory is given, or the directory, its [run.json] or its
    [checkpoints.db] is missing.  And when the construction of the graph
    refuses the workflow (a node id used twice, a node called router, a name
    LangGraph reserves), [run()] throws before it writes anything: a new run
    leaves the [run.json] it has just created, which says [running] and has
    no node entry. *)
Theorem command_exit (env : Env) (wf : WorkflowDefinition) (fuel : nat)
    (options : RunOptions) (w : World) :
  let r := runCommand env wf fuel options w in
  let dir := str_or (opt_out options) "" in
  match r.1 with
  | Ok _ => ended Run_success r.2
  | Throw e =>
      e = "process.exit(1)" ∧
      (ended Run_failed r.2 ∨
       (opt_resume options = true ∧ r.2 = w) ∨
       ((∃ error, buildGraphFromWorkflow env wf = Throw error) ∧
        (opt_resume options = false → just_created r.2)))
  | Hang => ∃ node state' w', node ∈ nodes wf ∧ (run_node env node state' w').1 = Hang
  end ∧
  (opt_resume options = true →
   dir = "" ∨ fs_access env (w_trace w) dir = false ∨ w_files w !! dir = None ∨
   fs_access env (w_trace w) (dir +:+ "/checkpoints.db") = false →
   r = (Throw "process.exit(1)", w)).
Proof.
  cbv zeta.
  destruct (runCommand_cases env wf fuel options w) as
    [(Hres & Hguard & ->) | (Hguard & tid & w0 & Hnew & ->)]; cbn [fst snd].
  - split; [|done]. split; [done|]. right. left. done.
  - pose proof (run_then_exit env wf fuel tid w0) as H. cbv zeta in H. split.
    + destruct (try_catch _ _ w0) as [[[]|e|] w2]; cbn [fst snd] in *; [done| |done].
      destruct H as [-> [H | [-> H]]]; [auto|].
      split; [done|]. right. right. auto.
    + intros Hres Hg. by destruct (Hguard Hres).
Qed.

(** ** The outputs a node can read *)

Lemma after_router_outputs wf state : outputs (after_router wf state) = outputs state.
Proof. reflexivity. Qed.

Lemma outputs_ready_router wf state :
  outputs_ready state → outputs_ready (after_router wf state).
Proof.
  intros H k Hk. rewrite after_router_outputs. apply H.
  unfold dep_complete in *. rewrite after_router_statuses in Hk.
  case_decide; [|done]. destruct Hk; congruence.
Qed.

(** Whenever the graph calls the handler of a node, the state it passes has
    an output for every dependency of the node, so the templates of the node
    can read them: the state of a new run has this property (no node has
    completed), the router keeps it and routes only to a node whose
    dependencies all have an output, and the update of a handler keeps it. *)
Theorem deps_have_outputs (env : Env) (wf : WorkflowDefinition) :
  NoDup (node_ids wf) →
  (∀ w st w', fresh_state wf w = (Ok st, w') → outputs_ready st) ∧
  (∀ state nodeId,
     outputs_ready state →
     route wf (after_router wf state) = RouteNode nodeId →
     outputs_ready (after_router wf state) ∧
     ∃ node, handler_of wf nodeId = Some node ∧ node ∈ nodes wf ∧
             ∀ dep, dep ∈ node_deps node →
                    is_Some (outputs (after_router wf state) !! dep)) ∧
  (∀ node state u w w',
     outputs_ready state →
     createNodeHandler env node state w = (Ok u, w') →
     outputs_ready (apply_update state u)).
Proof.
  intros Hnd. split_and!.
  - intros w st w' Hfresh k Hk.
    destruct (fresh_state_ok wf w) as (st' & w1 & H & Hkeys & Hall & _).
    rewrite Hfresh in H. injection H as <- <-.
    assert (k ∈ node_ids wf) as Hin.
    { apply Hkeys. destruct Hk as [Hk|Hk]; rewrite Hk; by eexists. }
    unfold dep_complete in Hk. rewrite (Hall k Hin) in Hk. by destruct Hk.
  - intros state nodeId Hready Hroute.
    split; [by apply outputs_ready_router|].
    destruct (route_node_ready wf state nodeId Hroute) as (n & Hin & Hid & Hpush).
    assert (nodeId ∈ node_ids wf) as Hmem.
    { rewrite <- Hid. by apply list_elem_of_fmap_2. }
    destruct (handler_of_is_Some wf nodeId Hmem) as [node Hh]. exists node.
    split; [done|]. apply handler_of_id in Hh as [Hnode Hnid].
    assert (node = n) as -> by (apply (node_id_inj wf); congruence).
    split; [done|]. intros dep Hdep. rewrite after_router_outputs. apply Hready.
    apply pushes_iff in Hpush as [_ Hall]. by apply Hall.
  - intros node state u w w' Hready Hrun k Hk.
    rewrite createNodeHandler_cases in Hrun. cbv zeta in Hrun.
    unfold dep_complete in Hk.
    destruct (run_node env node state _) as [[output|error|] w2]; [| |done].
    + injection Hrun as <- _.
      rewrite (handler_update_statuses state
                 {| p_outputs := Some {[node_id node := output]};
                    p_statuses := Some {[node_id node := final_status output]};
                    p_next := None; p_failed := None |}
                 (node_id node) (final_status output) k eq_refl) in Hk.
      unfold apply_update, merge_right. simpl. rewrite lookup_union.
      destruct (decide (k = node_id node)) as [->|Hne].
      * rewrite lookup_singleton_eq. by destruct (outputs state !! node_id node).
      * rewrite lookup_singleton_ne by done. rewrite (left_id None _). by apply Hready.
    + injection Hrun as <- _.
      rewrite (handler_update_statuses state
                 {| p_outputs := None; p_statuses := Some {[node_id node := FAILED]};
                    p_next := None;
                    p_failed := Some (Some (mkFailed (node_id node) error)) |}
                 (node_id node) FAILED k eq_refl) in Hk.
      unfold apply_update. simpl.
      destruct (decide (k = node_id node)) as [->|Hne]; [destruct Hk; congruence|].
      by apply Hready.
Qed.

(** ** The times of a node *)

Lemma store_call_durations c w : durations_ok w → durations_ok (store_call c w).2.
Proof.
  intros Hall. destruct c as [k st|k out|k err|st|dl]; simpl;
    intros k' e' d'; unfold node_entry; simpl; try apply Hall.
  - destruct (decide (k' = k)) as [->|Hne];
      [rewrite lookup_insert_eq | rewrite lookup_insert_ne by done; apply Hall].
    intros [= <-]. pose proof (Hall k) as Hk. unfold node_entry in Hk.
    destruct (meta_nodes (metadata (w_store w)) !! k) as [e|]; simpl; [|done].
    destruct (is_finished st); simpl; [|by apply Hk].
    destruct (nm_startTime e) as [s|] eqn:Es.
    + intros [= <-]. by exists s, (w_clock w).
    + intros Hd. destruct (Hk e d' eq_refl Hd) as (s & t & Hs & _). congruence.
  - destruct (decide (k' = k)) as [->|Hne];
      [rewrite lookup_insert_eq | rewrite lookup_insert_ne by done; apply Hall].
    intros [= <-]. pose proof (Hall k) as Hk. unfold node_entry in Hk.
    destruct (meta_nodes (metadata (w_store w)) !! k) as [e|]; simpl; [|done].
    by apply Hk.
  - destruct (decide (k' = k)) as [->|Hne];
      [rewrite lookup_insert_eq | rewrite lookup_insert_ne by done; apply Hall].
    intros [= <-]. pose proof (Hall k) as Hk. unfold node_entry in Hk.
    destruct (meta_nodes (metadata (w_store w)) !! k) as [e|]; simpl; [|done].
    by apply Hk.
Qed.

Lemma store_call_keeps_times c : steps keeps_times (store_call c).
Proof.
  intros w. split.
  - intros k e He. by apply store_call_start.
  - apply store_call_durations.
Qed.

#[global] Instance keeps_times_preorder : PreOrder keeps_times.
Proof.
  split.
  - intros w. split; [|done]. intros k e He. by exists e.
  - intros w1 w2 w3 [H1 D1] [H2 D2]. split; [|auto].
    intros k e He. destruct (H1 k e He) as (e' & He' & Hs').
    destruct (H2 k e' He') as (e'' & He'' & Hs''). exists e''. split; [done|congruence].
Qed.

#[global] Instance keeps_times_stable : RunStable keeps_times.
Proof.
  assert (∀ w w', w_store w' = w_store w → keeps_times w w') as Hsame.
  { intros w w' Hs. unfold keeps_times, durations_ok, node_entry. rewrite Hs.
    split; [|done]. intros k e He. by exists e. }
  split; [split; [split; [apply _| |]| |]|..].
  - intros w e _. by apply Hsame.
  - intros w t. by apply Hsame.
  - intros w key. by apply Hsame.
  - intros w key value. by apply Hsame.
  - intros nodeId status. apply (store_call_keeps_times (CallSetNodeStatus nodeId status)).
  - intros nodeId output. apply (store_call_keeps_times (CallSetNodeOutput nodeId output)).
  - intros nodeId error. apply (store_call_keeps_times (CallSetNodeError nodeId error)).
  - intros status. apply (store_call_keeps_times (CallComplete status)).
  - intros w c. by apply Hsame.
Qed.

Lemma init_pending_times ns acc w k :
  let w' := (for_each ns init_pending acc w).2 in
  w_clock w' = w_clock w ∧
  (node_entry w k = None → k ∈ node_id <$> ns →
   ∃ e, node_entry w' k = Some e ∧ nm_startTime e = Some (w_clock w)).
Proof.
  cbv zeta. revert acc w. induction ns as [|n ns IH]; intros acc w.
  { cbn [for_each ret snd]. split; [done|]. by intros _ ?%elem_of_nil. }
  cbn [for_each]. rewrite bind_eq.
  destruct (setNodeStatus_ok (node_id n) PENDING w) as [w1 H1].
  assert (init_pending acc n w = (Ok (<[node_id n := PENDING]> acc), w1)) as ->.
  { unfold init_pending. by rewrite (bind_ok _ _ _ _ _ H1). }
  assert (w_clock w1 = w_clock w) as Hclock.
  { revert H1. unfold setNodeStatus, bind, modify, save. by intros [= <-]. }
  destruct (IH (<[node_id n := PENDING]> acc) w1) as [IHc IHe].
  split; [congruence|]. intros Hnone Hin.
  destruct (decide (k = node_id n)) as [->|Hne].
  - assert (node_entry w1 (node_id n)
            = Some (mkNodeMeta PENDING (Some (w_clock w)) None None None None)) as He1.
    { unfold node_entry in *. revert H1.
      unfold setNodeStatus, bind, modify, save. simpl. intros [= <-]. simpl.
      by rewrite lookup_insert_eq, Hnone. }
    assert (steps keeps_times (for_each ns init_pending (<[node_id n := PENDING]> acc)))
      as Hsteps.
    { apply steps_for_each; [apply _|]. intros s x. unfold init_pending.
      apply steps_bind; [apply _|apply rs_setNodeStatus|]. intros _. apply steps_ret, _. }
    destruct (Hsteps w1) as [Hkeep _].
    destruct (Hkeep _ _ He1) as (e' & He' & Hs'). exists e'. split; [done|].
    by rewrite Hs'.
  - rewrite <- Hclock. apply IHe.
    + pose proof (setNodeStatus_keeps k (node_id n) PENDING Hne w) as Hk.
      rewrite H1 in Hk. unfold keeps_entry in Hk. simpl in Hk. congruence.
    + rewrite fmap_cons in Hin. apply elem_of_cons in Hin as [?|?]; done.
Qed.

Lemma new_run_unfold env wf fuel checkpointer ctx_threadId w names :
  buildGraphFromWorkflow env wf = Ok names →
  str_or ctx_threadId "" = "" →
  ∃ st, fresh_state wf w = (Ok st, (fresh_state wf w).2) ∧
        WorkflowRuntime_run env wf fuel checkpointer ctx_threadId w
        = try_catch
            (let* finalState :=
               graph_invoke env wf fuel (Some st)
                 (if checkpointer then Some (getThreadId (w_store w)) else None) in
             report finalState)
            (fun error => complete Run_failed;; throw error) (fresh_state wf w).2.
Proof.
  intros Hbuild Hnew. rewrite (WorkflowRuntime_run_built _ _ _ _ _ _ _ Hbuild).
  cbv zeta.
  rewrite (str_or_empty _ (getThreadId (w_store w)) Hnew), Hnew.
  rewrite bool_decide_eq_false_2 by auto. cbn [negb].
  destruct (fresh_state_ok wf w) as (st & w1 & Hfresh & _).
  exists st. rewrite Hfresh. split; [done|].
  by rewrite bind_eq, (bind_ok _ _ _ _ _ Hfresh).
Qed.

(** In a new run on a store without entries: when the construction of
    the graph accepts the workflow, the start time that [run.json] records
    for a node is the time at which [run()] wrote its PENDING status, before
    any node ran: going RUNNING later does not change it, whatever the run
    does and however it ends, so a recorded duration is the time from the
    start of the run to the end of the node.  When the construction refuses
    the workflow, [run()] throws its error before it writes anything, and
    [run.json] has no entry for the node. *)
Theorem node_start_times (env : Env) (wf : WorkflowDefinition) (fuel : nat)
    (checkpointer : bool) (ctx_threadId : option string) (w : World) (k : string) :
  str_or ctx_threadId "" = "" →
  meta_nodes (metadata (w_store w)) = ∅ →
  k ∈ node_ids wf →
  let r := WorkflowRuntime_run env wf fuel checkpointer ctx_threadId w in
  match buildGraphFromWorkflow env wf with
  | Ok _ =>
      ∃ e, node_entry r.2 k = Some e ∧
           nm_startTime e = Some (w_clock w) ∧
           ∀ d, nm_duration e = Some d →
                ∃ t, nm_endTime e = Some t ∧ d = Z.of_N t - Z.of_N (w_clock w)
  | Throw error => r = (Throw error, w) ∧ node_entry r.2 k = None
  | Hang => False
  end.
Proof.
  intros Hnew Hempty Hk. cbv zeta.
  assert (node_entry w k = None) as Hnone0.
  { unfold node_entry. by rewrite Hempty, lookup_empty. }
  destruct (buildGraphFromWorkflow env wf) as [names|error|] eqn:Hbuild.
  2:{ by rewrite (WorkflowRuntime_run_refused _ _ _ _ _ _ _ Hbuild). }
  2:{ by destruct (buildGraph_settles env wf). }
  destruct (new_run_unfold env wf fuel checkpointer ctx_threadId w names Hbuild Hnew)
    as (st & Hfresh & ->).
  set (w1 := (fresh_state wf w).2) in *.
  assert (node_entry w k = None) as Hnone.
  { unfold node_entry. by rewrite Hempty, lookup_empty. }
  assert (durations_ok w) as Hd0.
  { intros k' e' d'. unfold node_entry. by rewrite Hempty, lookup_empty. }
  assert (∃ e1, node_entry w1 k = Some e1 ∧ nm_startTime e1 = Some (w_clock w))
    as (e1 & He1 & Hs1).
  { pose proof (init_pending_times (nodes wf) ∅ w k) as [_ H]. cbv zeta in H.
    assert (w1 = (for_each (nodes wf) init_pending ∅ w).2) as ->; [|by apply H].
    unfold w1, fresh_state. rewrite bind_eq.
    by destruct (for_each _ _ _ w) as [[a| |] w2]. }
  assert (durations_ok w1) as Hd1.
  { by apply (steps_fresh_state wf keeps_times w). }
  match goal with |- context [try_catch ?m ?h w1] =>
    assert (steps keeps_times (try_catch m h)) as Hsteps
  end.
  { apply steps_try_catch; [apply _| |].
    - apply steps_bind; [apply _|apply steps_graph_invoke, _|]. intros fs.
      apply steps_report, _.
    - intros e. apply steps_bind; [apply _|apply rs_complete|]. intros _.
      apply steps_throw, _. }
  destruct (Hsteps w1) as [Hkeep Hdur].
  destruct (Hkeep k e1 He1) as (e & He & Hs). exists e.
  split; [done|]. split; [congruence|].
  intros d Hd. destruct (Hdur Hd1 k e d He Hd) as (s & t & Hs' & Ht & ->).
  exists t. split; [done|]. congruence.
Qed.

(** * The earlier scheduler's loop ends *)

Lemma legacy_grows_refl s : legacy_grows s s.
Proof. by split_and!. Qed.

Lemma legacy_grows_trans s1 s2 s3 :
  legacy_grows s1 s2 → legacy_grows s2 s3 → legacy_grows s1 s3.
Proof. intros (?&?&?) (?&?&?). split_and!; set_solver. Qed.

Lemma legacy_grows_total s s' :
  legacy_grows s s' → (legacy_total s ≤ legacy_total s')%nat.
Proof.
  intros (H1 & H2 & H3). unfold legacy_total.
  apply subseteq_size in H1, H2, H3. lia.
Qed.

(** A scan leaves [completed] and [failed] as they are, and no node it
    finds ready is in one of them. *)
Lemma legacy_scan_fold wf ns acc :
  let r := foldl (scan_step wf) acc ns in
  Legacy.l_completed r.2 = Legacy.l_completed acc.2 ∧
  Legacy.l_failed r.2 = Legacy.l_failed acc.2 ∧
  Legacy.l_skipped acc.2 ⊆ Legacy.l_skipped r.2 ∧
  (∀ k, k ∈ r.1 →
        k ∈ acc.1 ∨ ((k ∉ Legacy.l_completed acc.2) ∧ (k ∉ Legacy.l_failed acc.2))).
Proof.
  revert acc. induction ns as [|n ns IH]; intros acc; simpl.
  - split_and!; auto.
  - destruct (IH (scan_step wf acc n)) as (H1 & H2 & H3 & H4).
    unfold scan_step in *.
    destruct (Legacy.scan_decision wf acc.2 n) eqn:E; simpl in *.
    + split_and!; auto.
    + split_and!; auto. set_solver.
    + split_and!; auto. intros k Hk.
      destruct (H4 k Hk) as [Hin|Hout]; [|by right].
      apply elem_of_app in Hin as [Hin|Hin]; [by left|].
      apply list_elem_of_singleton in Hin as ->. right.
      unfold Legacy.scan_decision in E.
      destruct (Legacy.is_done acc.2 (node_id n)) eqn:Hd; [done|].
      unfold Legacy.is_done in Hd. apply bool_decide_eq_false_1 in Hd.
      split; intros ?; apply Hd; auto.
Qed.

Lemma legacy_scan_sets wf s w :
  ∃ ready s1 w1,
    Legacy.scan wf s w = (Ok (ready, s1), w1) ∧ legacy_grows s s1 ∧
    ∀ k, k ∈ ready → (k ∉ Legacy.l_completed s1) ∧ (k ∉ Legacy.l_failed s1).
Proof.
  destruct (legacy_scan_ok wf s w) as [w1 Hscan].
  destruct (legacy_scan_fold wf (nodes wf) ([], s)) as (H1 & H2 & H3 & H4).
  destruct (foldl (scan_step wf) ([], s) (nodes wf)) as [ready s1].
  simpl in *. exists ready, s1, w1. split; [done|]. split.
  - split_and!; [by rewrite H1|by rewrite H2|done].
  - intros k Hk. destruct (H4 k Hk) as [Hin|Hout].
    + by apply elem_of_nil in Hin.
    + by rewrite H1, H2.
Qed.

(** [executeNode] catches what the executors throw. *)
Lemma legacy_executeNode_cases env wf nodeId s w :
  match (Legacy.executeNode env wf nodeId s w).1 with
  | Ok r => Legacy.l_completed r.1 = Legacy.l_completed s ∧
            Legacy.l_failed r.1 = Legacy.l_failed s ∧
            Legacy.l_skipped r.1 = Legacy.l_skipped s
  | Throw _ => False
  | Hang => True
  end.
Proof.
  unfold Legacy.executeNode. destruct (List.find _ _) as [node|]; [|done].
  destruct (setNodeStatus_ok nodeId RUNNING w) as [w1 Hw1].
  rewrite (bind_ok _ _ _ _ _ Hw1). unfold try_catch.
  match goal with |- context [bind ?m ?k w1] => destruct (bind m k w1) as [[r|e|] w2] eqn:E end.
  - simpl. revert E. rewrite bind_eq.
    destruct (lift _ w1) as [[resolved|?|] w3]; [|done..].
    rewrite bind_eq.
    match goal with |- context [match ?m w3 with _ => _ end] =>
      destruct (m w3) as [[output|?|] w4]; [|done..] end.
    destruct (setNodeOutput_ok nodeId output w4) as [w5 Hw5].
    rewrite (bind_ok _ _ _ _ _ Hw5).
    destruct (setNodeStatus_ok nodeId (final_status output) w5) as [w6 Hw6].
    rewrite (bind_ok _ _ _ _ _ Hw6). by intros [= <- _].
  - destruct (setNodeError_ok nodeId e w2) as [w3 Hw3].
    rewrite (bind_ok _ _ _ _ _ Hw3).
    destruct (setNodeStatus_ok nodeId FAILED w3) as [w4 Hw4].
    by rewrite (bind_ok _ _ _ _ _ Hw4).
  - done.
Qed.

Lemma legacy_execute_ready_cases env wf s nodeId w :
  match (Legacy.execute_ready env wf s nodeId w).1 with
  | Ok s' => legacy_grows s s' ∧
             (nodeId ∈ Legacy.l_completed s' ∨ nodeId ∈ Legacy.l_failed s')
  | Throw _ => False
  | Hang => (Legacy.executeNode env wf nodeId s w).1 = Hang
  end.
Proof.
  unfold Legacy.execute_ready. rewrite bind_eq.
  pose proof (legacy_executeNode_cases env wf nodeId s w) as H.
  destruct (Legacy.executeNode env wf nodeId s w) as [[[s' err]|e|] w1]; simpl in *;
    [|done..].
  destruct H as (H1 & H2 & H3).
  destruct err; simpl; (split; [split_and!; set_solver|set_solver]).
Qed.

Lemma legacy_execute_all env wf ready s w :
  match (for_each ready (Legacy.execute_ready env wf) s w).1 with
  | Ok s' => legacy_grows s s' ∧
             ∀ k, k ∈ ready → k ∈ Legacy.l_completed s' ∨ k ∈ Legacy.l_failed s'
  | Throw _ => False
  | Hang => ∃ nodeId s0 w0, nodeId ∈ ready ∧
                            (Legacy.executeNode env wf nodeId s0 w0).1 = Hang
  end.
Proof.
  revert s w. induction ready as [|x ready IH]; intros s w; simpl.
  - split; [apply legacy_grows_refl|]. intros k Hk. by apply elem_of_nil in Hk.
  - rewrite bind_eq.
    pose proof (legacy_execute_ready_cases env wf s x w) as Hx.
    destruct (Legacy.execute_ready env wf s x w) as [[s1|e|] w1]; simpl in *; [|done|].
    + specialize (IH s1 w1).
      destruct (for_each ready _ s1 w1) as [[s2|e|] w2]; simpl in *; [|done|].
      * destruct Hx as [Hg Hin]. destruct IH as [Hg2 Hall]. split.
        { by eapply legacy_grows_trans. }
        intros k Hk. apply elem_of_cons in Hk as [-> | Hk]; [|by apply Hall].
        destruct Hg2 as (? & ? & ?). set_solver.
      * destruct IH as (k & s0 & w0 & Hk & Hh). exists k, s0, w0.
        split; [by apply list_elem_of_further|done].
    + exists x, s, w. split; [apply list_elem_of_here|done].
Qed.

(** A tick that runs a node adds to [completed] or to [failed]. *)
Lemma legacy_tick_total s1 s2 k :
  legacy_grows s1 s2 →
  k ∉ Legacy.l_completed s1 → k ∉ Legacy.l_failed s1 →
  k ∈ Legacy.l_completed s2 ∨ k ∈ Legacy.l_failed s2 →
  (legacy_total s1 < legacy_total s2)%nat.
Proof.
  intros (H1 & H2 & H3) Hc Hf Hin. unfold legacy_total.
  pose proof (subseteq_size _ _ H1). pose proof (subseteq_size _ _ H2).
  pose proof (subseteq_size _ _ H3).
  destruct Hin as [Hin|Hin].
  - assert (Legacy.l_completed s1 ⊂ Legacy.l_completed s2) as Hs by set_solver.
    apply subset_size in Hs. lia.
  - assert (Legacy.l_failed s1 ⊂ Legacy.l_failed s2) as Hs by set_solver.
    apply subset_size in Hs. lia.
Qed.

Lemma legacy_loop_ends env wf fuel s w :
  (length (nodes wf) - legacy_total s < fuel)%nat →
  match (Legacy.run_loop env wf fuel s w).1 with
  | Ok s' => legacy_grows s s'
  | Throw _ => ended Run_failed (Legacy.run_loop env wf fuel s w).2
  | Hang => ∃ nodeId s0 w0, (Legacy.executeNode env wf nodeId s0 w0).1 = Hang
  end.
Proof.
  revert s w. induction fuel as [|fuel IH]; intros s w Hfuel; [lia|]. simpl.
  fold (legacy_total s). case_decide as Hlt; [|apply legacy_grows_refl].
  destruct (legacy_scan_sets wf s w) as (ready & s1 & w1 & Hscan & Hg & Hnew).
  rewrite (bind_ok _ _ _ _ _ Hscan).
  destruct ready as [|x ready].
  - destruct (Legacy.still_open wf s1); [done|].
    destruct (complete_ended Run_failed w1) as (w2 & Hc & He).
    by rewrite (bind_ok _ _ _ _ _ Hc).
  - rewrite bind_eq.
    pose proof (legacy_execute_all env wf (x :: ready) s1 w1) as Hall.
    destruct (for_each (x :: ready) _ s1 w1) as [[s2|e|] w2]; simpl in Hall; [|done|].
    + destruct Hall as [Hg2 Hin].
      destruct (Hnew x (list_elem_of_here _ _)) as [Hc Hf].
      pose proof (legacy_tick_total s1 s2 x Hg2 Hc Hf (Hin x (list_elem_of_here _ _))) as Ht.
      pose proof (legacy_grows_total s s1 Hg) as Ht1.
      assert (length (nodes wf) - legacy_total s2 < fuel)%nat as Hfuel2 by lia.
      specialize (IH s2 w2 Hfuel2).
      destruct (Legacy.run_loop env wf fuel s2 w2) as [[s3|e|] w3]; simpl in *; [|done..].
      eapply legacy_grows_trans; [done|]. by eapply legacy_grows_trans.
    + destruct Hall as (k & s0 & w0 & _ & Hh). by exists k, s0, w0.
Qed.

(** The earlier scheduler's [run()] ends whenever every node it executes
    ends: its loop needs at most one tick per node, since every tick that
    runs a node adds to [completed] or [failed].  It returns after writing
    [success] to [run.json] with the end time, and throws only after
    writing [failed] with the end time. *)
Theorem legacy_run_ends (env : Env) (wf : WorkflowDefinition) (fuel : nat) (w : World) :
  (length (nodes wf) < fuel)%nat →
  match (Legacy.run env wf fuel w).1 with
  | Ok _ => ended Run_success (Legacy.run env wf fuel w).2
  | Throw _ => ended Run_failed (Legacy.run env wf fuel w).2
  | Hang => ∃ nodeId s0 w0, (Legacy.executeNode env wf nodeId s0 w0).1 = Hang
  end.
Proof.
  intros Hfuel. unfold Legacy.run. rewrite bind_eq.
  match goal with |- context [Legacy.run_loop env wf fuel ?s w] => set (init := s) end.
  pose proof (legacy_loop_ends env wf fuel init w) as Hloop.
  destruct (Legacy.run_loop env wf fuel init w) as [[s|e|] w1]; simpl in Hloop.
  - case_decide.
    + destruct (complete_ended Run_failed w1) as (w2 & Hc & He).
      by rewrite (bind_ok _ _ _ _ _ Hc).
    + destruct (complete_ended Run_success w1) as (w2 & Hc & He). by rewrite Hc.
  - simpl. apply Hloop. lia.
  - simpl. apply Hloop. lia.
Qed.

(** ** An item's function with nothing else under way *)

Lemma call_alone_eq {A} (call : M (A + Async A)) w :
  call_alone call w
  = match call w with
    | (Ok (inl a), w') => (Ok a, w')
    | (Ok (inr p), w') => run_alone p w'
    | (Throw e, w') => (Throw e, w')
    | (Hang, w') => (Hang, w')
    end.
Proof. unfold call_alone, bind. by destruct (call w) as [[[a|p]|e|] w']. Qed.

Lemma run_alone_Resume {A} (run : M (A + Async A)) w :
  run_alone (Resume run) w = call_alone run w.
Proof. by rewrite call_alone_eq. Qed.

Lemma bind_ext {A B} (m : M A) (f g : A → M B) w :
  (∀ a w', f a w' = g a w') → (let* a := m in f a) w = (let* a := m in g a) w.
Proof. intros H. unfold bind. destruct (m w) as [[a|e|] w']; [apply H|done..]. Qed.

Lemma call_alone_bind {X A} (m : M X) (k : X → M (A + Async A)) w :
  call_alone (let* x := m in k x) w = (let* x := m in call_alone (k x)) w.
Proof. unfold call_alone, bind. by destruct (m w) as [[x|e|] w']. Qed.

Lemma call_alone_await {X A} (op : M X) (k : X → M (A + Async A)) w :
  call_alone (await op k) w = (let* x := op in call_alone (k x)) w.
Proof.
  rewrite call_alone_eq. unfold await, ret. rewrite run_alone_Resume.
  apply call_alone_bind.
Qed.

Lemma run_alone_after {A B} (p : Async A) (k : A → M (B + Async B)) w :
  run_alone (after p k) w = (let* a := run_alone p in call_alone (k a)) w.
Proof.
  revert w. induction p as [run IH] using Async_ind. intros w. simpl. unfold bind.
  destruct (run w) as [[[a|q]|e|] w1] eqn:E; simpl; try done.
  - apply call_alone_eq || (symmetry; apply call_alone_eq).
  - by rewrite (IH w q w1 E).
Qed.

Lemma call_alone_await_call {A B} (call : M (A + Async A)) (k : A → M (B + Async B)) w :
  call_alone (await_call call k) w = (let* a := call_alone call in call_alone (k a)) w.
Proof.
  unfold await_call. rewrite call_alone_bind. unfold call_alone at 2. unfold bind.
  destruct (call w) as [[[a|p]|e|] w1]; try done.
  rewrite call_alone_eq. simpl. rewrite run_alone_after. done.
Qed.

Section Alone.
Context (env : Env).

Lemma collect_artifacts_alone {A} fs acc (k : list string → M (A + Async A)) w :
  call_alone (collect_artifacts_async env fs acc k) w
  = (let* arts := collect_artifacts env fs acc in call_alone (k arts)) w.
Proof.
  revert acc w. induction fs as [|f fs IH]; intros acc w; simpl; [done|].
  rewrite call_alone_await. unfold bind at 1 2 3 4. unfold get_world, ret.
  destruct (fs_access env (w_trace w) (path_resolve env f)); [|done].
  rewrite IH. done.
Qed.

Lemma read_result_alone {A} spec dflt (k : JSON → M (A + Async A)) w :
  call_alone (read_result_async env spec dflt k) w
  = (let* res := read_result env spec dflt in call_alone (k res)) w.
Proof.
  unfold read_result_async, read_result. destruct (result_file spec) as [f|]; [|done].
  rewrite call_alone_await. unfold bind, get_world, lift.
  destruct (fs_readFile env (w_trace w) (path_resolve env f)) as [text|e|]; [|done..].
  destruct (JSON_parse env text) as [res|e|]; [|done..].
  unfold call_alone, bind. by destruct (k res w) as [[[a|p]|e|] w'].
Qed.

Lemma runExec_spawn_alone spec key w :
  call_alone (runExec_spawn_async env spec key) w = runExec_spawn env spec key w.
Proof.
  unfold runExec_spawn_async, runExec_spawn. rewrite call_alone_bind.
  apply bind_ext. intros child w1. rewrite call_alone_await.
  apply bind_ext. intros exitCode w2.
  case_decide; [done|].
  rewrite collect_artifacts_alone. apply bind_ext. intros arts w3.
  rewrite read_result_alone. apply bind_ext. intros res w4.
  destruct (exec_caches spec); [|done].
  rewrite call_alone_await. by apply bind_ext.
Qed.

Lemma runExec_alone spec w : call_alone (runExec_async env spec) w = runExec env spec w.
Proof.
  unfold runExec_async, runExec. destruct (exec_caches spec).
  - rewrite call_alone_await. apply bind_ext.
    intros [h|] w1; [done|apply runExec_spawn_alone].
  - rewrite runExec_spawn_alone. done.
Qed.

Lemma started_alone {X A} (r : World → Res X) (f : World → World)
    (k : X → M (A + Async A)) (k' : X → M A) w :
  (∀ x w', call_alone (k x) w' = k' x w') →
  (let* promise := (fun w => (Ok (r w), f w)) in call_alone (await (lift promise) k)) w
  = (let* res := (fun w => (r w, f w)) in k' res) w.
Proof.
  intros Hk. unfold bind at 1 2. rewrite call_alone_await. unfold bind, lift.
  destruct (r w) as [x|e|]; [apply Hk|done..].
Qed.

Lemma runTask_agent_alone ag spec key w :
  call_alone (runTask_agent_async env ag spec key) w = runTask_agent env ag spec key w.
Proof.
  unfold runTask_agent_async, runTask_agent. rewrite call_alone_bind.
  unfold agent_start, call_agent.
  apply (started_alone (fun w => agent_run ag (w_trace w) _)).
  intros res w1. destruct (task_caches spec); [|done].
  rewrite call_alone_await. by apply bind_ext.
Qed.

Lemma runTask_alone ag spec w : call_alone (runTask_async env ag spec) w = runTask env ag spec w.
Proof.
  unfold runTask_async, runTask. destruct (task_caches spec).
  - rewrite call_alone_await. apply bind_ext.
    intros [h|] w1; [done|apply runTask_agent_alone].
  - rewrite runTask_agent_alone. done.
Qed.

End Alone.


(** ** The failed ids of the earlier scheduler, in the order they failed *)

Lemma post_for_each {A S} (I : S → Prop) (xs : list A) (f : S → A → M S) s :
  (∀ s x, I s → post I (f s x)) → I s → post I (for_each xs f s).
Proof.
  intros Hf. revert s. induction xs as [|x xs IH]; intros s Hs; simpl.
  - by apply post_ret.
  - apply (post_bind_with I); [by apply Hf|]. intros s1 Hs1. by apply IH.
Qed.

Lemma add_failed_listed nodeId s :
  failed_listed s → failed_listed (Legacy.add_failed nodeId s).
Proof.
  intros [Hnd Hin]. unfold failed_listed, Legacy.add_failed. simpl.
  case_decide as Hk.
  - split; [done|]. intros k. rewrite Hin. set_solver.
  - split.
    + apply NoDup_app. split_and!; [done| |apply NoDup_singleton].
      intros k Hk1 Hk2. apply list_elem_of_singleton in Hk2 as ->. by apply Hk, Hin.
    + intros k. rewrite elem_of_app, list_elem_of_singleton, Hin. set_solver.
Qed.

Lemma scan_node_listed wf acc node :
  failed_listed acc.2 →
  post (fun r : list string * Legacy.LoopState => failed_listed r.2)
       (Legacy.scan_node wf acc node).
Proof.
  intros Hs. destruct acc as [ready s]. unfold Legacy.scan_node.
  destruct (Legacy.scan_decision wf s node).
  - by apply post_ret.
  - apply post_bind. intros _. by apply post_ret.
  - by apply post_ret.
Qed.

Lemma executeNode_listed env wf nodeId s :
  failed_listed s →
  post (fun r : Legacy.LoopState * option string => failed_listed r.1)
       (Legacy.executeNode env wf nodeId s).
Proof.
  intros Hs. unfold Legacy.executeNode.
  destruct (List.find _ _) as [node|]; [|by apply post_ret].
  apply post_bind. intros _. apply post_try_catch.
  - apply post_bind. intros resolvedNode. apply post_bind. intros output.
    apply post_bind. intros _. apply post_bind. intros _. by apply post_ret.
  - intros e. apply post_bind. intros _. apply post_bind. intros _. by apply post_ret.
Qed.

Lemma execute_ready_listed env wf s nodeId :
  failed_listed s → post failed_listed (Legacy.execute_ready env wf s nodeId).
Proof.
  intros Hs. unfold Legacy.execute_ready.
  apply (post_bind_with _ _ _ _ (executeNode_listed env wf nodeId s Hs)).
  intros [s1 [e|]] Hs1; apply post_ret; [by apply add_failed_listed|done].
Qed.

(** Every state the loop of the earlier scheduler ends in lists its failed
    ids without repetition, in the order in which they were added: the
    order in which [run] names them in its error. *)
Lemma legacy_failed_listed env wf fuel :
  post failed_listed (Legacy.run_loop env wf fuel (legacy_init wf)).
Proof.
  assert (∀ s, failed_listed s → post failed_listed (Legacy.run_loop env wf fuel s)) as H.
  { induction fuel as [|fuel IH]; intros s Hs; simpl; [apply post_hang|].
    case_decide; [|by apply post_ret].
    apply (post_bind_with (fun r : list string * Legacy.LoopState => failed_listed r.2)).
    { apply (post_for_each (fun r : list string * Legacy.LoopState => failed_listed r.2));
        [|done].
      intros acc node. apply scan_node_listed. }
    intros [ready s1] Hs1. simpl in Hs1. destruct ready as [|x ready].
    - destruct (Legacy.still_open wf s1); [by apply post_ret|].
      apply post_bind. intros _. apply post_throw.
    - apply (post_bind_with failed_listed); [|by intros; apply IH].
      apply (post_for_each failed_listed); [|done].
      intros s2 k. apply execute_ready_listed. }
  apply H. split; [apply NoDup_nil_2|]. intros k. simpl. set_solver.
Qed.

(** Two nodes that fail are named in the order in which they failed, which
    is not the order of their ids. *)
Lemma legacy_failures_in_order :
  (Legacy.run demo_env two_failures 25 demo_world).1
  = Throw "Workflow failed: b, a failed".
Proof. by vm_compute. Qed.

(** ** The recursion limit *)

Lemma filter_length_succ (P Q : string → bool) (l : list string) (a : string) :
  NoDup l → (∀ x, x ∈ l → P x → Q x ∨ x = a) →
  (length (filter (fun x => P x) l) ≤ S (length (filter (fun x => Q x) l)))%nat.
Proof.
  induction l as [|b l IH]; intros Hnd H; [simpl; lia|].
  apply NoDup_cons in Hnd as [Hb Hnd]. rewrite !filter_cons.
  destruct (decide (b = a)) as [->|Hne].
  - assert (length (filter (λ x, P x) l) ≤ length (filter (λ x, Q x) l))%nat as Hle.
    { apply filter_length_le. intros x Hx Hp.
      destruct (H x (list_elem_of_further _ _ _ Hx) Hp) as [?| ->]; done. }
    destruct (decide (P a)); destruct (decide (Q a)); simpl; lia.
  - assert (length (filter (λ x, P x) l) ≤ S (length (filter (λ x, Q x) l)))%nat as Hle.
    { apply IH; [done|]. intros x Hx. apply H. by apply list_elem_of_further. }
    destruct (decide (P b)) as [Hp|Hp]; destruct (decide (Q b)) as [Hq|Hq]; simpl; try lia.
    destruct (H b (list_elem_of_here _ _) Hp) as [?|?]; done.
Qed.

Lemma filter_false_length {A} (l : list A) :
  length (filter (fun _ : A => false) l) = 0%nat.
Proof. induction l as [|a l IH]; [done|]. rewrite filter_cons. by case_decide. Qed.

Lemma filter_true_length {A} (l : list A) :
  length (filter (fun _ : A => true) l) = length l.
Proof.
  induction l as [|a l IH]; [done|]. rewrite filter_cons.
  case_decide; [|done]. cbn [length]. by f_equal.
Qed.

Lemma handled_after_router wf state :
  (length (handled_nodes wf (statuses (after_router wf state)))
   ≤ length (handled_nodes wf (statuses state)))%nat.
Proof.
  apply filter_length_le. intros k _. unfold handled.
  rewrite !bool_decide_spec, after_router_statuses.
  case_decide; [|done]. naive_solver.
Qed.

Lemma handled_after_handler env wf node state w u w' :
  NoDup (node_ids wf) →
  createNodeHandler env node state w = (Ok u, w') →
  (length (handled_nodes wf (statuses (apply_update state u)))
   ≤ S (length (handled_nodes wf (statuses state))))%nat.
Proof.
  intros Hnd Hrun.
  destruct (createNodeHandler_returns env node state w) as [Hh|(u' & st & Hu & Hs & _)];
    rewrite Hrun in *; [done|]. cbn [fst] in Hu. injection Hu as <-.
  apply (filter_length_succ _ _ _ (node_id node)); [done|].
  intros k _. unfold handled. rewrite !bool_decide_spec.
  rewrite (handler_update_statuses state u (node_id node) st k Hs).
  case_decide; [by right|by left].
Qed.

(** A run of the graph that returns has had one superstep for [__start__],
    two for every node whose handler ran (the router's and the node's) and
    one for the last turn of the router. *)
Lemma graph_loop_supersteps env wf fuel thread state w final w' :
  NoDup (node_ids wf) →
  graph_loop env wf fuel thread state w = (Ok final, w') →
  (2 * length (handled_nodes wf (statuses final)) + 2
   ≤ fuel + 2 * length (handled_nodes wf (statuses state)))%nat.
Proof.
  intros Hnd. revert state w.
  induction fuel as [fuel IH] using lt_wf_ind. intros state w.
  destruct fuel as [|fuel]; [done|].
  rewrite graph_loop_S.
  destruct (router_ok wf state w) as [w1 Hr].
  rewrite (bind_ok _ _ _ _ _ Hr). cbv zeta. fold (after_router wf state).
  pose proof (handled_after_router wf state) as Hle.
  destruct (route wf (after_router wf state)) as [|nodeId|msg]; [| |done].
  - destruct (checkpoint_ok thread (after_router wf state) w1) as (w2 & Hc & _).
    rewrite (bind_ok _ _ _ _ _ Hc).
    destruct fuel; [done|]. intros [= <- <-]. lia.
  - destruct (handler_of wf nodeId) as [node|]; [|done].
    destruct (checkpoint_ok thread (after_router wf state) w1) as (w2 & Hc & _).
    rewrite (bind_ok _ _ _ _ _ Hc).
    destruct fuel as [|fuel2]; [done|].
    destruct (createNodeHandler env node (after_router wf state) w2) as [[u| |] w3] eqn:Eh.
    + rewrite (bind_ok _ _ _ _ _ Eh). cbv zeta.
      pose proof (handled_after_handler env wf node _ w2 u w3 Hnd Eh) as Hle2.
      set (state2 := apply_update (after_router wf state) u) in *.
      destruct (checkpoint_ok thread state2 w3) as (w4 & Hc4 & _).
      rewrite (bind_ok _ _ _ _ _ Hc4). intros Hrun.
      pose proof (IH fuel2 ltac:(lia) state2 w4 Hrun). lia.
    + by rewrite (bind_throw _ _ _ _ _ Eh).
    + by rewrite (bind_hang _ _ _ _ Eh).
Qed.

(** A new run that returns normally has run every node, so the recursion
    limit was at least two supersteps per node of the workflow and two
    more.  [run()] passes no limit to [graph.invoke], which then uses
    [recursionLimit]: a new run of a workflow with twelve nodes or more
    never returns normally. *)
Theorem recursion_limit_bound (env : Env) (wf : WorkflowDefinition) (fuel : nat)
    (checkpointer : bool) (ctx_threadId : option string) (w w' : World) :
  NoDup (node_ids wf) →
  str_or ctx_threadId "" = "" →
  (checkpointer = true → w_checkpoints w !! getThreadId (w_store w) = None) →
  WorkflowRuntime_run env wf fuel checkpointer ctx_threadId w = (Ok tt, w') →
  (2 * length (nodes wf) + 2 ≤ fuel)%nat ∧
  (fuel = recursionLimit → (length (nodes wf) ≤ 11)%nat).
Proof.
  intros Hnd Hnew Hcp Hrun.
  assert (2 * length (nodes wf) + 2 ≤ fuel)%nat as Hbound;
    [|split; [done|]; unfold recursionLimit; lia].
  destruct (buildGraphFromWorkflow env wf) as [names|e|] eqn:Hbuild.
  2:{ by rewrite (WorkflowRuntime_run_refused _ _ _ _ _ _ _ Hbuild) in Hrun. }
  2:{ by destruct (buildGraph_settles env wf). }
  rewrite (WorkflowRuntime_run_built _ _ _ _ _ _ _ Hbuild) in Hrun. cbv zeta in Hrun.
  rewrite (str_or_empty _ (getThreadId (w_store w)) Hnew), Hnew in Hrun.
  rewrite bool_decide_eq_false_2 in Hrun by auto. cbn [negb] in Hrun.
  destruct (fresh_state_inv wf w) as (st & w1 & Hfresh & Hinv & Hfailed & Hcps).
  destruct (fresh_state_ok wf w) as (st' & w1' & Hfresh' & _ & Hpending & _).
  rewrite Hfresh in Hfresh'. injection Hfresh' as <- <-.
  rewrite bind_eq, (bind_ok _ _ _ _ _ Hfresh) in Hrun. cbn [ret] in Hrun.
  unfold try_catch in Hrun. rewrite bind_eq in Hrun.
  destruct (graph_invoke _ _ _ _ _ w1) as [[final|e|] w2] eqn:Einv.
  2:{ destruct (complete_ended Run_failed w2) as (w3 & H & _).
      by rewrite (bind_ok _ _ _ _ _ H) in Hrun. }
  2:{ done. }
  assert (report final w2 = (Ok tt, w')) as Hrep.
  { destruct (report final w2) as [[[]|e|] w3] eqn:Er; [done| |done].
    destruct (complete_ended Run_failed w3) as (w4 & H & _).
    by rewrite (bind_ok _ _ _ _ _ H) in Hrun. }
  apply report_ok in Hrep as (_ & Hnofail & _).
  unfold graph_invoke in Einv.
  rewrite (bind_ok _ _ _ _ _ (eq_refl : get_world w1 = (Ok w1, w1))) in Einv.
  assert ((t ← (if checkpointer then Some (getThreadId (w_store w)) else None);
           w_checkpoints w1 !! t) = None) as Hbase.
  { destruct checkpointer; [|done]. simpl. rewrite Hcps. by apply Hcp. }
  rewrite Hbase in Einv. cbn [default from_option] in Einv.
  assert (run_inv wf (apply_input (createInitialState ∅) st) w1) as Hinv0.
  { unfold run_inv, mirrors in *. by rewrite apply_input_fresh. }
  match type of Einv with context [checkpoint ?t ?s0] =>
    assert (∃ w0, checkpoint t s0 w1 = (Ok tt, w0) ∧ run_inv wf s0 w0)
      as (w0 & Hcheck & Hinv1)
  end.
  { destruct checkpointer; simpl; unfold modify; eexists; (split; [done|]); [|done].
    by apply run_inv_checkpoints. }
  rewrite (bind_ok _ _ _ _ _ Hcheck) in Einv.
  destruct (graph_loop_run_inv _ _ _ _ _ _ _ _ Hnd Hinv1 Einv)
    as [(_ & _ & Hbl & _) Hset].
  pose proof (graph_loop_supersteps _ _ _ _ _ _ _ _ Hnd Einv) as Hsteps.
  assert (length (handled_nodes wf (statuses (apply_input (createInitialState ∅) st)))
          ≤ length (filter (fun _ : string => false) (node_ids wf)))%nat as H0.
  { apply (filter_length_le (fun k => handled _ k) (fun _ => false)).
    intros k Hk. unfold handled. rewrite bool_decide_spec, apply_input_fresh.
    rewrite (Hpending k Hk). naive_solver. }
  assert (length (filter (fun _ : string => true) (node_ids wf))
          ≤ length (handled_nodes wf (statuses final)))%nat as H1.
  { apply (filter_length_le (fun _ => true) (fun k => handled _ k)).
    intros k Hk _. unfold handled. rewrite bool_decide_spec.
    destruct (Hset k Hk) as (s & Hs & Hsettled). rewrite Hs.
    destruct Hsettled as [Hd|[Hd|[Hd|Hd]]]; subst s; auto.
    destruct Hbl as [k' Hk']; [eauto|]. by apply Hnofail in Hk'. }
  rewrite filter_false_length in H0. rewrite filter_true_length in H1.
  unfold node_ids in H1. rewrite length_fmap in H1. lia.
Qed.

(** Twelve commands that all succeed: each of them is run, the run stops
    on the recursion limit after the last turn of the router and is
    recorded as failed.  With eleven the run returns. *)
Lemma twelve_nodes_stop :
  let r := WorkflowRuntime_run demo_env twelve recursionLimit true None demo_world in
  r.1 = Throw (recursion_error demo_env) ∧
  recorded_status r <$> node_ids twelve = replicate 12 (Some SUCCESS) ∧
  run_status (metadata (w_store r.2)) = Run_failed ∧
  (WorkflowRuntime_run demo_env eleven recursionLimit true None demo_world).1 = Ok tt.
Proof. by vm_compute. Qed.

(** ** The construction of the graph *)

Lemma addNodes_cases env names keys :
  match addNodes env names keys with
  | Ok names' =>
      names' = (names ++ keys)%list ∧
      ((∀ k, k ∈ keys → k ∉ names) ∧ NoDup keys ∧
       ∀ k, k ∈ keys → addNode_reserved env k = None)
  | Throw e =>
      ¬ ((∀ k, k ∈ keys → k ∉ names) ∧ NoDup keys ∧
         ∀ k, k ∈ keys → addNode_reserved env k = None)
  | Hang => False
  end.
Proof.
  revert names. induction keys as [|key keys IH]; intros names; simpl.
  - rewrite (right_id [] (++)). split; [done|]. split_and!; [|apply NoDup_nil_2|];
      intros k Hk; by apply elem_of_nil in Hk.
  - unfold addNode. destruct (addNode_reserved env key) as [error|] eqn:Hres.
    { intros (_ & _ & H). by rewrite (H key (list_elem_of_here _ _)) in Hres. }
    case_decide as Hin.
    { intros (H & _). by apply (H key (list_elem_of_here _ _)). }
    specialize (IH (names ++ [key])%list).
    destruct (addNodes env (names ++ [key]) keys) as [names'|e|]; [| |done].
    + destruct IH as (-> & Hfresh & Hnd & Hok). split; [by rewrite <- (assoc (++))|].
      split_and!.
      * intros k Hk. apply elem_of_cons in Hk as [->|Hk]; [done|].
        intros Hn. apply (Hfresh k Hk). apply elem_of_app. by left.
      * apply NoDup_cons. split; [|done]. intros Hk. apply (Hfresh key Hk).
        apply elem_of_app. right. apply list_elem_of_here.
      * intros k Hk. apply elem_of_cons in Hk as [->|Hk]; [done|by apply Hok].
    + intros (Hfresh & Hnd & Hok). apply IH. apply NoDup_cons in Hnd as [Hkey Hnd].
      split_and!; [|done|].
      * intros k Hk Hn. apply elem_of_app in Hn as [Hn|Hn].
        -- by apply (Hfresh k (list_elem_of_further _ _ _ Hk)).
        -- apply list_elem_of_singleton in Hn as ->. done.
      * intros k Hk. apply Hok. by apply list_elem_of_further.
Qed.

(** [buildGraphFromWorkflow] returns the graph exactly when the ids of the
    nodes are distinct, none of them is [router], and LangGraph refuses none
    of these names; otherwise it throws.  The graph then has the nodes of
    the workflow, in their order, and the router. *)
Theorem graph_built (env : Env) (wf : WorkflowDefinition) :
  let accepted :=
    NoDup (node_ids wf) ∧ ("router" ∉ node_ids wf) ∧
    ∀ k, k ∈ node_ids wf ∨ k = "router" → addNode_reserved env k = None in
  match buildGraphFromWorkflow env wf with
  | Ok names => names = (node_ids wf ++ ["router"])%list ∧ accepted
  | Throw e => ¬ accepted
  | Hang => False
  end.
Proof.
  cbv zeta. unfold buildGraphFromWorkflow. fold (node_ids wf).
  pose proof (addNodes_cases env [] (node_ids wf ++ ["router"])) as H.
  assert (((∀ k, k ∈ (node_ids wf ++ ["router"])%list → k ∉ @nil string) ∧
           NoDup (node_ids wf ++ ["router"]) ∧
           ∀ k, k ∈ (node_ids wf ++ ["router"])%list → addNode_reserved env k = None) ↔
          (NoDup (node_ids wf) ∧ ("router" ∉ node_ids wf) ∧
           ∀ k, k ∈ node_ids wf ∨ k = "router" → addNode_reserved env k = None)) as Hiff.
  { rewrite NoDup_app. setoid_rewrite elem_of_app. setoid_rewrite list_elem_of_singleton.
    split.
    - intros (_ & (Hnd & Hr & _) & Hok). split_and!; [done| |done].
      intros Hin. by apply (Hr "router" Hin).
    - intros (Hnd & Hr & Hok). split_and!; [|done| |apply NoDup_singleton|done].
      + intros k _ Hk. by apply elem_of_nil in Hk.
      + intros k Hk ->. done. }
  destruct (addNodes env [] (node_ids wf ++ ["router"])) as [names|e|]; [| |done].
  - destruct H as [-> H]. split; [done|]. by apply Hiff.
  - intros Hacc. by apply H, Hiff.
Qed.

(** Two nodes of one id, and a node called [router]: [run()] throws before
    it writes anything, and [run.json] is left as it was. *)
Lemma refused_workflows :
  let twice_A := {| wf_name := "w"; wf_vars := None;
                    nodes := [exec_node "A" [] "echo" ["a"];
                              exec_node "A" [] "echo" ["b"]] |} in
  let with_router := {| wf_name := "w"; wf_vars := None;
                        nodes := [exec_node "router" [] "echo" ["a"]] |} in
  WorkflowRuntime_run demo_env twice_A recursionLimit true None demo_world
  = (Throw (addNode_present demo_env "A"), demo_world) ∧
  WorkflowRuntime_run demo_env with_router recursionLimit true None demo_world
  = (Throw (addNode_present demo_env "router"), demo_world).
Proof. by vm_compute. Qed.

(** * The further properties on the worked examples *)


Lemma store_durations_witness :
  ∃ s t, nm_startTime handled_entry = Some s ∧ nm_endTime handled_entry = Some t ∧
         3005 = Z.of_N t - Z.of_N s ∧ 0 ≤ 3005.
Proof.
  apply (store_durations handler_calls demo_world "A" handled_entry).
  - reflexivity.
  - vm_compute. reflexivity.
Defined.

Lemma no_running_check sts :
  map_Forall (fun _ s => s ≠ RUNNING) sts → no_running sts.
Proof. intros H k Hk. by apply (H k RUNNING). Qed.

Lemma pipeline_NoDup : NoDup (node_ids pipeline).
Proof. by_compute. Defined.

Lemma graph_run_ends_witness :
  ∃ final, (graph_loop demo_env pipeline 6 None pipeline_start demo_world).1 = Ok final ∧
           ∃ s, statuses final !! "B" = Some s ∧ settled_status s.
Proof.
  assert (statuses_of pipeline (statuses pipeline_start)) as H1.
  { apply statuses_of_check. by_compute. }
  assert (no_running (statuses pipeline_start)) as H2.
  { apply no_running_check. by_compute. }
  assert (2 * length (open_nodes pipeline (statuses pipeline_start)) + 2 ≤ 6)%nat as H3.
  { vm_compute. lia. }
  pose proof (graph_run_ends demo_env pipeline 6 None pipeline_start demo_world H1 H2 H3)
    as H.
  destruct (graph_loop demo_env pipeline 6 None pipeline_start demo_world).1
    as [final|e|] eqn:E.
  - exists final. split; [reflexivity|]. apply H. by_compute.
  - exfalso. vm_compute in E. discriminate.
  - exfalso. vm_compute in E. discriminate.
Defined.

Lemma new_run_success_witness :
  ∃ e, node_entry (WorkflowRuntime_run demo_env pipeline 25 true None demo_world).2 "B"
       = Some e ∧
       (nm_status e = SUCCESS ∨ nm_status e = CACHED) ∧ is_Some (nm_output e).
Proof.
  apply (new_run_success demo_env pipeline 25 true None demo_world _ pipeline_NoDup).
  - reflexivity.
  - intros ?; reflexivity.
  - rewrite (surjective_pairing (WorkflowRuntime_run _ _ _ _ _ _)) at 1.
    f_equal; vm_compute; reflexivity.
  - by_compute.
Defined.


Lemma exec_completes_witness :
  (runExec demo_env unset_echo demo_world).1 = Ok said.
Proof.
  assert (cache_misses demo_env unset_echo demo_world) as Hmiss by (by right).
  assert (∀ d, exec_timer unset_echo = Some d → (1 ≤ d)%N) as Htimer by done.
  exact (exec_completes demo_env unset_echo demo_world 1 "hi " "" Hmiss eq_refl Htimer).
Defined.

Lemma plan_order_witness : planned_before [["A"]; ["B"]] 1 "A".
Proof.
  assert (Plan.plan_levels pipeline 3 = Some [["A"]; ["B"]]) as Hplan.
  { vm_compute. reflexivity. }
  destruct (plan_order pipeline 3 [["A"]; ["B"]] pipeline_NoDup Hplan) as [H _].
  apply (H 1%nat ["B"] (exec_node "B" ["A"] "echo" ["b"])).
  - reflexivity.
  - apply list_elem_of_further, list_elem_of_here.
  - by_compute.
  - by_compute.
Defined.

Lemma midway_statuses k :
  (statuses pipeline_midway !! k = Some SUCCESS ∨
   statuses pipeline_midway !! k = Some CACHED) ↔ k = "A".
Proof.
  unfold pipeline_midway. cbn [statuses].
  destruct (decide (k = "A")) as [->|HA].
  - rewrite lookup_insert_eq. split; [done|by left].
  - rewrite lookup_insert_ne by done.
    destruct (decide (k = "B")) as [->|HB].
    + rewrite lookup_singleton_eq. split; [by intros [?|?]|done].
    + rewrite lookup_singleton_ne by done. split; [by intros [?|?]|done].
Qed.

Lemma plan_level_frontier_witness :
  Plan.current_level pipeline {["A"]} = router_ready pipeline (statuses pipeline_midway).
Proof.
  apply (plan_level_frontier pipeline {["A"]} (statuses pipeline_midway) pipeline_NoDup).
  - intros k. rewrite elem_of_singleton. symmetry. apply midway_statuses.
  - intros node Hnode Hout.
    apply elem_of_cons in Hnode as [-> | Hnode].
    { exfalso. apply Hout. by apply elem_of_singleton. }
    apply elem_of_cons in Hnode as [-> | Hnode]; [by right|].
    by apply elem_of_nil in Hnode.
Defined.

Lemma builtin_agents_witness :
  run_body builtin_env "Unsupported map body kind: " (BTask stray_task) demo_world
  = (Throw "Agent nobody not found", demo_world).
Proof.
  destruct (builtin_agents builtin_env eq_refl) as (_ & H & _).
  apply (H "Unsupported map body kind: " stray_task demo_world). by_compute.
Defined.

Lemma deps_have_outputs_witness :
  is_Some (outputs (after_router pipeline pipeline_midway) !! "A").
Proof.
  destruct (deps_have_outputs demo_env pipeline pipeline_NoDup) as (_ & H & _).
  assert (outputs_ready pipeline_midway) as Hready.
  { intros k Hk. apply midway_statuses in Hk as ->. by eexists. }
  assert (route pipeline (after_router pipeline pipeline_midway) = RouteNode "B") as Hroute.
  { vm_compute. reflexivity. }
  destruct (H pipeline_midway "B" Hready Hroute) as (_ & node & Hnode & _ & Hdeps).
  assert (node = exec_node "B" ["A"] "echo" ["b"]) as ->.
  { assert (handler_of pipeline "B" = Some (exec_node "B" ["A"] "echo" ["b"])) as Hb.
    { vm_compute. reflexivity. }
    congruence. }
  apply Hdeps. by_compute.
Defined.

Lemma node_start_times_witness :
  ∃ e, node_entry (WorkflowRuntime_run demo_env pipeline 25 true None demo_world).2 "B"
       = Some e ∧
       nm_startTime e = Some (w_clock demo_world) ∧
       ∀ d, nm_duration e = Some d →
            ∃ t, nm_endTime e = Some t ∧ d = Z.of_N t - Z.of_N (w_clock demo_world).
Proof.
  assert (buildGraphFromWorkflow demo_env pipeline = Ok ["A"; "B"; "router"]) as Hbuild
    by (vm_compute; reflexivity).
  assert ("B" ∈ node_ids pipeline) as Hin by by_compute.
  pose proof (node_start_times demo_env pipeline 25 true None demo_world "B"
                eq_refl eq_refl Hin) as H.
  cbv zeta in H. rewrite Hbuild in H. exact H.
Defined.

Lemma legacy_run_ends_witness :
  ended Run_success (Legacy.run demo_env pipeline 3 demo_world).2.
Proof.
  assert (length (nodes pipeline) < 3)%nat as Hfuel by (vm_compute; lia).
  pose proof (legacy_run_ends demo_env pipeline 3 demo_world Hfuel) as H.
  assert ((Legacy.run demo_env pipeline 3 demo_world).1 = Ok tt) as Hok.
  { vm_compute. reflexivity. }
  rewrite Hok in H. exact H.
Defined.

Lemma eleven_NoDup : NoDup (node_ids eleven).
Proof. by_compute. Defined.

Lemma recursion_limit_bound_witness : (2 * length (nodes eleven) + 2 ≤ 25)%nat.
Proof.
  assert (WorkflowRuntime_run demo_env eleven 25 true None demo_world
          = (Ok tt, (WorkflowRuntime_run demo_env eleven 25 true None demo_world).2))
    as Hrun.
  { rewrite (surjective_pairing (WorkflowRuntime_run _ _ _ _ _ _)) at 1.
    f_equal; vm_compute; reflexivity. }
  assert (true = true → w_checkpoints demo_world !! getThreadId (w_store demo_world) = None)
    as Hcp by (intros ?; reflexivity).
  exact (proj1 (recursion_limit_bound demo_env eleven 25 true None demo_world _
                  eleven_NoDup eq_refl Hcp Hrun)).
Defined.
